(** * xswl-signals: a verified model of [include/xswl/signals.hpp]

    The development embeds the signal / slot / connection core of the
    header, instantiated at [signal_t<>] and run by one thread, and
    proves the properties of its specification.

    - Shared pointers are indices into heaps kept in a [world]; a
      [weak_ptr] is an optional index whose [lock] consults the heap:
      the use count for slot records, the liveness bit for owners and
      tags, the presence of the shared state.
    - Atomics are plain booleans, and the mutex is not represented:
      callbacks run outside the critical sections of the source.
    - A callback is a list of [action]s: the calls it makes on the
      library, an observable [ARecord], and [AThrow]. The emission
      loop, the callbacks it runs and the emissions those start are
      executed by a stack machine, [step].
    - Signals are created and moved, and owners created and released,
      by the main program only, between emissions.

    - The adaptation of argument lists (index sequences, the arity
      search, the adapters) is a compile-time matter and is modelled
      apart, over lists of arguments. The destructor of [signal_t],
      [scoped_connection_t] and [connection_group_t] are modelled as
      functions on the world; the stack machine does not run them. *)

From Stdlib Require Import ZArith String Bool Lia.
From Stdlib Require Import Sorting.Sorted.
From stdpp Require Import base tactics option list sorting.

Open Scope Z_scope.
Open Scope nat_scope.

(** ** Data model *)

(** [connection_t<Args...>]: two weak pointers, [impl_] and [slot_]. *)
Record connection_t := mk_connection {
  conn_impl_ : option nat;
  conn_slot_ : option nat
}.

(** [connection_t()]: both weak pointers empty. *)
Definition connection_default : connection_t :=
  {| conn_impl_ := None; conn_slot_ := None |}.

(** What a callback, or the main program, may do. [sig] names a
    [signal_t] object, [h] the handle returned by the [h]-th connect
    call, [obj] an owner object. *)
#[warnings="-register-all"]
Inductive action :=
| AThrow
| ARecord (n : Z)
| AConnect (sig : nat) (prio : Z) (body : list action)
| AConnectOnce (sig : nat) (prio : Z) (body : list action)
| AConnectShared (sig : nat) (obj : nat) (prio : Z) (body : list action)
| AConnectRaw (sig : nat) (null : bool) (prio : Z) (body : list action)
| AConnectTag (sig : nat) (tag : string) (prio : Z) (body : list action)
| ADisconnectTag (sig : nat) (tag : string)
| AEmit (sig : nat)
| ADisconnectAll (sig : nat)
| AConnDisconnect (h : nat)
| AConnBlock (h : nat) (b : bool)
| AConnReset (h : nat).

(** [std::function<void()>] as stored in a slot. [fn_owner] is the
    [weak_obj] captured by the wrapper lambda of
    [connect_member_with_arity]; plain callables and raw-pointer
    members capture none. *)
Record function_type := mk_function {
  fn_owner : option nat;
  fn_body : list action
}.

(** [detail::slot<Args...>], together with the use count of the
    [shared_ptr] control block that owns it. *)
Record slot := mk_slot {
  func : function_type;
  priority : Z;
  blocked : bool;
  pending_removal : bool;
  executed : bool;
  single_shot : bool;
  tracked : option nat;
  use_count : nat
}.

(** [detail::signal_impl<Args...>]. A [shared_ptr<connection_tag>] is
    the address of the tag object paired with its immutable name. *)
Record signal_impl := mk_impl {
  slots_ : list nat;
  tags_ : list (nat * string);
  dirty_ : bool
}.

(** [signal_t<Args...>]: its only member is [impl_]. *)
Record signal_t := mk_signal { impl_ : option nat }.

(** An object a [weak_ptr<void>] may track: an owner held by the user
    or a [connection_tag] held by a tag registry. *)
Record object := mk_object {
  obj_is_tag : bool;
  obj_alive : bool
}.

(** The observable trace: what callbacks recorded, and which slot was
    invoked by which emission. *)
Inductive event :=
| Recorded (n : Z)
| Invoked (em : nat) (s : nat).

Record world := mk_world {
  slots : list slot;
  impls : list (option signal_impl);
  sigs : list signal_t;
  conns : list connection_t;
  objs : list object;
  log : list event;
  next_emission : nat
}.

Definition world0 : world :=
  {| slots := []; impls := []; sigs := []; conns := []; objs := [];
     log := []; next_emission := 0 |}.

Definition set_slots (f : list slot → list slot) (w : world) : world :=
  {| slots := f (slots w); impls := impls w; sigs := sigs w;
     conns := conns w; objs := objs w; log := log w;
     next_emission := next_emission w |}.

Definition set_impls (f : list (option signal_impl) → list (option signal_impl))
    (w : world) : world :=
  {| slots := slots w; impls := f (impls w); sigs := sigs w;
     conns := conns w; objs := objs w; log := log w;
     next_emission := next_emission w |}.

Definition set_sigs (f : list signal_t → list signal_t) (w : world) : world :=
  {| slots := slots w; impls := impls w; sigs := f (sigs w);
     conns := conns w; objs := objs w; log := log w;
     next_emission := next_emission w |}.

Definition set_conns (f : list connection_t → list connection_t)
    (w : world) : world :=
  {| slots := slots w; impls := impls w; sigs := sigs w;
     conns := f (conns w); objs := objs w; log := log w;
     next_emission := next_emission w |}.

Definition set_objs (f : list object → list object) (w : world) : world :=
  {| slots := slots w; impls := impls w; sigs := sigs w;
     conns := conns w; objs := f (objs w); log := log w;
     next_emission := next_emission w |}.

Definition add_event (e : event) (w : world) : world :=
  {| slots := slots w; impls := impls w; sigs := sigs w;
     conns := conns w; objs := objs w; log := log w ++ [e];
     next_emission := next_emission w |}.

Definition bump_emission (w : world) : world :=
  {| slots := slots w; impls := impls w; sigs := sigs w;
     conns := conns w; objs := objs w; log := log w;
     next_emission := S (next_emission w) |}.

(** ** Slot record (signals.hpp 401-457) *)

Definition set_blocked (b : bool) (s : slot) : slot :=
  {| func := func s; priority := priority s; blocked := b;
     pending_removal := pending_removal s; executed := executed s;
     single_shot := single_shot s; tracked := tracked s;
     use_count := use_count s |}.

Definition set_pending_removal (b : bool) (s : slot) : slot :=
  {| func := func s; priority := priority s; blocked := blocked s;
     pending_removal := b; executed := executed s;
     single_shot := single_shot s; tracked := tracked s;
     use_count := use_count s |}.

Definition set_executed (b : bool) (s : slot) : slot :=
  {| func := func s; priority := priority s; blocked := blocked s;
     pending_removal := pending_removal s; executed := b;
     single_shot := single_shot s; tracked := tracked s;
     use_count := use_count s |}.

Definition set_use_count (f : nat → nat) (s : slot) : slot :=
  {| func := func s; priority := priority s; blocked := blocked s;
     pending_removal := pending_removal s; executed := executed s;
     single_shot := single_shot s; tracked := tracked s;
     use_count := f (use_count s) |}.

(** The constructor [slot(f, p, ss, t)]; [make_shared] gives the one
    reference that [connect_impl] pushes on the slot list. *)
Definition slot_new (f : function_type) (p : Z) (ss : bool)
    (t : option nat) : slot :=
  {| func := f; priority := p; blocked := false; pending_removal := false;
     executed := false; single_shot := ss; tracked := t; use_count := 1 |}.

(** [weak_ptr<void>::lock()] on a tracked reference. *)
Definition obj_lock (os : list object) (t : option nat) : option nat :=
  match t with
  | None => None
  | Some o =>
      match os !! o with
      | Some ob => if obj_alive ob then Some o else None
      | None => None
      end
  end.

(** [weak_ptr<void>::expired()]: also true of a default weak pointer. *)
Definition expired (os : list object) (t : option nat) : bool :=
  match obj_lock os t with Some _ => false | None => true end.

Definition has_tracked_object (s : slot) : bool :=
  match tracked s with Some _ => true | None => false end.

Definition is_callable (os : list object) (s : slot) : bool :=
  if blocked s then false
  else if pending_removal s then false
  else if has_tracked_object s && expired os (tracked s) then false
  else true.

(** [compare_exchange_strong(expected = false, true)] on [executed]:
    the result and the slot after the call. *)
Definition try_acquire_execution (s : slot) : bool * slot :=
  if negb (single_shot s) then (true, s)
  else if executed s then (false, s)
  else (true, set_executed true s).

(** ** Heap access *)

(** Dereferencing a pointer to a shared state; [None] once the state
    has been destroyed. *)
Definition get_impl (w : world) (i : nat) : option signal_impl :=
  match impls w !! i with Some (Some im) => Some im | _ => None end.

(** Writing through a pointer to a shared state. *)
Definition put_impl (i : nat) (im : signal_impl) (w : world) : world :=
  set_impls (λ l, <[i := Some im]> l) w.

(** The signal object, and the handle variable, a program names. *)
Definition sig_var (w : world) (v : nat) : signal_t :=
  match sigs w !! v with Some s => s | None => {| impl_ := None |} end.

Definition conn_var (w : world) (h : nat) : connection_t :=
  match conns w !! h with Some c => c | None => connection_default end.

(** [s->pending_removal.store(true)] through a slot pointer. *)
Definition mark_pending (s : nat) (w : world) : world :=
  set_slots (alter (set_pending_removal true) s) w.

(** [!s || s->pending_removal.load()]. *)
Definition slot_pending (sl : list slot) (s : nat) : bool :=
  match sl !! s with Some r => pending_removal r | None => true end.

(** [s->priority]. *)
Definition slot_priority (sl : list slot) (s : nat) : Z :=
  match sl !! s with Some r => priority r | None => 0%Z end.

(** Copying and destroying [slot_ptr]s. *)
Definition acquire_all (l : list nat) (sl : list slot) : list slot :=
  foldr (λ s acc, alter (set_use_count S) s acc) sl l.

Definition release_all (l : list nat) (sl : list slot) : list slot :=
  foldr (λ s acc, alter (set_use_count pred) s acc) sl l.

(** ** Shared state (signals.hpp 485-515) *)

(** Assignments to the members of a shared state. *)
Definition set_dirty (b : bool) (im : signal_impl) : signal_impl :=
  {| slots_ := slots_ im; tags_ := tags_ im; dirty_ := b |}.

Definition set_slot_list (l : list nat) (im : signal_impl) : signal_impl :=
  {| slots_ := l; tags_ := tags_ im; dirty_ := dirty_ im |}.

Definition set_tags (l : list (nat * string)) (im : signal_impl) : signal_impl :=
  {| slots_ := slots_ im; tags_ := l; dirty_ := dirty_ im |}.

(** [signal_impl::disconnect_slot] on a non-null [s]. *)
Definition disconnect_slot (i s : nat) (w : world) : world :=
  match get_impl w i with
  | None => w
  | Some im => put_impl i (set_dirty true im) (mark_pending s w)
  end.

(** [std::remove_if] + [erase]: what stays, and what is dropped. *)
Definition cleanup_keep (sl : list slot) (l : list nat) : list nat :=
  List.filter (λ s, negb (slot_pending sl s)) l.

Definition cleanup_drop (sl : list slot) (l : list nat) : list nat :=
  List.filter (λ s, slot_pending sl s) l.

(** [std::stable_sort] with the comparator [a->priority > b->priority]:
    an element is inserted in front of the first element that does not
    compare before it. *)
Fixpoint sort_insert (prio : nat → Z) (x : nat) (l : list nat) : list nat :=
  match l with
  | [] => [x]
  | y :: l' =>
      if (prio x <? prio y)%Z then y :: sort_insert prio x l'
      else x :: y :: l'
  end.

Definition stable_sort (prio : nat → Z) (l : list nat) : list nat :=
  foldr (sort_insert prio) [] l.

(** ** Signal (signals.hpp 597-1078) *)

(** [connect_impl]. The inner [None] branch is a dangling [impl_],
    which a strong reference excludes. *)
Definition connect_impl (this : signal_t) (f : function_type) (p : Z)
    (ss : bool) (t : option nat) (w : world) : connection_t * world :=
  match impl_ this with
  | None => (connection_default, w)
  | Some i =>
      match get_impl w i with
      | None => (connection_default, w)
      | Some im =>
          let s := length (slots w) in
          let w1 := set_slots (λ l, l ++ [slot_new f p ss t]) w in
          let im1 := set_dirty true (set_slot_list (slots_ im ++ [s]) im) in
          (mk_connection (Some i) (Some s), put_impl i im1 w1)
      end
  end.

(** [connect(Fn&&, priority)]. *)
Definition connect (this : signal_t) (body : list action) (p : Z)
    (w : world) : connection_t * world :=
  connect_impl this (mk_function None body) p false None w.

(** [connect_once(Fn&&, priority)]. *)
Definition connect_once (this : signal_t) (body : list action) (p : Z)
    (w : world) : connection_t * world :=
  connect_impl this (mk_function None body) p true None w.

(** [connect(const shared_ptr<Obj>&, MemFn, priority)]; [obj] is the
    shared pointer, [None] when it is empty. *)
Definition connect_shared (this : signal_t) (obj : option nat)
    (body : list action) (p : Z) (w : world) : connection_t * world :=
  match obj with
  | None => (connection_default, w)
  | Some o => connect_impl this (mk_function (Some o) body) p false (Some o) w
  end.

(** [connect(Obj*, MemFn, priority)]; [null] says the pointer is null. *)
Definition connect_raw (this : signal_t) (null : bool)
    (body : list action) (p : Z) (w : world) : connection_t * world :=
  if null then (connection_default, w)
  else connect_impl this (mk_function None body) p false None w.

(** [t && t->name == name]. *)
Definition tag_named (name : string) (t : nat * string) : bool :=
  String.eqb (snd t) name.

(** [tags_.erase(it)] for the iterator [find_if] returned. *)
Fixpoint erase_tag (name : string) (l : list (nat * string))
    : list (nat * string) :=
  match l with
  | [] => []
  | t :: l' => if tag_named name t then l' else t :: erase_tag name l'
  end.

(** [get_or_create_tag]; [make_shared<connection_tag>] allocates a
    fresh live object. *)
Definition get_or_create_tag (i : nat) (name : string) (w : world)
    : option nat * world :=
  match get_impl w i with
  | None => (None, w)
  | Some im =>
      match List.find (tag_named name) (tags_ im) with
      | Some t => (Some (fst t), w)
      | None =>
          let o := length (objs w) in
          let w1 := set_objs (λ l, l ++ [mk_object true true]) w in
          (Some o, put_impl i (set_tags (tags_ im ++ [(o, name)]) im) w1)
      end
  end.

(** [connect(const std::string&, Fn&&, priority)]. *)
Definition connect_tag (this : signal_t) (tag : string)
    (body : list action) (p : Z) (w : world) : connection_t * world :=
  match impl_ this with
  | None => (connection_default, w)
  | Some i =>
      let '(tag_ptr, w1) := get_or_create_tag i tag w in
      connect_impl this (mk_function None body) p false tag_ptr w1
  end.

(** [s && s->tracked.lock() == tag_ptr]. *)
Definition tracks (w : world) (s : nat) (tag_ptr : nat) : bool :=
  match slots w !! s with
  | Some r =>
      match obj_lock (objs w) (tracked r) with
      | Some o => Nat.eqb o tag_ptr
      | None => false
      end
  | None => false
  end.

(** The loop of [disconnect(tag)] over [slots_]. *)
Fixpoint mark_tracking (tag_ptr : nat) (l : list nat) (w : world) : world :=
  match l with
  | [] => w
  | s :: l' =>
      mark_tracking tag_ptr l'
        (if tracks w s tag_ptr then mark_pending s w else w)
  end.

(** The last strong reference to an object goes away. *)
Definition obj_kill (o : nat) (os : list object) : list object :=
  alter (λ ob, mk_object (obj_is_tag ob) false) o os.

(** [disconnect(const std::string&)]. The local [tag_ptr] keeps the
    tag alive during the loop; it dies when the function returns. *)
Definition disconnect_tag (this : signal_t) (tag : string) (w : world)
    : bool * world :=
  match impl_ this with
  | None => (false, w)
  | Some i =>
      match get_impl w i with
      | None => (false, w)
      | Some im =>
          match List.find (tag_named tag) (tags_ im) with
          | None => (false, w)
          | Some t =>
              let w1 := mark_tracking (fst t) (slots_ im) w in
              let im1 := set_dirty true (set_tags (erase_tag tag (tags_ im)) im) in
              (true, set_objs (obj_kill (fst t)) (put_impl i im1 w1))
          end
      end
  end.

(** The loop of [disconnect_all()] over [slots_]. *)
Fixpoint mark_all (l : list nat) (w : world) : world :=
  match l with
  | [] => w
  | s :: l' => mark_all l' (mark_pending s w)
  end.

(** [disconnect_all()]. *)
Definition disconnect_all (this : signal_t) (w : world) : world :=
  match impl_ this with
  | None => w
  | Some i =>
      match get_impl w i with
      | None => w
      | Some im =>
          let w1 := mark_all (slots_ im) w in
          let w2 := set_slots (release_all (slots_ im)) w1 in
          let w3 := set_objs (λ os, foldr obj_kill os (map fst (tags_ im))) w2 in
          put_impl i (mk_impl [] [] false) w3
      end
  end.

(** [slot_count()], [empty()], [valid()]. *)
Definition slot_count (this : signal_t) (w : world) : nat :=
  match impl_ this with
  | None => 0
  | Some i =>
      match get_impl w i with
      | None => 0
      | Some im => length (cleanup_keep (slots w) (slots_ im))
      end
  end.

Definition empty (this : signal_t) (w : world) : bool :=
  Nat.eqb (slot_count this w) 0.

Definition valid (this : signal_t) : bool :=
  match impl_ this with Some _ => true | None => false end.

(** ** Emission: [signal_t::operator()] (signals.hpp 748-818) *)

(** The first critical section: the empty test, the lazy cleanup and
    sort, and the copy into [local_slots]. [None] is the early
    [return]. *)
Definition emit_begin (this : signal_t) (w : world)
    : option (list nat) * world :=
  match impl_ this with
  | None => (None, w)
  | Some i =>
      match get_impl w i with
      | None => (None, w)
      | Some im =>
          match slots_ im with
          | [] => (None, w)
          | _ :: _ =>
              let sl := slots w in
              let '(im1, w1) :=
                if dirty_ im then
                  let kept := cleanup_keep sl (slots_ im) in
                  let sorted := stable_sort (slot_priority sl) kept in
                  (mk_impl sorted (tags_ im) false,
                   set_slots (release_all (cleanup_drop sl (slots_ im))) w)
                else (im, w) in
              let local_slots := slots_ im1 in
              (Some local_slots,
               set_slots (acquire_all local_slots) (put_impl i im1 w1))
          end
      end
  end.

(** One iteration of the loop up to the [try] block: the world after
    the checks, the new [need_cleanup], and the callback to invoke. *)
Definition emit_visit (sp : nat) (need_cleanup : bool) (w : world)
    : world * bool * option function_type :=
  match slots w !! sp with
  | None => (w, need_cleanup, None)
  | Some r =>
      if has_tracked_object r && expired (objs w) (tracked r) then
        (mark_pending sp w, true, None)
      else if negb (is_callable (objs w) r) then (w, need_cleanup, None)
      else
        let '(won, r1) := try_acquire_execution r in
        if negb won then (w, need_cleanup, None)
        else
          let w1 := set_slots (λ l, <[sp := r1]> l) w in
          if single_shot r then (mark_pending sp w1, true, Some (func r))
          else (w1, need_cleanup, Some (func r))
  end.

(** The second critical section and the destruction of [local_slots]. *)
Definition emit_end (this : signal_t) (local_slots : list nat)
    (need_cleanup : bool) (w : world) : world :=
  let w1 :=
    if need_cleanup then
      match impl_ this with
      | None => w
      | Some i =>
          match get_impl w i with
          | None => w
          | Some im => put_impl i (set_dirty true im) w
          end
      end
    else w in
  set_slots (release_all local_slots) w1.

(** [sp->func()]: the statements the stored callable runs. The member
    wrapper runs the member function only if [weak_obj.lock()]
    succeeds. *)
Definition call_function (f : function_type) (w : world) : list action :=
  match fn_owner f with
  | None => fn_body f
  | Some o => if expired (objs w) (Some o) then [] else fn_body f
  end.

(** ** Connection handle (signals.hpp 522-592) *)

(** [slot_.lock()] and [impl_.lock()]. *)
Definition slot_lock (w : world) (c : connection_t) : option nat :=
  match conn_slot_ c with
  | None => None
  | Some s =>
      match slots w !! s with
      | Some r => if Nat.ltb 0 (use_count r) then Some s else None
      | None => None
      end
  end.

Definition impl_lock (w : world) (c : connection_t) : option nat :=
  match conn_impl_ c with
  | None => None
  | Some i => match get_impl w i with Some _ => Some i | None => None end
  end.

Definition is_connected (c : connection_t) (w : world) : bool :=
  match slot_lock w c with
  | Some s => negb (slot_pending (slots w) s)
  | None => false
  end.

Definition conn_disconnect (c : connection_t) (w : world) : world :=
  match impl_lock w c, slot_lock w c with
  | Some i, Some s => disconnect_slot i s w
  | _, _ => w
  end.

Definition conn_block (c : connection_t) (b : bool) (w : world) : world :=
  match slot_lock w c with
  | Some s => set_slots (alter (set_blocked b) s) w
  | None => w
  end.

Definition conn_unblock (c : connection_t) (w : world) : world :=
  conn_block c false w.

Definition is_blocked (c : connection_t) (w : world) : bool :=
  match slot_lock w c with
  | Some s => match slots w !! s with Some r => blocked r | None => false end
  | None => false
  end.

Definition conn_reset (c : connection_t) : connection_t := connection_default.

(** ** Moving a signal (signals.hpp 616-629) *)

(** [signal_t(signal_t&& other)]: the new object and [other] after. *)
Definition move_construct (other : signal_t) : signal_t * signal_t :=
  (mk_signal (impl_ other), mk_signal None).

(** Releasing the strong reference a signal holds destroys the shared
    state: a signal cannot be copied, so the reference is the only one. *)
Definition impl_release (this : signal_t) (w : world) : world :=
  match impl_ this with
  | None => w
  | Some i => set_impls (λ l, <[i := None]> l) w
  end.

(** [operator=(signal_t&& other)] between the objects [dst] and [src]
    of the store. *)
Definition move_assign (dst src : nat) (w : world) : world :=
  if Nat.eqb dst src then w
  else
    let this := sig_var w dst in
    let other := sig_var w src in
    let w1 := impl_release this (disconnect_all this w) in
    set_sigs (λ l, <[src := mk_signal None]> (<[dst := mk_signal (impl_ other)]> l)) w1.

(** ** Execution: callbacks, nested emissions, exceptions *)

(** The activation of [operator()] on the signal object [fl_sig]:
    [local_slots], the part of it still to visit, [need_cleanup], and
    the serial number the emission has in the trace. *)
Record loop_frame := mk_loop {
  fl_id : nat;
  fl_sig : nat;
  fl_local : list nat;
  fl_rest : list nat;
  fl_need : bool
}.

(** The call stack: the rest of a callback body (or of a statement of
    the main program), or an emission loop. *)
Inductive frame :=
| FBody (body : list action)
| FLoop (f : loop_frame).

(** Normal execution, or an exception in flight. *)
Inductive mode := Running | Unwinding.

(** Statements of the main program. Signals are created and moved,
    and owners created and released, by the main program only. *)
Inductive command :=
| CAct (a : action)
| CNewSignal
| CMoveConstruct (src : nat)
| CMoveAssign (dst src : nat)
| CNewOwner
| CReleaseOwner (o : nat).

(** A machine state: mode, world, call stack, and what is left of the
    main program. *)
Record config := mk_config {
  cf_mode : mode;
  cf_world : world;
  cf_stack : list frame;
  cf_prog : list command
}.

(** The [shared_ptr<Obj>] a caller holds for owner [o]: empty unless
    [o] is a live owner object. *)
Definition owner_ptr (w : world) (o : nat) : option nat :=
  match objs w !! o with
  | Some ob => if obj_alive ob && negb (obj_is_tag ob) then Some o else None
  | None => None
  end.

(** A connect call, the handle it returns being stored as the next
    handle variable. *)
Definition store_conn (r : connection_t * world) : world :=
  set_conns (λ l, l ++ [fst r]) (snd r).

(** One statement of a callback: whether it threw, the world after,
    and the emission it started, if any. *)
Definition exec_action (a : action) (w : world)
    : mode * world * option loop_frame :=
  match a with
  | AThrow => (Unwinding, w, None)
  | ARecord n => (Running, add_event (Recorded n) w, None)
  | AConnect v p body =>
      (Running, store_conn (connect (sig_var w v) body p w), None)
  | AConnectOnce v p body =>
      (Running, store_conn (connect_once (sig_var w v) body p w), None)
  | AConnectShared v o p body =>
      (Running,
       store_conn (connect_shared (sig_var w v) (owner_ptr w o) body p w),
       None)
  | AConnectRaw v null p body =>
      (Running, store_conn (connect_raw (sig_var w v) null body p w), None)
  | AConnectTag v tag p body =>
      (Running, store_conn (connect_tag (sig_var w v) tag body p w), None)
  | ADisconnectTag v tag =>
      (Running, snd (disconnect_tag (sig_var w v) tag w), None)
  | AEmit v =>
      match emit_begin (sig_var w v) w with
      | (None, w1) => (Running, w1, None)
      | (Some local_slots, w1) =>
          (Running, bump_emission w1,
           Some (mk_loop (next_emission w1) v local_slots local_slots false))
      end
  | ADisconnectAll v => (Running, disconnect_all (sig_var w v) w, None)
  | AConnDisconnect h => (Running, conn_disconnect (conn_var w h) w, None)
  | AConnBlock h b => (Running, conn_block (conn_var w h) b w, None)
  | AConnReset h => (Running, set_conns (alter conn_reset h) w, None)
  end.

(** One statement of the main program. *)
Definition exec_command (c : command) (w : world) : world * list frame :=
  match c with
  | CAct a => (w, [FBody [a]])
  | CNewSignal =>
      let i := length (impls w) in
      (set_sigs (λ l, l ++ [mk_signal (Some i)])
         (set_impls (λ l, l ++ [Some (mk_impl [] [] false)]) w), [])
  | CMoveConstruct src =>
      let '(new, other) := move_construct (sig_var w src) in
      (set_sigs (λ l, <[src := other]> l ++ [new]) w, [])
  | CMoveAssign dst src => (move_assign dst src w, [])
  | CNewOwner => (set_objs (λ l, l ++ [mk_object false true]) w, [])
  | CReleaseOwner o =>
      match owner_ptr w o with
      | Some _ => (set_objs (obj_kill o) w, [])
      | None => (w, [])
      end
  end.

(** One step of the machine.
    - An exception in flight leaves the body it was thrown in; at a
      loop frame it meets the [catch(...)] of the emission, which
      discards it; with nothing left to unwind the program is over.
    - A loop frame visits the next slot of [local_slots] and, when the
      checks pass, calls its function; at the end it runs the epilogue
      of [operator()] and returns to its caller. *)
Definition step (c : config) : config :=
  let w := cf_world c in
  match cf_stack c with
  | [] =>
      match cf_mode c with
      | Unwinding => mk_config Running w [] []
      | Running =>
          match cf_prog c with
          | [] => c
          | cmd :: p =>
              let '(w1, k) := exec_command cmd w in
              mk_config Running w1 k p
          end
      end
  | FBody body :: k =>
      match cf_mode c with
      | Unwinding => mk_config Unwinding w k (cf_prog c)
      | Running =>
          match body with
          | [] => mk_config Running w k (cf_prog c)
          | a :: rest =>
              match exec_action a w with
              | (Unwinding, w1, _) => mk_config Unwinding w1 k (cf_prog c)
              | (Running, w1, None) =>
                  mk_config Running w1 (FBody rest :: k) (cf_prog c)
              | (Running, w1, Some f) =>
                  mk_config Running w1 (FLoop f :: FBody rest :: k) (cf_prog c)
              end
          end
      end
  | FLoop f :: k =>
      match cf_mode c with
      | Unwinding => mk_config Running w (FLoop f :: k) (cf_prog c)
      | Running =>
          match fl_rest f with
          | [] =>
              mk_config Running
                (emit_end (sig_var w (fl_sig f)) (fl_local f) (fl_need f) w)
                k (cf_prog c)
          | sp :: rest =>
              let '(w1, need, callee) := emit_visit sp (fl_need f) w in
              let f1 := mk_loop (fl_id f) (fl_sig f) (fl_local f) rest need in
              match callee with
              | None => mk_config Running w1 (FLoop f1 :: k) (cf_prog c)
              | Some fn =>
                  mk_config Running (add_event (Invoked (fl_id f) sp) w1)
                    (FBody (call_function fn w1) :: FLoop f1 :: k) (cf_prog c)
              end
          end
      end
  end.

Definition run (n : nat) (c : config) : config := Nat.iter n step c.

Definition init (prog : list command) : config :=
  mk_config Running world0 [] prog.

(** How often slot [s] was invoked, and the slots emission [em]
    invoked, in order. *)
Definition invocations (s : nat) (l : list event) : nat :=
  length (List.filter
    (λ e, match e with Invoked _ s' => Nat.eqb s' s | _ => false end) l).

Definition invoked_in (em : nat) (l : list event) : list nat :=
  omap (λ e, match e with
             | Invoked em' s => if Nat.eqb em' em then Some s else None
             | _ => None
             end) l.

Definition recorded (l : list event) : list Z :=
  omap (λ e, match e with Recorded n => Some n | _ => None end) l.

(** ** Index sequences (signals.hpp 34-55) *)

(** [make_index_sequence_impl<N, Is...>::type] and
    [make_index_sequence<N>::type], as the list of the indices. *)
Fixpoint make_index_sequence_impl (n : nat) (indices : list nat) : list nat :=
  match n with
  | 0 => indices
  | S n' => make_index_sequence_impl n' (n' :: indices)
  end.

Definition make_index_sequence (n : nat) : list nat :=
  make_index_sequence_impl n [].

(** The argument types [is_invocable_with_n<F, N, Args...>] tries [F]
    on: [tuple_element<Is, tuple<Args...>>] for the indices of
    [make_index_sequence<N>]. [None]: an index is out of range, which
    is ill-formed. *)
Definition is_invocable_with_n_types {T : Type} (n : nat) (args : list T)
    : option (list T) :=
  mapM (λ i, args !! i) (make_index_sequence n).

(** ** Argument adaptation (signals.hpp 109-396, 881-1044) *)

(** [find_callable_arity_impl<F, N, Max, Args...>::value]. [inv n] is
    [is_invocable_with_n<F, n, Args...>::value], for [n = 0]
    [is_invocable<F>::value]: whether [F] accepts the first [n]
    arguments of the signal. *)
Fixpoint find_callable_arity_impl (inv : nat → bool) (n max : nat) : nat :=
  match n with
  | 0 => if inv 0 then 0 else S max
  | S n' => if inv n then n else find_callable_arity_impl inv n' max
  end.

(** [callable_arity<F, Args...>]: [value] and [is_valid], for a signal
    of [max_args] arguments. *)
Definition callable_arity_value (inv : nat → bool) (max_args : nat) : nat :=
  find_callable_arity_impl inv max_args max_args.

Definition callable_arity_is_valid (inv : nat → bool) (max_args : nat) : bool :=
  Nat.leb (callable_arity_value inv max_args) max_args.

(** [arg_adapter<Fn, N>::operator()], one case per specialisation of
    the header. A callable is a function of the list of arguments it
    is given. [None]: the call has no matching overload (there is no
    specialisation above 6, and [N] leading arguments are needed). *)
Definition arg_adapter {A R : Type} (n : nat) (fn : list A → R)
    (args : list A) : option R :=
  match n, args with
  | 0, _ => Some (fn [])
  | 1, a1 :: _ => Some (fn [a1])
  | 2, a1 :: a2 :: _ => Some (fn [a1; a2])
  | 3, a1 :: a2 :: a3 :: _ => Some (fn [a1; a2; a3])
  | 4, a1 :: a2 :: a3 :: a4 :: _ => Some (fn [a1; a2; a3; a4])
  | 5, a1 :: a2 :: a3 :: a4 :: a5 :: _ => Some (fn [a1; a2; a3; a4; a5])
  | 6, a1 :: a2 :: a3 :: a4 :: a5 :: a6 :: _ =>
      Some (fn [a1; a2; a3; a4; a5; a6])
  | _, _ => None
  end.

(** [call_member_with_n_args<N>(obj, memfn, args...)]: the same seven
    overloads, for a member function bound to its object. *)
Definition call_member_with_n_args {A R : Type} (n : nat)
    (memfn : list A → R) (args : list A) : option R :=
  match n, args with
  | 0, _ => Some (memfn [])
  | 1, a1 :: _ => Some (memfn [a1])
  | 2, a1 :: a2 :: _ => Some (memfn [a1; a2])
  | 3, a1 :: a2 :: a3 :: _ => Some (memfn [a1; a2; a3])
  | 4, a1 :: a2 :: a3 :: a4 :: _ => Some (memfn [a1; a2; a3; a4])
  | 5, a1 :: a2 :: a3 :: a4 :: a5 :: _ => Some (memfn [a1; a2; a3; a4; a5])
  | 6, a1 :: a2 :: a3 :: a4 :: a5 :: a6 :: _ =>
      Some (memfn [a1; a2; a3; a4; a5; a6])
  | _, _ => None
  end.

(** What the [function_type] built by [connect_with_arity] does when
    the signal fires with [args]: the overload for
    [N = sizeof...(Args)] stores the callable itself, the other wraps
    it in [make_arg_adapter<N>]. *)
Definition connect_with_arity_call {A R : Type} (n : nat)
    (fn : list A → R) (args : list A) : option R :=
  if Nat.eqb n (length args) then Some (fn args) else arg_adapter n fn args.

(** [member_function_arity<MemFn>::value] (signals.hpp 307-396) for a
    member function of [params] parameters: the header specialises
    the trait for each count from 0 to 6, with and without [const].
    [None]: the primary template is only declared, so the value does
    not exist and a connect that asks for it does not compile. *)
Definition member_function_arity (params : nat) : option nat :=
  match params with
  | 0 => Some 0
  | 1 => Some 1
  | 2 => Some 2
  | 3 => Some 3
  | 4 => Some 4
  | 5 => Some 5
  | 6 => Some 6
  | _ => None
  end.

(** What the [function_type] built for a member function of [params]
    parameters does when the signal fires with [args]. The public
    [connect(obj, memfn)] overloads (signals.hpp 661-692) call
    [connect_member_with_arity] and [connect_raw_member_with_arity]
    with [N = member_function_arity<MemFn>::value]: the overload for
    [N = sizeof...(Args)] calls the member with all the arguments,
    the other goes through [call_member_with_n_args<N>]. *)
Definition connect_member_with_arity_call {A R : Type} (params : nat)
    (memfn : list A → R) (args : list A) : option R :=
  match member_function_arity params with
  | None => None
  | Some n =>
      if Nat.eqb n (length args) then Some (memfn args)
      else call_member_with_n_args n memfn args
  end.

(** ** Destruction of a signal (signals.hpp 611-614) *)

(** [~signal_t()]: [disconnect_all()], then the member [impl_] goes. *)
Definition signal_destroy (this : signal_t) (w : world) : world :=
  impl_release this (disconnect_all this w).

(** ** Scoped connection (signals.hpp 1083-1143) *)

(** [scoped_connection_t]: [disconnector_] is empty or holds the
    lambda that calls [disconnect()] on the captured handle. *)
Record scoped_connection_t := mk_scoped {
  disconnector_ : option connection_t
}.

(** [scoped_connection_t()] and [scoped_connection_t(connection_t c)]. *)
Definition scoped_default : scoped_connection_t := mk_scoped None.

Definition scoped_from (c : connection_t) : scoped_connection_t :=
  mk_scoped (Some c).

(** [disconnect()]: the object after the call, and the world. *)
Definition scoped_disconnect (sc : scoped_connection_t) (w : world)
    : scoped_connection_t * world :=
  match disconnector_ sc with
  | Some c => (mk_scoped None, conn_disconnect c w)
  | None => (sc, w)
  end.

(** [release()]. *)
Definition scoped_release (sc : scoped_connection_t) : scoped_connection_t :=
  mk_scoped None.

(** [~scoped_connection_t()]. *)
Definition scoped_destroy (sc : scoped_connection_t) (w : world) : world :=
  snd (scoped_disconnect sc w).

(** [scoped_connection_t(scoped_connection_t&& other)]: the new object
    and [other] after. *)
Definition scoped_move (other : scoped_connection_t)
    : scoped_connection_t * scoped_connection_t :=
  (mk_scoped (disconnector_ other), mk_scoped None).

(** [operator=(scoped_connection_t&& other)]: the object, [other]
    after, and the world. [other = None] is the self-assignment
    [this == &other]. *)
Definition scoped_move_assign (sc : scoped_connection_t)
    (other : option scoped_connection_t) (w : world)
    : scoped_connection_t * option scoped_connection_t * world :=
  match other with
  | None => (sc, None, w)
  | Some o =>
      (mk_scoped (disconnector_ o), Some (mk_scoped None),
       snd (scoped_disconnect sc w))
  end.

(** [operator=(connection_t c)]. *)
Definition scoped_assign (sc : scoped_connection_t) (c : connection_t)
    (w : world) : scoped_connection_t * world :=
  (mk_scoped (Some c), snd (scoped_disconnect sc w)).

(** ** Connection group (signals.hpp 1148-1183) *)

(** [connection_group_t]: the vector [connections_]. *)
Definition connection_group_t := list scoped_connection_t.

(** [add(c)] and [operator+=]: [emplace_back] builds the scoped
    connection from the handle. *)
Definition group_add (c : connection_t) (g : connection_group_t)
    : connection_group_t :=
  g ++ [scoped_from c].

(** [disconnect_all()]: [connections_.clear()] destroys the elements,
    here first to last. *)
Fixpoint group_destroy_elements (g : connection_group_t) (w : world) : world :=
  match g with
  | [] => w
  | sc :: g' => group_destroy_elements g' (scoped_destroy sc w)
  end.

Definition group_disconnect_all (g : connection_group_t) (w : world)
    : connection_group_t * world :=
  ([], group_destroy_elements g w).

Definition group_size (g : connection_group_t) : nat := length g.

Definition group_empty (g : connection_group_t) : bool :=
  match g with [] => true | _ :: _ => false end.

(** * Vocabulary of the proofs *)

(** How a slot record may change: once allocated it keeps its
    callback, priority, kind and tracked reference, and
    [pending_removal] and [executed] only go from false to true. *)
Record slot_le (r r' : slot) : Prop := mk_slot_le {
  sle_func : func r' = func r;
  sle_priority : priority r' = priority r;
  sle_single : single_shot r' = single_shot r;
  sle_tracked : tracked r' = tracked r;
  sle_pending : pending_removal r = true → pending_removal r' = true;
  sle_executed : executed r = true → executed r' = true
}.

(** The same of a whole heap; records are never deallocated. *)
Definition heap_le (sl sl' : list slot) : Prop :=
  ∀ s r, sl !! s = Some r → ∃ r', sl' !! s = Some r' ∧ slot_le r r'.

(** The order of invocation. [tie_before]: among slots of one
    priority, the one allocated (hence connected) first comes first.
    [before]: higher priority first, then as [tie_before]. *)
Definition tie_before (prio : nat → Z) (a b : nat) : Prop :=
  a ≠ b ∧ (prio a = prio b → a < b).

Definition before (prio : nat → Z) (a b : nat) : Prop :=
  (prio b < prio a)%Z ∨ (prio a = prio b ∧ a < b).

(** A well-formed shared state: its slot list holds allocated
    records, keeps slots of equal priority in registration order and,
    while the dirty flag is clear, is ordered by descending priority. *)
Record impl_ok (sl : list slot) (im : signal_impl) : Prop := mk_impl_ok {
  iok_valid : Forall (λ s, s < length sl) (slots_ im);
  iok_tie : StronglySorted (tie_before (slot_priority sl)) (slots_ im);
  iok_sorted :
    dirty_ im = false → StronglySorted (before (slot_priority sl)) (slots_ im)
}.

Definition impls_ok (w : world) : Prop :=
  ∀ i im, get_impl w i = Some im → impl_ok (slots w) im.

(** What every operation other than a move guarantees: records
    evolve monotonically, the signal objects are untouched, a shared
    state stays in place, a slot leaves a slot list only when it is
    pending removal, and well-formedness is kept. *)
Record evolves (w w' : world) : Prop := mk_evolves {
  ev_heap : heap_le (slots w) (slots w');
  ev_sigs : sigs w' = sigs w;
  ev_members : ∀ i im, get_impl w i = Some im →
    ∃ im', get_impl w' i = Some im' ∧
      ∀ s, s ∈ slots_ im → s < length (slots w) →
        s ∈ slots_ im' ∨ slot_pending (slots w') s = true;
  ev_ok : impls_ok w → impls_ok w'
}.

(** A transition that adds no event and starts no emission. *)
Definition quiet (w w' : world) : Prop :=
  log w' = log w ∧ next_emission w' = next_emission w.

(** The part of its snapshot emission [em] has yet to visit. *)
Fixpoint rest_of (k : list frame) (em : nat) : list nat :=
  match k with
  | [] => []
  | FBody _ :: k' => rest_of k' em
  | FLoop f :: k' => if Nat.eqb (fl_id f) em then fl_rest f else rest_of k' em
  end.

(** Emissions nest: serial numbers decrease down the stack. *)
Fixpoint stack_ids_lt (n : nat) (k : list frame) : Prop :=
  match k with
  | [] => True
  | FBody _ :: k' => stack_ids_lt n k'
  | FLoop f :: k' => fl_id f < n ∧ stack_ids_lt (fl_id f) k'
  end.

(** A slot still to be visited is allocated and is either pending
    removal or still on the slot list of the emitting signal. *)
Definition frame_ok (w : world) (f : loop_frame) : Prop :=
  ∀ s, s ∈ fl_rest f →
    s < length (slots w) ∧
    (slot_pending (slots w) s = true ∨
     ∃ i im, impl_ (sig_var w (fl_sig f)) = Some i ∧
       get_impl w i = Some im ∧ s ∈ slots_ im).

(** The invariant of execution: shared states are well formed, the
    loop frames are as [frame_ok] and [stack_ids_lt] say, what an
    emission has invoked followed by what it has yet to visit is
    ordered by [before], emissions not yet started have invoked
    nothing, and a single-shot slot has been invoked at most once,
    and not at all while [executed] is false. *)
Record Inv (c : config) : Prop := mk_Inv {
  inv_impls : impls_ok (cf_world c);
  inv_frames : ∀ f, FLoop f ∈ cf_stack c → frame_ok (cf_world c) f;
  inv_ids : stack_ids_lt (next_emission (cf_world c)) (cf_stack c);
  inv_valid : ∀ em,
    Forall (λ s, s < length (slots (cf_world c)))
      (invoked_in em (log (cf_world c)) ++ rest_of (cf_stack c) em);
  inv_order : ∀ em,
    StronglySorted (before (slot_priority (slots (cf_world c))))
      (invoked_in em (log (cf_world c)) ++ rest_of (cf_stack c) em);
  inv_fresh : ∀ em, next_emission (cf_world c) ≤ em →
    invoked_in em (log (cf_world c)) = [];
  inv_once : ∀ s r, slots (cf_world c) !! s = Some r → single_shot r = true →
    invocations s (log (cf_world c)) ≤ (if executed r then 1 else 0)
}.

(** The next step is the loop calling slot [sp], which passed
    [is_callable] and, if single-shot, had not been executed. *)
Definition calls (c : config) (sp : nat) : Prop :=
  ∃ f k rest r,
    cf_mode c = Running ∧ cf_stack c = FLoop f :: k ∧
    fl_rest f = sp :: rest ∧ slots (cf_world c) !! sp = Some r ∧
    is_callable (objs (cf_world c)) r = true ∧
    (single_shot r = true → executed r = false) ∧
    log (cf_world (step c)) = log (cf_world c) ++ [Invoked (fl_id f) sp].

(** The frames of an emission in progress: its loop frame at the
    bottom, then alternately the callback it is running and the
    emission that callback started. *)
Inductive nest : list frame → Prop :=
| nest_loop f : nest [FLoop f]
| nest_body b f k : nest (FLoop f :: k) → nest (FBody b :: FLoop f :: k)
| nest_emit f b k : nest (FBody b :: k) → nest (FLoop f :: FBody b :: k).

(** An exception in flight is at the loop frame that called the
    callback which threw. *)
Definition at_catch (m : mode) (inner : list frame) : Prop :=
  m = Unwinding → ∃ f k, inner = FLoop f :: k.

(** An emission entered from the frames [base] is still running, or
    has returned to them normally. *)
Definition in_progress (base : list frame) (c : config) : Prop :=
  ∃ inner, cf_stack c = inner ++ base ∧ nest inner ∧ at_catch (cf_mode c) inner.

Definition returned (base : list frame) (c : config) : Prop :=
  cf_mode c = Running ∧ cf_stack c = base.

(** A transition that clears no dirty flag. *)
Definition keeps_dirty (w w' : world) : Prop :=
  ∀ i im im', get_impl w i = Some im → get_impl w' i = Some im' →
    dirty_ im = true → dirty_ im' = true.

(** A transition under which a slot list only gains freshly
    allocated slots, and no fresh slot is on two lists. *)
Definition confined (w w' : world) : Prop :=
  impls_ok w →
  ∀ i im' s, get_impl w' i = Some im' → s ∈ slots_ im' →
    (∃ im, get_impl w i = Some im ∧ s ∈ slots_ im) ∨
    (length (slots w) ≤ s ∧
     ∀ j jm', get_impl w' j = Some jm' → s ∈ slots_ jm' → j = i).

(** Ownership: a shared state is owned by at most one signal object,
    what a signal object owns exists, and a slot is on at most one
    slot list. *)
Record Sep (w : world) : Prop := mk_Sep {
  sep_unique : ∀ v1 v2 i,
    impl_ (sig_var w v1) = Some i → impl_ (sig_var w v2) = Some i → v1 = v2;
  sep_live : ∀ v i, impl_ (sig_var w v) = Some i → is_Some (get_impl w i);
  sep_disjoint : ∀ i j im jm s,
    get_impl w i = Some im → get_impl w j = Some jm →
    s ∈ slots_ im → s ∈ slots_ jm → i = j
}.

(** Objects are never revived: an owner or a tag that has died stays
    dead, and no object changes kind. *)
Definition objs_le (os os' : list object) : Prop :=
  ∀ o ob, os !! o = Some ob →
    ∃ ob', os' !! o = Some ob' ∧ obj_is_tag ob' = obj_is_tag ob ∧
      (obj_alive ob = false → obj_alive ob' = false).

(** A transition that leaves the handle variables alone and revives
    no object. *)
Record steady (w w' : world) : Prop := mk_steady {
  st_conns : conns w' = conns w;
  st_objs : objs_le (objs w) (objs w')
}.

(** A handle as [connect_impl] makes them: its slot record is
    allocated, it names a shared state, and the slot is on the slot
    list of that state unless it is pending removal. *)
Definition handle_ok (w : world) (c : connection_t) : Prop :=
  ∀ s, conn_slot_ c = Some s →
    s < length (slots w) ∧
    ∃ i, conn_impl_ c = Some i ∧
      (slot_pending (slots w) s = true ∨
       ∃ im, get_impl w i = Some im ∧ s ∈ slots_ im).

Definition handles_ok (w : world) : Prop :=
  ∀ h c, conns w !! h = Some c → handle_ok w c.

(** A transition after which a listed slot that is pending removal
    has its list flagged dirty, unless it was listed and pending
    before, with the flag clear. *)
Definition tidy_step (w w' : world) : Prop :=
  ∀ i im' s, get_impl w' i = Some im' → s ∈ slots_ im' →
    slot_pending (slots w') s = true →
    dirty_ im' = true ∨
    ∃ im, get_impl w i = Some im ∧ s ∈ slots_ im ∧
      slot_pending (slots w) s = true ∧ dirty_ im = false.

(** No removal is forgotten: a listed slot that is pending removal
    has its list flagged dirty, or an emission of its signal is in
    progress that will set the flag when it ends. *)
Definition tidy (c : config) : Prop :=
  ∀ i im s, get_impl (cf_world c) i = Some im → s ∈ slots_ im →
    slot_pending (slots (cf_world c)) s = true →
    dirty_ im = true ∨
    ∃ f, FLoop f ∈ cf_stack c ∧ fl_need f = true ∧
      impl_ (sig_var (cf_world c) (fl_sig f)) = Some i.

(** The tag registries: within a shared state the names are unique,
    every registered tag is a live tag object, and no tag object is
    registered twice. *)
Record tags_ok (w : world) : Prop := mk_tags_ok {
  tg_names : ∀ i im, get_impl w i = Some im → NoDup (map snd (tags_ im));
  tg_live : ∀ i im t, get_impl w i = Some im → t ∈ tags_ im →
    objs w !! fst t = Some (mk_object true true);
  tg_unique : ∀ i j im jm t t',
    get_impl w i = Some im → get_impl w j = Some jm →
    t ∈ tags_ im → t' ∈ tags_ jm → fst t = fst t' → i = j ∧ t = t'
}.

(** A transition that leaves the objects and the tag registries
    alone and creates no shared state. *)
Definition tags_kept (w w' : world) : Prop :=
  objs w' = objs w ∧
  ∀ i im', get_impl w' i = Some im' →
    ∃ im, get_impl w i = Some im ∧ tags_ im' = tags_ im.

(** A statement that fires no signal and connects no callback that
    does; a callback made of such statements; a heap whose callbacks
    all are; a main program in which only the main program itself
    fires signals. *)
Fixpoint emit_free (a : action) : bool :=
  match a with
  | AEmit _ => false
  | AConnect _ _ b | AConnectOnce _ _ b | AConnectShared _ _ _ b
  | AConnectRaw _ _ _ b | AConnectTag _ _ _ b => forallb emit_free b
  | _ => true
  end.

Definition body_free (b : list action) : bool := forallb emit_free b.

Definition heap_free (sl : list slot) : Prop :=
  Forall (λ f, body_free (fn_body f) = true) (map func sl).

Definition callbacks_free (prog : list command) : Prop :=
  Forall (λ cmd, match cmd with
                 | CAct (AEmit _) => True
                 | CAct a => emit_free a = true
                 | _ => True
                 end) prog.

(** Reference counting. [occ]: how often a slot pointer occurs in a
    vector. [uc]: the use count of a slot record, 0 for a record that
    is not allocated. [refs_lists], [refs_frames]: the strong
    references the slot lists hold, and those the snapshots of the
    emissions in progress hold. *)
Definition occ (s : nat) (l : list nat) : nat :=
  length (List.filter (Nat.eqb s) l).

Definition uc (sl : list slot) (s : nat) : nat :=
  match sl !! s with Some r => use_count r | None => 0 end.

Definition refs_lists (w : world) (s : nat) : nat :=
  sum_list (map (λ oi, match oi with
                       | Some im => occ s (slots_ im)
                       | None => 0
                       end) (impls w)).

Fixpoint refs_frames (k : list frame) (s : nat) : nat :=
  match k with
  | [] => 0
  | FBody _ :: k' => refs_frames k' s
  | FLoop f :: k' => occ s (fl_local f) + refs_frames k' s
  end.

(** The use count of every record is the number of strong references
    to it. *)
Definition counted (c : config) : Prop :=
  ∀ s, uc (slots (cf_world c)) s
       = refs_lists (cf_world c) s + refs_frames (cf_stack c) s.

(** A transition that keeps the use counts in step with the slot
    lists, and takes [held] references more for a snapshot. *)
Definition rc_step (held : nat → nat) (w w' : world) : Prop :=
  ∀ s, uc (slots w') s + refs_lists w s
       = uc (slots w) s + refs_lists w' s + held s.

(** A callback that only records and throws; a heap of such
    callbacks. *)
Definition passive (a : action) : bool :=
  match a with ARecord _ | AThrow => true | _ => false end.

Definition heap_passive (sl : list slot) : Prop :=
  Forall (λ f, forallb passive (fn_body f) = true) (map func sl).

(** What a passive callback records: its records up to its first
    throw. *)
Fixpoint records_until_throw (b : list action) : list Z :=
  match b with
  | ARecord n :: b' => n :: records_until_throw b'
  | _ => []
  end.

(** A slot the loop would call if it visited it now, and what its
    callback would then record. *)
Definition ready (w : world) (s : nat) : bool :=
  match slots w !! s with
  | Some r => is_callable (objs w) r && negb (single_shot r && executed r)
  | None => false
  end.

Definition effect (w : world) (s : nat) : list Z :=
  match slots w !! s with
  | Some r => records_until_throw (call_function (func r) w)
  | None => []
  end.

(** Whether object [o] exists and is alive. *)
Definition obj_live (os : list object) (o : nat) : bool :=
  match os !! o with Some ob => obj_alive ob | None => false end.

(** What slot records track: the tracked object is allocated; the
    owner a member wrapper locks is the object its slot tracks; and a
    slot that tracks a registered tag is on the slot list of the
    shared state that registers the tag, unless it is pending
    removal. *)
Record tracking_ok (w : world) : Prop := mk_tracking_ok {
  tk_alloc : ∀ s r o, slots w !! s = Some r → tracked r = Some o →
    o < length (objs w);
  tk_owner : ∀ s r o, slots w !! s = Some r → fn_owner (func r) = Some o →
    tracked r = Some o;
  tk_home : ∀ s r j jm t, slots w !! s = Some r →
    get_impl w j = Some jm → t ∈ tags_ jm → tracked r = Some (fst t) →
    pending_removal r = false → s ∈ slots_ jm
}.

(** A transition that allocates no slot record, registers no tag and
    frees no object. *)
Record settled (w w' : world) : Prop := mk_settled {
  se_slots : length (slots w') = length (slots w);
  se_objs : length (objs w') = length (objs w);
  se_tags : ∀ j jm' t, get_impl w' j = Some jm' → t ∈ tags_ jm' →
    ∃ jm, get_impl w j = Some jm ∧ t ∈ tags_ jm
}.

(** * Example programs *)

(** Three slots, the second with the highest priority. *)
Definition order_demo : list command :=
  [CNewSignal;
   CAct (AConnect 0 0 [ARecord 1]);
   CAct (AConnect 0 100 [ARecord 2]);
   CAct (AConnect 0 0 [ARecord 3]);
   CAct (AEmit 0)].

(** A single-shot slot that fires the signal from its own callback. *)
Definition once_demo : list command :=
  [CNewSignal;
   CAct (AConnectOnce 0 0 [ARecord 1; AEmit 0]);
   CAct (AEmit 0);
   CAct (AEmit 0)].

(** The example of the specification: priorities 100, 50 and 0, the
    middle slot throws before it can record anything; the other two
    both run and the program goes on after the emission. *)
Definition throw_demo : list command :=
  [CNewSignal;
   CAct (AConnect 0 100 [ARecord 1]);
   CAct (AConnect 0 50 [AThrow; ARecord 50]);
   CAct (AConnect 0 0 [ARecord 1]);
   CAct (AEmit 0);
   CAct (ARecord 7)].

(** One slot, connected and fired once. *)
Definition disconnect_demo : list command :=
  [CNewSignal; CAct (AConnect 0 0 [ARecord 1]); CAct (AEmit 0)].

(** The first slot to run clears the signal. *)
Definition disconnect_all_demo : list command :=
  [CNewSignal;
   CAct (AConnect 0 10 [ARecord 1; ADisconnectAll 0]);
   CAct (AConnect 0 0 [ARecord 2]);
   CAct (AEmit 0)].

(** Blocked during the first emission, unblocked before the second:
    the slot runs in the second emission and in no other. *)
Definition once_blocked_demo : list command :=
  [CNewSignal;
   CAct (AConnectOnce 0 0 [ARecord 1]);
   CAct (AConnBlock 0 true);
   CAct (AEmit 0);
   CAct (AConnBlock 0 false);
   CAct (AEmit 0);
   CAct (AEmit 0)].

(** Connect, fire, connect at a higher priority, fire. *)
Definition dirty_demo : list command :=
  [CNewSignal; CAct (AConnect 0 0 []); CAct (AEmit 0);
   CAct (AConnect 0 5 []); CAct (AEmit 0)].

(** [disconnect_all()] is the other way a dirty flag gets cleared:
    here the flag is set by a connect and cleared by
    [disconnect_all()], which also flags the slot for removal, and
    no emission has started yet. *)
Definition dirty_cleared_demo : list command :=
  [CNewSignal; CAct (AConnect 0 0 []); CAct (ADisconnectAll 0)].

(** Two signals with one slot each. *)
Definition move_demo : list command :=
  [CNewSignal; CNewSignal;
   CAct (AConnect 0 0 [ARecord 1]);
   CAct (AConnect 1 0 [ARecord 2])].

(** Two slots under the tag [a], one under [b], one untagged. *)
Definition tag_demo : list command :=
  [CNewSignal;
   CAct (AConnectTag 0 "a" 0 [ARecord 1]);
   CAct (AConnectTag 0 "a" 0 [ARecord 2]);
   CAct (AConnectTag 0 "b" 0 [ARecord 3]);
   CAct (AConnect 0 0 [ARecord 4]);
   CAct (AEmit 0)].

(** A slot disconnected through its handle before the signal fires. *)
Definition unplug_demo : list command :=
  [CNewSignal; CAct (AConnect 0 0 [ARecord 1]); CAct (AConnDisconnect 0);
   CAct (AEmit 0)].

(** A member function of an owner that is released between two
    emissions. *)
Definition owner_demo : list command :=
  [CNewSignal; CNewOwner;
   CAct (AConnectShared 0 0 0 [ARecord 1]);
   CAct (AEmit 0);
   CReleaseOwner 0;
   CAct (AEmit 0)].

(** The first slot to run connects another slot to the signal that is
    being emitted. *)
Definition connect_during_demo : list command :=
  [CNewSignal;
   CAct (AConnect 0 0 [ARecord 1; AConnect 0 5 [ARecord 2]]);
   CAct (AEmit 0);
   CAct (AEmit 0)].

(** A signal with one slot, and an owner that has been released. *)
Definition invalid_owner_prog : list command :=
  [CNewSignal; CNewOwner; CAct (AConnect 0 0 [ARecord 9]); CReleaseOwner 0;
   CNewOwner].

(** Two signals: the first has a tagged slot and a slot that throws
    half-way, the second a tagged slot of its own; then a move of
    the first. *)
Definition move_emit_demo (mv : command) : list command :=
  [CNewSignal; CNewSignal;
   CAct (AConnectTag 0 "a" 5 [ARecord 1]);
   CAct (AConnect 0 9 [ARecord 2; AThrow; ARecord 3]);
   CAct (AConnectTag 1 "b" 0 [ARecord 4]);
   mv].

(** * Properties *)

(** Most operations of a signal start by reading [impl_] and the shared
    state it points to, and do nothing when either is missing. *)
Ltac open_impl this w i im Hi tac :=
  destruct (impl_ this) as [i|]; [|tac];
  destruct (get_impl w i) as [im|] eqn:Hi; [|tac].

(** ** How slot records evolve *)

Lemma slot_le_refl r : slot_le r r.
Proof. by constructor. Qed.

Lemma slot_le_trans r1 r2 r3 : slot_le r1 r2 → slot_le r2 r3 → slot_le r1 r3.
Proof.
  intros [] []; constructor; try congruence; auto.
Qed.

Lemma heap_le_refl sl : heap_le sl sl.
Proof. intros s r H. exists r. split; [done | apply slot_le_refl]. Qed.

Lemma heap_le_trans sl1 sl2 sl3 :
  heap_le sl1 sl2 → heap_le sl2 sl3 → heap_le sl1 sl3.
Proof.
  intros H12 H23 s r H.
  destruct (H12 s r H) as (r2 & H2 & Hle2).
  destruct (H23 s r2 H2) as (r3 & H3 & Hle3).
  exists r3. split; [done | by eapply slot_le_trans].
Qed.

Lemma heap_le_length sl sl' : heap_le sl sl' → length sl ≤ length sl'.
Proof.
  intros H. destruct (decide (length sl ≤ length sl')) as [|Hn]; [done|].
  assert (Hlt : length sl' < length sl) by lia.
  destruct (lookup_lt_is_Some_2 sl (length sl') Hlt) as [r Hr].
  destruct (H _ _ Hr) as (r' & Hr' & _).
  apply lookup_lt_Some in Hr'. lia.
Qed.

Lemma heap_le_alter (g : slot → slot) s sl :
  (∀ r, slot_le r (g r)) → heap_le sl (alter g s sl).
Proof.
  intros Hg s' r H. destruct (decide (s = s')) as [->|Hne].
  - exists (g r). rewrite list_lookup_alter_eq, H. by split.
  - exists r. rewrite list_lookup_alter_ne by done. split; [done | apply slot_le_refl].
Qed.

Lemma heap_le_insert s r r1 sl :
  sl !! s = Some r → slot_le r r1 → heap_le sl (<[s := r1]> sl).
Proof.
  intros Hs Hle s' r' H. destruct (decide (s = s')) as [->|Hne].
  - exists r1. rewrite list_lookup_insert_eq by (by eapply lookup_lt_Some).
    split; [done | congruence].
  - exists r'. rewrite list_lookup_insert_ne by done.
    split; [done | apply slot_le_refl].
Qed.

Lemma heap_le_app sl l : heap_le sl (sl ++ l).
Proof.
  intros s r H. exists r. split; [| apply slot_le_refl].
  by apply lookup_app_l_Some.
Qed.

Lemma slot_le_set_pending r : slot_le r (set_pending_removal true r).
Proof. by constructor. Qed.

Lemma slot_le_set_blocked b r : slot_le r (set_blocked b r).
Proof. by constructor. Qed.

Lemma slot_le_set_use_count f r : slot_le r (set_use_count f r).
Proof. by constructor. Qed.

Lemma slot_le_set_executed r : slot_le r (set_executed true r).
Proof. by constructor. Qed.

Lemma heap_le_acquire_all l sl : heap_le sl (acquire_all l sl).
Proof.
  induction l as [|s l IH]; simpl; [apply heap_le_refl|].
  eapply heap_le_trans; [exact IH|].
  apply heap_le_alter, slot_le_set_use_count.
Qed.

Lemma heap_le_release_all l sl : heap_le sl (release_all l sl).
Proof.
  induction l as [|s l IH]; simpl; [apply heap_le_refl|].
  eapply heap_le_trans; [exact IH|].
  apply heap_le_alter, slot_le_set_use_count.
Qed.

Lemma heap_le_pending sl sl' s :
  heap_le sl sl' → s < length sl → slot_pending sl s = true →
  slot_pending sl' s = true.
Proof.
  intros H Hlt. unfold slot_pending.
  destruct (lookup_lt_is_Some_2 sl s Hlt) as [r Hr]. rewrite Hr.
  destruct (H _ _ Hr) as (r' & -> & Hle). apply Hle.
Qed.

Lemma heap_le_priority sl sl' s :
  heap_le sl sl' → s < length sl → slot_priority sl' s = slot_priority sl s.
Proof.
  intros H Hlt. unfold slot_priority.
  destruct (lookup_lt_is_Some_2 sl s Hlt) as [r Hr]. rewrite Hr.
  destruct (H _ _ Hr) as (r' & -> & Hle). apply Hle.
Qed.

(** ** The sort

    [stable_sort] is a permutation, orders by descending priority and
    keeps elements of equal priority in their relative order. *)

Section sort.
Variable prio : nat → Z.

Lemma sort_insert_perm x l : sort_insert prio x l ≡ₚ x :: l.
Proof.
  induction l as [|y l IH]; simpl; [done|].
  destruct (prio x <? prio y)%Z; [|done].
  rewrite IH. apply Permutation_swap.
Qed.

Lemma stable_sort_perm l : stable_sort prio l ≡ₚ l.
Proof.
  induction l as [|x l IH]; simpl; [done|].
  rewrite sort_insert_perm. by rewrite IH.
Qed.

Lemma stable_sort_elem_of s l : s ∈ stable_sort prio l ↔ s ∈ l.
Proof. by rewrite stable_sort_perm. Qed.

Lemma sort_insert_desc x l :
  StronglySorted (λ a b, (prio b ≤ prio a)%Z) l →
  StronglySorted (λ a b, (prio b ≤ prio a)%Z) (sort_insert prio x l).
Proof.
  induction 1 as [|y l Hs IH Hy]; simpl.
  - repeat constructor.
  - destruct (prio x <? prio y)%Z eqn:E.
    + apply Z.ltb_lt in E. constructor; [done|].
      rewrite sort_insert_perm. constructor; [lia | done].
    + apply Z.ltb_ge in E. constructor; [by constructor|].
      constructor; [done|].
      eapply Forall_impl; [exact Hy|]. simpl. intros; lia.
Qed.

Lemma stable_sort_desc l :
  StronglySorted (λ a b, (prio b ≤ prio a)%Z) (stable_sort prio l).
Proof.
  induction l as [|x l IH]; simpl; [constructor | by apply sort_insert_desc].
Qed.

Lemma sort_insert_stable p x l :
  List.filter (λ y, (prio y =? p)%Z) (sort_insert prio x l)
  = List.filter (λ y, (prio y =? p)%Z) (x :: l).
Proof.
  induction l as [|y l IH]; [done|].
  simpl in *. destruct (prio x <? prio y)%Z eqn:E; [|done].
  apply Z.ltb_lt in E. simpl. rewrite IH.
  destruct (prio y =? p)%Z eqn:Ey, (prio x =? p)%Z eqn:Ex; try done.
  apply Z.eqb_eq in Ey, Ex. lia.
Qed.

Lemma stable_sort_stable p l :
  List.filter (λ y, (prio y =? p)%Z) (stable_sort prio l)
  = List.filter (λ y, (prio y =? p)%Z) l.
Proof.
  induction l as [|x l IH]; [done|].
  cbn [stable_sort foldr]. rewrite sort_insert_stable.
  simpl. fold (stable_sort prio l). by rewrite IH.
Qed.

Lemma before_tie a b : before prio a b → tie_before prio a b.
Proof.
  intros [H|[H1 H2]]; (split; [intros -> | intros ?]); lia.
Qed.

Lemma before_trans a b c : before prio a b → before prio b c → before prio a c.
Proof. unfold before. intros [?|[? ?]] [?|[? ?]]; lia. Qed.

Lemma before_irrefl a : ¬ before prio a a.
Proof. unfold before. lia. Qed.

Lemma sort_insert_before x l :
  Forall (tie_before prio x) l →
  StronglySorted (before prio) l →
  StronglySorted (before prio) (sort_insert prio x l).
Proof.
  intros Hx Hs. induction Hs as [|y l Hs IH Hy]; simpl.
  - repeat constructor.
  - apply Forall_cons in Hx as [[Hxy1 Hxy2] Hx].
    destruct (prio x <? prio y)%Z eqn:E.
    + apply Z.ltb_lt in E. constructor; [by apply IH|].
      rewrite sort_insert_perm. constructor; [by left | done].
    + apply Z.ltb_ge in E.
      assert (Hb : before prio x y).
      { destruct (decide (prio x = prio y)) as [Heq|Hne].
        - right. auto.
        - left. lia. }
      constructor; [by constructor|]. constructor; [done|].
      eapply Forall_impl; [exact Hy|]. simpl.
      intros z Hz. by eapply before_trans.
Qed.

Lemma stable_sort_before l :
  StronglySorted (tie_before prio) l → StronglySorted (before prio) (stable_sort prio l).
Proof.
  induction 1 as [|x l Hs IH Hx]; simpl; [constructor|].
  apply sort_insert_before; [|done].
  by rewrite stable_sort_perm.
Qed.

Lemma sorted_before_tie l :
  StronglySorted (before prio) l → StronglySorted (tie_before prio) l.
Proof.
  induction 1 as [|x l Hs IH Hx]; constructor; [done|].
  eapply Forall_impl; [exact Hx|]. apply before_tie.
Qed.

Lemma sorted_filter (R : relation nat) (f : nat → bool) l :
  StronglySorted R l → StronglySorted R (List.filter f l).
Proof.
  induction 1 as [|x l Hs IH Hx]; simpl; [constructor|].
  destruct (f x); [|done]. constructor; [done|].
  apply Forall_forall. intros y Hy.
  apply list_elem_of_In, filter_In in Hy as [Hy _].
  rewrite Forall_forall in Hx. by apply Hx, list_elem_of_In.
Qed.

Lemma sorted_snoc_tie l x :
  StronglySorted (tie_before prio) l → Forall (λ s, s < x) l →
  StronglySorted (tie_before prio) (l ++ [x]).
Proof.
  intros Hs Hl. apply StronglySorted_app; split_and!; [|done|].
  - intros a b Ha Hb. apply list_elem_of_singleton in Hb as ->.
    rewrite Forall_forall in Hl. specialize (Hl _ Ha).
    split; [intros -> | intros ?]; lia.
  - repeat constructor.
Qed.
End sort.

(** ** Well-formed shared states *)

Lemma sorted_ext (R R' : relation nat) l :
  (∀ a b, a ∈ l → b ∈ l → R a b → R' a b) →
  StronglySorted R l → StronglySorted R' l.
Proof.
  intros HR Hs. induction Hs as [|x l Hs IH Hx]; [constructor|].
  constructor.
  - apply IH. intros a b Ha Hb. apply HR; by right.
  - apply Forall_forall. intros y Hy. rewrite Forall_forall in Hx.
    apply HR; [by left | by right | by apply Hx].
Qed.

Lemma sorted_before_heap_le sl sl' l :
  heap_le sl sl' → Forall (λ s, s < length sl) l →
  StronglySorted (before (slot_priority sl)) l →
  StronglySorted (before (slot_priority sl')) l.
Proof.
  intros Hle Hv. apply sorted_ext. intros a b Ha Hb.
  rewrite Forall_forall in Hv. unfold before.
  rewrite !(heap_le_priority sl sl') by auto. done.
Qed.

Lemma sorted_tie_heap_le sl sl' l :
  heap_le sl sl' → Forall (λ s, s < length sl) l →
  StronglySorted (tie_before (slot_priority sl)) l →
  StronglySorted (tie_before (slot_priority sl')) l.
Proof.
  intros Hle Hv. apply sorted_ext. intros a b Ha Hb.
  rewrite Forall_forall in Hv. unfold tie_before.
  rewrite !(heap_le_priority sl sl') by auto. done.
Qed.

Lemma valid_heap_le sl sl' l :
  heap_le sl sl' → Forall (λ s, s < length sl) l →
  Forall (λ s, s < length sl') l.
Proof.
  intros Hle Hv. eapply Forall_impl; [exact Hv|]. intros s Hs. simpl in Hs.
  apply heap_le_length in Hle. lia.
Qed.

Lemma impl_ok_heap_le sl sl' im :
  heap_le sl sl' → impl_ok sl im → impl_ok sl' im.
Proof.
  intros Hle [Hv Ht Hs]. constructor.
  - by eapply valid_heap_le.
  - by eapply sorted_tie_heap_le.
  - intros Hd. eapply sorted_before_heap_le; eauto.
Qed.

Lemma get_put_impl_eq w i im im0 :
  get_impl w i = Some im0 → get_impl (put_impl i im w) i = Some im.
Proof.
  unfold get_impl, put_impl. simpl. intros H.
  rewrite list_lookup_insert_eq; [done|].
  destruct (impls w !! i) eqn:E; [|done]. by eapply lookup_lt_Some.
Qed.

Lemma get_put_impl_ne w i j im :
  i ≠ j → get_impl (put_impl i im w) j = get_impl w j.
Proof.
  unfold get_impl, put_impl. simpl. intros H.
  by rewrite list_lookup_insert_ne.
Qed.

Lemma get_impl_ext w w' i :
  impls w' = impls w → get_impl w' i = get_impl w i.
Proof. unfold get_impl. by intros ->. Qed.

(** ** Transitions of the library *)

Lemma evolves_refl w : evolves w w.
Proof.
  constructor; [apply heap_le_refl | done | | done].
  intros i im H. exists im. split; [done|]. auto.
Qed.

Lemma evolves_trans w1 w2 w3 : evolves w1 w2 → evolves w2 w3 → evolves w1 w3.
Proof.
  intros [H1 S1 M1 O1] [H2 S2 M2 O2]. constructor.
  - by eapply heap_le_trans.
  - congruence.
  - intros i im Hi. destruct (M1 i im Hi) as (im2 & Hi2 & Hm2).
    destruct (M2 i im2 Hi2) as (im3 & Hi3 & Hm3).
    exists im3. split; [done|]. intros s Hs Hlt.
    assert (Hlt2 : s < length (slots w2)).
    { apply heap_le_length in H1. lia. }
    destruct (Hm2 s Hs Hlt) as [Hin|Hp].
    + by apply Hm3.
    + right. by eapply heap_le_pending.
  - auto.
Qed.

(** An operation that only touches slot records, owners, handles or
    the trace. *)
Lemma evolves_heap w w2 :
  impls w2 = impls w → sigs w2 = sigs w →
  heap_le (slots w) (slots w2) → evolves w w2.
Proof.
  intros Hi Hs Hle. constructor; [done | done | |].
  - intros i im H. exists im. rewrite (get_impl_ext w w2) by done. auto.
  - intros Hok i im H. rewrite (get_impl_ext w w2) in H by done.
    eapply impl_ok_heap_le; eauto.
Qed.

(** An operation that also rewrites the shared state [i]. *)
Lemma evolves_put w w2 i im im' :
  get_impl w i = Some im →
  impls w2 = impls w → sigs w2 = sigs w →
  heap_le (slots w) (slots w2) →
  (∀ s, s ∈ slots_ im → s < length (slots w) →
     s ∈ slots_ im' ∨ slot_pending (slots w2) s = true) →
  (impl_ok (slots w) im → impl_ok (slots w2) im') →
  evolves w (put_impl i im' w2).
Proof.
  intros Hi Himp Hsig Hle Hmem Hok. constructor; simpl; [done | done | |].
  - intros j imj Hj. destruct (decide (i = j)) as [->|Hne].
    + exists im'. split.
      * eapply get_put_impl_eq. by rewrite (get_impl_ext w w2).
      * assert (imj = im) as -> by congruence. done.
    + exists imj. rewrite get_put_impl_ne, (get_impl_ext w w2) by done. auto.
  - intros Hall j imj Hj. simpl. destruct (decide (i = j)) as [->|Hne].
    + erewrite get_put_impl_eq in Hj by (by rewrite (get_impl_ext w w2)).
      inversion Hj; subst. apply Hok. by eapply Hall.
    + rewrite get_put_impl_ne, (get_impl_ext w w2) in Hj by done.
      eapply impl_ok_heap_le; eauto.
Qed.

Lemma impl_ok_same sl im im' :
  slots_ im' = slots_ im → (dirty_ im' = false → dirty_ im = false) →
  impl_ok sl im → impl_ok sl im'.
Proof.
  intros Hs Hd [Hv Ht Hso]. constructor; rewrite Hs; auto.
Qed.

Lemma slot_pending_marked s sl :
  slot_pending (alter (set_pending_removal true) s sl) s = true.
Proof.
  unfold slot_pending. rewrite list_lookup_alter_eq.
  by destruct (sl !! s).
Qed.

Lemma heap_le_mark s w : heap_le (slots w) (slots (mark_pending s w)).
Proof. apply heap_le_alter, slot_le_set_pending. Qed.

(** The marking loops only touch slot records. *)
Lemma mark_all_frame l w :
  impls (mark_all l w) = impls w ∧ sigs (mark_all l w) = sigs w ∧
  conns (mark_all l w) = conns w ∧ objs (mark_all l w) = objs w ∧
  log (mark_all l w) = log w ∧
  next_emission (mark_all l w) = next_emission w ∧
  heap_le (slots w) (slots (mark_all l w)).
Proof.
  revert w. induction l as [|s l IH]; intros w; simpl.
  - split_and!; try done. apply heap_le_refl.
  - destruct (IH (mark_pending s w)) as (-> & -> & -> & -> & -> & -> & Hle).
    split_and!; try done.
    eapply heap_le_trans; [apply heap_le_mark | exact Hle].
Qed.

Lemma mark_all_pending l w s :
  s ∈ l → s < length (slots w) → slot_pending (slots (mark_all l w)) s = true.
Proof.
  revert w. induction l as [|x l IH]; intros w Hin Hlt; [by inv Hin|].
  simpl. destruct (decide (s = x)) as [->|Hne].
  - eapply heap_le_pending; [apply mark_all_frame | |].
    + simpl. by rewrite length_alter.
    + apply slot_pending_marked.
  - apply IH.
    + by apply elem_of_cons in Hin as [->|Hin].
    + simpl. by rewrite length_alter.
Qed.

Lemma mark_tracking_frame t l w :
  impls (mark_tracking t l w) = impls w ∧ sigs (mark_tracking t l w) = sigs w ∧
  conns (mark_tracking t l w) = conns w ∧ objs (mark_tracking t l w) = objs w ∧
  log (mark_tracking t l w) = log w ∧
  next_emission (mark_tracking t l w) = next_emission w ∧
  heap_le (slots w) (slots (mark_tracking t l w)).
Proof.
  revert w. induction l as [|s l IH]; intros w; simpl.
  - split_and!; try done. apply heap_le_refl.
  - destruct (IH (if tracks w s t then mark_pending s w else w))
      as (-> & -> & -> & -> & -> & -> & Hle).
    destruct (tracks w s t); split_and!; try done.
    eapply heap_le_trans; [apply heap_le_mark | exact Hle].
Qed.

Lemma connect_impl_evolves this f p ss t w :
  evolves w (snd (connect_impl this f p ss t w)).
Proof.
  unfold connect_impl. open_impl this w i im Hi ltac:(apply evolves_refl).
  simpl. eapply evolves_put; eauto; simpl.
  - apply heap_le_app.
  - intros s Hs _. left. apply elem_of_app. by left.
  - intros [Hv Ht Hso]. constructor; simpl.
    + rewrite length_app. simpl. apply Forall_app. split.
      * eapply Forall_impl; [exact Hv|]. simpl. intros; lia.
      * repeat constructor. lia.
    + apply sorted_snoc_tie; [|done].
      eapply sorted_tie_heap_le; [apply heap_le_app | done | done].
    + done.
Qed.

Lemma get_or_create_tag_evolves i name w :
  evolves w (snd (get_or_create_tag i name w)).
Proof.
  unfold get_or_create_tag.
  destruct (get_impl w i) as [im|] eqn:Hi; [|apply evolves_refl].
  destruct (List.find _ _); [apply evolves_refl|].
  simpl. eapply evolves_put; eauto; simpl.
  - apply heap_le_refl.
  - by apply impl_ok_same.
Qed.

Lemma connect_tag_evolves this tag body p w :
  evolves w (snd (connect_tag this tag body p w)).
Proof.
  unfold connect_tag. destruct (impl_ this) as [i|] eqn:E; [|apply evolves_refl].
  destruct (get_or_create_tag i tag w) as [tp w1] eqn:Ht.
  eapply evolves_trans; [|apply connect_impl_evolves].
  replace w1 with (snd (get_or_create_tag i tag w)) by (by rewrite Ht).
  apply get_or_create_tag_evolves.
Qed.

Lemma set_objs_evolves f w : evolves w (set_objs f w).
Proof. apply evolves_heap; try done. apply heap_le_refl. Qed.

Lemma set_conns_evolves f w : evolves w (set_conns f w).
Proof. apply evolves_heap; try done. apply heap_le_refl. Qed.

Lemma add_event_evolves e w : evolves w (add_event e w).
Proof. apply evolves_heap; try done. apply heap_le_refl. Qed.

Lemma bump_emission_evolves w : evolves w (bump_emission w).
Proof. apply evolves_heap; try done. apply heap_le_refl. Qed.

Lemma disconnect_tag_evolves this tag w :
  evolves w (snd (disconnect_tag this tag w)).
Proof.
  unfold disconnect_tag. open_impl this w i im Hi ltac:(apply evolves_refl).
  destruct (List.find _ _) as [t|]; [|apply evolves_refl].
  simpl. eapply evolves_trans; [|apply set_objs_evolves].
  destruct (mark_tracking_frame (fst t) (slots_ im) w)
    as (Himp & Hsig & _ & _ & _ & _ & Hle).
  eapply evolves_put; eauto; simpl.
  intros Hok. eapply impl_ok_heap_le; [exact Hle|].
  revert Hok. by apply impl_ok_same.
Qed.

Lemma disconnect_all_evolves this w : evolves w (disconnect_all this w).
Proof.
  unfold disconnect_all. open_impl this w i im Hi ltac:(apply evolves_refl).
  destruct (mark_all_frame (slots_ im) w) as (Himp & Hsig & _ & _ & _ & _ & Hle).
  eapply evolves_put; eauto; simpl.
  - eapply heap_le_trans; [exact Hle | apply heap_le_release_all].
  - intros s Hs Hlt. right.
    eapply heap_le_pending; [apply heap_le_release_all | |].
    + apply heap_le_length in Hle. lia.
    + by apply mark_all_pending.
  - intros _. constructor; simpl; constructor.
Qed.

Lemma disconnect_slot_evolves i s w : evolves w (disconnect_slot i s w).
Proof.
  unfold disconnect_slot.
  destruct (get_impl w i) as [im|] eqn:Hi; [|apply evolves_refl].
  eapply evolves_put; eauto; simpl.
  - apply heap_le_mark.
  - intros Hok. eapply impl_ok_heap_le; [apply heap_le_mark|].
    revert Hok. by apply impl_ok_same.
Qed.

Lemma conn_disconnect_evolves c w : evolves w (conn_disconnect c w).
Proof.
  unfold conn_disconnect.
  destruct (impl_lock w c); [|apply evolves_refl].
  destruct (slot_lock w c); [|apply evolves_refl].
  apply disconnect_slot_evolves.
Qed.

Lemma conn_block_evolves c b w : evolves w (conn_block c b w).
Proof.
  unfold conn_block. destruct (slot_lock w c); [|apply evolves_refl].
  apply evolves_heap; try done. apply heap_le_alter, slot_le_set_blocked.
Qed.

Lemma emit_begin_evolves this w : evolves w (snd (emit_begin this w)).
Proof.
  unfold emit_begin. open_impl this w i im Hi ltac:(apply evolves_refl).
  destruct (slots_ im) as [|s0 l0] eqn:Hl; [apply evolves_refl|].
  rewrite <- Hl. clear Hl s0 l0.
  destruct (dirty_ im) eqn:Hd; simpl.
  - match goal with
    | |- evolves _ (set_slots _ (put_impl _ ?im1 ?w1)) =>
        eapply evolves_trans with (w2 := put_impl i im1 w1)
    end.
    + eapply (evolves_put w); eauto; simpl.
      * apply heap_le_release_all.
      * intros s Hs Hlt.
        destruct (slot_pending (slots w) s) eqn:Hp.
        -- right. eapply heap_le_pending; eauto. apply heap_le_release_all.
        -- left. apply stable_sort_elem_of, list_elem_of_In, filter_In.
           split; [by apply list_elem_of_In | by rewrite Hp].
      * intros [Hv Ht _].
        assert (Hk : StronglySorted (before (slot_priority (slots w)))
                  (stable_sort (slot_priority (slots w))
                     (cleanup_keep (slots w) (slots_ im)))).
        { apply stable_sort_before. by apply sorted_filter. }
        assert (Hkv : Forall (λ s, s < length (slots w))
                  (stable_sort (slot_priority (slots w))
                     (cleanup_keep (slots w) (slots_ im)))).
        { apply Forall_forall. intros s Hs.
          apply stable_sort_elem_of, list_elem_of_In, filter_In in Hs as [Hs _].
          rewrite Forall_forall in Hv. by apply Hv, list_elem_of_In. }
        eapply impl_ok_heap_le; [apply heap_le_release_all|].
        constructor; simpl; [done | by apply sorted_before_tie | done].
    + apply evolves_heap; try done. apply heap_le_acquire_all.
  - eapply evolves_trans with (w2 := put_impl i im w).
    + eapply (evolves_put w); eauto. apply heap_le_refl.
    + apply evolves_heap; try done. apply heap_le_acquire_all.
Qed.

Lemma emit_begin_quiet this w :
  log (snd (emit_begin this w)) = log w ∧
  next_emission (snd (emit_begin this w)) = next_emission w ∧
  sigs (snd (emit_begin this w)) = sigs w.
Proof.
  unfold emit_begin. repeat case_match; simplify_eq; done.
Qed.

(** The snapshot is the slot list of a shared state whose dirty flag
    is clear. *)
Lemma emit_begin_snapshot this w local_slots w1 :
  emit_begin this w = (Some local_slots, w1) →
  ∃ i im1, impl_ this = Some i ∧ get_impl w1 i = Some im1 ∧
    slots_ im1 = local_slots ∧ dirty_ im1 = false.
Proof.
  unfold emit_begin. open_impl this w i im Hi ltac:(done).
  destruct (slots_ im) as [|s0 l0] eqn:Hl; [done|].
  rewrite <- Hl. clear Hl s0 l0.
  destruct (dirty_ im) eqn:Hd; intros [= <- <-].
  - exists i, (mk_impl (stable_sort (slot_priority (slots w))
                         (cleanup_keep (slots w) (slots_ im))) (tags_ im) false).
    split_and!; try done.
    rewrite (get_impl_ext (put_impl i _ (set_slots _ w))) by done.
    eapply get_put_impl_eq. by rewrite (get_impl_ext w).
  - exists i, im. split_and!; try done.
    rewrite (get_impl_ext (put_impl i im w)) by done.
    by eapply get_put_impl_eq.
Qed.

Lemma emit_visit_evolves sp need w : evolves w (emit_visit sp need w).1.1.
Proof.
  unfold emit_visit. destruct (slots w !! sp) as [r|] eqn:Hr; [|apply evolves_refl].
  destruct (has_tracked_object r && expired (objs w) (tracked r)); simpl.
  { apply evolves_heap; try done. apply heap_le_mark. }
  destruct (is_callable (objs w) r); simpl; [|apply evolves_refl].
  unfold try_acquire_execution.
  destruct (single_shot r) eqn:Hss; simpl.
  - destruct (executed r); simpl; [apply evolves_refl|].
    apply evolves_heap; try done. simpl.
    eapply heap_le_trans; [|apply heap_le_alter, slot_le_set_pending].
    eapply heap_le_insert; [done | apply slot_le_set_executed].
  - apply evolves_heap; try done. simpl.
    eapply heap_le_insert; [done | apply slot_le_refl].
Qed.

Lemma emit_visit_quiet sp need w :
  log (emit_visit sp need w).1.1 = log w ∧
  next_emission (emit_visit sp need w).1.1 = next_emission w.
Proof.
  unfold emit_visit, try_acquire_execution.
  repeat case_match; simplify_eq; done.
Qed.

Lemma emit_end_evolves this local_slots need w :
  evolves w (emit_end this local_slots need w).
Proof.
  unfold emit_end.
  match goal with
  | |- evolves _ (set_slots _ ?w1) => eapply evolves_trans with (w2 := w1)
  end; [|apply evolves_heap; try done; apply heap_le_release_all].
  destruct need; [|apply evolves_refl].
  open_impl this w i im Hi ltac:(apply evolves_refl).
  eapply evolves_put; eauto.
  - apply heap_le_refl.
  - by apply impl_ok_same.
Qed.

Lemma emit_end_quiet this local_slots need w :
  log (emit_end this local_slots need w) = log w ∧
  next_emission (emit_end this local_slots need w) = next_emission w.
Proof. unfold emit_end. repeat case_match; done. Qed.

(** ** The trace

    Only the emission loop appends [Invoked] events and only the
    start of an emission advances the emission counter. *)

Lemma quiet_trans w1 w2 w3 : quiet w1 w2 → quiet w2 w3 → quiet w1 w3.
Proof. unfold quiet. intros [] []. split; congruence. Qed.

Lemma connect_impl_quiet this f p ss t w :
  quiet w (snd (connect_impl this f p ss t w)).
Proof. unfold connect_impl. by repeat case_match. Qed.

Lemma get_or_create_tag_quiet i name w :
  quiet w (snd (get_or_create_tag i name w)).
Proof. unfold get_or_create_tag. by repeat case_match. Qed.

Lemma connect_tag_quiet this tag body p w :
  quiet w (snd (connect_tag this tag body p w)).
Proof.
  unfold connect_tag. destruct (impl_ this) as [i|]; [|done].
  pose proof (get_or_create_tag_quiet i tag w) as H.
  destruct (get_or_create_tag i tag w) as [tp w1].
  eapply quiet_trans; [exact H | apply connect_impl_quiet].
Qed.

Lemma disconnect_tag_quiet this tag w :
  quiet w (snd (disconnect_tag this tag w)).
Proof.
  unfold disconnect_tag. repeat case_match; try done.
  unfold quiet. simpl.
  match goal with
  | |- context [mark_tracking ?t ?l ?w] =>
      destruct (mark_tracking_frame t l w) as (_ & _ & _ & _ & -> & -> & _)
  end. done.
Qed.

Lemma disconnect_all_quiet this w : quiet w (disconnect_all this w).
Proof.
  unfold disconnect_all. repeat case_match; try done.
  unfold quiet. simpl.
  match goal with
  | |- context [mark_all ?l ?w] =>
      destruct (mark_all_frame l w) as (_ & _ & _ & _ & -> & -> & _)
  end. done.
Qed.

Lemma conn_disconnect_quiet c w : quiet w (conn_disconnect c w).
Proof.
  unfold conn_disconnect, disconnect_slot. by repeat case_match.
Qed.

Lemma conn_block_quiet c b w : quiet w (conn_block c b w).
Proof. unfold conn_block. by repeat case_match. Qed.

Lemma invoked_in_app em l1 l2 :
  invoked_in em (l1 ++ l2) = invoked_in em l1 ++ invoked_in em l2.
Proof. unfold invoked_in. apply omap_app. Qed.

Lemma invocations_app s l1 l2 :
  invocations s (l1 ++ l2) = invocations s l1 + invocations s l2.
Proof. unfold invocations. by rewrite List.filter_app, length_app. Qed.

(** What one statement of a callback does to the world. *)
Lemma exec_action_spec a w m w1 fo :
  exec_action a w = (m, w1, fo) →
  evolves w w1 ∧
  (∀ em, invoked_in em (log w1) = invoked_in em (log w)) ∧
  (∀ s, invocations s (log w1) = invocations s (log w)) ∧
  match fo with
  | None => next_emission w1 = next_emission w
  | Some f =>
      m = Running ∧ next_emission w1 = S (next_emission w) ∧
      fl_id f = next_emission w ∧ fl_rest f = fl_local f ∧
      ∃ i im1, impl_ (sig_var w1 (fl_sig f)) = Some i ∧
        get_impl w1 i = Some im1 ∧ slots_ im1 = fl_local f ∧
        dirty_ im1 = false
  end.
Proof.
  assert (Hq : ∀ w', quiet w w' →
    (∀ em, invoked_in em (log w') = invoked_in em (log w)) ∧
    (∀ s, invocations s (log w') = invocations s (log w)) ∧
    next_emission w' = next_emission w).
  { intros w' [Hl Hn]. by rewrite Hl, Hn. }
  destruct a; simpl; intros H; simplify_eq.
  - split; [apply evolves_refl|]. by apply Hq.
  - split; [apply add_event_evolves|]. simpl.
    split_and!; [| |done].
    + intros em. by rewrite invoked_in_app, app_nil_r.
    + intros s. rewrite invocations_app. unfold invocations at 2. simpl. lia.
  - split; [|apply Hq, connect_impl_quiet].
    eapply evolves_trans; [apply connect_impl_evolves | apply set_conns_evolves].
  - split; [|apply Hq, connect_impl_quiet].
    eapply evolves_trans; [apply connect_impl_evolves | apply set_conns_evolves].
  - unfold connect_shared. destruct (owner_ptr w obj).
    + split; [|apply Hq, connect_impl_quiet].
      eapply evolves_trans; [apply connect_impl_evolves | apply set_conns_evolves].
    + split; [apply set_conns_evolves | by apply Hq].
  - unfold connect_raw. destruct null.
    + split; [apply set_conns_evolves | by apply Hq].
    + split; [|apply Hq, connect_impl_quiet].
      eapply evolves_trans; [apply connect_impl_evolves | apply set_conns_evolves].
  - split; [|apply Hq, connect_tag_quiet].
    eapply evolves_trans; [apply connect_tag_evolves | apply set_conns_evolves].
  - split; [apply disconnect_tag_evolves | apply Hq, disconnect_tag_quiet].
  - pose proof (emit_begin_evolves (sig_var w sig) w) as He.
    pose proof (emit_begin_quiet (sig_var w sig) w) as (Hl & Hn & Hs).
    destruct (emit_begin (sig_var w sig) w) as [[local_slots|] w2] eqn:Hb;
      simpl in *; simplify_eq.
    + split; [eapply evolves_trans; [exact He | apply bump_emission_evolves]|].
      simpl. rewrite Hl, Hn. split_and!; try done.
      apply emit_begin_snapshot in Hb as (i & im1 & Hi & Hg & Hsl & Hd).
      exists i, im1. split_and!; try done.
      unfold sig_var in *. simpl. by rewrite Hs.
    + split; [done|]. by rewrite Hl, Hn.
  - split; [apply disconnect_all_evolves | apply Hq, disconnect_all_quiet].
  - split; [apply conn_disconnect_evolves | apply Hq, conn_disconnect_quiet].
  - split; [apply conn_block_evolves | apply Hq, conn_block_quiet].
  - split; [apply set_conns_evolves | by apply Hq].
Qed.

(** What one statement of the main program does to the world. *)
Lemma exec_command_spec cmd w w1 k :
  exec_command cmd w = (w1, k) →
  (impls_ok w → impls_ok w1) ∧ heap_le (slots w) (slots w1) ∧ quiet w w1 ∧
  (k = [] ∨ ∃ a, k = [FBody [a]]).
Proof.
  destruct cmd; simpl; intros H; simplify_eq.
  - split_and!; [done | apply heap_le_refl | done | right; eauto].
  - split_and!; [| apply heap_le_refl | done | by left].
    intros Hok i im. unfold get_impl. simpl. intros Hi.
    destruct (decide (i < length (impls w))) as [Hlt|Hge].
    + rewrite lookup_app_l in Hi by done. by eapply Hok.
    + rewrite lookup_app_r in Hi by lia.
      destruct (i - length (impls w)) as [|n]; simpl in Hi; [|done].
      simplify_eq. constructor; simpl; constructor.
  - split_and!; [done | apply heap_le_refl | done | by left].
  - unfold move_assign. destruct (dst =? src); simplify_eq.
    { split_and!; [done | apply heap_le_refl | done | by left]. }
    pose proof (disconnect_all_evolves (sig_var w dst) w) as [Hh _ _ Hok].
    pose proof (disconnect_all_quiet (sig_var w dst) w) as Hq.
    split_and!; [| | | by left].
    + intros Hw. specialize (Hok Hw). unfold impl_release.
      destruct (impl_ (sig_var w dst)) as [i|]; [|done].
      intros j im. unfold get_impl. simpl.
      destruct (decide (i = j)) as [->|Hne].
      * destruct (decide (j < length (impls (disconnect_all (sig_var w dst) w)))).
        -- by rewrite list_lookup_insert_eq.
        -- rewrite list_insert_ge by lia. apply Hok.
      * rewrite list_lookup_insert_ne by done. apply Hok.
    + unfold impl_release. by destruct (impl_ (sig_var w dst)).
    + unfold impl_release. by destruct (impl_ (sig_var w dst)).
  - split_and!; [done | apply heap_le_refl | done | by left].
  - destruct (owner_ptr w o); simplify_eq;
      (split_and!; [done | apply heap_le_refl | done | by left]).
Qed.

(** ** Invariants of execution *)

Lemma stack_ids_lt_mono n m k : n ≤ m → stack_ids_lt n k → stack_ids_lt m k.
Proof.
  revert n m. induction k as [|[b|f] k IH]; simpl; intros n m Hle; [done | |].
  - by apply IH.
  - intros [H1 H2]. split; [lia | done].
Qed.

Lemma rest_of_fresh n k em : stack_ids_lt n k → n ≤ em → rest_of k em = [].
Proof.
  revert n. induction k as [|[b|f] k IH]; simpl; intros n Hs Hle; [done | |].
  - by eapply IH.
  - destruct Hs as [H1 H2].
    destruct (Nat.eqb_spec (fl_id f) em) as [Heq|Hne]; [lia|].
    eapply IH; [exact H2 | lia].
Qed.

Lemma frame_ok_evolves w w' f : evolves w w' → frame_ok w f → frame_ok w' f.
Proof.
  intros [Hh Hs Hm _] Hf s Hin. destruct (Hf s Hin) as [Hlt Hc].
  split. { apply heap_le_length in Hh. lia. }
  destruct Hc as [Hp|(i & im & Hi & Hg & Hsi)].
  - left. by eapply heap_le_pending.
  - destruct (Hm i im Hg) as (im' & Hg' & Hmem).
    destruct (Hmem s Hsi Hlt) as [?|?]; [right | by left].
    exists i, im'. unfold sig_var in *. rewrite Hs. done.
Qed.

Lemma invocations_valid s l :
  0 < invocations s l → ∃ em, s ∈ invoked_in em l.
Proof.
  induction l as [|e l IH]; [unfold invocations; simpl; lia|].
  change (e :: l) with ([e] ++ l).
  rewrite invocations_app. intros H.
  destruct e as [n|em s']; unfold invocations at 1 in H; simpl in H.
  - destruct IH as [em Hem]; [lia|]. exists em.
    by rewrite invoked_in_app.
  - destruct (Nat.eqb_spec s' s) as [->|Hne]; simpl in H.
    + exists em. rewrite invoked_in_app. apply elem_of_app. left.
      unfold invoked_in. simpl. rewrite Nat.eqb_refl. by left.
    + destruct IH as [em' Hem]; [lia|]. exists em'.
      rewrite invoked_in_app. apply elem_of_app. by right.
Qed.

(** The part of [Inv] that does not mention the stack survives every
    transition that leaves the [Invoked] events alone. *)
Lemma inv_once_heap_le w w' :
  heap_le (slots w) (slots w') →
  (∀ s, invocations s (log w') = invocations s (log w)) →
  (∀ em, Forall (λ s, s < length (slots w)) (invoked_in em (log w))) →
  (∀ s r, slots w !! s = Some r → single_shot r = true →
     invocations s (log w) ≤ (if executed r then 1 else 0)) →
  ∀ s r, slots w' !! s = Some r → single_shot r = true →
    invocations s (log w') ≤ (if executed r then 1 else 0).
Proof.
  intros Hh Hl Hv Ho s r' Hr' Hss. rewrite Hl.
  destruct (decide (s < length (slots w))) as [Hlt|Hge].
  - destruct (lookup_lt_is_Some_2 _ _ Hlt) as [r Hr].
    destruct (Hh _ _ Hr) as (r2 & Hr2 & Hle). simplify_eq.
    destruct Hle as [_ _ Hs _ _ He].
    specialize (Ho s r Hr). rewrite <- Hs in Ho. specialize (Ho Hss).
    destruct (executed r); [by rewrite He | lia].
  - destruct (decide (0 < invocations s (log w))) as [Hpos|]; [|lia].
    apply invocations_valid in Hpos as [em Hem].
    specialize (Hv em). rewrite Forall_forall in Hv.
    apply Hv in Hem. lia.
Qed.

Lemma Forall_sublist (P : nat → Prop) l1 l2 :
  l1 `sublist_of` l2 → Forall P l2 → Forall P l1.
Proof.
  intros Hs Hf. apply Forall_forall. intros x Hx.
  rewrite Forall_forall in Hf. eapply Hf, elem_of_sublist; eauto.
Qed.

Lemma sorted_sublist (R : relation nat) l1 l2 :
  l1 `sublist_of` l2 → StronglySorted R l2 → StronglySorted R l1.
Proof.
  induction 1 as [|x l1 l2 Hs IH|x l1 l2 Hs IH]; intros Hso.
  - constructor.
  - apply StronglySorted_inv in Hso as [Hso Hx].
    constructor; [by apply IH | by eapply Forall_sublist].
  - apply StronglySorted_inv in Hso as [Hso Hx]. by apply IH.
Qed.

(** A transition that adds no [Invoked] event, starts no emission
    and at most shortens what the running emissions have left. *)
Lemma Inv_update c m w1 k1 p1 :
  Inv c →
  heap_le (slots (cf_world c)) (slots w1) →
  impls_ok w1 →
  (∀ em, invoked_in em (log w1) = invoked_in em (log (cf_world c))) →
  (∀ s, invocations s (log w1) = invocations s (log (cf_world c))) →
  next_emission w1 = next_emission (cf_world c) →
  (∀ f, FLoop f ∈ k1 → frame_ok w1 f) →
  (∀ em, rest_of k1 em `sublist_of` rest_of (cf_stack c) em) →
  stack_ids_lt (next_emission w1) k1 →
  Inv (mk_config m w1 k1 p1).
Proof.
  intros [Hi Hf Hids Hv Ho Hfr Hon] Hh Hok Hinv Hcnt Hn Hfs Hsub Hlt.
  assert (Hsub' : ∀ em,
    invoked_in em (log w1) ++ rest_of k1 em `sublist_of`
    invoked_in em (log (cf_world c)) ++ rest_of (cf_stack c) em).
  { intros em. rewrite Hinv. by apply sublist_app. }
  constructor; simpl; try done.
  - intros em. eapply Forall_sublist; [apply Hsub'|].
    eapply valid_heap_le; eauto.
  - intros em. eapply sorted_sublist; [apply Hsub'|].
    eapply sorted_before_heap_le; eauto.
  - intros em Hem. rewrite Hinv. apply Hfr. lia.
  - eapply inv_once_heap_le; eauto.
    intros em. specialize (Hv em). by apply Forall_app in Hv as [Hv _].
Qed.

(** When the loop decides to call a slot. *)
Lemma emit_visit_invoke sp need w w1 need' fn :
  emit_visit sp need w = (w1, need', Some fn) →
  ∃ r r1, slots w !! sp = Some r ∧ fn = func r ∧
    is_callable (objs w) r = true ∧ slots w1 !! sp = Some r1 ∧
    objs w1 = objs w ∧
    (single_shot r = true →
       executed r = false ∧ executed r1 = true ∧
       pending_removal r1 = true ∧ need' = true) ∧
    (single_shot r = false → r1 = r ∧ need' = need).
Proof.
  unfold emit_visit. destruct (slots w !! sp) as [r|] eqn:Hr; [|done].
  destruct (has_tracked_object r && expired (objs w) (tracked r)); [done|].
  destruct (is_callable (objs w) r) eqn:Hc; [|done]. simpl.
  assert (Hlt : sp < length (slots w)) by (by eapply lookup_lt_Some).
  unfold try_acquire_execution. destruct (single_shot r) eqn:Hss; simpl.
  - destruct (executed r) eqn:He; [done|]. simpl. intros [= <- <- <-].
    exists r, (set_pending_removal true (set_executed true r)).
    split_and!; try done; [|congruence].
    simpl. rewrite list_lookup_alter_eq, list_lookup_insert_eq by done. done.
  - intros [= <- <- <-]. exists r, r. split_and!; try done; [|congruence].
    simpl. by rewrite list_lookup_insert_eq.
Qed.

Lemma Inv_init prog : Inv (init prog).
Proof.
  constructor; simpl; try done.
  - intros f Hf. by apply elem_of_nil in Hf.
  - constructor.
Qed.

(** An emission starts: the machine pushes a loop frame over a
    snapshot of a clean slot list. *)
Lemma Inv_push m w k p w1 f body rest :
  Inv (mk_config m w (FBody body :: k) p) →
  evolves w w1 →
  (∀ em, invoked_in em (log w1) = invoked_in em (log w)) →
  (∀ s, invocations s (log w1) = invocations s (log w)) →
  next_emission w1 = S (next_emission w) →
  fl_id f = next_emission w → fl_rest f = fl_local f →
  (∃ i im1, impl_ (sig_var w1 (fl_sig f)) = Some i ∧
     get_impl w1 i = Some im1 ∧ slots_ im1 = fl_local f ∧
     dirty_ im1 = false) →
  Inv (mk_config Running w1 (FLoop f :: FBody rest :: k) p).
Proof.
  intros [Hi Hf Hids Hv Ho Hfr Hon] Hev Hinv Hcnt Hn Hid Hrest
    (i & im1 & Hsig & Hg & Hloc & Hd).
  simpl in *.
  pose proof (ev_ok _ _ Hev Hi) as Hok. pose proof (Hok i im1 Hg) as [Hv1 _ Hs1].
  rewrite Hloc, <- Hrest in Hv1, Hs1. specialize (Hs1 Hd).
  assert (Hh := ev_heap _ _ Hev).
  constructor; simpl; try done.
  - intros f' Hf'. apply elem_of_cons in Hf' as [Heq|Hf'].
    + simplify_eq. intros s Hs. split.
      * rewrite Forall_forall in Hv1. by apply Hv1.
      * right. exists i, im1. split_and!; try done. congruence.
    + apply elem_of_cons in Hf' as [?|Hf']; [done|].
      eapply frame_ok_evolves; eauto. apply Hf. by right.
  - split; [lia|]. by rewrite Hid.
  - intros em. rewrite Hinv. destruct (Nat.eqb_spec (fl_id f) em) as [Heq|Hne].
    + rewrite Hfr by lia. done.
    + eapply valid_heap_le; eauto.
  - intros em. rewrite Hinv. destruct (Nat.eqb_spec (fl_id f) em) as [Heq|Hne].
    + rewrite Hfr by lia. done.
    + eapply sorted_before_heap_le; eauto.
  - intros em Hem. rewrite Hinv. apply Hfr. lia.
  - eapply inv_once_heap_le; eauto.
    intros em. specialize (Hv em). by apply Forall_app in Hv as [Hv _].
Qed.

(** The loop calls slot [sp]. *)
Lemma Inv_invoke w k p f sp rest w1 need fn body :
  Inv (mk_config Running w (FLoop f :: k) p) →
  fl_rest f = sp :: rest →
  emit_visit sp (fl_need f) w = (w1, need, Some fn) →
  Inv (mk_config Running (add_event (Invoked (fl_id f) sp) w1)
         (FBody body ::
          FLoop (mk_loop (fl_id f) (fl_sig f) (fl_local f) rest need) :: k) p).
Proof.
  intros HI Hrest Hvis. pose proof HI as [Hi Hf Hids Hv Ho Hfr Hon].
  simpl in *.
  pose proof (emit_visit_evolves sp (fl_need f) w) as Hev.
  pose proof (emit_visit_quiet sp (fl_need f) w) as [Hl Hn].
  rewrite Hvis in Hev, Hl, Hn. simpl in Hev, Hl, Hn.
  assert (Hh := ev_heap _ _ Hev).
  apply emit_visit_invoke in Hvis
    as (r & r1 & Hr & -> & Hcall & Hr1 & _ & Hsingle & _).
  assert (Hshape : ∀ em,
    invoked_in em (log w1 ++ [Invoked (fl_id f) sp]) ++
      (if fl_id f =? em then rest else rest_of k em)
    = invoked_in em (log w) ++
      (if fl_id f =? em then fl_rest f else rest_of k em)).
  { intros em. rewrite invoked_in_app, Hl, Hrest. unfold invoked_in at 2. simpl.
    destruct (fl_id f =? em); simpl; [|by rewrite app_nil_r].
    by rewrite <- app_assoc. }
  constructor; simpl.
  - by apply (ev_ok _ _ Hev).
  - intros f' Hf'. apply elem_of_cons in Hf' as [?|Hf']; [done|].
    assert (Hold : frame_ok w1 f').
    { apply elem_of_cons in Hf' as [Heq|Hf'].
      - simplify_eq. intros s Hs. simpl in Hs.
        assert (Hin : s ∈ fl_rest f) by (rewrite Hrest; by right).
        apply (frame_ok_evolves _ _ f Hev) in Hin; [done|].
        apply Hf. by left.
      - eapply frame_ok_evolves; [exact Hev|]. apply Hf. by right. }
    exact Hold.
  - by rewrite Hn.
  - intros em. rewrite Hshape. eapply valid_heap_le; eauto.
  - intros em. rewrite Hshape. eapply sorted_before_heap_le; eauto.
  - intros em Hem. rewrite invoked_in_app, Hl, Hfr by lia.
    unfold invoked_in. simpl.
    destruct (Nat.eqb_spec (fl_id f) em) as [Heq|Hne]; [lia | done].
  - intros s r' Hr' Hss. rewrite Hl, invocations_app.
    unfold invocations at 2. simpl.
    destruct (Nat.eqb_spec sp s) as [<-|Hne]; simpl.
    + assert (r' = r1) as -> by congruence.
      destruct (Hh _ _ Hr) as (r2 & Hr2 & Hle).
      assert (r2 = r1) as -> by congruence.
      assert (Hssr : single_shot r = true) by (by rewrite <- (sle_single _ _ Hle)).
      destruct (Hsingle Hssr) as (He & He1 & _).
      specialize (Hon sp r Hr Hssr). rewrite He in Hon. rewrite He1. lia.
    + rewrite Nat.add_0_r. rewrite <- Hl.
      eapply (inv_once_heap_le w w1 Hh); eauto.
      * intros s0. by rewrite Hl.
      * intros em. specialize (Hv em). by apply Forall_app in Hv as [Hv _].
Qed.

Lemma frames_evolve w w1 (k k1 : list frame) :
  evolves w w1 →
  (∀ f, FLoop f ∈ k1 → FLoop f ∈ k) →
  (∀ f, FLoop f ∈ k → frame_ok w f) →
  ∀ f, FLoop f ∈ k1 → frame_ok w1 f.
Proof. intros Hev Hsub Hf f Hin. eapply frame_ok_evolves; eauto. Qed.

Theorem Inv_step c : Inv c → Inv (step c).
Proof.
  intros HI. destruct c as [m w k p]. unfold step. simpl.
  destruct k as [|[body|f] k].
  - (* the main program *)
    destruct m.
    + destruct p as [|cmd p]; [done|].
      destruct (exec_command cmd w) as [w1 k1] eqn:Hc.
      apply exec_command_spec in Hc as (Hok & Hh & [Hl Hn] & Hk).
      eapply (Inv_update _ _ _ _ _ HI); simpl.
      * done.
      * apply Hok, HI.
      * intros em. by rewrite Hl.
      * intros s. by rewrite Hl.
      * done.
      * intros f Hf. destruct Hk as [->|[a ->]].
        -- by apply elem_of_nil in Hf.
        -- apply elem_of_cons in Hf as [?|Hf]; [done|].
           by apply elem_of_nil in Hf.
      * intros em. by destruct Hk as [->|[a ->]].
      * by destruct Hk as [->|[a ->]].
    + eapply (Inv_update _ _ _ _ _ HI); simpl;
        [apply heap_le_refl | apply HI | done | done | done | apply HI
        | intros em; reflexivity | done].
  - (* a callback body *)
    assert (Hpop : ∀ m', Inv (mk_config m' w k p)).
    { intros m'. eapply (Inv_update _ _ _ _ _ HI); simpl;
        [apply heap_le_refl | apply HI | done | done | done
        | | intros em; reflexivity | apply HI].
      intros f Hf. apply HI. simpl. by right. }
    destruct m; [|apply Hpop].
    destruct body as [|a rest]; [apply Hpop|].
    destruct (exec_action a w) as [[m1 w1] fo] eqn:He.
    apply exec_action_spec in He as (Hev & Hinv & Hcnt & Hfo).
    assert (Hfs : ∀ f, FLoop f ∈ k → frame_ok w1 f).
    { eapply frames_evolve; eauto. intros f Hf. apply HI. simpl. by right. }
    destruct fo as [f|].
    + destruct Hfo as (-> & Hn & Hid & Hrest & Hsnap).
      eapply Inv_push; eauto.
    + assert (Hk : ∀ k1, (k1 = k ∨ k1 = FBody rest :: k) →
                Inv (mk_config m1 w1 k1 p)).
      { intros k1 Hk1. eapply (Inv_update _ _ _ _ _ HI); simpl.
        - apply Hev.
        - apply (ev_ok _ _ Hev), HI.
        - done.
        - done.
        - done.
        - intros f Hf. destruct Hk1 as [->| ->]; [auto|].
          apply elem_of_cons in Hf as [?|Hf]; [done|]. auto.
        - intros em. by destruct Hk1 as [->| ->].
        - rewrite Hfo. destruct Hk1 as [->| ->]; apply HI. }
      destruct m1; apply Hk; auto.
  - (* the emission loop *)
    destruct m.
    + destruct (fl_rest f) as [|sp rest] eqn:Hrest.
      * pose proof (emit_end_evolves (sig_var w (fl_sig f)) (fl_local f)
                      (fl_need f) w) as Hev.
        pose proof (emit_end_quiet (sig_var w (fl_sig f)) (fl_local f)
                      (fl_need f) w) as [Hl Hn].
        pose proof (inv_ids _ HI) as [Hid Hids]. simpl in Hid, Hids.
        eapply (Inv_update _ _ _ _ _ HI);
          cbn [cf_world cf_stack rest_of stack_ids_lt fl_id fl_rest].
        -- apply Hev.
        -- apply (ev_ok _ _ Hev), HI.
        -- intros em. by rewrite Hl.
        -- intros s. by rewrite Hl.
        -- done.
        -- intros f' Hf'. eapply frame_ok_evolves; [exact Hev|].
           apply HI. simpl. by right.
        -- intros em. destruct (Nat.eqb_spec (fl_id f) em) as [Heq|Hne]; [|done].
           erewrite rest_of_fresh; [apply sublist_nil_l | exact Hids | lia].
        -- rewrite Hn. eapply stack_ids_lt_mono; [|exact Hids]. lia.
      * destruct (emit_visit sp (fl_need f) w) as [[w1 need] callee] eqn:Hvis.
        destruct callee as [fn|]; [by eapply Inv_invoke|].
        pose proof (emit_visit_evolves sp (fl_need f) w) as Hev.
        pose proof (emit_visit_quiet sp (fl_need f) w) as [Hl Hn].
        rewrite Hvis in Hev, Hl, Hn. simpl in Hev, Hl, Hn.
        eapply (Inv_update _ _ _ _ _ HI);
          cbn [cf_world cf_stack rest_of stack_ids_lt fl_id fl_rest].
        -- apply Hev.
        -- apply (ev_ok _ _ Hev), HI.
        -- intros em. by rewrite Hl.
        -- intros s. by rewrite Hl.
        -- done.
        -- intros f' Hf'. apply elem_of_cons in Hf' as [Heq|Hf'].
           ++ simplify_eq. intros s Hs. simpl in Hs.
              assert (Hin : s ∈ fl_rest f) by (rewrite Hrest; by right).
              apply (frame_ok_evolves _ _ f Hev) in Hin; [done|].
              apply HI. simpl. by left.
           ++ eapply frame_ok_evolves; [exact Hev|]. apply HI. simpl. by right.
        -- intros em. rewrite Hrest.
           destruct (fl_id f =? em); [by apply sublist_cons | done].
        -- rewrite Hn. apply HI.
    + eapply (Inv_update _ _ _ _ _ HI); simpl;
        [apply heap_le_refl | apply HI | done | done | done | apply HI
        | intros em; reflexivity | apply HI].
Qed.

Theorem Inv_run n c : Inv c → Inv (run n c).
Proof.
  intros H. induction n as [|n IH]; simpl; [done | by apply Inv_step].
Qed.

Corollary Inv_reachable prog n : Inv (run n (init prog)).
Proof. apply Inv_run, Inv_init. Qed.

(** ** What a step can do to the trace *)

(** A step either leaves the invocation counts alone or is the loop
    calling a slot. *)
Lemma step_spec c :
  heap_le (slots (cf_world c)) (slots (cf_world (step c))) ∧
  ((∀ s, invocations s (log (cf_world (step c)))
         = invocations s (log (cf_world c))) ∨
   ∃ sp, calls c sp).
Proof.
  destruct c as [m w k p].
  destruct k as [|[body|f] k]; [| |].
  - unfold step; simpl. destruct m; [|split; [apply heap_le_refl | by left]].
    destruct p as [|cmd p]; [split; [apply heap_le_refl | by left]|].
    destruct (exec_command cmd w) as [w1 k1] eqn:Hc.
    apply exec_command_spec in Hc as (_ & Hh & [Hl _] & _). simpl.
    split; [done|]. left. intros s. by rewrite Hl.
  - unfold step; simpl. destruct m; [|split; [apply heap_le_refl | by left]].
    destruct body as [|a rest]; [split; [apply heap_le_refl | by left]|].
    destruct (exec_action a w) as [[m1 w1] fo] eqn:He.
    apply exec_action_spec in He as (Hev & _ & Hcnt & _).
    assert (Hh := ev_heap _ _ Hev).
    destruct m1, fo; simpl; (split; [done | by left]).
  - destruct m; [|unfold step; simpl; split; [apply heap_le_refl | by left]].
    destruct (fl_rest f) as [|sp rest] eqn:Hrest.
    + pose proof (emit_end_evolves (sig_var w (fl_sig f)) (fl_local f)
                    (fl_need f) w) as Hev.
      pose proof (emit_end_quiet (sig_var w (fl_sig f)) (fl_local f)
                    (fl_need f) w) as [Hl Hn].
      assert (Hstep : cf_world (step (mk_config Running w (FLoop f :: k) p))
                = emit_end (sig_var w (fl_sig f)) (fl_local f) (fl_need f) w).
      { unfold step. simpl. by rewrite Hrest. }
      rewrite Hstep. cbn [cf_world].
      split; [apply Hev|]. left. intros s. by rewrite Hl.
    + pose proof (emit_visit_evolves sp (fl_need f) w) as Hev.
      pose proof (emit_visit_quiet sp (fl_need f) w) as [Hl Hn].
      destruct (emit_visit sp (fl_need f) w) as [[w1 need] callee] eqn:Hvis.
      simpl in Hev, Hl, Hn.
      destruct callee as [fn|].
      * assert (Hstep : cf_world (step (mk_config Running w (FLoop f :: k) p))
                  = add_event (Invoked (fl_id f) sp) w1).
        { unfold step. simpl. by rewrite Hrest, Hvis. }
        rewrite Hstep. simpl. split; [apply Hev|]. right. exists sp.
        apply emit_visit_invoke in Hvis
          as (r & r1 & Hr & -> & Hcall & Hr1 & _ & Hsingle & _).
        exists f, k, rest, r. rewrite Hstep. simpl. rewrite Hl.
        split_and!; try done. intros Hss. by apply Hsingle.
      * assert (Hstep : cf_world (step (mk_config Running w (FLoop f :: k) p))
                  = w1).
        { unfold step. simpl. by rewrite Hrest, Hvis. }
        rewrite Hstep. simpl. split; [apply Hev|]. left. intros s. by rewrite Hl.
Qed.

Lemma calls_count c sp s :
  calls c sp →
  invocations s (log (cf_world (step c)))
  = invocations s (log (cf_world c)) + (if Nat.eqb sp s then 1 else 0).
Proof.
  intros (f & k & rest & r & _ & _ & _ & _ & _ & _ & ->).
  rewrite invocations_app. unfold invocations at 2. simpl.
  by destruct (sp =? s).
Qed.

(** The invocation counts never decrease. *)
Lemma step_count_mono c s :
  invocations s (log (cf_world c)) ≤ invocations s (log (cf_world (step c))).
Proof.
  destruct (step_spec c) as [_ [H|[sp H]]].
  - by rewrite H.
  - rewrite (calls_count _ _ s H). lia.
Qed.

Lemma run_S n c : run (S n) c = step (run n c).
Proof. done. Qed.

Lemma run_step n c : run (S n) c = run n (step c).
Proof.
  induction n as [|n IH]; [done|].
  rewrite run_S, IH. done.
Qed.

Lemma run_count_mono n c s :
  invocations s (log (cf_world c)) ≤ invocations s (log (cf_world (run n c))).
Proof.
  induction n as [|n IH]; [done|].
  rewrite run_S. etrans; [exact IH | apply step_count_mono].
Qed.

(** A slot that is pending removal stays so and is never called. *)
Lemma pending_step c s r :
  slots (cf_world c) !! s = Some r → pending_removal r = true →
  invocations s (log (cf_world (step c))) = invocations s (log (cf_world c)) ∧
  ∃ r', slots (cf_world (step c)) !! s = Some r' ∧ pending_removal r' = true.
Proof.
  intros Hr Hp. destruct (step_spec c) as [Hh Hc]. split.
  - destruct Hc as [H|[sp H]]; [done|].
    rewrite (calls_count _ _ s H).
    destruct (Nat.eqb_spec sp s) as [->|Hne]; [|lia].
    destruct H as (f & k & rest & r0 & _ & _ & _ & Hr0 & Hcall & _).
    assert (r0 = r) as -> by congruence.
    unfold is_callable in Hcall. rewrite Hp in Hcall.
    by destruct (blocked r).
  - destruct (Hh _ _ Hr) as (r' & Hr' & Hle). exists r'.
    split; [done | by apply Hle].
Qed.

Lemma pending_run n c s r :
  slots (cf_world c) !! s = Some r → pending_removal r = true →
  invocations s (log (cf_world (run n c))) = invocations s (log (cf_world c)) ∧
  ∃ r', slots (cf_world (run n c)) !! s = Some r' ∧ pending_removal r' = true.
Proof.
  intros Hr Hp. induction n as [|n IH]; [eauto|].
  destruct IH as (Hcnt & r' & Hr' & Hp').
  rewrite run_S. destruct (pending_step _ _ _ Hr' Hp') as (Hc & r2 & Hr2 & Hp2).
  split; [congruence | eauto].
Qed.

(** * The specification *)

Lemma sorted_pair (R : relation nat) l1 a l2 b l3 :
  StronglySorted R (l1 ++ a :: l2 ++ b :: l3) → R a b.
Proof.
  intros H. apply StronglySorted_app in H as (_ & _ & H).
  apply StronglySorted_inv in H as [_ H].
  rewrite Forall_forall in H. apply H.
  apply elem_of_app. right. by left.
Qed.

(** C1. Within one emission, a slot invoked before another has the
    higher priority or, at equal priority, was registered first: if
    emission [em] invoked [a] and later [b], then [b]'s priority is
    below [a]'s, or the priorities are equal and [a] was allocated
    (hence connected) before [b]. Holds in every reachable state,
    whatever callbacks did in between. The sort the cleanup pass
    runs orders by descending priority and is stable. *)
Theorem emission_order :
  (∀ prog n em a b l1 l2 l3,
     let w := cf_world (run n (init prog)) in
     log w = l1 ++ Invoked em a :: l2 ++ Invoked em b :: l3 →
     (slot_priority (slots w) b < slot_priority (slots w) a)%Z ∨
     (slot_priority (slots w) a = slot_priority (slots w) b ∧ a < b)) ∧
  (∀ prog n em a b,
     let w := cf_world (run n (init prog)) in
     Invoked em a ∈ log w → Invoked em b ∈ log w →
     (slot_priority (slots w) b < slot_priority (slots w) a)%Z ∨
     (slot_priority (slots w) a = slot_priority (slots w) b ∧ a < b) →
     ∃ l1 l2 l3, log w = l1 ++ Invoked em a :: l2 ++ Invoked em b :: l3) ∧
  (∀ prio l,
     StronglySorted (λ a b, (prio b ≤ prio a)%Z) (stable_sort prio l) ∧
     stable_sort prio l ≡ₚ l ∧
     ∀ p, List.filter (λ y, (prio y =? p)%Z) (stable_sort prio l)
          = List.filter (λ y, (prio y =? p)%Z) l) ∧
  (∀ this f p ss t w i im,
     impl_ this = Some i → get_impl w i = Some im →
     let '(c, w') := connect_impl this f p ss t w in
     conn_slot_ c = Some (length (slots w)) ∧
     slots w' !! length (slots w) = Some (slot_new f p ss t) ∧
     ∃ im', get_impl w' i = Some im' ∧
       slots_ im' = slots_ im ++ [length (slots w)]).
Proof.
  assert (Hord : ∀ prog n em a b l1 l2 l3,
    log (cf_world (run n (init prog)))
    = l1 ++ Invoked em a :: l2 ++ Invoked em b :: l3 →
    before (slot_priority (slots (cf_world (run n (init prog))))) a b).
  { intros prog n em a b l1 l2 l3 Hlog.
    pose proof (inv_order _ (Inv_reachable prog n) em) as Hs.
    apply StronglySorted_app in Hs as (_ & Hs & _).
    rewrite Hlog in Hs.
    change (Invoked em a :: l2 ++ Invoked em b :: l3)
      with ([Invoked em a] ++ l2 ++ [Invoked em b] ++ l3) in Hs.
    rewrite !invoked_in_app in Hs. unfold invoked_in at 2 4 in Hs.
    simpl in Hs. rewrite Nat.eqb_refl in Hs. simpl in Hs.
    by apply sorted_pair in Hs. }
  split_and!.
  - intros prog n em a b l1 l2 l3 w. apply Hord.
  - intros prog n em a b w Ha Hb Hab.
    apply list_elem_of_split in Ha as (l1 & l2 & Hlog).
    rewrite Hlog in Hb. apply elem_of_app in Hb as [Hb|Hb].
    + exfalso. apply list_elem_of_split in Hb as (m1 & m2 & ->).
      rewrite <- app_assoc in Hlog. simpl in Hlog.
      apply Hord in Hlog. fold w in Hlog.
      eapply before_irrefl, before_trans; [exact Hab | exact Hlog].
    + apply elem_of_cons in Hb as [Hb|Hb].
      * exfalso. simplify_eq. by eapply before_irrefl.
      * apply list_elem_of_split in Hb as (m1 & m2 & ->). eauto.
  - intros prio l. split_and!.
    + apply stable_sort_desc.
    + apply stable_sort_perm.
    + intros p. apply stable_sort_stable.
  - intros this f p ss t w i im Hi Hg. unfold connect_impl. rewrite Hi, Hg.
    split_and!; [done | |].
    + simpl. rewrite lookup_app_r by lia. by rewrite Nat.sub_diag.
    + eexists. split; [by eapply get_put_impl_eq|]. done.
Qed.

Lemma emission_order_witness :
  let w := cf_world (run 20 (init order_demo)) in
  log w = [] ++ Invoked 0 1 :: [Recorded 2%Z] ++ Invoked 0 0 ::
            [Recorded 1%Z; Invoked 0 2; Recorded 3%Z] ∧
  ((slot_priority (slots w) 0 < slot_priority (slots w) 1)%Z ∨
   (slot_priority (slots w) 1 = slot_priority (slots w) 0 ∧ 1 < 0)).
Proof.
  split; [vm_compute; reflexivity|].
  apply (proj1 emission_order order_demo 20 0 1 0 []
           [Recorded 2%Z] [Recorded 1%Z; Invoked 0 2; Recorded 3%Z]).
  vm_compute. reflexivity.
Defined.

(** C2. A single-shot slot is invoked at most once in any
    execution. [try_acquire_execution] moves [executed] from false to
    true and succeeds exactly when it was false, fails without a
    change once it is true (the loop then does not call the slot),
    and always succeeds without a change for other slots. When the
    loop calls a single-shot slot, the record it leaves before the
    callback runs has [executed] and [pending_removal] set. *)
Theorem single_shot_once :
  (∀ prog n s r,
     let w := cf_world (run n (init prog)) in
     slots w !! s = Some r → single_shot r = true →
     invocations s (log w) ≤ 1) ∧
  (∀ r, single_shot r = true →
     try_acquire_execution r
     = if executed r then (false, r) else (true, set_executed true r)) ∧
  (∀ r, single_shot r = false → try_acquire_execution r = (true, r)) ∧
  (∀ sp need w r, slots w !! sp = Some r →
     single_shot r = true → executed r = true →
     emit_visit sp need w = (w, need, None) ∨
     ∃ w1, emit_visit sp need w = (w1, true, None)) ∧
  (∀ sp need w w1 need' fn r, slots w !! sp = Some r →
     single_shot r = true →
     emit_visit sp need w = (w1, need', Some fn) →
     executed r = false ∧ need' = true ∧
     ∃ r1, slots w1 !! sp = Some r1 ∧
       executed r1 = true ∧ pending_removal r1 = true).
Proof.
  split_and!.
  - intros prog n s r w Hr Hss.
    pose proof (inv_once _ (Inv_reachable prog n) s r Hr Hss) as H.
    fold w in H. destruct (executed r); lia.
  - intros r Hss. unfold try_acquire_execution. by rewrite Hss.
  - intros r Hss. unfold try_acquire_execution. by rewrite Hss.
  - intros sp need w r Hr Hss He. unfold emit_visit. rewrite Hr.
    destruct (has_tracked_object r && expired (objs w) (tracked r)); [eauto|].
    destruct (is_callable (objs w) r); simpl; [|by left].
    unfold try_acquire_execution. rewrite Hss, He. by left.
  - intros sp need w w1 need' fn r Hr Hss Hvis.
    apply emit_visit_invoke in Hvis
      as (r0 & r1 & Hr0 & -> & _ & Hr1 & _ & Hsingle & _).
    assert (r0 = r) as -> by congruence.
    destruct (Hsingle Hss) as (? & ? & ? & ?). eauto 10.
Qed.

Lemma single_shot_once_witness :
  let w := cf_world (run 20 (init once_demo)) in
  slots w !! 0 = Some (mk_slot (mk_function None [ARecord 1; AEmit 0])
                         0 false true true true None 0) ∧
  invocations 0 (log w) ≤ 1.
Proof.
  split; [vm_compute; reflexivity|].
  apply (proj1 single_shot_once once_demo 20 0
           (mk_slot (mk_function None [ARecord 1; AEmit 0])
              0 false true true true None 0));
    vm_compute; reflexivity.
Defined.

(** ** Exceptions *)

Lemma nest_step base c :
  in_progress base c →
  in_progress base (step c) ∨ returned base (step c).
Proof.
  destruct c as [m w k p]. intros (inner & Hk & Hn & Hm).
  simpl in Hk, Hm. subst k. unfold step. simpl.
  destruct Hn as [f|b f k Hn|f b k Hn]; simpl.
  - (* the loop frame of the emission itself *)
    destruct m.
    + destruct (fl_rest f) as [|sp rest].
      * right. by split.
      * destruct (emit_visit sp (fl_need f) w) as [[w1 need] [fn|]]; left.
        -- eexists (FBody _ :: [FLoop _]). split_and!; [done | | done].
           apply nest_body, nest_loop.
        -- eexists [FLoop _]. split_and!; [done | apply nest_loop | done].
    + left. exists [FLoop f]. split_and!; [done | apply nest_loop | done].
  - (* a callback *)
    destruct m; [|by destruct (Hm eq_refl) as (? & ? & ?)].
    left. destruct b as [|a rest].
    + exists (FLoop f :: k). split_and!; [done | done | done].
    + destruct (exec_action a w) as [[m1 w1] fo] eqn:He.
      destruct m1, fo as [f'|].
      * exists (FLoop f' :: FBody rest :: FLoop f :: k).
        split_and!; [done | by apply nest_emit, nest_body | done].
      * exists (FBody rest :: FLoop f :: k).
        split_and!; [done | by apply nest_body | done].
      * exists (FLoop f :: k). split_and!; [done | done | eauto].
        intros _. eauto.
      * exists (FLoop f :: k). split_and!; [done | done |].
        intros _. eauto.
  - (* a nested emission *)
    left. destruct m.
    + destruct (fl_rest f) as [|sp rest].
      * exists (FBody b :: k). split_and!; [done | done | done].
      * destruct (emit_visit sp (fl_need f) w) as [[w1 need] [fn|]].
        -- eexists (FBody _ :: FLoop _ :: FBody b :: k).
           split_and!; [done | by apply nest_body, nest_emit | done].
        -- eexists (FLoop _ :: FBody b :: k).
           split_and!; [done | by apply nest_emit | done].
    + exists (FLoop f :: FBody b :: k).
      split_and!; [done | by apply nest_emit | done].
Qed.

(** C3. An exception thrown by a callback is caught and discarded at
    the emission that called it.
    - Throwing leaves the emission exactly where returning does: same
      world, same loop frame, same slots still to visit.
    - An exception in flight at a loop frame is discarded by the next
      step, which resumes the loop.
    - Whatever the callbacks do, an emission entered from a caller
      either is still in progress or has returned to that caller in
      normal mode: no exception reaches the caller of [emit]. *)
Theorem exceptions_discarded :
  (∀ w b f k p,
     run 2 (mk_config Running w (FBody (AThrow :: b) :: FLoop f :: k) p)
     = step (mk_config Running w (FBody [] :: FLoop f :: k) p)) ∧
  (∀ w f k p,
     step (mk_config Unwinding w (FLoop f :: k) p)
     = mk_config Running w (FLoop f :: k) p) ∧
  (∀ w v rest k p n,
     let c0 := mk_config Running w (FBody (AEmit v :: rest) :: k) p in
     in_progress (FBody rest :: k) (run (S n) c0) ∨
     ∃ m, m ≤ n ∧ returned (FBody rest :: k) (run (S m) c0)).
Proof.
  split_and!; [done | done |].
  intros w v rest k p n c0.
  assert (H1 : in_progress (FBody rest :: k) (step c0) ∨
               returned (FBody rest :: k) (step c0)).
  { unfold c0, step. simpl.
    destruct (emit_begin (sig_var w v) w) as [[local_slots|] w1].
    - left. eexists [FLoop _]. split_and!; [done | apply nest_loop | done].
    - right. by split. }
  induction n as [|n IH].
  - destruct H1 as [?|?]; [by left|]. right. exists 0. split; [lia | done].
  - destruct IH as [Hp|(m & Hm & Hr)].
    + rewrite run_S. destruct (nest_step _ _ Hp) as [?|?]; [by left|].
      right. exists (S n). split; [lia | done].
    + right. exists m. split; [lia | done].
Qed.

Example throw_demo_runs :
  recorded (log (cf_world (run 30 (init throw_demo)))) = [1; 1; 7]%Z ∧
  invoked_in 0 (log (cf_world (run 30 (init throw_demo)))) = [0; 1; 2] ∧
  cf_mode (run 30 (init throw_demo)) = Running ∧
  cf_prog (run 30 (init throw_demo)) = [].
Proof. vm_compute. done. Qed.

(** ** Disconnection *)

Lemma run_add a b c : run (a + b) c = run a (run b c).
Proof. unfold run. apply Nat.iter_add. Qed.

Lemma run_heap_le n c :
  heap_le (slots (cf_world c)) (slots (cf_world (run n c))).
Proof.
  induction n as [|n IH]; [apply heap_le_refl|].
  rewrite run_S. eapply heap_le_trans; [exact IH | apply step_spec].
Qed.

Lemma slot_pending_Some sl s :
  s < length sl → slot_pending sl s = true →
  ∃ r, sl !! s = Some r ∧ pending_removal r = true.
Proof.
  intros Hlt. unfold slot_pending.
  destruct (lookup_lt_is_Some_2 sl s Hlt) as [r ->]. eauto.
Qed.

(** C4. After [disconnect()] on a handle whose shared state and slot
    record both still exist, [is_connected()] is false and the slot
    is never invoked again: from the world the call leaves, whatever
    the machine still has to do (the rest of the callback that made
    the call, the emissions in progress, the rest of the program),
    the number of invocations of the slot stays what it was. *)
Theorem disconnect_stops_invocation w c i s :
  impl_lock w c = Some i → slot_lock w c = Some s →
  let w' := conn_disconnect c w in
  is_connected c w' = false ∧
  ∀ m k p n,
    invocations s (log (cf_world (run n (mk_config m w' k p))))
    = invocations s (log w').
Proof.
  intros Hi Hs w'. unfold w', conn_disconnect. rewrite Hi, Hs.
  unfold impl_lock in Hi. destruct (conn_impl_ c) as [i'|]; [|done].
  destruct (get_impl w i') as [im|] eqn:Hg; [|done]. simplify_eq.
  unfold slot_lock in Hs. destruct (conn_slot_ c) as [s'|] eqn:Hc; [|done].
  destruct (slots w !! s') as [r|] eqn:Hr; [|done].
  destruct (0 <? use_count r) eqn:Hu; [|done]. simplify_eq.
  unfold disconnect_slot. rewrite Hg.
  assert (Hr' : slots (put_impl i (set_dirty true im) (mark_pending s w)) !! s
                = Some (set_pending_removal true r)).
  { simpl. by rewrite list_lookup_alter_eq, Hr. }
  split.
  - unfold is_connected, slot_lock, slot_pending. rewrite Hc. simpl.
    rewrite list_lookup_alter_eq, Hr. simpl. rewrite Hu.
    by rewrite list_lookup_alter_eq, Hr.
  - intros m k p n.
    by destruct (pending_run n (mk_config m _ k p) s _ Hr' eq_refl) as [-> _].
Qed.

Lemma disconnect_stops_invocation_witness :
  let w := cf_world (run 20 (init disconnect_demo)) in
  let c := conn_var w 0 in
  (impl_lock w c = Some 0 ∧ slot_lock w c = Some 0) ∧
  is_connected c w = true ∧
  is_connected c (conn_disconnect c w) = false ∧
  invocations 0
    (log (cf_world (run 20 (mk_config Running (conn_disconnect c w) []
                              [CAct (AEmit 0); CAct (AEmit 0)])))) = 1.
Proof.
  intros w c.
  assert (Hi : impl_lock w c = Some 0) by (vm_compute; reflexivity).
  assert (Hs : slot_lock w c = Some 0) by (vm_compute; reflexivity).
  destruct (disconnect_stops_invocation w c 0 0 Hi Hs) as [Hc Hn].
  split_and!; [done | done | vm_compute; reflexivity | done |].
  rewrite Hn. vm_compute. reflexivity.
Defined.

(** A slot that disconnects itself and fires the signal again from
    inside its own callback runs once, however often the signal is
    fired afterwards. *)
Example self_disconnect_runs_once :
  let prog := [CNewSignal;
               CAct (AConnect 0 0 [ARecord 1; AConnDisconnect 0; AEmit 0]);
               CAct (AConnect 0 (-1) [ARecord 2]);
               CAct (AEmit 0); CAct (AEmit 0)] in
  recorded (log (cf_world (run 60 (init prog)))) = [1; 2; 2; 2]%Z ∧
  invocations 0 (log (cf_world (run 60 (init prog)))) = 1.
Proof. vm_compute. done. Qed.

(** C9. When a callback calls [disconnect_all()] on a signal, no slot
    still to be visited by an emission of that signal in progress is
    invoked, in that emission or ever after. *)
Theorem disconnect_all_skips_rest prog n v b k f s :
  let c := run n (init prog) in
  cf_mode c = Running →
  cf_stack c = FBody (ADisconnectAll v :: b) :: k →
  FLoop f ∈ k → fl_sig f = v → s ∈ fl_rest f →
  ∀ m, invocations s (log (cf_world (run m (step c))))
       = invocations s (log (cf_world c)).
Proof.
  intros c Hm Hk Hf Hv Hs m.
  pose proof (Inv_reachable prog n) as HI. fold c in HI.
  destruct c as [md w k0 p]. simpl in Hm, Hk. subst md k0.
  assert (Hfo : frame_ok w f).
  { apply (inv_frames _ HI). simpl. by right. }
  destruct (Hfo s Hs) as [Hlt Hc].
  assert (Hstep : cf_world (step (mk_config Running w
                    (FBody (ADisconnectAll v :: b) :: k) p))
                  = disconnect_all (sig_var w v) w) by done.
  pose proof (disconnect_all_evolves (sig_var w v) w) as Hev.
  pose proof (disconnect_all_quiet (sig_var w v) w) as [Hl _].
  assert (Hp : slot_pending (slots (disconnect_all (sig_var w v) w)) s = true).
  { destruct Hc as [Hp|(i & im & Hi & Hg & Hin)].
    - eapply heap_le_pending; [apply Hev | done | done].
    - rewrite Hv in Hi. unfold disconnect_all. rewrite Hi, Hg. simpl.
      destruct (mark_all_frame (slots_ im) w) as (_ & _ & _ & _ & _ & _ & Hle).
      eapply heap_le_pending; [apply heap_le_release_all | |].
      + apply heap_le_length in Hle. lia.
      + by apply mark_all_pending. }
  apply slot_pending_Some in Hp as (r & Hr & Hpr).
  2:{ pose proof (heap_le_length _ _ (ev_heap _ _ Hev)). lia. }
  rewrite <- Hstep in Hr.
  destruct (pending_run m _ s r Hr Hpr) as [-> _].
  rewrite Hstep. simpl. by rewrite Hl.
Qed.

Lemma disconnect_all_skips_rest_witness :
  let c := run 11 (init disconnect_all_demo) in
  let f := mk_loop 0 0 [0; 1] [1] false in
  (cf_mode c = Running ∧
   cf_stack c = FBody (ADisconnectAll 0 :: []) :: [FLoop f; FBody []] ∧
   FLoop f ∈ [FLoop f; FBody []] ∧ fl_sig f = 0 ∧ 1 ∈ fl_rest f) ∧
  invocations 1 (log (cf_world (run 20 (step c)))) = 0.
Proof.
  intros c f.
  assert (Hm : cf_mode c = Running) by (vm_compute; reflexivity).
  assert (Hk : cf_stack c = FBody (ADisconnectAll 0 :: []) :: [FLoop f; FBody []])
    by (vm_compute; reflexivity).
  assert (Hf : FLoop f ∈ [FLoop f; FBody []]) by (by left).
  assert (Hs : 1 ∈ fl_rest f) by (by left).
  split; [done|].
  etrans;
    [exact (disconnect_all_skips_rest disconnect_all_demo 11 0 [] _ f 1
              Hm Hk Hf eq_refl Hs 20)|].
  vm_compute. reflexivity.
Defined.

(** ** Skipped single-shot slots *)

Lemma emit_visit_callable sp need w r :
  slots w !! sp = Some r → is_callable (objs w) r = true →
  (single_shot r = true → executed r = false) →
  ∃ w1 need1, emit_visit sp need w = (w1, need1, Some (func r)).
Proof.
  intros Hr Hc He. unfold emit_visit. rewrite Hr.
  unfold is_callable in *.
  destruct (blocked r); [done|]. destruct (pending_removal r); [done|].
  destruct (has_tracked_object r && expired (objs w) (tracked r)); [done|].
  simpl. unfold try_acquire_execution.
  destruct (single_shot r); simpl; [|eauto].
  rewrite He by done. simpl. eauto.
Qed.

(** C10. A single-shot slot the loop skips because it is not callable
    keeps its execution: the visit calls nothing and leaves
    [executed] as it was. When the loop later visits the slot while
    it is callable and not yet executed, it calls it, and from then
    on the slot has been invoked exactly once, for ever. *)
Theorem skipped_once_keeps_execution :
  (∀ w sp need r,
     slots w !! sp = Some r → is_callable (objs w) r = false →
     ∃ w1 need1, emit_visit sp need w = (w1, need1, None) ∧
       ∃ r1, slots w1 !! sp = Some r1 ∧ executed r1 = executed r) ∧
  (∀ prog n f k sp rest r,
     let c := run n (init prog) in
     cf_mode c = Running → cf_stack c = FLoop f :: k →
     fl_rest f = sp :: rest →
     slots (cf_world c) !! sp = Some r →
     single_shot r = true → executed r = false →
     is_callable (objs (cf_world c)) r = true →
     ∀ m, invocations sp (log (cf_world (run (S m) c))) = 1).
Proof.
  split.
  - intros w sp need r Hr Hc. unfold emit_visit. rewrite Hr.
    destruct (has_tracked_object r && expired (objs w) (tracked r)).
    + do 2 eexists. split; [done|]. simpl.
      rewrite list_lookup_alter_eq, Hr. simpl. eauto.
    + rewrite Hc. simpl. do 2 eexists. split; [done|]. eauto.
  - intros prog n f k sp rest r c Hm Hk Hrest Hr Hss He Hcall m.
    pose proof (Inv_reachable prog n) as HI. fold c in HI.
    pose proof (inv_once _ HI sp r Hr Hss) as H0. rewrite He in H0.
    assert (H1 : invocations sp (log (cf_world (step c))) = 1).
    { destruct (emit_visit_callable sp (fl_need f) _ r Hr Hcall)
        as (w1 & need1 & Hvis); [done|].
      pose proof (emit_visit_quiet sp (fl_need f) (cf_world c)) as [Hl _].
      rewrite Hvis in Hl. simpl in Hl.
      destruct c as [md w k0 p]. simpl in *. subst md k0.
      unfold step. simpl. rewrite Hrest, Hvis. simpl.
      rewrite Hl, invocations_app. unfold invocations at 2. simpl.
      rewrite Nat.eqb_refl. simpl. lia. }
    apply Nat.le_antisymm.
    + destruct (run_heap_le (S m) c sp r Hr) as (r' & Hr' & Hle).
      assert (Hrun : run (S m) c = run (S m + n) (init prog))
        by (by rewrite run_add).
      rewrite Hrun in Hr' |- *.
      pose proof (inv_once _ (Inv_reachable prog (S m + n)) sp r' Hr') as H2.
      rewrite (sle_single _ _ Hle) in H2. specialize (H2 Hss).
      destruct (executed r'); lia.
    + rewrite run_step, <- H1. apply run_count_mono.
Qed.

Lemma skipped_once_keeps_execution_witness :
  let blocked_once :=
    mk_slot (mk_function None [ARecord 1]) 0 true false false true None 2 in
  let ready_once :=
    mk_slot (mk_function None [ARecord 1]) 0 false false false true None 2 in
  let c9 := run 9 (init once_blocked_demo) in
  let c17 := run 17 (init once_blocked_demo) in
  let f := mk_loop 1 0 [0] [0] false in
  (slots (cf_world c9) !! 0 = Some blocked_once ∧
   is_callable (objs (cf_world c9)) blocked_once = false) ∧
  (∃ w1 need1, emit_visit 0 false (cf_world c9) = (w1, need1, None) ∧
     ∃ r1, slots w1 !! 0 = Some r1 ∧ executed r1 = executed blocked_once) ∧
  (cf_mode c17 = Running ∧ cf_stack c17 = FLoop f :: [FBody []] ∧
   fl_rest f = 0 :: [] ∧ slots (cf_world c17) !! 0 = Some ready_once ∧
   single_shot ready_once = true ∧ executed ready_once = false ∧
   is_callable (objs (cf_world c17)) ready_once = true) ∧
  invocations 0 (log (cf_world (run (S 30) c17))) = 1.
Proof.
  intros blocked_once ready_once c9 c17 f.
  assert (H1 : slots (cf_world c9) !! 0 = Some blocked_once)
    by (vm_compute; reflexivity).
  assert (H2 : is_callable (objs (cf_world c9)) blocked_once = false)
    by (vm_compute; reflexivity).
  assert (H3 : cf_mode c17 = Running) by (vm_compute; reflexivity).
  assert (H4 : cf_stack c17 = FLoop f :: [FBody []]) by (vm_compute; reflexivity).
  assert (H5 : slots (cf_world c17) !! 0 = Some ready_once)
    by (vm_compute; reflexivity).
  assert (H6 : is_callable (objs (cf_world c17)) ready_once = true)
    by (vm_compute; reflexivity).
  split; [exact (conj H1 H2)|].
  split; [exact (proj1 skipped_once_keeps_execution _ 0 false _ H1 H2)|].
  split.
  { split; [exact H3|]. split; [exact H4|]. split; [reflexivity|].
    split; [exact H5|]. split; [reflexivity|]. split; [reflexivity | exact H6]. }
  exact (proj2 skipped_once_keeps_execution once_blocked_demo 17 f _ 0 []
           ready_once H3 H4 eq_refl H5 eq_refl eq_refl H6 30).
Defined.

(** ** Tags *)

Lemma tracks_mark_pending x w s t : tracks (mark_pending x w) s t = tracks w s t.
Proof.
  unfold tracks. simpl. destruct (decide (x = s)) as [->|Hne].
  - rewrite list_lookup_alter_eq. by destruct (slots w !! s).
  - by rewrite list_lookup_alter_ne.
Qed.

(** The loop of [disconnect(tag)] sets [pending_removal] on the slots
    of the list whose tracked reference locks to the tag object, and
    changes nothing else. *)
Lemma mark_tracking_lookup t l w s r :
  slots w !! s = Some r →
  slots (mark_tracking t l w) !! s
  = Some (if bool_decide (s ∈ l) && tracks w s t
          then set_pending_removal true r else r).
Proof.
  revert w r. induction l as [|x l IH]; intros w r Hr; simpl; [done|].
  set (w1 := if tracks w x t then mark_pending x w else w).
  assert (Ht : tracks w1 s t = tracks w s t).
  { unfold w1. destruct (tracks w x t); [apply tracks_mark_pending | done]. }
  destruct (decide (s = x)) as [->|Hne].
  - rewrite bool_decide_eq_true_2 by (by left). simpl.
    destruct (tracks w x t) eqn:Hx.
    + rewrite (IH w1 (set_pending_removal true r)).
      * by destruct (bool_decide (x ∈ l) && tracks w1 x t).
      * unfold w1. simpl. by rewrite list_lookup_alter_eq, Hr.
    + rewrite (IH w1 r Hr), Ht. by rewrite andb_false_r.
  - assert (Hr1 : slots w1 !! s = Some r).
    { unfold w1. destruct (tracks w x t); [|done].
      simpl. by rewrite list_lookup_alter_ne. }
    rewrite (IH w1 r Hr1), Ht.
    destruct (decide (s ∈ l)) as [Hin|Hnin].
    + by rewrite !bool_decide_eq_true_2 by (by try right).
    + rewrite !bool_decide_eq_false_2; [done | | done].
      intros Hin. by apply elem_of_cons in Hin as [?|?].
Qed.

Lemma mark_tracking_length t l w :
  length (slots (mark_tracking t l w)) = length (slots w).
Proof.
  revert w. induction l as [|x l IH]; intros w; simpl; [done|].
  rewrite IH. destruct (tracks w x t); [|done]. simpl. apply length_alter.
Qed.

Lemma find_tag_split tag l t :
  List.find (tag_named tag) l = Some t →
  ∃ l1 l2, l = l1 ++ t :: l2 ∧ snd t = tag ∧
    (∀ t', t' ∈ l1 → snd t' ≠ tag) ∧ erase_tag tag l = l1 ++ l2.
Proof.
  induction l as [|x l IH]; simpl; [done|].
  unfold tag_named at 1 3. destruct (String.eqb_spec (snd x) tag) as [Heq|Hne].
  - intros [= <-]. exists [], l. split_and!; try done.
    intros t' Ht'. by apply elem_of_nil in Ht'.
  - intros Hf. destruct (IH Hf) as (l1 & l2 & -> & Hn & Hl1 & He).
    exists (x :: l1), l2. split_and!; try done.
    + intros t' Ht'. apply elem_of_cons in Ht' as [->|Ht']; auto.
    + simpl. by rewrite He.
Qed.

Lemma find_tag_none tag l :
  List.find (tag_named tag) l = None → ∀ t, t ∈ l → snd t ≠ tag.
Proof.
  intros Hf t Ht Heq. apply list_elem_of_In in Ht.
  apply (find_none _ _ Hf) in Ht. unfold tag_named in Ht.
  apply String.eqb_neq in Ht. done.
Qed.

(** Disconnecting [a] silences exactly its two slots; a second
    disconnect of [a], and one of a name never used, return false. *)
Example disconnect_tag_demo :
  let w := cf_world (run 40 (init tag_demo)) in
  let '(r1, w1) := disconnect_tag (sig_var w 0) "a" w in
  let '(r2, w2) := disconnect_tag (sig_var w1 0) "a" w1 in
  let '(r3, w3) := disconnect_tag (sig_var w2 0) "zz" w2 in
  recorded (log w) = [1; 2; 3; 4]%Z ∧
  (r1, r2, r3) = (true, false, false) ∧ w2 = w1 ∧ w3 = w2 ∧
  slot_count (sig_var w 0) w = 4 ∧ slot_count (sig_var w1 0) w1 = 2 ∧
  recorded (log (cf_world (run 40 (mk_config Running w1 [] [CAct (AEmit 0)]))))
  = [1; 2; 3; 4; 3; 4]%Z.
Proof. vm_compute. done. Qed.

(** ** Invalid owners *)

(** C7. A member-function connect with an empty shared owner or a
    null raw pointer leaves the world as it is (no slot is added, so
    [slot_count] is unchanged) and returns the default handle, on
    which [is_connected] and [is_blocked] are false and [disconnect],
    [block], [unblock] and [reset] do nothing. *)
Theorem invalid_owner_inert this body p w :
  connect_shared this None body p w = (connection_default, w) ∧
  connect_raw this true body p w = (connection_default, w) ∧
  slot_count this (snd (connect_shared this None body p w)) = slot_count this w ∧
  slot_count this (snd (connect_raw this true body p w)) = slot_count this w ∧
  (∀ w' b,
     is_connected connection_default w' = false ∧
     is_blocked connection_default w' = false ∧
     conn_disconnect connection_default w' = w' ∧
     conn_block connection_default b w' = w' ∧
     conn_unblock connection_default w' = w' ∧
     conn_reset connection_default = connection_default) ∧
  (∀ v o a,
     (a = AConnectShared v o p body ∧ owner_ptr w o = None) ∨
     a = AConnectRaw v true p body →
     ∃ w1, exec_action a w = (Running, w1, None) ∧
       slots w1 = slots w ∧ impls w1 = impls w ∧
       conns w1 = conns w ++ [connection_default] ∧
       slot_count (sig_var w1 v) w1 = slot_count (sig_var w v) w).
Proof.
  split_and!; try done.
  intros v o a [[-> Ho]| ->]; simpl; [rewrite Ho|];
    (eexists; split; [reflexivity|]; done).
Qed.

Lemma invalid_owner_inert_witness :
  let w := cf_world (run 10 (init invalid_owner_prog)) in
  let shared := AConnectShared 0 0 0 [ARecord 1] in
  let raw := AConnectRaw 0 true 0 [ARecord 2] in
  (valid (sig_var w 0) = true ∧ slot_count (sig_var w 0) w = 1 ∧
   owner_ptr w 0 = None ∧ owner_ptr w 1 = Some 1) ∧
  (∃ w1, exec_action shared w = (Running, w1, None) ∧
     slots w1 = slots w ∧ impls w1 = impls w ∧
     conns w1 = conns w ++ [connection_default] ∧
     slot_count (sig_var w1 0) w1 = slot_count (sig_var w 0) w) ∧
  (∃ w1, exec_action raw w = (Running, w1, None) ∧
     slots w1 = slots w ∧ impls w1 = impls w ∧
     conns w1 = conns w ++ [connection_default] ∧
     slot_count (sig_var w1 0) w1 = slot_count (sig_var w 0) w) ∧
  (let r := connect_shared (sig_var w 0) (owner_ptr w 1) [ARecord 1] 0 w in
   is_connected (fst r) (snd r) = true ∧
   slot_count (sig_var w 0) (snd r) = 2) ∧
  (let r := connect_raw (sig_var w 0) false [ARecord 2] 0 w in
   is_connected (fst r) (snd r) = true ∧
   slot_count (sig_var w 0) (snd r) = 2).
Proof.
  intros w shared raw.
  assert (Ho : owner_ptr w 0 = None) by (vm_compute; reflexivity).
  pose proof (proj2 (proj2 (proj2 (proj2 (proj2
    (invalid_owner_inert (sig_var w 0) [ARecord 1] 0 w)))))
    0 0 shared (or_introl (conj eq_refl Ho))) as Hs.
  pose proof (proj2 (proj2 (proj2 (proj2 (proj2
    (invalid_owner_inert (sig_var w 0) [ARecord 2] 0 w)))))
    0 0 raw (or_intror eq_refl)) as Hr.
  split; [vm_compute; auto|].
  split; [exact Hs|]. split; [exact Hr|].
  split; vm_compute; auto.
Defined.

(** An owner that has been released, or a null pointer, connected
    from a running program. *)
Example invalid_owner_demo :
  let prog := [CNewSignal; CNewOwner; CReleaseOwner 0;
               CAct (AConnectShared 0 0 0 [ARecord 1]);
               CAct (AConnectRaw 0 true 0 [ARecord 2]);
               CAct (AEmit 0)] in
  let w := cf_world (run 40 (init prog)) in
  slots w = [] ∧ conns w = [connection_default; connection_default] ∧
  log w = [] ∧ slot_count (sig_var w 0) w = 0.
Proof. vm_compute. done. Qed.

(** ** Moving a signal *)

Lemma mark_all_other l w s : s ∉ l → slots (mark_all l w) !! s = slots w !! s.
Proof.
  revert w. induction l as [|x l IH]; intros w Hs; [done|].
  apply not_elem_of_cons in Hs as [Hne Hs]. simpl.
  rewrite IH by done. simpl. by rewrite list_lookup_alter_ne.
Qed.

Lemma release_all_other l sl s : s ∉ l → release_all l sl !! s = sl !! s.
Proof.
  induction l as [|x l IH]; intros Hs; [done|].
  apply not_elem_of_cons in Hs as [Hne Hs]. simpl.
  rewrite list_lookup_alter_ne by done. by apply IH.
Qed.

(** ** The dirty flag *)

Lemma keeps_dirty_ext w w' : impls w' = impls w → keeps_dirty w w'.
Proof.
  intros H i im im' Hi Hi'. rewrite (get_impl_ext w w') in Hi' by done.
  congruence.
Qed.

Lemma keeps_dirty_put w w2 i im im' :
  get_impl w i = Some im → impls w2 = impls w →
  (dirty_ im = true → dirty_ im' = true) →
  keeps_dirty w (put_impl i im' w2).
Proof.
  intros Hi Himp Hd j jm jm' Hj Hj' Hdj.
  destruct (decide (i = j)) as [->|Hne].
  - erewrite get_put_impl_eq in Hj' by (by rewrite (get_impl_ext w w2)).
    simplify_eq. auto.
  - rewrite get_put_impl_ne, (get_impl_ext w w2) in Hj' by done. congruence.
Qed.

Lemma keeps_dirty_trans w1 w2 w3 :
  evolves w1 w2 → keeps_dirty w1 w2 → keeps_dirty w2 w3 → keeps_dirty w1 w3.
Proof.
  intros Hev H12 H23 i im im3 Hi Hi3 Hd.
  destruct (ev_members _ _ Hev i im Hi) as (im2 & Hi2 & _). eauto.
Qed.

Lemma connect_impl_dirty this f p ss t w :
  keeps_dirty w (snd (connect_impl this f p ss t w)).
Proof.
  unfold connect_impl. open_impl this w i im Hi ltac:(by apply keeps_dirty_ext).
  simpl. by eapply keeps_dirty_put.
Qed.

Lemma get_or_create_tag_dirty i name w :
  keeps_dirty w (snd (get_or_create_tag i name w)).
Proof.
  unfold get_or_create_tag.
  destruct (get_impl w i) as [im|] eqn:Hi; [|by apply keeps_dirty_ext].
  destruct (List.find _ _); [by apply keeps_dirty_ext|].
  simpl. by eapply keeps_dirty_put.
Qed.

Lemma connect_tag_dirty this tag body p w :
  keeps_dirty w (snd (connect_tag this tag body p w)).
Proof.
  unfold connect_tag. destruct (impl_ this) as [i|]; [|by apply keeps_dirty_ext].
  pose proof (get_or_create_tag_dirty i tag w) as Hd.
  pose proof (get_or_create_tag_evolves i tag w) as He.
  destruct (get_or_create_tag i tag w) as [tp w1]. simpl in *.
  eapply keeps_dirty_trans; [exact He | exact Hd | apply connect_impl_dirty].
Qed.

Lemma disconnect_tag_dirty this tag w :
  keeps_dirty w (snd (disconnect_tag this tag w)).
Proof.
  unfold disconnect_tag. open_impl this w i im Hi ltac:(by apply keeps_dirty_ext).
  destruct (List.find _ _) as [t|]; [|by apply keeps_dirty_ext].
  simpl. destruct (mark_tracking_frame (fst t) (slots_ im) w) as (Himp & _).
  intros j jm jm' Hj Hj'.
  rewrite (get_impl_ext (put_impl i (set_dirty true
             (set_tags (erase_tag tag (tags_ im)) im))
             (mark_tracking (fst t) (slots_ im) w))) in Hj' by done.
  revert j jm jm' Hj Hj'. by eapply keeps_dirty_put.
Qed.

Lemma conn_disconnect_dirty c w : keeps_dirty w (conn_disconnect c w).
Proof.
  unfold conn_disconnect, disconnect_slot.
  destruct (impl_lock w c) as [i|]; [|by apply keeps_dirty_ext].
  destruct (slot_lock w c) as [s|]; [|by apply keeps_dirty_ext].
  destruct (get_impl w i) as [im|] eqn:Hi; [|by apply keeps_dirty_ext].
  by eapply keeps_dirty_put.
Qed.

Lemma conn_block_dirty c b w : keeps_dirty w (conn_block c b w).
Proof.
  unfold conn_block. destruct (slot_lock w c); by apply keeps_dirty_ext.
Qed.

Lemma emit_visit_dirty sp need w : keeps_dirty w (emit_visit sp need w).1.1.
Proof.
  apply keeps_dirty_ext. unfold emit_visit, try_acquire_execution.
  by repeat case_match; simplify_eq.
Qed.

Lemma emit_end_dirty this local_slots need w :
  keeps_dirty w (emit_end this local_slots need w).
Proof.
  unfold emit_end. intros j jm jm' Hj Hj'.
  match type of Hj' with
  | get_impl (set_slots _ ?w1) _ = _ =>
      rewrite (get_impl_ext w1) in Hj' by done; revert j jm jm' Hj Hj';
      fold (keeps_dirty w w1)
  end.
  destruct need; [|by apply keeps_dirty_ext].
  open_impl this w i im Hi ltac:(by apply keeps_dirty_ext).
  by eapply keeps_dirty_put.
Qed.

Lemma exec_command_dirty cmd w :
  keeps_dirty w (fst (exec_command cmd w)).
Proof.
  destruct cmd; simpl; try (by apply keeps_dirty_ext).
  - intros i im im' Hi Hi' Hd. unfold get_impl in *. simpl in Hi'.
    destruct (impls w !! i) as [o|] eqn:E; [|done].
    rewrite (lookup_app_l_Some _ _ _ _ E) in Hi'. congruence.
  - unfold move_assign. destruct (dst =? src); [by apply keeps_dirty_ext|].
    intros i im im' Hi Hi' Hd.
    rewrite (get_impl_ext (impl_release (sig_var w dst)
               (disconnect_all (sig_var w dst) w))) in Hi' by done.
    revert Hi'. unfold impl_release, disconnect_all.
    destruct (impl_ (sig_var w dst)) as [j|]; [|congruence].
    destruct (get_impl w j) as [jm|] eqn:Hj.
    + destruct (mark_all_frame (slots_ jm) w) as (Himp & _).
      unfold get_impl in *. simpl.
      destruct (decide (j = i)) as [->|Hne].
      * rewrite list_lookup_insert_eq; [done|].
        rewrite length_insert, Himp.
        destruct (impls w !! i) eqn:E; [|done]. by eapply lookup_lt_Some.
      * rewrite !list_lookup_insert_ne, Himp by done. congruence.
    + unfold get_impl in *. simpl.
      destruct (decide (j = i)) as [->|Hne].
      * by rewrite Hi in Hj.
      * rewrite list_lookup_insert_ne by done. congruence.
  - destruct (owner_ptr w o); by apply keeps_dirty_ext.
Qed.

(** The two operations that clear a dirty flag. *)
Lemma exec_action_dirty a w m w1 fo i im im' :
  exec_action a w = (m, w1, fo) →
  get_impl w i = Some im → get_impl w1 i = Some im' →
  dirty_ im = true → dirty_ im' = false →
  ∃ v, impl_ (sig_var w v) = Some i ∧
    ((a = AEmit v ∧ slots_ im ≠ [] ∧ tags_ im' = tags_ im ∧
      slots_ im' = stable_sort (slot_priority (slots w))
                     (cleanup_keep (slots w) (slots_ im))) ∨
     (a = ADisconnectAll v ∧ slots_ im' = [] ∧ tags_ im' = [])).
Proof.
  intros He Hi Hi' Hd Hd'.
  assert (Hkd : ∀ w', keeps_dirty w w' → get_impl w' i = Some im' → False).
  { intros w' Hk Hg. specialize (Hk i im im' Hi Hg Hd). congruence. }
  destruct a; simpl in He; simplify_eq.
  - exfalso. eauto using keeps_dirty_ext.
  - exfalso. eapply Hkd; [|exact Hi']. by apply keeps_dirty_ext.
  - exfalso. eapply Hkd; [apply (connect_impl_dirty)|].
    by erewrite <- get_impl_ext.
  - exfalso. eapply Hkd; [apply (connect_impl_dirty)|].
    by erewrite <- get_impl_ext.
  - exfalso. unfold connect_shared in Hi'. destruct (owner_ptr w obj).
    + eapply Hkd; [apply (connect_impl_dirty)|]. by erewrite <- get_impl_ext.
    + eapply Hkd; [|exact Hi']. by apply keeps_dirty_ext.
  - exfalso. unfold connect_raw in Hi'. destruct null.
    + eapply Hkd; [|exact Hi']. by apply keeps_dirty_ext.
    + eapply Hkd; [apply (connect_impl_dirty)|]. by erewrite <- get_impl_ext.
  - exfalso. eapply Hkd; [apply (connect_tag_dirty)|].
    by erewrite <- get_impl_ext.
  - exfalso. eapply Hkd; [apply disconnect_tag_dirty | exact Hi'].
  - exists sig. unfold emit_begin in He.
    destruct (impl_ (sig_var w sig)) as [j|] eqn:Hj; [|simplify_eq; congruence].
    destruct (get_impl w j) as [jm|] eqn:Hgj; [|simplify_eq; congruence].
    destruct (slots_ jm) as [|s0 l0] eqn:Hl; [simplify_eq; congruence|].
    rewrite <- Hl in He.
    destruct (dirty_ jm) eqn:Hdj; simpl in He; simplify_eq.
    + rewrite (get_impl_ext (put_impl j (mk_impl (stable_sort
                 (slot_priority (slots w)) (cleanup_keep (slots w) (slots_ jm)))
                 (tags_ jm) false)
                 (set_slots (release_all (cleanup_drop (slots w) (slots_ jm))) w)))
        in Hi' by done.
      destruct (decide (j = i)) as [->|Hne].
      * erewrite get_put_impl_eq in Hi' by (by rewrite (get_impl_ext w)).
        simplify_eq. split; [done|]. left. split_and!; try done.
        by rewrite Hl.
      * rewrite get_put_impl_ne, (get_impl_ext w) in Hi' by done. congruence.
    + exfalso. rewrite (get_impl_ext (put_impl j jm w)) in Hi' by done.
      destruct (decide (j = i)) as [->|Hne].
      * erewrite get_put_impl_eq in Hi' by done. congruence.
      * rewrite get_put_impl_ne in Hi' by done. congruence.
  - exists sig. unfold disconnect_all in Hi'.
    destruct (impl_ (sig_var w sig)) as [j|] eqn:Hj; [|congruence].
    destruct (get_impl w j) as [jm|] eqn:Hgj; [|congruence].
    destruct (mark_all_frame (slots_ jm) w) as (Himp & _).
    destruct (decide (j = i)) as [->|Hne].
    + erewrite get_put_impl_eq in Hi'
        by (by rewrite (get_impl_ext (mark_all (slots_ jm) w)), (get_impl_ext w)).
      simplify_eq. split; [done|]. by right.
    + rewrite get_put_impl_ne in Hi' by done.
      rewrite (get_impl_ext (mark_all (slots_ jm) w)),
        (get_impl_ext w) in Hi' by done. congruence.
  - exfalso. eapply Hkd; [apply conn_disconnect_dirty | exact Hi'].
  - exfalso. eapply Hkd; [apply conn_block_dirty | exact Hi'].
  - exfalso. eapply Hkd; [|exact Hi']. by apply keeps_dirty_ext.
Qed.

Lemma step_dirty c i im im' :
  get_impl (cf_world c) i = Some im →
  get_impl (cf_world (step c)) i = Some im' →
  dirty_ im = true → dirty_ im' = false →
  cf_mode c = Running ∧
  ∃ v rest k, impl_ (sig_var (cf_world c) v) = Some i ∧
    ((cf_stack c = FBody (AEmit v :: rest) :: k ∧ slots_ im ≠ [] ∧
      tags_ im' = tags_ im ∧
      slots_ im' = stable_sort (slot_priority (slots (cf_world c)))
                     (cleanup_keep (slots (cf_world c)) (slots_ im))) ∨
     (cf_stack c = FBody (ADisconnectAll v :: rest) :: k ∧
      slots_ im' = [] ∧ tags_ im' = [])).
Proof.
  destruct c as [m w k p]. simpl. intros Hi Hi' Hd Hd'.
  assert (Hkd : ∀ w', keeps_dirty w w' → get_impl w' i = Some im' → False).
  { intros w' Hk Hg. specialize (Hk i im im' Hi Hg Hd). congruence. }
  unfold step in Hi'. simpl in Hi'.
  destruct k as [|[body|f] k].
  - exfalso. destruct m; [|simpl in Hi'; congruence].
    destruct p as [|cmd p]; [simpl in Hi'; congruence|].
    pose proof (exec_command_dirty cmd w) as Hk.
    destruct (exec_command cmd w) as [w1 k1]. simpl in *. eauto.
  - destruct m; [|simpl in Hi'; congruence].
    destruct body as [|a rest]; [simpl in Hi'; congruence|].
    destruct (exec_action a w) as [[m1 w1] fo] eqn:He.
    assert (Hw1 : get_impl w1 i = Some im') by (by destruct m1, fo).
    split; [done|].
    destruct (exec_action_dirty _ _ _ _ _ _ _ _ He Hi Hw1 Hd Hd')
      as (v & Hv & [(-> & ? & ? & ?)|(-> & ? & ?)]);
      exists v, rest, k; (split; [done|]); [left | right]; done.
  - exfalso. destruct m; [|simpl in Hi'; congruence].
    destruct (fl_rest f) as [|sp rest].
    + simpl in Hi'. eapply Hkd; [apply emit_end_dirty | exact Hi'].
    + pose proof (emit_visit_dirty sp (fl_need f) w) as Hk.
      destruct (emit_visit sp (fl_need f) w) as [[w1 need] [fn|]];
        simpl in *; eauto.
Qed.

(** C5, as the code has it. The dirty flag of a shared state is set
    by every connect that adds a slot to it, by [disconnect()] on a
    live handle, by a successful [disconnect(tag)], and by the
    epilogue of an emission that flagged a slot (the loop raising
    [need_cleanup] whenever it flags one). A step of the machine
    clears a dirty flag only when it is the start of an emission on
    that signal, which stores the cleaned and sorted list, or
    [disconnect_all()] on that signal, which empties the slot list
    and the tag registry. *)
Theorem dirty_flag_discipline :
  (∀ this f p ss t w i im,
     impl_ this = Some i → get_impl w i = Some im →
     ∃ im', get_impl (snd (connect_impl this f p ss t w)) i = Some im' ∧
       dirty_ im' = true) ∧
  (∀ c w i s,
     impl_lock w c = Some i → slot_lock w c = Some s →
     ∃ im', get_impl (conn_disconnect c w) i = Some im' ∧ dirty_ im' = true) ∧
  (∀ this tag w w' i,
     impl_ this = Some i → disconnect_tag this tag w = (true, w') →
     ∃ im', get_impl w' i = Some im' ∧ dirty_ im' = true) ∧
  (∀ sp need w r,
     slots w !! sp = Some r → pending_removal r = false →
     slot_pending (slots (emit_visit sp need w).1.1) sp = true →
     (emit_visit sp need w).1.2 = true) ∧
  (∀ this local_slots w i im,
     impl_ this = Some i → get_impl w i = Some im →
     ∃ im', get_impl (emit_end this local_slots true w) i = Some im' ∧
       dirty_ im' = true) ∧
  (∀ c i im im',
     get_impl (cf_world c) i = Some im →
     get_impl (cf_world (step c)) i = Some im' →
     dirty_ im = true → dirty_ im' = false →
     cf_mode c = Running ∧
     ∃ v rest k, impl_ (sig_var (cf_world c) v) = Some i ∧
       ((cf_stack c = FBody (AEmit v :: rest) :: k ∧ slots_ im ≠ [] ∧
         tags_ im' = tags_ im ∧
         slots_ im' = stable_sort (slot_priority (slots (cf_world c)))
                        (cleanup_keep (slots (cf_world c)) (slots_ im))) ∨
        (cf_stack c = FBody (ADisconnectAll v :: rest) :: k ∧
         slots_ im' = [] ∧ tags_ im' = []))).
Proof.
  split_and!.
  - intros this f p ss t w i im Hi Hg. unfold connect_impl. rewrite Hi, Hg.
    eexists. split; [by eapply get_put_impl_eq | done].
  - intros c w i s Hi Hs. unfold conn_disconnect. rewrite Hi, Hs.
    unfold impl_lock in Hi. destruct (conn_impl_ c) as [i'|]; [|done].
    destruct (get_impl w i') as [im|] eqn:Hg; [|done]. simplify_eq.
    unfold disconnect_slot. rewrite Hg. eexists.
    split; [eapply get_put_impl_eq; by rewrite (get_impl_ext w) | done].
  - intros this tag w w' i Hi. unfold disconnect_tag. rewrite Hi.
    destruct (get_impl w i) as [im|] eqn:Hg; [|done].
    destruct (List.find _ _) as [t|]; [|done]. intros [= <-].
    destruct (mark_tracking_frame (fst t) (slots_ im) w) as (Himp & _).
    exists (set_dirty true (set_tags (erase_tag tag (tags_ im)) im)).
    split; [|done].
    rewrite (get_impl_ext (put_impl i (set_dirty true
               (set_tags (erase_tag tag (tags_ im)) im))
               (mark_tracking (fst t) (slots_ im) w))) by done.
    eapply get_put_impl_eq. by rewrite (get_impl_ext w).
  - intros sp need w r Hr Hp. unfold emit_visit. rewrite Hr.
    destruct (has_tracked_object r && expired (objs w) (tracked r)); [done|].
    destruct (is_callable (objs w) r); simpl.
    2:{ unfold slot_pending. rewrite Hr. congruence. }
    unfold try_acquire_execution.
    destruct (single_shot r); simpl.
    + destruct (executed r); simpl; [|done].
      unfold slot_pending. rewrite Hr. congruence.
    + unfold slot_pending. simpl.
      rewrite list_lookup_insert_eq by (by eapply lookup_lt_Some). congruence.
  - intros this local_slots w i im Hi Hg. unfold emit_end. rewrite Hi, Hg.
    exists (set_dirty true im). split; [|done].
    rewrite (get_impl_ext (put_impl i (set_dirty true im) w)) by done.
    by eapply get_put_impl_eq.
  - apply step_dirty.
Qed.

Lemma dirty_flag_discipline_witness :
  get_impl (cf_world (run 14 (init dirty_demo))) 0
  = Some (mk_impl [0; 1] [] true) ∧
  get_impl (cf_world (step (run 14 (init dirty_demo)))) 0
  = Some (mk_impl [1; 0] [] false) ∧
  cf_mode (run 14 (init dirty_demo)) = Running ∧
  ∃ v rest k, impl_ (sig_var (cf_world (run 14 (init dirty_demo))) v) = Some 0 ∧
    ((cf_stack (run 14 (init dirty_demo)) = FBody (AEmit v :: rest) :: k ∧
      [0; 1] ≠ [] ∧ [] = @nil (nat * string) ∧
      [1; 0] = stable_sort
                 (slot_priority (slots (cf_world (run 14 (init dirty_demo)))))
                 (cleanup_keep (slots (cf_world (run 14 (init dirty_demo))))
                    [0; 1])) ∨
     (cf_stack (run 14 (init dirty_demo)) = FBody (ADisconnectAll v :: rest) :: k ∧
      [1; 0] = [] ∧ [] = @nil (nat * string))).
Proof.
  assert (H1 : get_impl (cf_world (run 14 (init dirty_demo))) 0
               = Some (mk_impl [0; 1] [] true)) by (vm_compute; reflexivity).
  assert (H2 : get_impl (cf_world (step (run 14 (init dirty_demo)))) 0
               = Some (mk_impl [1; 0] [] false)) by (vm_compute; reflexivity).
  split; [exact H1|]. split; [exact H2|].
  exact (proj2 (proj2 (proj2 (proj2 (proj2 dirty_flag_discipline))))
           _ 0 _ _ H1 H2 eq_refl eq_refl).
Defined.

Lemma dirty_cleared_without_emission :
  cf_stack (run 5 (init dirty_cleared_demo)) = [FBody [ADisconnectAll 0]] ∧
  get_impl (cf_world (run 5 (init dirty_cleared_demo))) 0
  = Some (mk_impl [0] [] true) ∧
  slot_pending (slots (cf_world (run 5 (init dirty_cleared_demo)))) 0 = false ∧
  get_impl (cf_world (step (run 5 (init dirty_cleared_demo)))) 0
  = Some (mk_impl [] [] false) ∧
  slot_pending (slots (cf_world (step (run 5 (init dirty_cleared_demo))))) 0
  = true ∧
  next_emission (cf_world (step (run 5 (init dirty_cleared_demo)))) = 0 ∧
  log (cf_world (step (run 5 (init dirty_cleared_demo)))) = [].
Proof. vm_compute. done. Qed.

(** ** Ownership

    A slot sits on the list of at most one shared state, and a shared
    state is owned by at most one signal object. *)

Lemma confined_ext w w' : impls w' = impls w → confined w w'.
Proof.
  intros H _ i im' s Hi Hs. left. exists im'.
  by rewrite <- (get_impl_ext w w').
Qed.

Lemma confined_impls_eq w w' w'' :
  impls w'' = impls w' → confined w w' → confined w w''.
Proof.
  intros H Hc Hok i im' s Hi Hs. rewrite (get_impl_ext w' w'') in Hi by done.
  destruct (Hc Hok i im' s Hi Hs) as [?|[Hlen Hu]]; [by left|].
  right. split; [done|]. intros j jm' Hj. apply Hu.
  by rewrite <- (get_impl_ext w' w'').
Qed.

Lemma confined_put w w2 i im im' :
  get_impl w i = Some im → impls w2 = impls w →
  (∀ s, s ∈ slots_ im' → s ∈ slots_ im ∨ length (slots w) ≤ s) →
  confined w (put_impl i im' w2).
Proof.
  intros Hi Himp Hsub Hok j jm' s Hj Hs.
  assert (Hold : ∀ k km', k ≠ i → get_impl (put_impl i im' w2) k = Some km' →
            get_impl w k = Some km').
  { intros k km' Hk Hg.
    by rewrite get_put_impl_ne, (get_impl_ext w w2) in Hg. }
  destruct (decide (j = i)) as [->|Hne].
  - erewrite get_put_impl_eq in Hj by (by rewrite (get_impl_ext w w2)).
    simplify_eq. destruct (Hsub s Hs) as [Hin|Hfresh]; [left; eauto|].
    right. split; [done|]. intros k km' Hk Hsk.
    destruct (decide (k = i)) as [|Hki]; [done|]. exfalso.
    apply (Hold _ _ Hki) in Hk. destruct (Hok _ _ Hk) as [Hv _ _].
    rewrite Forall_forall in Hv. apply Hv in Hsk. lia.
  - left. exists jm'. split; [by apply Hold | done].
Qed.

Lemma confined_trans w1 w2 w3 :
  evolves w1 w2 → confined w1 w2 → confined w2 w3 → confined w1 w3.
Proof.
  intros Hev H12 H23 Hok1 i im3 s Hi3 Hs.
  assert (Hok2 := ev_ok _ _ Hev Hok1).
  assert (Hlen := heap_le_length _ _ (ev_heap _ _ Hev)).
  destruct (H23 Hok2 i im3 s Hi3 Hs) as [(im2 & Hi2 & Hs2)|[Hfresh Hu]].
  - destruct (H12 Hok1 i im2 s Hi2 Hs2) as [?|[Hfresh Hu]]; [by left|].
    right. split; [done|]. intros j jm3 Hj Hsj.
    destruct (H23 Hok2 j jm3 s Hj Hsj) as [(jm2 & Hj2 & Hsj2)|[Hf2 _]].
    + by eapply Hu.
    + exfalso. destruct (Hok2 _ _ Hi2) as [Hv _ _].
      rewrite Forall_forall in Hv. apply Hv in Hs2. lia.
  - right. split; [lia | done].
Qed.

Lemma connect_impl_confined this f p ss t w :
  confined w (snd (connect_impl this f p ss t w)).
Proof.
  unfold connect_impl. open_impl this w i im Hi ltac:(by apply confined_ext).
  simpl. eapply confined_put; eauto. simpl. intros s Hs.
  apply elem_of_app in Hs as [?|Hs]; [by left|].
  apply list_elem_of_singleton in Hs as ->. by right.
Qed.

Lemma get_or_create_tag_confined i name w :
  confined w (snd (get_or_create_tag i name w)).
Proof.
  unfold get_or_create_tag.
  destruct (get_impl w i) as [im|] eqn:Hi; [|by apply confined_ext].
  destruct (List.find _ _); [by apply confined_ext|].
  simpl. eapply confined_put; eauto.
Qed.

Lemma connect_tag_confined this tag body p w :
  confined w (snd (connect_tag this tag body p w)).
Proof.
  unfold connect_tag. destruct (impl_ this) as [i|]; [|by apply confined_ext].
  pose proof (get_or_create_tag_confined i tag w) as Hc.
  pose proof (get_or_create_tag_evolves i tag w) as He.
  destruct (get_or_create_tag i tag w) as [tp w1]. simpl in *.
  eapply confined_trans; [exact He | exact Hc | apply connect_impl_confined].
Qed.

Lemma disconnect_tag_confined this tag w :
  confined w (snd (disconnect_tag this tag w)).
Proof.
  unfold disconnect_tag. open_impl this w i im Hi ltac:(by apply confined_ext).
  destruct (List.find _ _) as [t|]; [|by apply confined_ext].
  simpl. destruct (mark_tracking_frame (fst t) (slots_ im) w) as (Himp & _).
  eapply (confined_impls_eq w (put_impl i _ (mark_tracking (fst t) (slots_ im) w)));
    [done|].
  eapply confined_put; eauto.
Qed.

Lemma disconnect_all_confined this w : confined w (disconnect_all this w).
Proof.
  unfold disconnect_all. open_impl this w i im Hi ltac:(by apply confined_ext).
  destruct (mark_all_frame (slots_ im) w) as (Himp & _).
  eapply confined_put; eauto. simpl. intros s Hs. by apply elem_of_nil in Hs.
Qed.

Lemma conn_disconnect_confined c w : confined w (conn_disconnect c w).
Proof.
  unfold conn_disconnect, disconnect_slot.
  destruct (impl_lock w c) as [i|]; [|by apply confined_ext].
  destruct (slot_lock w c) as [s|]; [|by apply confined_ext].
  destruct (get_impl w i) as [im|] eqn:Hi; [|by apply confined_ext].
  eapply confined_put; eauto.
Qed.

Lemma conn_block_confined c b w : confined w (conn_block c b w).
Proof.
  unfold conn_block. destruct (slot_lock w c); by apply confined_ext.
Qed.

Lemma emit_begin_confined this w : confined w (snd (emit_begin this w)).
Proof.
  unfold emit_begin. open_impl this w i im Hi ltac:(by apply confined_ext).
  destruct (slots_ im) as [|s0 l0] eqn:Hl; [by apply confined_ext|].
  rewrite <- Hl. clear Hl s0 l0.
  destruct (dirty_ im) eqn:Hd; simpl.
  - match goal with
    | |- confined _ (set_slots _ (put_impl _ ?im1 ?w1)) =>
        eapply (confined_impls_eq w (put_impl i im1 w1)); [done|]
    end.
    eapply confined_put; eauto. simpl. intros s Hs. left.
    apply stable_sort_elem_of, list_elem_of_In, filter_In in Hs as [Hs _].
    by apply list_elem_of_In.
  - eapply (confined_impls_eq w (put_impl i im w)); [done|].
    eapply confined_put; eauto.
Qed.

Lemma emit_visit_confined sp need w : confined w (emit_visit sp need w).1.1.
Proof.
  apply confined_ext. unfold emit_visit, try_acquire_execution.
  by repeat case_match; simplify_eq.
Qed.

Lemma emit_end_confined this local_slots need w :
  confined w (emit_end this local_slots need w).
Proof.
  unfold emit_end.
  match goal with
  | |- confined _ (set_slots _ ?w1) =>
      eapply (confined_impls_eq w w1); [done|]
  end.
  destruct need; [|by apply confined_ext].
  open_impl this w i im Hi ltac:(by apply confined_ext).
  eapply confined_put; eauto.
Qed.

Lemma exec_action_confined a w m w1 fo :
  exec_action a w = (m, w1, fo) → confined w w1.
Proof.
  destruct a; simpl; intros H; simplify_eq; try (by apply confined_ext).
  - eapply confined_impls_eq; [|apply connect_impl_confined]. done.
  - eapply confined_impls_eq; [|apply connect_impl_confined]. done.
  - unfold connect_shared. destruct (owner_ptr w obj); [|by apply confined_ext].
    eapply confined_impls_eq; [|apply connect_impl_confined]. done.
  - unfold connect_raw. destruct null; [by apply confined_ext|].
    eapply confined_impls_eq; [|apply connect_impl_confined]. done.
  - eapply confined_impls_eq; [|apply connect_tag_confined]. done.
  - apply disconnect_tag_confined.
  - pose proof (emit_begin_confined (sig_var w sig) w) as Hc.
    destruct (emit_begin (sig_var w sig) w) as [[l|] w2]; simplify_eq; [|done].
    eapply confined_impls_eq; [|exact Hc]. done.
  - apply disconnect_all_confined.
  - apply conn_disconnect_confined.
  - apply conn_block_confined.
Qed.

Lemma Sep_evolves w w' :
  impls_ok w → evolves w w' → confined w w' → Sep w → Sep w'.
Proof.
  intros Hok Hev Hc [Hu Hl Hd].
  assert (Hsv : ∀ v, sig_var w' v = sig_var w v).
  { intros v. unfold sig_var. by rewrite (ev_sigs _ _ Hev). }
  constructor.
  - intros v1 v2 i. rewrite !Hsv. apply Hu.
  - intros v i. rewrite Hsv. intros Hi.
    destruct (Hl v i Hi) as [im Him].
    destruct (ev_members _ _ Hev i im Him) as (im' & -> & _). eauto.
  - intros i j im jm s Hi Hj Hsi Hsj.
    destruct (Hc Hok i im s Hi Hsi) as [(im0 & Hi0 & Hs0)|[_ Hun]].
    + destruct (Hc Hok j jm s Hj Hsj) as [(jm0 & Hj0 & Hsj0)|[_ Hun]].
      * by eapply Hd.
      * by eapply Hun.
    + symmetry. by eapply Hun.
Qed.

Lemma sig_var_ge w v : length (sigs w) ≤ v → sig_var w v = mk_signal None.
Proof. intros H. unfold sig_var. by rewrite lookup_ge_None_2. Qed.

Lemma sig_var_Some w v i : impl_ (sig_var w v) = Some i → v < length (sigs w).
Proof.
  intros H. destruct (decide (v < length (sigs w))); [done|].
  rewrite sig_var_ge in H by lia. done.
Qed.

Lemma get_impl_Some_lt w i im : get_impl w i = Some im → i < length (impls w).
Proof.
  unfold get_impl. destruct (impls w !! i) eqn:E; [|done].
  intros _. by eapply lookup_lt_Some.
Qed.

(** The shared states after a move assignment: the one the
    destination owned is gone, the others are as they were. *)
Lemma move_assign_impls w dst src i :
  dst ≠ src →
  get_impl (move_assign dst src w) i
  = if decide (impl_ (sig_var w dst) = Some i) then None else get_impl w i.
Proof.
  intros Hne. unfold move_assign.
  destruct (Nat.eqb_spec dst src) as [?|_]; [done|].
  rewrite (get_impl_ext (impl_release (sig_var w dst)
             (disconnect_all (sig_var w dst) w))) by done.
  unfold impl_release, disconnect_all.
  destruct (impl_ (sig_var w dst)) as [j|]; [|by rewrite decide_False].
  destruct (get_impl w j) as [jm|] eqn:Hj.
  - destruct (mark_all_frame (slots_ jm) w) as (Himp & _).
    apply get_impl_Some_lt in Hj.
    unfold get_impl. simpl. destruct (decide (Some j = Some i)) as [[= ->]|Hn].
    + by rewrite list_lookup_insert_eq by (by rewrite length_insert, Himp).
    + rewrite !list_lookup_insert_ne, Himp by congruence. done.
  - unfold get_impl in *. simpl.
    destruct (decide (Some j = Some i)) as [[= ->]|Hn].
    + destruct (decide (i < length (impls w))).
      * by rewrite list_lookup_insert_eq.
      * rewrite list_insert_ge by lia. done.
    + by rewrite list_lookup_insert_ne by congruence.
Qed.

Lemma move_assign_sig_var w dst src v :
  dst ≠ src → dst < length (sigs w) → src < length (sigs w) →
  sig_var (move_assign dst src w) v
  = if decide (v = src) then mk_signal None
    else if decide (v = dst) then mk_signal (impl_ (sig_var w src))
    else sig_var w v.
Proof.
  intros Hne Hd Hs. unfold move_assign.
  destruct (Nat.eqb_spec dst src) as [?|_]; [done|].
  assert (Hsig : sigs (impl_release (sig_var w dst)
                         (disconnect_all (sig_var w dst) w)) = sigs w).
  { unfold impl_release, disconnect_all.
    destruct (impl_ (sig_var w dst)) as [j|]; [|done].
    destruct (get_impl w j) as [jm|]; [|done]. simpl.
    by destruct (mark_all_frame (slots_ jm) w) as (_ & -> & _). }
  unfold sig_var at 1. simpl. rewrite Hsig.
  destruct (decide (v = src)) as [->|Hvs].
  - by rewrite list_lookup_insert_eq by (by rewrite length_insert).
  - rewrite list_lookup_insert_ne by done.
    destruct (decide (v = dst)) as [->|Hvd].
    + by rewrite list_lookup_insert_eq.
    + by rewrite list_lookup_insert_ne.
Qed.

Lemma move_assign_sigs w dst src :
  dst ≠ src →
  sigs (move_assign dst src w)
  = <[src := mk_signal None]>
      (<[dst := mk_signal (impl_ (sig_var w src))]> (sigs w)).
Proof.
  intros Hne. unfold move_assign.
  destruct (Nat.eqb_spec dst src) as [?|_]; [done|]. simpl. f_equal. f_equal.
  unfold impl_release, disconnect_all.
  destruct (impl_ (sig_var w dst)) as [j|]; [|done].
  destruct (get_impl w j) as [jm|]; [|done]. simpl.
  by destruct (mark_all_frame (slots_ jm) w) as (_ & -> & _).
Qed.

(** Which signal objects own a shared state after a move assignment. *)
Lemma move_assign_owner w dst src v i :
  dst ≠ src →
  impl_ (sig_var (move_assign dst src w) v) = Some i →
  v ≠ src ∧
  ((v = dst ∧ impl_ (sig_var w src) = Some i) ∨
   (v ≠ dst ∧ impl_ (sig_var w v) = Some i)).
Proof.
  intros Hne. unfold sig_var at 1. rewrite move_assign_sigs by done.
  rewrite !list_lookup_insert.
  destruct (decide (src = v ∧ _)) as [[-> ?]|Hs]; [done|].
  destruct (decide (dst = v ∧ _)) as [[-> ?]|Hd]; simpl.
  - intros Hi. split; [done|]. by left.
  - intros Hi.
    assert (Hv : impl_ (sig_var w v) = Some i) by done.
    pose proof (sig_var_Some _ _ _ Hv) as Hlt.
    rewrite length_insert in Hs.
    split; [intros ->; apply Hs; done|]. right. split; [|done].
    intros ->. apply Hd. done.
Qed.

Lemma Sep_command cmd w :
  impls_ok w → Sep w → Sep (fst (exec_command cmd w)).
Proof.
  intros Hok HS. pose proof HS as [Hu Hl Hd].
  destruct cmd; simpl; try done.
  - (* a new signal *)
    assert (Hold : ∀ v i, impl_ (sig_var w v) = Some i →
              i < length (impls w)).
    { intros v i Hi. destruct (Hl v i Hi) as [im Him].
      by eapply get_impl_Some_lt. }
    assert (Hsv : ∀ v i,
      impl_ (sig_var (set_sigs (λ l, l ++ [mk_signal (Some (length (impls w)))])
               (set_impls (λ l, l ++ [Some (mk_impl [] [] false)]) w)) v)
      = Some i →
      (v < length (sigs w) ∧ impl_ (sig_var w v) = Some i) ∨
      (v = length (sigs w) ∧ i = length (impls w))).
    { intros v i. unfold sig_var at 1. simpl.
      destruct (decide (v < length (sigs w))) as [Hlt|Hge].
      - rewrite lookup_app_l by done. intros Hi. left. by split.
      - rewrite lookup_app_r by lia.
        destruct (v - length (sigs w)) as [|k] eqn:E; simpl; [|done].
        intros [= <-]. right. split; [lia | done]. }
    assert (Hgi : ∀ i im,
      get_impl (set_sigs (λ l, l ++ [mk_signal (Some (length (impls w)))])
                 (set_impls (λ l, l ++ [Some (mk_impl [] [] false)]) w)) i
      = Some im →
      get_impl w i = Some im ∨ slots_ im = []).
    { intros i im. unfold get_impl. simpl.
      destruct (decide (i < length (impls w))) as [Hlt|Hge].
      - rewrite lookup_app_l by done. by left.
      - rewrite lookup_app_r by lia.
        destruct (i - length (impls w)) as [|k]; simpl; [|done].
        intros [= <-]. by right. }
    constructor.
    + intros v1 v2 i H1 H2.
      destruct (Hsv _ _ H1) as [[? H1']|[-> ->]],
               (Hsv _ _ H2) as [[? H2']|[-> ?]]; subst.
      * by eapply Hu.
      * apply Hold in H1'. lia.
      * apply Hold in H2'. lia.
      * done.
    + intros v i Hi. destruct (Hsv _ _ Hi) as [[? Hi']|[-> ->]].
      * destruct (Hl _ _ Hi') as [im Him]. exists im.
        unfold get_impl in *. simpl.
        destruct (impls w !! i) eqn:E; [|done].
        by rewrite (lookup_app_l_Some _ _ _ _ E).
      * exists (mk_impl [] [] false). unfold get_impl. simpl.
        rewrite lookup_app_r by lia. by rewrite Nat.sub_diag.
    + intros i j im jm s Hi Hj Hsi Hsj.
      destruct (Hgi _ _ Hi) as [Hi'|Hi']; [|rewrite Hi' in Hsi; by inv Hsi].
      destruct (Hgi _ _ Hj) as [Hj'|Hj']; [|rewrite Hj' in Hsj; by inv Hsj].
      by eapply Hd.
  - (* move construction *)
    destruct (sig_var w src) as [o] eqn:Ho. simpl.
    assert (Hsv : ∀ v i,
      impl_ (sig_var (set_sigs (λ l, <[src := mk_signal None]> l ++ [mk_signal o])
                        w) v) = Some i →
      (v ≠ src ∧ impl_ (sig_var w v) = Some i) ∨
      (v = length (sigs w) ∧ o = Some i)).
    { intros v i. unfold sig_var at 1. simpl.
      destruct (decide (v < length (sigs w))) as [Hlt|Hge].
      - rewrite lookup_app_l by (by rewrite length_insert).
        rewrite list_lookup_insert.
        destruct (decide (src = v ∧ _)) as [[-> ?]|Hs]; [done|].
        intros Hi. left. split; [|done]. intros ->. by apply Hs.
      - rewrite lookup_app_r by (rewrite length_insert; lia).
        rewrite length_insert.
        destruct (v - length (sigs w)) as [|k] eqn:E; simpl; [|done].
        intros Hi. right. split; [lia | done]. }
    assert (Hsrc : ∀ i, o = Some i → impl_ (sig_var w src) = Some i).
    { intros i ->. by rewrite Ho. }
    constructor.
    + intros v1 v2 i H1 H2.
      destruct (Hsv _ _ H1) as [[? H1']|[-> H1']],
               (Hsv _ _ H2) as [[? H2']|[-> H2']].
      * by eapply Hu.
      * apply Hsrc in H2'. exfalso. eauto.
      * apply Hsrc in H1'. exfalso. eauto.
      * done.
    + intros v i Hi. destruct (Hsv _ _ Hi) as [[? Hi']|[-> Hi']].
      * by eapply Hl.
      * apply Hsrc in Hi'. by eapply Hl.
    + exact Hd.
  - (* move assignment *)
    destruct (decide (dst = src)) as [->|Hne].
    { unfold move_assign. by rewrite Nat.eqb_refl. }
    constructor.
    + intros v1 v2 i H1 H2.
      apply move_assign_owner in H1 as [Hs1 [[-> H1]|[Hd1 H1]]]; [| |done..];
      apply move_assign_owner in H2 as [Hs2 [[-> H2]|[Hd2 H2]]]; try done.
      * exfalso. apply Hs2. by eapply Hu.
      * exfalso. apply Hs1. by eapply Hu.
      * by eapply Hu.
    + intros v i Hi. rewrite move_assign_impls by done.
      apply move_assign_owner in Hi as [Hs [[-> Hi]|[Hdv Hi]]]; [| |done].
      * rewrite decide_False; [by eapply Hl|].
        intros Hdi. apply Hne. by eapply Hu.
      * rewrite decide_False; [by eapply Hl|].
        intros Hdi. apply Hdv. by eapply Hu.
    + intros i j im jm s. rewrite !move_assign_impls by done.
      destruct (decide (_ = Some i)); [done|].
      destruct (decide (_ = Some j)); [done|]. apply Hd.
  - (* releasing an owner *)
    by destruct (owner_ptr w o).
Qed.

Lemma Sep_step c : Inv c → Sep (cf_world c) → Sep (cf_world (step c)).
Proof.
  intros HI HS. pose proof (inv_impls _ HI) as Hok.
  destruct c as [m w k p]. simpl in *. unfold step. simpl.
  destruct k as [|[body|f] k].
  - destruct m; [|done]. destruct p as [|cmd p]; [done|].
    pose proof (Sep_command cmd w Hok HS) as H.
    by destruct (exec_command cmd w) as [w1 k1].
  - destruct m; [|done]. destruct body as [|a rest]; [done|].
    destruct (exec_action a w) as [[m1 w1] fo] eqn:He.
    pose proof (exec_action_confined _ _ _ _ _ He) as Hc.
    apply exec_action_spec in He as (Hev & _).
    assert (Sep w1) by (by eapply Sep_evolves).
    by destruct m1, fo.
  - destruct m; [|done]. destruct (fl_rest f) as [|sp rest].
    + simpl. eapply Sep_evolves; [done | apply emit_end_evolves
                                  | apply emit_end_confined | done].
    + pose proof (emit_visit_evolves sp (fl_need f) w) as Hev.
      pose proof (emit_visit_confined sp (fl_need f) w) as Hc.
      destruct (emit_visit sp (fl_need f) w) as [[w1 need] callee].
      simpl in Hev, Hc.
      assert (H1 : Sep w1) by (by eapply Sep_evolves).
      destruct callee; [|exact H1].
      destruct H1 as [Hu Hl Hd]. by constructor.
Qed.

Lemma Sep_reachable prog n : Sep (cf_world (run n (init prog))).
Proof.
  induction n as [|n IH].
  - constructor; simpl; try done.
  - rewrite run_S. apply Sep_step; [apply Inv_reachable | done].
Qed.

(** ** Moved-from signals *)

(** A move assignment leaves alone every slot record that is not on
    the list of the shared state the destination gives up. *)
Lemma move_assign_other_slots w dst src s :
  (∀ j jm, impl_ (sig_var w dst) = Some j → get_impl w j = Some jm →
     s ∉ slots_ jm) →
  slots (move_assign dst src w) !! s = slots w !! s.
Proof.
  intros Hnot. unfold move_assign. destruct (dst =? src); [done|].
  simpl. unfold impl_release, disconnect_all.
  destruct (impl_ (sig_var w dst)) as [j|] eqn:Hj; [|done].
  destruct (get_impl w j) as [jm|] eqn:Hgj; [|done]. simpl.
  rewrite release_all_other by eauto.
  apply mark_all_other. eauto.
Qed.

Lemma slot_count_ext this this' w w' i im :
  impl_ this = Some i → impl_ this' = Some i →
  get_impl w i = Some im → get_impl w' i = Some im →
  (∀ s, s ∈ slots_ im → slots w' !! s = slots w !! s) →
  slot_count this' w' = slot_count this w.
Proof.
  intros Hi Hi' Hg Hg' Hrec. unfold slot_count. rewrite Hi, Hi', Hg, Hg'.
  unfold cleanup_keep. f_equal. apply List.filter_ext_in.
  intros s Hs. unfold slot_pending. by rewrite Hrec by (by apply list_elem_of_In).
Qed.

(** Move assignment in an execution. *)
Lemma move_assign_reachable prog n dst src :
  let w := cf_world (run n (init prog)) in
  let w' := move_assign dst src w in
  dst ≠ src → dst < length (sigs w) → src < length (sigs w) →
  valid (sig_var w' src) = false ∧ empty (sig_var w' src) w' = true ∧
  sig_var w' dst = sig_var w src ∧
  slot_count (sig_var w' dst) w' = slot_count (sig_var w src) w ∧
  ∀ i im, impl_ (sig_var w src) = Some i → get_impl w i = Some im →
    get_impl w' i = Some im ∧
    ∀ s, s ∈ slots_ im → slots w' !! s = slots w !! s.
Proof.
  intros w w' Hne Hd Hs.
  pose proof (Sep_reachable prog n) as [Hu Hl Hdj]. fold w in Hu, Hl, Hdj.
  assert (Hsrc : sig_var w' src = mk_signal None).
  { unfold w'. rewrite move_assign_sig_var by done. by rewrite decide_True. }
  assert (Hdst : sig_var w' dst = sig_var w src).
  { unfold w'. rewrite move_assign_sig_var by done.
    rewrite decide_False, decide_True by done. by destruct (sig_var w src). }
  assert (Hkeep : ∀ i im, impl_ (sig_var w src) = Some i →
            get_impl w i = Some im →
            get_impl w' i = Some im ∧
            ∀ s, s ∈ slots_ im → slots w' !! s = slots w !! s).
  { intros i im Hi Hg.
    assert (Hdi : impl_ (sig_var w dst) ≠ Some i).
    { intros Hdi. apply Hne. by eapply Hu. }
    split.
    - unfold w'. rewrite move_assign_impls by done. by rewrite decide_False.
    - intros s Hsin. apply move_assign_other_slots.
      intros j jm Hj Hgj Hin. apply Hdi. rewrite Hj. f_equal. by eapply Hdj. }
  split_and!; [by rewrite Hsrc | by rewrite Hsrc | done | | done].
  rewrite Hdst. destruct (impl_ (sig_var w src)) as [i|] eqn:Hi.
  - destruct (Hl src i Hi) as [im Him].
    destruct (Hkeep i im eq_refl Him) as [Hg' Hrec].
    by eapply slot_count_ext.
  - unfold slot_count. by rewrite Hi.
Qed.

(** The test of the header: after [s2 = std::move(s1)], firing and
    clearing [s1] do nothing and [s2] delivers to the slot connected
    on [s1]. *)
Example move_demo_runs :
  let prog := [CNewSignal;
               CAct (AConnect 0 0 [ARecord 1]);
               CMoveConstruct 0;
               CAct (AEmit 0); CAct (ADisconnectAll 0);
               CAct (AEmit 1)] in
  let w := cf_world (run 40 (init prog)) in
  valid (sig_var w 0) = false ∧ empty (sig_var w 0) w = true ∧
  valid (sig_var w 1) = true ∧ slot_count (sig_var w 1) w = 1 ∧
  log w = [Invoked 0 0; Recorded 1%Z].
Proof. vm_compute. done. Qed.

(** * Further properties of the code *)

(** ** Argument adaptation *)

Lemma find_callable_arity_impl_cases inv n max :
  (find_callable_arity_impl inv n max = S max ∧
   ∀ k, k ≤ n → inv k = false) ∨
  (find_callable_arity_impl inv n max ≤ n ∧
   inv (find_callable_arity_impl inv n max) = true ∧
   ∀ k, k ≤ n → inv k = true → k ≤ find_callable_arity_impl inv n max).
Proof.
  induction n as [|n IH]; simpl.
  - destruct (inv 0) eqn:H0.
    + right. split_and!; [lia|done|intros; lia].
    + left. split; [done|]. intros k Hk. by replace k with 0 by lia.
  - destruct (inv (S n)) eqn:HS.
    + right. split_and!; [lia|done|intros; lia].
    + destruct IH as [[H1 H2]|(H1 & H2 & H3)].
      * left. split; [done|]. intros k Hk.
        destruct (decide (k = S n)) as [->|]; [done|]. apply H2. lia.
      * right. split_and!; [lia|done|]. intros k Hk Hik.
        destruct (decide (k = S n)) as [->|]; [congruence|]. apply H3; [lia|done].
Qed.

(** X1 ([callable_arity]). The arity chosen for a callable is the
    largest number of leading signal arguments it accepts: it is
    valid exactly when the callable accepts some prefix of the
    arguments, the value is then accepted and no longer prefix is,
    and otherwise the value is the marker [max_args + 1]. *)
Theorem callable_arity_spec (inv : nat → bool) (max_args : nat) :
  (callable_arity_is_valid inv max_args = true ↔
   ∃ n, n ≤ max_args ∧ inv n = true) ∧
  (callable_arity_is_valid inv max_args = true →
   inv (callable_arity_value inv max_args) = true ∧
   ∀ n, n ≤ max_args → inv n = true → n ≤ callable_arity_value inv max_args) ∧
  (callable_arity_is_valid inv max_args = false →
   callable_arity_value inv max_args = S max_args).
Proof.
  unfold callable_arity_is_valid, callable_arity_value.
  destruct (find_callable_arity_impl_cases inv max_args max_args)
    as [[H1 H2]|(H1 & H2 & H3)].
  - rewrite H1. replace (S max_args <=? max_args) with false
      by (symmetry; apply Nat.leb_gt; lia).
    split_and!; [|done|done]. split; [done|].
    intros (n & Hn & Hi). rewrite H2 in Hi; done.
  - apply Nat.leb_le in H1 as Hb. rewrite Hb.
    split_and!; [|done|done]. split; [|done]. intros _. eauto.
Qed.

Lemma callable_arity_spec_witness :
  let inv := λ n, Nat.eqb n 1 || Nat.eqb n 3 in
  callable_arity_is_valid inv 2 = true ∧
  callable_arity_value inv 2 = 1 ∧
  callable_arity_is_valid (λ n, Nat.eqb n 3) 2 = false ∧
  callable_arity_value (λ n, Nat.eqb n 3) 2 = 3.
Proof.
  pose proof (callable_arity_spec (λ n, Nat.eqb n 1 || Nat.eqb n 3) 2)
    as (_ & H1 & _).
  pose proof (callable_arity_spec (λ n, Nat.eqb n 3) 2) as (_ & _ & H2).
  specialize (H1 eq_refl). specialize (H2 eq_refl).
  repeat split; reflexivity.
Defined.

Lemma arg_adapter_take {A R : Type} n (fn : list A → R) args :
  arg_adapter n fn args =
  if decide (n ≤ 6 ∧ n ≤ length args) then Some (fn (take n args)) else None.
Proof.
  do 7 (destruct n as [|n]; [
    do 7 (try destruct args as [|? args]); unfold arg_adapter;
    cbn [firstn length];
    match goal with |- context [decide ?P] => destruct (decide P) as [H|H] end;
    cbn [length] in H; first [done|exfalso; lia]|]).
  rewrite decide_False by lia. by destruct args.
Qed.

Lemma call_member_with_n_args_adapter {A R : Type} n (fn : list A → R) args :
  call_member_with_n_args n fn args = arg_adapter n fn args.
Proof. reflexivity. Qed.

Lemma member_function_arity_spec params :
  member_function_arity params = if decide (params ≤ 6) then Some params else None.
Proof.
  do 7 (destruct params as [|params]; [done|]).
  by rewrite decide_False by lia.
Qed.

Lemma connect_with_arity_call_take {A R : Type} n (fn : list A → R) args :
  connect_with_arity_call n fn args =
  if decide (n ≤ length args ∧ (n ≤ 6 ∨ n = length args))
  then Some (fn (take n args)) else None.
Proof.
  unfold connect_with_arity_call.
  destruct (Nat.eqb_spec n (length args)) as [Heq|Hne].
  - rewrite decide_True by lia. by rewrite Heq, firstn_all.
  - rewrite arg_adapter_take.
    destruct (decide (n ≤ 6 ∧ n ≤ length args)).
    + by rewrite decide_True by lia.
    + by rewrite decide_False by lia.
Qed.

Lemma connect_member_with_arity_call_take {A R : Type} n (fn : list A → R) args :
  connect_member_with_arity_call n fn args =
  if decide (n ≤ length args ∧ n ≤ 6) then Some (fn (take n args)) else None.
Proof.
  unfold connect_member_with_arity_call.
  rewrite member_function_arity_spec.
  destruct (decide (n ≤ 6)) as [H6|H6]; [|by rewrite decide_False by lia].
  rewrite call_member_with_n_args_adapter.
  destruct (Nat.eqb_spec n (length args)) as [Heq|Hne].
  - rewrite decide_True by lia. by rewrite Heq, firstn_all.
  - rewrite arg_adapter_take.
    destruct (decide (n ≤ 6 ∧ n ≤ length args)).
    + by rewrite decide_True by lia.
    + by rewrite decide_False by lia.
Qed.

(** X2 ([arg_adapter], [connect_with_arity], [member_function_arity],
    [connect_member_with_arity], [call_member_with_n_args]). A slot
    connected with arity [n] is called with the first [n] arguments
    of the emission, whatever the later arguments are. A free
    callable needs [n] not above the number of arguments and, where
    an adapter is needed, not above 6. A member function needs [n]
    not above the number of arguments and not above 6 in every case:
    its arity comes from [member_function_arity], which the header
    defines up to 6 only, so a member function of seven or more
    parameters cannot be connected, even to a signal that has as
    many arguments. Up to 6 the two kinds of callable behave alike. *)
Theorem adapter_passes_prefix {A R : Type} (n : nat) (fn : list A → R)
    (args : list A) :
  connect_with_arity_call n fn args =
    (if decide (n ≤ length args ∧ (n ≤ 6 ∨ n = length args))
     then Some (fn (take n args)) else None) ∧
  connect_member_with_arity_call n fn args =
    (if decide (n ≤ length args ∧ n ≤ 6)
     then Some (fn (take n args)) else None) ∧
  (n ≤ 6 →
   connect_member_with_arity_call n fn args = connect_with_arity_call n fn args) ∧
  (6 < n → connect_member_with_arity_call n fn args = None) ∧
  (n ≤ length args → n ≤ 6 →
   ∀ rest,
     connect_with_arity_call n fn (take n args ++ rest) =
       connect_with_arity_call n fn args ∧
     connect_member_with_arity_call n fn (take n args ++ rest) =
       connect_member_with_arity_call n fn args).
Proof.
  split_and!.
  - apply connect_with_arity_call_take.
  - apply connect_member_with_arity_call_take.
  - intros H6.
    rewrite connect_with_arity_call_take, connect_member_with_arity_call_take.
    destruct (decide (n ≤ length args)).
    + by rewrite !decide_True by lia.
    + by rewrite !decide_False by lia.
  - intros H6. rewrite connect_member_with_arity_call_take.
    by rewrite decide_False by lia.
  - intros Hn H6 rest.
    rewrite !connect_with_arity_call_take, !connect_member_with_arity_call_take.
    rewrite length_app, length_take.
    rewrite !decide_True by lia.
    rewrite take_app_le by (rewrite length_take; lia).
    by rewrite take_take, Nat.min_id.
Qed.

Lemma adapter_passes_prefix_witness :
  let fn := λ l : list nat, sum_list l in
  (connect_with_arity_call 2 fn ([10; 20] ++ [7]) =
     connect_with_arity_call 2 fn [10; 20; 30; 40] ∧
   connect_member_with_arity_call 2 fn ([10; 20] ++ [7]) =
     connect_member_with_arity_call 2 fn [10; 20; 30; 40]) ∧
  connect_member_with_arity_call 2 fn [10; 20; 30; 40] = Some 30 ∧
  connect_with_arity_call 7 fn [1; 2; 3; 4; 5; 6; 7] = Some 28 ∧
  connect_member_with_arity_call 7 fn [1; 2; 3; 4; 5; 6; 7] = None.
Proof.
  intros fn.
  pose proof (adapter_passes_prefix 2 fn [10; 20; 30; 40]) as (_ & H2 & _ & _ & Hp).
  pose proof (adapter_passes_prefix 7 fn [1; 2; 3; 4; 5; 6; 7]) as (H7 & _ & _ & Hm & _).
  split; [apply (Hp ltac:(simpl; lia) ltac:(lia) [7])|].
  split; [exact (eq_trans H2 eq_refl)|].
  split; [exact (eq_trans H7 eq_refl)|].
  apply Hm. lia.
Defined.

(** ** Slot records over an execution *)

(** X3 (the stores to the members of [slot]). Whatever the machine
    does from a state, a slot record stays allocated and keeps its
    callback, priority, kind and tracked reference; [pending_removal]
    and [executed] are never reset. So a handle whose slot has been
    disconnected never reports [is_connected()] again. *)
Theorem slot_record_stable n c s r :
  slots (cf_world c) !! s = Some r →
  ∃ r', slots (cf_world (run n c)) !! s = Some r' ∧
    func r' = func r ∧ priority r' = priority r ∧
    single_shot r' = single_shot r ∧ tracked r' = tracked r ∧
    (pending_removal r = true → pending_removal r' = true) ∧
    (executed r = true → executed r' = true) ∧
    (pending_removal r = true →
     ∀ h, conn_slot_ h = Some s → is_connected h (cf_world (run n c)) = false).
Proof.
  intros Hr. destruct (run_heap_le n c _ _ Hr) as (r' & Hr' & Hle).
  exists r'. destruct Hle as [H1 H2 H3 H4 H5 H6].
  split_and!; try done.
  intros Hp h Hh. unfold is_connected, slot_lock. rewrite Hh, Hr'.
  destruct (0 <? use_count r'); [|done].
  unfold slot_pending. rewrite Hr'. by rewrite H5.
Qed.

Lemma slot_record_stable_witness :
  let c := run 7 (init unplug_demo) in
  is_connected (mk_connection (Some 0) (Some 0)) (cf_world (run 12 c)) = false.
Proof.
  intros c.
  assert (Hr : slots (cf_world c) !! 0
               = Some (mk_slot (mk_function None [ARecord 1]) 0 false true
                         false false None 1))
    by (vm_compute; reflexivity).
  destruct (slot_record_stable 12 c 0 _ Hr) as (r' & _ & _ & _ & _ & _ & _ & _ & H).
  exact (H eq_refl (mk_connection (Some 0) (Some 0)) eq_refl).
Defined.

(** X4 ([operator()], the checks before [sp->func(args...)]). A step
    that invokes a slot invokes it once, and the slot was then
    neither blocked nor pending removal, its tracked object, if it
    has one, was alive, and, if single-shot, it had not been
    executed. *)
Theorem only_callable_slots_invoked c s :
  invocations s (log (cf_world (step c))) ≠ invocations s (log (cf_world c)) →
  invocations s (log (cf_world (step c)))
    = S (invocations s (log (cf_world c))) ∧
  ∃ r, slots (cf_world c) !! s = Some r ∧
    blocked r = false ∧ pending_removal r = false ∧
    (∀ o, tracked r = Some o → ∃ ob,
       objs (cf_world c) !! o = Some ob ∧ obj_alive ob = true) ∧
    (single_shot r = true → executed r = false).
Proof.
  intros Hne. destruct (step_spec c) as [_ [H|[sp H]]]; [by rewrite H in Hne|].
  pose proof (calls_count _ _ s H) as Hcnt.
  destruct (Nat.eqb_spec sp s) as [Heq|Hd]; [|lia]. subst sp.
  split; [lia|].
  destruct H as (f & k & rest & r & _ & _ & _ & Hr & Hcall & Hss & _).
  exists r. unfold is_callable in Hcall.
  destruct (blocked r); [done|]. destruct (pending_removal r); [done|].
  split_and!; try done.
  intros o Ho. unfold has_tracked_object, expired, obj_lock in Hcall.
  rewrite Ho in Hcall. simpl in Hcall.
  destruct (objs (cf_world c) !! o) as [ob|]; [|done].
  exists ob. by destruct (obj_alive ob).
Qed.

Lemma only_callable_slots_invoked_witness :
  let c := run 12 (init order_demo) in
  invocations 1 (log (cf_world (step c))) = 1 ∧
  ∃ r, slots (cf_world c) !! 1 = Some r ∧ blocked r = false.
Proof.
  intros c.
  assert (Hne : invocations 1 (log (cf_world (step c)))
                ≠ invocations 1 (log (cf_world c)))
    by (vm_compute; lia).
  destruct (only_callable_slots_invoked c 1 Hne) as (Hn & r & Hr & Hb & _).
  split; [|exists r; split; [exact Hr|exact Hb]].
  rewrite Hn. vm_compute. reflexivity.
Defined.

(** ** Handles *)

Lemma slot_lock_Some w c s :
  slot_lock w c = Some s →
  conn_slot_ c = Some s ∧ ∃ r, slots w !! s = Some r ∧ 0 < use_count r.
Proof.
  unfold slot_lock. destruct (conn_slot_ c) as [s'|]; [|done].
  destruct (slots w !! s') as [r|] eqn:Hr; [|done].
  destruct (Nat.ltb_spec 0 (use_count r)); [|done].
  intros [= <-]. eauto.
Qed.

Lemma impl_lock_Some w c i :
  impl_lock w c = Some i →
  conn_impl_ c = Some i ∧ ∃ im, get_impl w i = Some im.
Proof.
  unfold impl_lock. destruct (conn_impl_ c) as [i'|]; [|done].
  destruct (get_impl w i') as [im|] eqn:Hi; [|done].
  intros [= <-]. eauto.
Qed.

(** Two heaps whose records differ, if at all, in fields other than
    [pending_removal] count the same slots. *)
Lemma cleanup_keep_ext sl sl' l :
  (∀ s, s ∈ l → slot_pending sl' s = slot_pending sl s) →
  cleanup_keep sl' l = cleanup_keep sl l.
Proof.
  unfold cleanup_keep. induction l as [|x l IH]; intros H; [done|].
  simpl. rewrite H by left. rewrite IH; [done|].
  intros s Hs. apply H. by right.
Qed.

Lemma slot_pending_alter (g : slot → slot) x sl s :
  (∀ r, pending_removal (g r) = pending_removal r) →
  slot_pending (alter g x sl) s = slot_pending sl s.
Proof.
  intros Hg. unfold slot_pending.
  destruct (decide (s = x)) as [->|Hne].
  - rewrite list_lookup_alter_eq. destruct (sl !! x); simpl; [apply Hg|done].
  - by rewrite list_lookup_alter_ne.
Qed.

Lemma world_eq w w' :
  slots w' = slots w → impls w' = impls w → sigs w' = sigs w →
  conns w' = conns w → objs w' = objs w → log w' = log w →
  next_emission w' = next_emission w → w' = w.
Proof. destruct w, w'; simpl; intros; by subst. Qed.

(** X5 ([connection_t::block], [unblock], [is_blocked]). Through a
    handle whose slot record exists, [block()] makes [is_blocked()]
    true and the slot not callable, [unblock()] makes it false again,
    and neither changes [is_connected()] or any [slot_count()];
    blocking and then unblocking a slot that was not blocked restores
    the state exactly. *)
Theorem block_unblock c w s :
  slot_lock w c = Some s →
  is_blocked c (conn_block c true w) = true ∧
  is_blocked c (conn_unblock c (conn_block c true w)) = false ∧
  (∀ r, slots (conn_block c true w) !! s = Some r →
        is_callable (objs (conn_block c true w)) r = false) ∧
  (∀ b, is_connected c (conn_block c b w) = is_connected c w) ∧
  (∀ b this, slot_count this (conn_block c b w) = slot_count this w) ∧
  (is_blocked c w = false → conn_unblock c (conn_block c true w) = w).
Proof.
  intros Hl. destruct (slot_lock_Some _ _ _ Hl) as (Hc & r & Hr & Hu).
  assert (Hblock : ∀ b, conn_block c b w
                        = set_slots (alter (set_blocked b) s) w).
  { intros b. unfold conn_block. by rewrite Hl. }
  assert (Hlock : ∀ b, slot_lock (conn_block c b w) c = Some s).
  { intros b. rewrite Hblock. unfold slot_lock. rewrite Hc. simpl.
    rewrite list_lookup_alter_eq, Hr. simpl.
    by destruct (Nat.ltb_spec 0 (use_count r)); [|lia]. }
  assert (Hrec : ∀ b, slots (conn_block c b w) !! s = Some (set_blocked b r)).
  { intros b. rewrite Hblock. simpl. by rewrite list_lookup_alter_eq, Hr. }
  split_and!.
  - unfold is_blocked. by rewrite Hlock, Hrec.
  - unfold conn_unblock, is_blocked.
    assert (slot_lock (conn_block c false (conn_block c true w)) c = Some s)
      as ->.
    { unfold conn_block at 1. rewrite Hlock. unfold slot_lock. rewrite Hc.
      simpl. rewrite list_lookup_alter_eq, Hrec. simpl.
      by destruct (Nat.ltb_spec 0 (use_count r)); [|lia]. }
    unfold conn_block at 1. rewrite Hlock. simpl.
    by rewrite list_lookup_alter_eq, Hrec.
  - intros r'. rewrite Hrec. by intros [= <-].
  - intros b. unfold is_connected. rewrite Hlock, Hl, Hblock. simpl.
    by rewrite slot_pending_alter.
  - intros b this. rewrite Hblock. unfold slot_count.
    destruct (impl_ this) as [i|]; [|done].
    rewrite (get_impl_ext w (set_slots _ w)) by done.
    destruct (get_impl w i) as [im|]; [|done]. simpl.
    f_equal. apply cleanup_keep_ext. intros x _. by apply slot_pending_alter.
  - unfold is_blocked. rewrite Hl, Hr. intros Hb.
    unfold conn_unblock. unfold conn_block at 1. rewrite Hlock, Hblock.
    apply world_eq; simpl; try done.
    apply list_eq. intros j. destruct (decide (j = s)) as [->|Hne].
    + rewrite !list_lookup_alter_eq, Hr. simpl. f_equal.
      destruct r; simpl in *. by subst.
    + by rewrite !list_lookup_alter_ne.
Qed.

(** ** Signals *)

Lemma tie_sorted_NoDup prio l : StronglySorted (tie_before prio) l → NoDup l.
Proof.
  induction 1 as [|x l Hs IH Hx]; constructor; [|done].
  intros Hin. rewrite Forall_forall in Hx. by destruct (Hx _ Hin).
Qed.

(** X6 ([connect_impl]). In any reachable state, connecting to a
    valid signal adds exactly one slot to its [slot_count()]; the
    handle returned is connected and not blocked; the new record is
    as constructed; no record that existed is changed, and the dirty
    flag is set. *)
Theorem connect_adds_slot prog n v f p ss t :
  let w := cf_world (run n (init prog)) in
  let this := sig_var w v in
  let r := connect_impl this f p ss t w in
  valid this = true →
  slot_count this (snd r) = S (slot_count this w) ∧
  is_connected (fst r) (snd r) = true ∧
  is_blocked (fst r) (snd r) = false ∧
  conn_slot_ (fst r) = Some (length (slots w)) ∧
  slots (snd r) !! length (slots w) = Some (slot_new f p ss t) ∧
  (∀ s x, slots w !! s = Some x → slots (snd r) !! s = Some x) ∧
  (∃ i im, impl_ this = Some i ∧ get_impl (snd r) i = Some im ∧
     dirty_ im = true).
Proof.
  intros w this r Hv.
  unfold valid in Hv. destruct (impl_ this) as [i|] eqn:Hi; [|done].
  destruct (sep_live _ (Sep_reachable prog n) v i Hi) as [im Him].
  fold w in Him.
  pose proof (iok_valid _ _ (inv_impls _ (Inv_reachable prog n) i im Him))
    as Hval. simpl in Hval. fold w in Hval.
  assert (Hr : r = (mk_connection (Some i) (Some (length (slots w))),
                    put_impl i (set_dirty true
                                  (set_slot_list (slots_ im ++ [length (slots w)]) im))
                      (set_slots (λ l, l ++ [slot_new f p ss t]) w))).
  { unfold r, connect_impl. by rewrite Hi, Him. }
  rewrite Hr. cbn [fst snd].
  assert (Hnew : (slots w ++ [slot_new f p ss t]) !! length (slots w)
                 = Some (slot_new f p ss t)).
  { by rewrite lookup_app_r, Nat.sub_diag by lia. }
  split_and!.
  - unfold slot_count. rewrite Hi, Him.
    erewrite get_put_impl_eq by (by rewrite (get_impl_ext w)).
    cbn [slots_ set_dirty set_slot_list slots put_impl set_impls set_slots].
    unfold cleanup_keep. rewrite List.filter_app, length_app. simpl.
    unfold slot_pending at 2. rewrite Hnew. simpl.
    rewrite Nat.add_1_r. f_equal. f_equal.
    apply cleanup_keep_ext. intros s Hs.
    rewrite Forall_forall in Hval. specialize (Hval s Hs).
    unfold slot_pending. by rewrite lookup_app_l.
  - unfold is_connected, slot_lock. simpl. rewrite Hnew. simpl.
    unfold slot_pending. by rewrite Hnew.
  - unfold is_blocked, slot_lock. simpl. rewrite Hnew. simpl. by rewrite Hnew.
  - done.
  - done.
  - intros s x Hs. simpl. rewrite lookup_app_l; [done|]. by eapply lookup_lt_Some.
  - exists i, (set_dirty true (set_slot_list (slots_ im ++ [length (slots w)]) im)).
    split_and!; try done.
    eapply get_put_impl_eq. by rewrite (get_impl_ext w).
Qed.

Lemma block_unblock_witness :
  let w := cf_world (run 4 (init disconnect_demo)) in
  let c := conn_var w 0 in
  slot_lock w c = Some 0 ∧ conn_unblock c (conn_block c true w) = w.
Proof.
  intros w c.
  assert (Hl : slot_lock w c = Some 0) by (vm_compute; reflexivity).
  destruct (block_unblock c w 0 Hl) as (_ & _ & _ & _ & _ & H).
  split; [exact Hl|]. apply H. vm_compute. reflexivity.
Defined.

Lemma connect_adds_slot_witness :
  let w := cf_world (run 4 (init order_demo)) in
  slot_count (sig_var w 0)
    (snd (connect_impl (sig_var w 0) (mk_function None []) 5 false None w)) = 2.
Proof.
  intros w.
  assert (Hv : valid (sig_var w 0) = true) by (vm_compute; reflexivity).
  destruct (connect_adds_slot order_demo 4 0 (mk_function None []) 5 false None
              Hv) as (H & _).
  fold w in H. rewrite H. vm_compute. reflexivity.
Defined.

Lemma foldr_obj_kill_expired os l o :
  o ∈ l → expired (foldr obj_kill os l) (Some o) = true.
Proof.
  induction l as [|x l IH]; intros Hin; [by inv Hin|].
  simpl. unfold expired, obj_lock, obj_kill in *.
  destruct (decide (o = x)) as [->|Hne].
  - rewrite list_lookup_alter_eq. by destruct (foldr _ os l !! x).
  - rewrite list_lookup_alter_ne by done. apply IH.
    by apply elem_of_cons in Hin as [->|Hin].
Qed.

Lemma put_impl_same i im w :
  get_impl w i = Some im → put_impl i im w = w.
Proof.
  intros H. apply world_eq; simpl; try done.
  unfold get_impl in H. apply list_insert_id.
  destruct (impls w !! i) as [[x|]|]; by simplify_eq.
Qed.

(** What [disconnect_all()] does to a shared state, to the records
    of its slots and to its tags. *)
Lemma disconnect_all_effect this w i im :
  impl_ this = Some i → get_impl w i = Some im →
  let w' := disconnect_all this w in
  get_impl w' i = Some (mk_impl [] [] false) ∧
  (∀ j, j ≠ i → get_impl w' j = get_impl w j) ∧
  (∀ s r, s ∈ slots_ im → slots w !! s = Some r →
     ∃ r', slots w' !! s = Some r' ∧ pending_removal r' = true) ∧
  (∀ t, t ∈ tags_ im → expired (objs w') (Some (fst t)) = true).
Proof.
  intros Hi Him w'.
  assert (Hw' : w' = put_impl i (mk_impl [] [] false)
            (set_objs (λ os, foldr obj_kill os (map fst (tags_ im)))
               (set_slots (release_all (slots_ im)) (mark_all (slots_ im) w)))).
  { unfold w', disconnect_all. by rewrite Hi, Him. }
  destruct (mark_all_frame (slots_ im) w) as (Hmi & Hms & Hmc & Hmo & _ & _ & Hle).
  split_and!.
  - rewrite Hw'. eapply get_put_impl_eq.
    rewrite (get_impl_ext w); [exact Him | done].
  - intros j Hj. rewrite Hw', get_put_impl_ne by done.
    by apply get_impl_ext.
  - intros s r Hs Hr.
    assert (Hlt : s < length (slots w)) by (by eapply lookup_lt_Some).
    pose proof (mark_all_pending (slots_ im) w s Hs Hlt) as Hp.
    assert (Hp' : slot_pending (slots w') s = true).
    { rewrite Hw'. simpl. eapply heap_le_pending; [apply heap_le_release_all| |done].
      apply heap_le_length in Hle. lia. }
    apply slot_pending_Some; [|done].
    rewrite Hw'. simpl. pose proof (heap_le_release_all (slots_ im)
      (slots (mark_all (slots_ im) w))) as Hle2.
    apply heap_le_length in Hle, Hle2. lia.
  - intros t Ht. rewrite Hw'. simpl. apply foldr_obj_kill_expired.
    apply list_elem_of_fmap. eauto.
Qed.

(** X7 ([disconnect_all]). On a signal with a shared state the call
    takes effect at once: the slot list and the tag registry are
    empty and the dirty flag is clear, [slot_count()] is 0 and
    [empty()] holds, every slot that was listed is pending removal,
    every tag that was registered has expired, the next emission
    returns at the empty test, and a second call changes nothing. *)
Theorem disconnect_all_clears this w i im :
  impl_ this = Some i → get_impl w i = Some im →
  let w' := disconnect_all this w in
  get_impl w' i = Some (mk_impl [] [] false) ∧
  slot_count this w' = 0 ∧ empty this w' = true ∧
  (∀ s r, s ∈ slots_ im → slots w !! s = Some r →
     ∃ r', slots w' !! s = Some r' ∧ pending_removal r' = true) ∧
  (∀ t, t ∈ tags_ im → expired (objs w') (Some (fst t)) = true) ∧
  emit_begin this w' = (None, w') ∧
  disconnect_all this w' = w'.
Proof.
  intros Hi Him w'.
  destruct (disconnect_all_effect this w i im Hi Him) as (Hget & _ & Hp & Ht).
  fold w' in Hget, Hp, Ht.
  assert (Hcount : slot_count this w' = 0).
  { unfold slot_count. by rewrite Hi, Hget. }
  split_and!; try done.
  - unfold empty. by rewrite Hcount.
  - unfold emit_begin. by rewrite Hi, Hget.
  - unfold disconnect_all. rewrite Hi, Hget. simpl.
    etrans; [|by apply put_impl_same]. f_equal.
Qed.

Lemma disconnect_all_clears_witness :
  let w := cf_world (run 10 (init order_demo)) in
  slot_count (sig_var w 0) w = 3 ∧
  slot_count (sig_var w 0) (disconnect_all (sig_var w 0) w) = 0.
Proof.
  intros w. split; [vm_compute; reflexivity|].
  assert (Hi : impl_ (sig_var w 0) = Some 0) by (vm_compute; reflexivity).
  assert (Him : get_impl w 0 = Some (mk_impl [0; 1; 2] [] true))
    by (vm_compute; reflexivity).
  exact (proj1 (proj2 (disconnect_all_clears _ w 0 _ Hi Him))).
Defined.

Lemma slot_pending_acquire_all l sl s :
  slot_pending (acquire_all l sl) s = slot_pending sl s.
Proof.
  induction l as [|x l IH]; [done|]. simpl.
  by rewrite slot_pending_alter.
Qed.

Lemma slot_pending_release_all l sl s :
  slot_pending (release_all l sl) s = slot_pending sl s.
Proof.
  induction l as [|x l IH]; [done|]. simpl.
  by rewrite slot_pending_alter.
Qed.

Lemma cleanup_keep_all sl l :
  Forall (λ s, slot_pending sl s = false) l → cleanup_keep sl l = l.
Proof.
  unfold cleanup_keep. induction 1 as [|x l Hx _ IH]; [done|].
  simpl. by rewrite Hx, IH.
Qed.

Lemma elem_of_cleanup_keep sl l s :
  s ∈ cleanup_keep sl l ↔ s ∈ l ∧ slot_pending sl s = false.
Proof.
  unfold cleanup_keep. rewrite list_elem_of_In, List.filter_In, <- list_elem_of_In.
  by rewrite negb_true_iff.
Qed.

(** X8 ([operator()], first critical section, with
    [cleanup_slots_locked]). The lazy cleanup never changes
    [slot_count()]. An emission on an empty slot list returns at
    once. Otherwise the snapshot is the slot list the emission
    leaves, with a clear dirty flag; it is the list as it was when
    the flag was clear, and when the flag was set it holds exactly
    the listed slots not pending removal, in descending priority,
    [slot_count()] of them. *)
Theorem emit_begin_cleans this w i im :
  impl_ this = Some i → get_impl w i = Some im →
  let r := emit_begin this w in
  slot_count this (snd r) = slot_count this w ∧
  (slots_ im = [] → r = (None, w)) ∧
  (slots_ im ≠ [] →
   ∃ local, fst r = Some local ∧
     get_impl (snd r) i = Some (mk_impl local (tags_ im) false) ∧
     (dirty_ im = false → local = slots_ im) ∧
     (dirty_ im = true →
        (∀ s, s ∈ local ↔ s ∈ slots_ im ∧ slot_pending (slots w) s = false) ∧
        StronglySorted (λ a b, (slot_priority (slots w) b
                                ≤ slot_priority (slots w) a)%Z) local ∧
        length local = slot_count this w)).
Proof.
  intros Hi Him r.
  assert (Hcnt : slot_count this w
                 = length (cleanup_keep (slots w) (slots_ im))).
  { unfold slot_count. by rewrite Hi, Him. }
  destruct (slots_ im) as [|s0 l0] eqn:Hl.
  { assert (r = (None, w)) as Hr.
    { unfold r, emit_begin. by rewrite Hi, Him, Hl. }
    rewrite Hr. split_and!; try done. }
  rewrite <- Hl in *.
  assert (Hne : slots_ im ≠ []) by (by rewrite Hl).
  clear Hl s0 l0.
  assert (Hr : r = if dirty_ im
    then (Some (stable_sort (slot_priority (slots w))
                  (cleanup_keep (slots w) (slots_ im))),
          set_slots (acquire_all (stable_sort (slot_priority (slots w))
                                    (cleanup_keep (slots w) (slots_ im))))
            (put_impl i (mk_impl (stable_sort (slot_priority (slots w))
                                    (cleanup_keep (slots w) (slots_ im)))
                           (tags_ im) false)
               (set_slots (release_all (cleanup_drop (slots w) (slots_ im))) w)))
    else (Some (slots_ im),
          set_slots (acquire_all (slots_ im)) (put_impl i im w))).
  { unfold r, emit_begin. rewrite Hi, Him.
    destruct (slots_ im) as [|s0 l0] eqn:Hl; [done|].
    destruct (dirty_ im); cbn beta iota zeta; by rewrite ?Hl. }
  set (sorted := stable_sort (slot_priority (slots w))
                   (cleanup_keep (slots w) (slots_ im))) in *.
  destruct (dirty_ im) eqn:Hd; rewrite Hr; cbn [fst snd].
  - assert (Hget : get_impl
        (set_slots (acquire_all sorted)
           (put_impl i (mk_impl sorted (tags_ im) false)
              (set_slots (release_all (cleanup_drop (slots w) (slots_ im))) w))) i
        = Some (mk_impl sorted (tags_ im) false)).
    { rewrite (get_impl_ext (put_impl i _ (set_slots _ w))) by done.
      eapply get_put_impl_eq. by rewrite (get_impl_ext w). }
    assert (Hmem : ∀ s, s ∈ sorted
              ↔ s ∈ slots_ im ∧ slot_pending (slots w) s = false).
    { intros s. unfold sorted.
      by rewrite stable_sort_elem_of, elem_of_cleanup_keep. }
    assert (Hlen : length sorted = slot_count this w).
    { rewrite Hcnt. unfold sorted. by rewrite stable_sort_perm. }
    split_and!.
    + unfold slot_count at 1. rewrite Hi, Hget. cbn [slots_].
      rewrite cleanup_keep_all; [done|].
      apply Forall_forall. intros s Hs. simpl.
      rewrite slot_pending_acquire_all, slot_pending_release_all.
      by apply Hmem.
    + done.
    + intros _. exists sorted. split_and!; try done.
      intros _. split_and!; try done. apply stable_sort_desc.
  - assert (Hget : get_impl
        (set_slots (acquire_all (slots_ im)) (put_impl i im w)) i = Some im).
    { rewrite (get_impl_ext (put_impl i im w)) by done.
      by eapply get_put_impl_eq. }
    split_and!.
    + unfold slot_count. rewrite Hi, Hget, Him. f_equal.
      apply cleanup_keep_ext. intros s _. simpl.
      by rewrite slot_pending_acquire_all.
    + done.
    + intros _. exists (slots_ im). split_and!; try done.
      by destruct im; simpl in *; subst.
Qed.

Lemma emit_begin_cleans_witness :
  let w := cf_world (run 10 (init order_demo)) in
  fst (emit_begin (sig_var w 0) w) = Some [1; 0; 2] ∧
  slot_count (sig_var w 0) (snd (emit_begin (sig_var w 0) w)) = 3.
Proof.
  intros w. split; [vm_compute; reflexivity|].
  assert (Hi : impl_ (sig_var w 0) = Some 0) by (vm_compute; reflexivity).
  assert (Him : get_impl w 0 = Some (mk_impl [0; 1; 2] [] true))
    by (vm_compute; reflexivity).
  rewrite (proj1 (emit_begin_cleans _ w 0 _ Hi Him)).
  vm_compute. reflexivity.
Defined.

(** ** Tags *)

Lemma find_tag_app_new name l o :
  List.find (tag_named name) l = None →
  List.find (tag_named name) (l ++ [(o, name)]) = Some (o, name).
Proof.
  induction l as [|x l IH]; simpl.
  - intros _. unfold tag_named. simpl. by rewrite String.eqb_refl.
  - destruct (tag_named name x); [done|]. exact IH.
Qed.

Lemma find_tag_Some name l t :
  List.find (tag_named name) l = Some t → t = (fst t, name).
Proof.
  intros H. apply find_some in H as [_ H]. unfold tag_named in H.
  apply String.eqb_eq in H. destruct t; simpl in *. by subst.
Qed.

(** What [get_or_create_tag] returns is registered under the name. *)
Lemma get_or_create_tag_registered i name w im :
  get_impl w i = Some im →
  ∃ o im1, let w1 := snd (get_or_create_tag i name w) in
    fst (get_or_create_tag i name w) = Some o ∧
    get_impl w1 i = Some im1 ∧
    List.find (tag_named name) (tags_ im1) = Some (o, name) ∧
    slots_ im1 = slots_ im ∧ slots w1 = slots w ∧
    length (tags_ im1) ≤ S (length (tags_ im)) ∧
    (is_Some (List.find (tag_named name) (tags_ im)) → w1 = w).
Proof.
  intros Him. unfold get_or_create_tag. rewrite Him.
  destruct (List.find (tag_named name) (tags_ im)) as [t|] eqn:Hf; simpl.
  - exists (fst t), im. split_and!; try done; [|lia].
    rewrite Hf. f_equal. by eapply find_tag_Some.
  - eexists (length (objs w)), _. split_and!; [done| | | | | |].
    + eapply get_put_impl_eq. by rewrite (get_impl_ext w).
    + simpl. by apply find_tag_app_new.
    + done.
    + done.
    + simpl. rewrite length_app. simpl. lia.
    + by intros [? ?].
Qed.

(** X9 ([get_or_create_tag], [connect(tag, ...)]). Looking a tag name
    up twice gives the same tag object, and the second lookup changes
    nothing. So two slots connected to a signal under one name track
    one tag object, registered once under that name. *)
Theorem same_tag_same_object this tag b1 p1 b2 p2 w i im :
  impl_ this = Some i → get_impl w i = Some im →
  let g := get_or_create_tag i tag w in
  let r1 := connect_tag this tag b1 p1 w in
  let r2 := connect_tag this tag b2 p2 (snd r1) in
  get_or_create_tag i tag (snd g) = g ∧
  ∃ o x1 x2 im2,
    fst g = Some o ∧
    conn_slot_ (fst r1) = Some (length (slots w)) ∧
    conn_slot_ (fst r2) = Some (S (length (slots w))) ∧
    slots (snd r2) !! length (slots w) = Some x1 ∧
    slots (snd r2) !! S (length (slots w)) = Some x2 ∧
    tracked x1 = Some o ∧ tracked x2 = Some o ∧
    get_impl (snd r2) i = Some im2 ∧
    List.find (tag_named tag) (tags_ im2) = Some (o, tag) ∧
    length (tags_ im2) ≤ S (length (tags_ im)).
Proof.
  intros Hi Him g r1 r2.
  destruct (get_or_create_tag_registered i tag w im Him)
    as (o & im1 & Hg1 & Hget1 & Hfind1 & Hsl1 & Hslots1 & Hlen1 & _).
  fold g in Hg1, Hget1, Hslots1.
  assert (Hgw : g = (Some o, snd g)).
  { destruct g as [x y]; simpl in *. by subst. }
  split.
  { destruct (get_or_create_tag_registered i tag (snd g) im1 Hget1)
      as (o' & im1' & Hg' & _ & _ & _ & _ & _ & Hsame).
    assert (get_or_create_tag i tag (snd g) = (Some o, snd g)) as ->; [|done].
    unfold get_or_create_tag at 1. rewrite Hget1, Hfind1. done. }
  (* the first connect *)
  set (new1 := slot_new (mk_function None b1) p1 false (Some o)).
  set (ima := set_dirty true
                (set_slot_list (slots_ im1 ++ [length (slots w)]) im1)).
  assert (Hr1 : r1 = (mk_connection (Some i) (Some (length (slots w))),
                      put_impl i ima (set_slots (λ l, l ++ [new1]) (snd g)))).
  { unfold r1, connect_tag. rewrite Hi. fold g. rewrite Hgw.
    unfold connect_impl. rewrite Hi, Hget1, Hslots1. done. }
  assert (Hgeta : get_impl (snd r1) i = Some ima).
  { rewrite Hr1. simpl. eapply get_put_impl_eq.
    by rewrite (get_impl_ext (snd g)). }
  assert (Hslotsa : slots (snd r1) = slots w ++ [new1]).
  { rewrite Hr1. simpl. by rewrite Hslots1. }
  (* the second connect finds the tag *)
  set (new2 := slot_new (mk_function None b2) p2 false (Some o)).
  set (imb := set_dirty true
                (set_slot_list (slots_ ima ++ [S (length (slots w))]) ima)).
  assert (Hr2 : r2 = (mk_connection (Some i) (Some (S (length (slots w)))),
                      put_impl i imb (set_slots (λ l, l ++ [new2]) (snd r1)))).
  { unfold r2, connect_tag. rewrite Hi.
    unfold get_or_create_tag. rewrite Hgeta. simpl tags_. rewrite Hfind1.
    simpl fst. unfold connect_impl. rewrite Hi, Hgeta, Hslotsa.
    rewrite length_app. simpl. by rewrite Nat.add_1_r. }
  exists o, new1, new2, imb. rewrite Hr1 at 1. rewrite Hr2. simpl.
  rewrite Hslotsa.
  split_and!; try done.
  - rewrite lookup_app_l by (rewrite length_app; simpl; lia).
    by rewrite lookup_app_r, Nat.sub_diag by lia.
  - rewrite lookup_app_r by (rewrite length_app; simpl; lia).
    rewrite length_app. simpl. by replace (S _ - _) with 0 by lia.
  - eapply get_put_impl_eq. by rewrite (get_impl_ext (snd r1)).
Qed.

Lemma same_tag_same_object_witness :
  let w := cf_world (run 1 (init tag_demo)) in
  let r1 := connect_tag (sig_var w 0) "a" [] 0 w in
  let r2 := connect_tag (sig_var w 0) "a" [] 0 (snd r1) in
  ∃ o x1 x2, slots (snd r2) !! 0 = Some x1 ∧ slots (snd r2) !! 1 = Some x2 ∧
    tracked x1 = Some o ∧ tracked x2 = Some o.
Proof.
  intros w r1 r2.
  assert (Hi : impl_ (sig_var w 0) = Some 0) by (vm_compute; reflexivity).
  assert (Him : get_impl w 0 = Some (mk_impl [] [] false))
    by (vm_compute; reflexivity).
  destruct (same_tag_same_object _ "a" [] 0%Z [] 0%Z w 0 _ Hi Him)
    as (_ & o & x1 & x2 & _ & _ & _ & _ & H1 & H2 & H3 & H4 & _).
  exists o, x1, x2. split_and!; [exact H1 | exact H2 | exact H3 | exact H4].
Defined.

(** ** Disconnection through a handle *)

Lemma conn_disconnect_live c w i s :
  impl_lock w c = Some i → slot_lock w c = Some s →
  ∃ im r, get_impl w i = Some im ∧ slots w !! s = Some r ∧
    conn_disconnect c w = put_impl i (set_dirty true im) (mark_pending s w).
Proof.
  intros Hi Hs. unfold conn_disconnect. rewrite Hi, Hs.
  destruct (impl_lock_Some _ _ _ Hi) as (_ & im & Him).
  destruct (slot_lock_Some _ _ _ Hs) as (_ & r & Hr & _).
  exists im, r. unfold disconnect_slot. by rewrite Him.
Qed.

(** [disconnect()] leaves the slot records alone, or sets
    [pending_removal] on the record of the handle. *)
Lemma conn_disconnect_slots c w :
  slots (conn_disconnect c w) = slots w ∨
  ∃ s, conn_slot_ c = Some s ∧
    slots (conn_disconnect c w) = alter (set_pending_removal true) s (slots w).
Proof.
  unfold conn_disconnect.
  destruct (impl_lock w c) as [i|] eqn:Hi; [|by left].
  destruct (slot_lock w c) as [s|] eqn:Hs; [|by left].
  destruct (slot_lock_Some _ _ _ Hs) as (Hc & _).
  unfold disconnect_slot. destruct (get_impl w i); [|by left].
  right. by exists s.
Qed.

Lemma slot_lock_ext w w' c :
  (∀ s, use_count <$> slots w' !! s = use_count <$> slots w !! s) →
  slot_lock w' c = slot_lock w c.
Proof.
  intros H. unfold slot_lock. destruct (conn_slot_ c) as [s|]; [|done].
  specialize (H s).
  destruct (slots w' !! s), (slots w !! s); simpl in H; simplify_eq; [|done].
  by rewrite H.
Qed.

Lemma conn_disconnect_slot_lock c' w c :
  slot_lock (conn_disconnect c' w) c = slot_lock w c.
Proof.
  apply slot_lock_ext. intros s.
  destruct (conn_disconnect_slots c' w) as [->|(x & _ & ->)]; [done|].
  destruct (decide (s = x)) as [->|Hne].
  - rewrite list_lookup_alter_eq. by destruct (slots w !! x).
  - by rewrite list_lookup_alter_ne.
Qed.

Lemma conn_disconnect_pending c' w s :
  slot_pending (slots w) s = true →
  slot_pending (slots (conn_disconnect c' w)) s = true.
Proof.
  intros Hp.
  destruct (conn_disconnect_slots c' w) as [->|(x & _ & ->)]; [done|].
  unfold slot_pending in *. destruct (decide (s = x)) as [->|Hne].
  - rewrite list_lookup_alter_eq. by destruct (slots w !! x).
  - by rewrite list_lookup_alter_ne.
Qed.

Lemma conn_disconnect_impl_lock c' w c :
  impl_lock (conn_disconnect c' w) c = impl_lock w c.
Proof.
  unfold impl_lock. destruct (conn_impl_ c) as [j|]; [|done].
  unfold conn_disconnect.
  destruct (impl_lock w c') as [i|] eqn:Hi; [|done].
  destruct (slot_lock w c') as [s|] eqn:Hs; [|done].
  unfold disconnect_slot. destruct (get_impl w i) as [im|] eqn:Him; [|done].
  destruct (decide (i = j)) as [->|Hne].
  - erewrite get_put_impl_eq by (by rewrite (get_impl_ext w)).
    by rewrite Him.
  - rewrite get_put_impl_ne by done. by rewrite (get_impl_ext w).
Qed.

Lemma conn_disconnect_stays c' w c :
  is_connected c w = false → is_connected c (conn_disconnect c' w) = false.
Proof.
  unfold is_connected. rewrite conn_disconnect_slot_lock.
  destruct (slot_lock w c) as [s|]; [|done].
  rewrite !negb_false_iff. apply conn_disconnect_pending.
Qed.

Lemma conn_disconnect_disconnects c w i :
  impl_lock w c = Some i → is_connected c (conn_disconnect c w) = false.
Proof.
  intros Hi. unfold is_connected. rewrite conn_disconnect_slot_lock.
  destruct (slot_lock w c) as [s|] eqn:Hs; [|done].
  destruct (conn_disconnect_live _ _ _ _ Hi Hs) as (im & r & _ & Hr & ->).
  simpl. unfold slot_pending. by rewrite list_lookup_alter_eq, Hr.
Qed.

Lemma conn_disconnect_never_invoked c w i s :
  impl_lock w c = Some i → slot_lock w c = Some s →
  ∀ m k p n,
    invocations s (log (cf_world (run n (mk_config m (conn_disconnect c w) k p))))
    = invocations s (log (conn_disconnect c w)).
Proof.
  intros Hi Hs m k p n.
  destruct (conn_disconnect_live _ _ _ _ Hi Hs) as (im & r & _ & Hr & ->).
  assert (Hr' : slots (put_impl i (set_dirty true im) (mark_pending s w)) !! s
                = Some (set_pending_removal true r)).
  { simpl. by rewrite list_lookup_alter_eq, Hr. }
  by destruct (pending_run n (mk_config m _ k p) s _ Hr' eq_refl) as [-> _].
Qed.

(** ** Scoped connections and groups *)

(** X10 ([scoped_connection_t]). Destroying a scoped connection
    disconnects the connection it holds and touches no other slot
    record: the handle reports not connected and the slot is never
    invoked again. [release()] gives the connection up, so that
    destruction then changes nothing. A move leaves the source empty
    and the target doing what the source would have done: destroying
    both disconnects once. A move assignment disconnects what the
    target held and hands over what the source holds, and a
    self-assignment changes nothing. [disconnect()] is idempotent. *)
Theorem scoped_connection_raii sc w :
  (∀ c i, disconnector_ sc = Some c → impl_lock w c = Some i →
     is_connected c (scoped_destroy sc w) = false ∧
     (∀ s, conn_slot_ c ≠ Some s →
        slots (scoped_destroy sc w) !! s = slots w !! s) ∧
     ∀ s, slot_lock w c = Some s → ∀ m k p n,
       invocations s
         (log (cf_world (run n (mk_config m (scoped_destroy sc w) k p))))
       = invocations s (log (scoped_destroy sc w))) ∧
  scoped_destroy (scoped_release sc) w = w ∧
  scoped_destroy scoped_default w = w ∧
  scoped_destroy (snd (scoped_move sc))
    (scoped_destroy (fst (scoped_move sc)) w) = scoped_destroy sc w ∧
  scoped_destroy (fst (scoped_move sc))
    (scoped_destroy (snd (scoped_move sc)) w) = scoped_destroy sc w ∧
  (let d := scoped_disconnect sc w in
   scoped_disconnect (fst d) (snd d) = d) ∧
  (∀ c, fst (scoped_assign sc c w) = scoped_from c ∧
        snd (scoped_assign sc c w) = scoped_destroy sc w) ∧
  scoped_move_assign sc None w = (sc, None, w) ∧
  (∀ o w2,
     (scoped_move_assign sc (Some o) w).2 = scoped_destroy sc w ∧
     scoped_destroy (scoped_move_assign sc (Some o) w).1.1 w2
       = scoped_destroy o w2 ∧
     ∀ o', (scoped_move_assign sc (Some o) w).1.2 = Some o' →
           scoped_destroy o' w2 = w2).
Proof.
  split_and!; try done.
  - intros c i Hd Hi. unfold scoped_destroy, scoped_disconnect. rewrite Hd.
    simpl. split_and!.
    + by eapply conn_disconnect_disconnects.
    + intros s Hs.
      destruct (conn_disconnect_slots c w) as [->|(x & Hx & ->)]; [done|].
      rewrite list_lookup_alter_ne; [done|]. congruence.
    + intros s Hs m k p n. by eapply conn_disconnect_never_invoked.
  - unfold scoped_destroy, scoped_move, scoped_disconnect. simpl.
    by destruct (disconnector_ sc).
  - unfold scoped_destroy, scoped_move, scoped_disconnect. simpl.
    by destruct (disconnector_ sc).
  - by destruct sc as [[c|]].
  - intros o w2. split_and!; [done | | by intros o' [= <-]].
    unfold scoped_destroy, scoped_disconnect. simpl.
    by destruct (disconnector_ o).
Qed.

Lemma scoped_destroy_cases sc w :
  scoped_destroy sc w = w ∨
  ∃ c, disconnector_ sc = Some c ∧ scoped_destroy sc w = conn_disconnect c w.
Proof.
  unfold scoped_destroy, scoped_disconnect.
  destruct (disconnector_ sc) as [c|]; [right; eauto | by left].
Qed.

(** X11 ([connection_group_t]). [disconnect_all()] empties the group
    and disconnects every connection added to it whose signal still
    exists; a handle that was not connected stays so, and no slot
    record other than those of the group's connections is touched.
    [add] grows the group by one. *)
Theorem group_disconnect_all_spec g w :
  let r := group_disconnect_all g w in
  group_size (fst r) = 0 ∧ group_empty (fst r) = true ∧
  (∀ c, scoped_from c ∈ g → is_Some (impl_lock w c) →
     is_connected c (snd r) = false) ∧
  (∀ c, is_connected c w = false → is_connected c (snd r) = false) ∧
  (∀ s, (∀ c, scoped_from c ∈ g → conn_slot_ c ≠ Some s) →
     slots (snd r) !! s = slots w !! s) ∧
  (∀ c, group_size (group_add c g) = S (group_size g) ∧
        group_empty (group_add c g) = false ∧
        scoped_from c ∈ group_add c g).
Proof.
  simpl. split_and!; try done.
  - revert w. induction g as [|sc g IH]; intros w c Hin Hl.
    { by apply elem_of_nil in Hin. }
    simpl.
    assert (Hstay : ∀ g' w', is_connected c w' = false →
              is_connected c (group_destroy_elements g' w') = false).
    { clear. induction g' as [|sc' g' IH']; intros w' H; [done|]. simpl.
      apply IH'. destruct (scoped_destroy_cases sc' w') as [->|(c' & _ & ->)];
        [done | by apply conn_disconnect_stays]. }
    apply elem_of_cons in Hin as [Heq|Hin].
    + subst sc. apply Hstay. destruct Hl as [i Hi].
      unfold scoped_destroy, scoped_disconnect. simpl.
      by eapply conn_disconnect_disconnects.
    + apply IH; [done|].
      destruct (scoped_destroy_cases sc w) as [->|(c' & _ & ->)]; [done|].
      by rewrite conn_disconnect_impl_lock.
  - revert w. induction g as [|sc g IH]; intros w c H; [done|]. simpl.
    apply IH. destruct (scoped_destroy_cases sc w) as [->|(c' & _ & ->)];
      [done | by apply conn_disconnect_stays].
  - revert w. induction g as [|sc g IH]; intros w s H; [done|]. simpl.
    rewrite IH by (intros c Hc; apply H; by right).
    destruct (scoped_destroy_cases sc w) as [->|(c' & Hd & ->)]; [done|].
    destruct (conn_disconnect_slots c' w) as [->|(x & Hx & ->)]; [done|].
    rewrite list_lookup_alter_ne; [done|]. intros ->.
    apply (H c'); [|done]. destruct sc; simpl in *; subst. by left.
  - intros c. unfold group_size, group_add. rewrite length_app. simpl.
    split_and!; [lia | by destruct g | ].
    apply elem_of_app. right. by left.
Qed.

(** ** Destruction of a signal *)

(** X12 ([~signal_t]). When a signal with a shared state is
    destroyed, the shared state is gone and no other is touched;
    every slot it listed is pending removal, so its handle reports
    not connected and the slot is never invoked again; the tags it
    registered have expired; and [disconnect()] on a handle of the
    destroyed signal does nothing. *)
Theorem signal_destroy_spec this w i im :
  impl_ this = Some i → get_impl w i = Some im →
  let w' := signal_destroy this w in
  get_impl w' i = None ∧
  (∀ j, j ≠ i → get_impl w' j = get_impl w j) ∧
  (∀ c, conn_impl_ c = Some i → conn_disconnect c w' = w') ∧
  (∀ s r, s ∈ slots_ im → slots w !! s = Some r →
     (∀ c, conn_slot_ c = Some s → is_connected c w' = false) ∧
     ∀ m k p n,
       invocations s (log (cf_world (run n (mk_config m w' k p))))
       = invocations s (log w')) ∧
  (∀ t, t ∈ tags_ im → expired (objs w') (Some (fst t)) = true).
Proof.
  intros Hi Him w'.
  destruct (disconnect_all_effect this w i im Hi Him) as (Hget & Hother & Hp & Ht).
  assert (Hw' : w' = set_impls (λ l, <[i := None]> l) (disconnect_all this w)).
  { unfold w', signal_destroy, impl_release. by rewrite Hi. }
  assert (Hnone : get_impl w' i = None).
  { rewrite Hw'. unfold get_impl. simpl.
    unfold get_impl in Hget.
    destruct (impls (disconnect_all this w) !! i) as [x|] eqn:Hx; [|done].
    rewrite list_lookup_insert_eq; [done|]. by eapply lookup_lt_Some. }
  split_and!.
  - done.
  - intros j Hj. rewrite <- Hother by done. rewrite Hw'.
    unfold get_impl. simpl. by rewrite list_lookup_insert_ne.
  - intros c Hc. unfold conn_disconnect, impl_lock. by rewrite Hc, Hnone.
  - intros s r Hs Hr. destruct (Hp s r Hs Hr) as (r' & Hr' & Hpr').
    assert (Hr2 : slots w' !! s = Some r') by (by rewrite Hw').
    split.
    + intros c Hc. unfold is_connected, slot_lock. rewrite Hc, Hr2.
      destruct (0 <? use_count r'); [|done].
      unfold slot_pending. by rewrite Hr2, Hpr'.
    + intros m k p n.
      by destruct (pending_run n (mk_config m w' k p) s _ Hr2 Hpr') as [-> _].
  - intros t Ht'. rewrite Hw'. simpl. by apply Ht.
Qed.

Lemma scoped_connection_raii_witness :
  let w := cf_world (run 4 (init disconnect_demo)) in
  let c := conn_var w 0 in
  is_connected c w = true ∧
  is_connected c (scoped_destroy (scoped_from c) w) = false ∧
  is_connected c (scoped_destroy (scoped_release (scoped_from c)) w) = true.
Proof.
  intros w c.
  assert (H0 : is_connected c w = true) by (vm_compute; reflexivity).
  assert (Hi : impl_lock w c = Some 0) by (vm_compute; reflexivity).
  destruct (scoped_connection_raii (scoped_from c) w) as (H1 & H2 & _).
  destruct (H1 c 0 eq_refl Hi) as [H3 _].
  split; [exact H0|]. split; [exact H3|].
  rewrite H2. exact H0.
Defined.

Lemma group_disconnect_all_spec_witness :
  let w := cf_world (run 10 (init order_demo)) in
  let g := group_add (conn_var w 2) (group_add (conn_var w 0) []) in
  slot_count (sig_var w 0) w = 3 ∧
  is_connected (conn_var w 0) (snd (group_disconnect_all g w)) = false ∧
  is_connected (conn_var w 2) (snd (group_disconnect_all g w)) = false ∧
  slots (snd (group_disconnect_all g w)) !! 1 = slots w !! 1.
Proof.
  intros w g.
  destruct (group_disconnect_all_spec g w) as (_ & _ & H1 & _ & H2 & _).
  split; [vm_compute; reflexivity|].
  split; [apply H1; [vm_compute; left | vm_compute; eauto]|].
  split; [apply H1; [vm_compute; right; left | vm_compute; eauto]|].
  apply H2. intros c Hc.
  assert (Hg : g = [scoped_from (conn_var w 0); scoped_from (conn_var w 2)])
    by reflexivity.
  rewrite Hg in Hc.
  apply elem_of_cons in Hc as [Hc|Hc]; [injection Hc as ->; vm_compute; congruence|].
  apply elem_of_cons in Hc as [Hc|Hc]; [injection Hc as ->; vm_compute; congruence|].
  by apply elem_of_nil in Hc.
Defined.

Lemma signal_destroy_spec_witness :
  let w := cf_world (run 10 (init order_demo)) in
  get_impl w 0 = Some (mk_impl [0; 1; 2] [] true) ∧
  get_impl (signal_destroy (sig_var w 0) w) 0 = None ∧
  is_connected (conn_var w 1) w = true ∧
  is_connected (conn_var w 1) (signal_destroy (sig_var w 0) w) = false.
Proof.
  intros w.
  assert (Hi : impl_ (sig_var w 0) = Some 0) by (vm_compute; reflexivity).
  assert (Him : get_impl w 0 = Some (mk_impl [0; 1; 2] [] true))
    by (vm_compute; reflexivity).
  assert (Hr : slots w !! 1
               = Some (mk_slot (mk_function None [ARecord 2]) 100 false false
                         false false None 1))
    by (vm_compute; reflexivity).
  destruct (signal_destroy_spec _ w 0 _ Hi Him) as (H1 & _ & _ & H2 & _).
  assert (Hin : 1 ∈ [0; 1; 2]) by (right; left).
  destruct (H2 1 _ Hin Hr) as [H3 _].
  split; [exact Him|]. split; [exact H1|].
  split; [vm_compute; reflexivity|].
  apply H3. vm_compute. reflexivity.
Defined.

(** ** Objects and handle variables over an execution *)

Lemma objs_le_refl os : objs_le os os.
Proof. intros o ob H. exists ob. done. Qed.

Lemma objs_le_trans os1 os2 os3 :
  objs_le os1 os2 → objs_le os2 os3 → objs_le os1 os3.
Proof.
  intros H1 H2 o ob Ho. destruct (H1 _ _ Ho) as (ob2 & Ho2 & Ht2 & Ha2).
  destruct (H2 _ _ Ho2) as (ob3 & Ho3 & Ht3 & Ha3).
  exists ob3. split_and!; [done | congruence | auto].
Qed.

Lemma objs_le_app os l : objs_le os (os ++ l).
Proof.
  intros o ob Ho. exists ob. split_and!; try done.
  rewrite lookup_app_l; [done|]. by eapply lookup_lt_Some.
Qed.

Lemma objs_le_kill o os : objs_le os (obj_kill o os).
Proof.
  intros x ob Hx. unfold obj_kill. destruct (decide (x = o)) as [->|Hne].
  - rewrite list_lookup_alter_eq, Hx. simpl. eauto.
  - rewrite list_lookup_alter_ne by done. eauto.
Qed.

Lemma objs_le_kill_all l os : objs_le os (foldr obj_kill os l).
Proof.
  induction l as [|x l IH]; simpl; [apply objs_le_refl|].
  eapply objs_le_trans; [exact IH | apply objs_le_kill].
Qed.

Lemma steady_refl w : steady w w.
Proof. split; [done | apply objs_le_refl]. Qed.

Lemma steady_trans w1 w2 w3 : steady w1 w2 → steady w2 w3 → steady w1 w3.
Proof.
  intros [C1 O1] [C2 O2]. split; [congruence | by eapply objs_le_trans].
Qed.

Lemma steady_ext w w' : conns w' = conns w → objs w' = objs w → steady w w'.
Proof. intros Hc Ho. split; [done|]. rewrite Ho. apply objs_le_refl. Qed.

Lemma connect_impl_steady this f p ss t w :
  steady w (snd (connect_impl this f p ss t w)).
Proof.
  unfold connect_impl. open_impl this w i im Hi ltac:(apply steady_refl).
  by apply steady_ext.
Qed.

Lemma get_or_create_tag_steady i name w :
  steady w (snd (get_or_create_tag i name w)).
Proof.
  unfold get_or_create_tag. destruct (get_impl w i) as [im|]; [|apply steady_refl].
  destruct (List.find _ _); [apply steady_refl|].
  split; [done|]. simpl. apply objs_le_app.
Qed.

Lemma connect_tag_steady this tag body p w :
  steady w (snd (connect_tag this tag body p w)).
Proof.
  unfold connect_tag. destruct (impl_ this) as [i|]; [|apply steady_refl].
  pose proof (get_or_create_tag_steady i tag w) as H.
  destruct (get_or_create_tag i tag w) as [tp w1]. simpl in H.
  eapply steady_trans; [exact H | apply connect_impl_steady].
Qed.

Lemma disconnect_tag_steady this tag w :
  steady w (snd (disconnect_tag this tag w)).
Proof.
  unfold disconnect_tag. open_impl this w i im Hi ltac:(apply steady_refl).
  destruct (List.find _ _) as [t|]; [|apply steady_refl].
  destruct (mark_tracking_frame (fst t) (slots_ im) w)
    as (_ & _ & Hc & Ho & _).
  split; simpl; [done|]. rewrite Ho. apply objs_le_kill.
Qed.

Lemma disconnect_all_steady this w : steady w (disconnect_all this w).
Proof.
  unfold disconnect_all. open_impl this w i im Hi ltac:(apply steady_refl).
  destruct (mark_all_frame (slots_ im) w) as (_ & _ & Hc & Ho & _).
  split; simpl; [done|]. rewrite Ho. apply objs_le_kill_all.
Qed.

Lemma conn_disconnect_steady c w : steady w (conn_disconnect c w).
Proof.
  unfold conn_disconnect. destruct (impl_lock w c) as [i|]; [|apply steady_refl].
  destruct (slot_lock w c); [|apply steady_refl].
  unfold disconnect_slot. destruct (get_impl w i); [|apply steady_refl].
  by apply steady_ext.
Qed.

Lemma conn_block_steady c b w : steady w (conn_block c b w).
Proof.
  unfold conn_block. destruct (slot_lock w c); [|apply steady_refl].
  by apply steady_ext.
Qed.

Lemma emit_begin_steady this w : steady w (snd (emit_begin this w)).
Proof.
  unfold emit_begin. open_impl this w i im Hi ltac:(apply steady_refl).
  destruct (slots_ im); [apply steady_refl|].
  destruct (dirty_ im); by apply steady_ext.
Qed.

Lemma emit_visit_steady sp need w : steady w (emit_visit sp need w).1.1.
Proof.
  unfold emit_visit. destruct (slots w !! sp) as [r|]; [|apply steady_refl].
  destruct (has_tracked_object r && expired (objs w) (tracked r));
    [by apply steady_ext|].
  destruct (negb (is_callable (objs w) r)); [apply steady_refl|].
  destruct (try_acquire_execution r) as [won r1].
  destruct (negb won); [apply steady_refl|].
  destruct (single_shot r); by apply steady_ext.
Qed.

Lemma emit_end_steady this local_slots need w :
  steady w (emit_end this local_slots need w).
Proof.
  unfold emit_end. destruct need; [|by apply steady_ext].
  destruct (impl_ this) as [i|]; [|by apply steady_ext].
  destruct (get_impl w i); by apply steady_ext.
Qed.

Lemma impl_release_steady this w : steady w (impl_release this w).
Proof.
  unfold impl_release. destruct (impl_ this); [by apply steady_ext|].
  apply steady_refl.
Qed.

Lemma exec_command_steady cmd w w1 k :
  exec_command cmd w = (w1, k) → steady w w1.
Proof.
  destruct cmd; simpl; intros H; simplify_eq.
  - apply steady_refl.
  - by apply steady_ext.
  - by apply steady_ext.
  - unfold move_assign. destruct (dst =? src); [apply steady_refl|].
    eapply steady_trans; [apply disconnect_all_steady|].
    eapply steady_trans; [apply impl_release_steady|].
    by apply steady_ext.
  - split; [done|]. simpl. apply objs_le_app.
  - destruct (owner_ptr w o); simplify_eq; [|apply steady_refl].
    split; [done|]. simpl. apply objs_le_kill.
Qed.

Lemma exec_action_objs a w m w1 fo :
  exec_action a w = (m, w1, fo) → objs_le (objs w) (objs w1).
Proof.
  destruct a; simpl; intros H; simplify_eq; try apply objs_le_refl.
  - apply (st_objs _ _ (connect_impl_steady _ _ _ _ _ _)).
  - apply (st_objs _ _ (connect_impl_steady _ _ _ _ _ _)).
  - unfold connect_shared. destruct (owner_ptr w obj); [|apply objs_le_refl].
    apply (st_objs _ _ (connect_impl_steady _ _ _ _ _ _)).
  - unfold connect_raw. destruct null; [apply objs_le_refl|].
    apply (st_objs _ _ (connect_impl_steady _ _ _ _ _ _)).
  - apply (st_objs _ _ (connect_tag_steady _ _ _ _ _)).
  - apply (st_objs _ _ (disconnect_tag_steady _ _ _)).
  - pose proof (emit_begin_steady (sig_var w sig) w) as Hs.
    destruct (emit_begin (sig_var w sig) w) as [[l|] w2]; simplify_eq;
      apply Hs.
  - apply (st_objs _ _ (disconnect_all_steady _ _)).
  - apply (st_objs _ _ (conn_disconnect_steady _ _)).
  - apply (st_objs _ _ (conn_block_steady _ _ _)).
Qed.

Lemma step_objs_le c : objs_le (objs (cf_world c)) (objs (cf_world (step c))).
Proof.
  destruct c as [m w k p]. unfold step. simpl.
  destruct k as [|[body|f] k].
  - destruct m; [|apply objs_le_refl].
    destruct p as [|cmd p]; [apply objs_le_refl|].
    destruct (exec_command cmd w) as [w1 k1] eqn:Hc.
    apply exec_command_steady in Hc. apply Hc.
  - destruct m; [|apply objs_le_refl].
    destruct body as [|a rest]; [apply objs_le_refl|].
    destruct (exec_action a w) as [[m1 w1] fo] eqn:He.
    apply exec_action_objs in He. by destruct m1, fo.
  - destruct m; [|apply objs_le_refl].
    destruct (fl_rest f) as [|sp rest].
    + apply emit_end_steady.
    + pose proof (emit_visit_steady sp (fl_need f) w) as Hs.
      destruct (emit_visit sp (fl_need f) w) as [[w1 need] [fn|]]; apply Hs.
Qed.

Lemma run_objs_le n c : objs_le (objs (cf_world c)) (objs (cf_world (run n c))).
Proof.
  induction n as [|n IH]; [apply objs_le_refl|].
  rewrite run_S. eapply objs_le_trans; [exact IH | apply step_objs_le].
Qed.

(** X13 ([operator()], the check of [tracked.expired()]). A slot
    whose tracked object, an owner or a tag, has died is never
    invoked again, whatever the machine still does; the emission that
    meets it flags it for removal and asks for a cleanup instead of
    calling it. *)
Theorem expired_slot_never_invoked c s r o ob :
  slots (cf_world c) !! s = Some r → tracked r = Some o →
  objs (cf_world c) !! o = Some ob → obj_alive ob = false →
  (∀ n, invocations s (log (cf_world (run n c)))
        = invocations s (log (cf_world c))) ∧
  (∀ need, emit_visit s need (cf_world c)
           = (mark_pending s (cf_world c), true, None)).
Proof.
  intros Hr Ht Ho Hd. split.
  - intros n. induction n as [|n IH]; [done|].
    rewrite run_S, <- IH.
    destruct (step_spec (run n c)) as [_ [H|[sp H]]]; [done|].
    rewrite (calls_count _ _ s H).
    destruct (Nat.eqb_spec sp s) as [Heq|Hne]; [|lia]. subst sp. exfalso.
    destruct H as (f & k & rest & r1 & _ & _ & _ & Hr1 & Hcall & _).
    destruct (run_heap_le n c _ _ Hr) as (r2 & Hr2 & Hle).
    assert (r2 = r1) as -> by congruence.
    destruct (run_objs_le n c _ _ Ho) as (ob' & Ho' & _ & Hd').
    unfold is_callable, has_tracked_object, expired, obj_lock in Hcall.
    rewrite (sle_tracked _ _ Hle), Ht, Ho', (Hd' Hd) in Hcall. simpl in Hcall.
    by destruct (blocked r1), (pending_removal r1).
  - intros need. unfold emit_visit, has_tracked_object, expired, obj_lock.
    by rewrite Hr, Ht, Ho, Hd.
Qed.

Lemma expired_slot_never_invoked_witness :
  let c := run 13 (init owner_demo) in
  invocations 0 (log (cf_world c)) = 1 ∧
  invocations 0 (log (cf_world (run 20 c))) = 1 ∧
  cf_prog (run 20 c) = [].
Proof.
  intros c.
  assert (Hr : slots (cf_world c) !! 0
               = Some (mk_slot (mk_function (Some 0) [ARecord 1]) 0 false false
                         false false (Some 0) 1))
    by (vm_compute; reflexivity).
  assert (Ho : objs (cf_world c) !! 0 = Some (mk_object false false))
    by (vm_compute; reflexivity).
  destruct (expired_slot_never_invoked c 0 _ 0 _ Hr eq_refl Ho eq_refl)
    as [H _].
  assert (H0 : invocations 0 (log (cf_world c)) = 1)
    by (vm_compute; reflexivity).
  split; [exact H0|]. split; [|vm_compute; reflexivity].
  rewrite H. exact H0.
Defined.

(** ** The snapshot of an emission *)

(** What an emission has invoked followed by what it has yet to visit
    only ever loses elements: nothing is added to a snapshot. *)
Lemma step_snapshot c em :
  stack_ids_lt (next_emission (cf_world c)) (cf_stack c) →
  em < next_emission (cf_world c) →
  sublist (invoked_in em (log (cf_world (step c)))
           ++ rest_of (cf_stack (step c)) em)
          (invoked_in em (log (cf_world c)) ++ rest_of (cf_stack c) em) ∧
  next_emission (cf_world c) ≤ next_emission (cf_world (step c)).
Proof.
  destruct c as [m w k p]. cbn [cf_world cf_stack]. intros Hids Hem.
  destruct k as [|[body|f] k].
  - unfold step; simpl. destruct m; [|done].
    destruct p as [|cmd p]; [done|].
    destruct (exec_command cmd w) as [w1 k1] eqn:Hc.
    apply exec_command_spec in Hc as (_ & _ & [Hl Hn] & Hk). simpl.
    rewrite Hl, Hn. split; [|done].
    by destruct Hk as [->|[a ->]].
  - unfold step; simpl. destruct m; [|done].
    destruct body as [|a rest]; [done|].
    destruct (exec_action a w) as [[m1 w1] fo] eqn:He.
    apply exec_action_spec in He as (_ & Hinv & _ & Hfo).
    destruct fo as [f|].
    + destruct Hfo as (-> & Hn & Hid & _). simpl.
      rewrite Hinv. split; [|lia].
      destruct (Nat.eqb_spec (fl_id f) em) as [Heq|Hne]; [lia|done].
    + destruct m1; simpl; rewrite Hinv, Hfo; done.
  - destruct m; [|unfold step; simpl; done].
    destruct Hids as [Hlt Hids]. cbn [rest_of].
    destruct (fl_rest f) as [|sp rest] eqn:Hrest.
    + pose proof (emit_end_quiet (sig_var w (fl_sig f)) (fl_local f)
                    (fl_need f) w) as [Hl Hn].
      assert (Hstep : step (mk_config Running w (FLoop f :: k) p)
                = mk_config Running
                    (emit_end (sig_var w (fl_sig f)) (fl_local f) (fl_need f) w)
                    k p).
      { unfold step. simpl. by rewrite Hrest. }
      rewrite Hstep. cbn [cf_world cf_stack]. rewrite Hl, Hn. split; [|done].
      destruct (Nat.eqb_spec (fl_id f) em) as [Heq|Hne]; [|done].
      rewrite (rest_of_fresh (fl_id f) k em) by (done || lia). done.
    + pose proof (emit_visit_quiet sp (fl_need f) w) as [Hl Hn].
      destruct (emit_visit sp (fl_need f) w) as [[w1 need] callee] eqn:Hvis.
      simpl in Hl, Hn.
      destruct callee as [fn|].
      * assert (Hstep : step (mk_config Running w (FLoop f :: k) p)
                  = mk_config Running (add_event (Invoked (fl_id f) sp) w1)
                      (FBody (call_function fn w1)
                       :: FLoop (mk_loop (fl_id f) (fl_sig f) (fl_local f) rest need)
                       :: k) p).
        { unfold step. simpl. by rewrite Hrest, Hvis. }
        rewrite Hstep. cbn [cf_world cf_stack rest_of fl_id fl_rest].
        simpl log. simpl next_emission. rewrite Hl, Hn, invoked_in_app.
        split; [|done]. simpl.
        destruct (Nat.eqb_spec (fl_id f) em) as [Heq|Hne].
        -- by rewrite <- app_assoc.
        -- by rewrite app_nil_r.
      * assert (Hstep : step (mk_config Running w (FLoop f :: k) p)
                  = mk_config Running w1
                      (FLoop (mk_loop (fl_id f) (fl_sig f) (fl_local f) rest need)
                       :: k) p).
        { unfold step. simpl. by rewrite Hrest, Hvis. }
        rewrite Hstep. cbn [cf_world cf_stack rest_of fl_id fl_rest].
        rewrite Hl, Hn. split; [|done].
        destruct (Nat.eqb_spec (fl_id f) em) as [Heq|Hne]; [|done].
        apply sublist_app; [done|]. by apply sublist_cons.
Qed.

Lemma run_snapshot n c em :
  Inv c → em < next_emission (cf_world c) →
  sublist (invoked_in em (log (cf_world (run n c)))
           ++ rest_of (cf_stack (run n c)) em)
          (invoked_in em (log (cf_world c)) ++ rest_of (cf_stack c) em) ∧
  next_emission (cf_world c) ≤ next_emission (cf_world (run n c)).
Proof.
  intros HI Hem. induction n as [|n [IH1 IH2]]; [done|].
  rewrite run_S.
  destruct (step_snapshot (run n c) em) as [H1 H2].
  - apply inv_ids. by apply Inv_run.
  - lia.
  - split; [by etrans | lia].
Qed.

Lemma before_sorted_NoDup prio l : StronglySorted (before prio) l → NoDup l.
Proof.
  intros H. eapply (tie_sorted_NoDup prio), sorted_ext; [|exact H].
  intros a b _ _. apply before_tie.
Qed.

(** The snapshot is drawn from the slot list. *)
Lemma emit_begin_subset this w local_slots w1 :
  emit_begin this w = (Some local_slots, w1) →
  ∃ i im, impl_ this = Some i ∧ get_impl w i = Some im ∧
    ∀ s, s ∈ local_slots → s ∈ slots_ im.
Proof.
  unfold emit_begin. open_impl this w i im Hi ltac:(done).
  destruct (slots_ im) as [|s0 l0] eqn:Hl; [done|].
  rewrite <- Hl. clear Hl s0 l0.
  destruct (dirty_ im) eqn:Hd; intros [= <- <-]; exists i, im;
    (split_and!; [done | done |]); [|done].
  intros s. simpl. rewrite stable_sort_elem_of, elem_of_cleanup_keep.
  by intros [? _].
Qed.

(** X14 ([operator()], the copy [local_slots]). An emission invokes
    only slots of the snapshot it took when it began, each at most
    once and in the order of the snapshot: whatever callbacks do
    meanwhile, a slot connected after the emission began is not
    invoked by it. *)
Theorem emission_invokes_snapshot prog n v rest k local_slots w1 :
  let c := run n (init prog) in
  cf_mode c = Running → cf_stack c = FBody (AEmit v :: rest) :: k →
  emit_begin (sig_var (cf_world c) v) (cf_world c) = (Some local_slots, w1) →
  ∀ m,
    let invoked := invoked_in (next_emission (cf_world c))
                     (log (cf_world (run m c))) in
    sublist invoked local_slots ∧ NoDup invoked ∧
    ∀ s, s ∈ invoked → s < length (slots (cf_world c)).
Proof.
  intros c Hm Hk Hb m invoked.
  pose proof (Inv_reachable prog n) as HI. fold c in HI.
  set (em := next_emission (cf_world c)) in *.
  assert (Hsub : sublist invoked local_slots).
  { destruct m as [|m].
    { unfold invoked. simpl. rewrite (inv_fresh _ HI em) by done.
      apply sublist_nil_l. }
    unfold invoked. rewrite run_step.
    assert (Hstep : step c = mk_config Running (bump_emission w1)
              (FLoop (mk_loop (next_emission w1) v local_slots local_slots false)
               :: FBody rest :: k) (cf_prog c)).
    { unfold step. rewrite Hk, Hm. simpl. by rewrite Hb. }
    pose proof (emit_begin_quiet (sig_var (cf_world c) v) (cf_world c))
      as [Hl [Hn _]]. rewrite Hb in Hl, Hn. simpl in Hl, Hn.
    destruct (run_snapshot m (step c) em) as [H1 _].
    { by apply Inv_step. }
    { rewrite Hstep. simpl. unfold em. lia. }
    etrans; [apply sublist_inserts_r, reflexivity|].
    etrans; [exact H1|].
    rewrite Hstep. cbn [cf_world cf_stack rest_of fl_id fl_rest].
    simpl log. rewrite Hl, Hn. fold em. rewrite Nat.eqb_refl.
    by rewrite (inv_fresh _ HI em). }
  assert (HIm : Inv (run m c)) by (by apply Inv_run).
  split_and!; [done | |].
  - eapply before_sorted_NoDup.
    pose proof (inv_order _ HIm em) as Hs.
    apply StronglySorted_app in Hs as (_ & Hs & _). exact Hs.
  - intros s Hs.
    assert (Hin : s ∈ local_slots) by (by eapply elem_of_sublist).
    destruct (emit_begin_subset _ _ _ _ Hb) as (i & im & Hi & Him & Hl).
    pose proof (iok_valid _ _ (inv_impls _ HI i im Him)) as Hv.
    rewrite Forall_forall in Hv. by apply Hv, Hl.
Qed.

Lemma emission_invokes_snapshot_witness :
  let c := run 5 (init connect_during_demo) in
  sublist (invoked_in 0 (log (cf_world (run 40 c)))) [0] ∧
  invoked_in 0 (log (cf_world (run 40 c))) = [0] ∧
  invoked_in 1 (log (cf_world (run 40 c))) = [1; 0].
Proof.
  intros c.
  assert (Hm : cf_mode c = Running) by (vm_compute; reflexivity).
  assert (Hk : cf_stack c = [FBody [AEmit 0]]) by (vm_compute; reflexivity).
  assert (Hb : emit_begin (sig_var (cf_world c) 0) (cf_world c)
               = (Some [0], snd (emit_begin (sig_var (cf_world c) 0) (cf_world c))))
    by (vm_compute; reflexivity).
  destruct (emission_invokes_snapshot connect_during_demo 5 0 [] [] [0] _
              Hm Hk Hb 40) as [H _].
  split; [exact H|]. split; vm_compute; reflexivity.
Defined.

(** ** Handles over an execution *)

Lemma handle_ok_default w : handle_ok w connection_default.
Proof. intros s Hs. done. Qed.

Lemma handle_ok_evolves w w' c : evolves w w' → handle_ok w c → handle_ok w' c.
Proof.
  intros Hev Hc s Hs. destruct (Hc s Hs) as (Hlt & i & Hi & Hor).
  pose proof (heap_le_length _ _ (ev_heap _ _ Hev)) as Hlen.
  split; [lia|]. exists i. split; [done|].
  destruct Hor as [Hp|(im & Him & Hin)].
  - left. eapply heap_le_pending; [apply Hev | done | done].
  - destruct (ev_members _ _ Hev i im Him) as (im' & Him' & Hmem).
    destruct (Hmem s Hin Hlt) as [Hin'|Hp]; [right; eauto | by left].
Qed.

Lemma handle_ok_ext w w' c :
  slots w' = slots w → impls w' = impls w → handle_ok w c → handle_ok w' c.
Proof.
  intros Hs Hi Hc s Hcs. destruct (Hc s Hcs) as (Hlt & i & Hci & Hor).
  rewrite Hs. split; [done|]. exists i. split; [done|].
  by rewrite (get_impl_ext w w').
Qed.

Lemma connect_impl_handle this f p ss t w :
  handle_ok (snd (connect_impl this f p ss t w))
    (fst (connect_impl this f p ss t w)).
Proof.
  unfold connect_impl. open_impl this w i im Hi ltac:(apply handle_ok_default).
  intros s. simpl. intros [= <-]. rewrite length_app. simpl. split; [lia|].
  exists i. split; [done|]. right.
  eexists. split.
  - eapply get_put_impl_eq. by rewrite (get_impl_ext w).
  - simpl. apply elem_of_app. right. by left.
Qed.

Lemma connect_tag_handle this tag body p w :
  handle_ok (snd (connect_tag this tag body p w))
    (fst (connect_tag this tag body p w)).
Proof.
  unfold connect_tag. destruct (impl_ this) as [i|] eqn:Hi;
    [|apply handle_ok_default].
  destruct (get_or_create_tag i tag w) as [tp w1].
  apply connect_impl_handle.
Qed.

(** The handle a connect call stores is well formed, and the call
    leaves the other handle variables alone. *)
Lemma store_conn_handles w r :
  evolves w (snd r) → steady w (snd r) → handle_ok (snd r) (fst r) →
  handles_ok w → handles_ok (store_conn r).
Proof.
  intros Hev Hst Hnew Hok h c. unfold store_conn. simpl.
  rewrite (st_conns _ _ Hst). intros Hh.
  apply (handle_ok_ext (snd r)); [done | done |].
  apply lookup_app_Some in Hh as [Hh|[_ Hh]].
  - eapply handle_ok_evolves; [exact Hev | by eapply Hok].
  - apply list_lookup_singleton_Some in Hh as [_ <-]. done.
Qed.

Lemma handles_ok_evolves w w' :
  evolves w w' → conns w' = conns w → handles_ok w → handles_ok w'.
Proof.
  intros Hev Hc Hok h c. rewrite Hc. intros Hh.
  eapply handle_ok_evolves; [exact Hev | by eapply Hok].
Qed.

Lemma exec_action_handles a w m w1 fo :
  exec_action a w = (m, w1, fo) → handles_ok w → handles_ok w1.
Proof.
  intros He Hok. pose proof (exec_action_spec _ _ _ _ _ He) as (Hev & _).
  destruct a; simpl in He; simplify_eq; try done.
  - apply (store_conn_handles w); [apply connect_impl_evolves
      | apply connect_impl_steady | apply connect_impl_handle | done].
  - apply (store_conn_handles w); [apply connect_impl_evolves
      | apply connect_impl_steady | apply connect_impl_handle | done].
  - unfold connect_shared. destruct (owner_ptr w obj).
    + apply (store_conn_handles w); [apply connect_impl_evolves
        | apply connect_impl_steady | apply connect_impl_handle | done].
    + apply (store_conn_handles w); [apply evolves_refl | apply steady_refl
        | apply handle_ok_default | done].
  - unfold connect_raw. destruct null.
    + apply (store_conn_handles w); [apply evolves_refl | apply steady_refl
        | apply handle_ok_default | done].
    + apply (store_conn_handles w); [apply connect_impl_evolves
        | apply connect_impl_steady | apply connect_impl_handle | done].
  - apply (store_conn_handles w); [apply connect_tag_evolves
      | apply connect_tag_steady | apply connect_tag_handle | done].
  - eapply handles_ok_evolves; [exact Hev | | done].
    apply disconnect_tag_steady.
  - pose proof (emit_begin_steady (sig_var w sig) w) as Hs.
    destruct (emit_begin (sig_var w sig) w) as [[l|] w2]; simplify_eq;
      (eapply handles_ok_evolves; [exact Hev | apply Hs | done]).
  - eapply handles_ok_evolves; [exact Hev | | done].
    apply disconnect_all_steady.
  - eapply handles_ok_evolves; [exact Hev | | done].
    apply conn_disconnect_steady.
  - eapply handles_ok_evolves; [exact Hev | | done].
    apply conn_block_steady.
  - intros h' c. simpl. intros Hh.
    destruct (decide (h' = h)) as [->|Hne].
    + rewrite list_lookup_alter_eq in Hh.
      destruct (conns w !! h); simpl in Hh; simplify_eq.
      apply handle_ok_default.
    + rewrite list_lookup_alter_ne in Hh by done. by eapply Hok.
Qed.

Lemma handle_ok_release this w c :
  handle_ok (disconnect_all this w) c →
  handle_ok (impl_release this (disconnect_all this w)) c.
Proof.
  unfold impl_release. destruct (impl_ this) as [i|] eqn:Hi; [|done].
  intros Hc s Hs. destruct (Hc s Hs) as (Hlt & j & Hj & Hor).
  split; [done|]. exists j. split; [done|].
  destruct Hor as [Hp|(im & Him & Hin)]; [by left|].
  destruct (decide (j = i)) as [->|Hne].
  - exfalso. destruct (get_impl w i) as [im0|] eqn:Him0.
    + destruct (disconnect_all_effect this w i im0 Hi Him0) as (Hget & _).
      rewrite Hget in Him. simplify_eq. by apply elem_of_nil in Hin.
    + unfold disconnect_all in Him. rewrite Hi, Him0 in Him. congruence.
  - right. exists im. split; [|done].
    unfold get_impl in *. simpl. by rewrite list_lookup_insert_ne.
Qed.

Lemma exec_command_handles cmd w w1 k :
  exec_command cmd w = (w1, k) → handles_ok w → handles_ok w1.
Proof.
  destruct cmd; simpl; intros H Hok; simplify_eq; try done.
  - intros h c Hh s Hs. destruct (Hok h c Hh s Hs) as (Hlt & i & Hi & Hor).
    split; [done|]. exists i. split; [done|].
    destruct Hor as [Hp|(im & Him & Hin)]; [by left|].
    right. exists im. split; [|done]. unfold get_impl in *. simpl.
    destruct (impls w !! i) as [x|] eqn:Hx; [|done].
    rewrite lookup_app_l; [by rewrite Hx|]. by eapply lookup_lt_Some.
  - unfold move_assign. destruct (dst =? src); [done|].
    intros h c. simpl.
    rewrite (st_conns _ _ (impl_release_steady _ _)),
            (st_conns _ _ (disconnect_all_steady _ _)).
    intros Hh.
    apply (handle_ok_ext (impl_release (sig_var w dst)
                            (disconnect_all (sig_var w dst) w))); [done | done|].
    apply handle_ok_release.
    eapply handle_ok_evolves; [apply disconnect_all_evolves | by eapply Hok].
  - destruct (owner_ptr w o); by simplify_eq.
Qed.

Lemma handles_ok_step c :
  handles_ok (cf_world c) → handles_ok (cf_world (step c)).
Proof.
  destruct c as [m w k p]. unfold step. simpl. intros Hok.
  destruct k as [|[body|f] k].
  - destruct m; [|done]. destruct p as [|cmd p]; [done|].
    destruct (exec_command cmd w) as [w1 k1] eqn:Hc.
    by eapply exec_command_handles.
  - destruct m; [|done]. destruct body as [|a rest]; [done|].
    destruct (exec_action a w) as [[m1 w1] fo] eqn:He.
    apply exec_action_handles in He; [|done]. by destruct m1, fo.
  - destruct m; [|done].
    destruct (fl_rest f) as [|sp rest].
    + simpl. eapply handles_ok_evolves; [apply emit_end_evolves | | done].
      apply emit_end_steady.
    + pose proof (emit_visit_steady sp (fl_need f) w) as Hs.
      pose proof (emit_visit_evolves sp (fl_need f) w) as Hev.
      destruct (emit_visit sp (fl_need f) w) as [[w1 need] [fn|]]; simpl in *.
      * intros h c Hh. apply (handle_ok_ext w1); [done | done |].
        eapply handle_ok_evolves; [exact Hev|]. apply (Hok h).
        by rewrite <- (st_conns _ _ Hs).
      * eapply handles_ok_evolves; [exact Hev | apply Hs | done].
Qed.

Lemma handles_ok_reachable prog n : handles_ok (cf_world (run n (init prog))).
Proof.
  induction n as [|n IH].
  - intros h c Hh. done.
  - rewrite run_S. by apply handles_ok_step.
Qed.

Lemma cleanup_keep_mark sl l s r :
  NoDup l → s ∈ l → sl !! s = Some r → pending_removal r = false →
  length (cleanup_keep sl l)
  = S (length (cleanup_keep (alter (set_pending_removal true) s sl) l)).
Proof.
  intros Hnd Hin Hr Hp.
  assert (H1 : slot_pending sl s = false).
  { unfold slot_pending. by rewrite Hr. }
  assert (H2 : slot_pending (alter (set_pending_removal true) s sl) s = true).
  { unfold slot_pending. by rewrite list_lookup_alter_eq, Hr. }
  assert (H3 : ∀ y, y ≠ s →
            slot_pending (alter (set_pending_removal true) s sl) y
            = slot_pending sl y).
  { intros y Hy. unfold slot_pending. by rewrite list_lookup_alter_ne. }
  induction l as [|x l IH]; [by inv Hin|].
  apply NoDup_cons in Hnd as [Hx Hnd].
  change (cleanup_keep ?h (x :: l))
    with (if negb (slot_pending h x) then x :: cleanup_keep h l
          else cleanup_keep h l).
  destruct (decide (x = s)) as [->|Hne].
  - rewrite H1, H2. simpl. f_equal. f_equal.
    symmetry. apply cleanup_keep_ext. intros y Hy. apply H3. by intros ->.
  - apply elem_of_cons in Hin as [->|Hin]; [done|].
    rewrite H3 by done. specialize (IH Hnd Hin).
    destruct (negb (slot_pending sl x)); simpl; by rewrite IH.
Qed.

(** X15 ([connection_t::disconnect], [slot_count]). In any reachable
    state, a handle variable that reports [is_connected()] names a
    slot that its signal counts: [disconnect()] on it lowers the
    [slot_count()] of that signal by exactly one, makes the handle
    report not connected, and leaves [is_connected()] of the handles
    of other slots as it was. *)
Theorem handle_disconnect_counts prog n h this :
  let w := cf_world (run n (init prog)) in
  let c := conn_var w h in
  is_connected c w = true → impl_ this = conn_impl_ c →
  slot_count this w = S (slot_count this (conn_disconnect c w)) ∧
  is_connected c (conn_disconnect c w) = false ∧
  ∀ c', conn_slot_ c' ≠ conn_slot_ c →
    is_connected c' (conn_disconnect c w) = is_connected c' w.
Proof.
  intros w c Hcon Hthis.
  unfold is_connected in Hcon.
  destruct (slot_lock w c) as [s|] eqn:Hs; [|done].
  apply negb_true_iff in Hcon.
  destruct (slot_lock_Some _ _ _ Hs) as (Hcs & r & Hr & Hu).
  assert (Hok : handle_ok w c).
  { unfold c, conn_var. destruct (conns w !! h) as [c0|] eqn:Hh;
      [|apply handle_ok_default].
    by eapply (handles_ok_reachable prog n). }
  destruct (Hok s Hcs) as (Hlt & i & Hci & [Hp|(im & Him & Hin)]);
    [congruence|].
  assert (Hil : impl_lock w c = Some i).
  { unfold impl_lock. by rewrite Hci, Him. }
  destruct (conn_disconnect_live _ _ _ _ Hil Hs) as (im' & r' & Him' & Hr' & Hd).
  assert (im' = im) as -> by congruence.
  assert (r' = r) as -> by congruence.
  split_and!.
  - rewrite Hd. unfold slot_count. rewrite Hthis, Hci, Him.
    erewrite get_put_impl_eq by (by rewrite (get_impl_ext w)).
    simpl. apply (cleanup_keep_mark _ _ _ r); try done.
    + eapply tie_sorted_NoDup, iok_tie.
      exact (inv_impls _ (Inv_reachable prog n) i im Him).
    + unfold slot_pending in Hcon. by rewrite Hr in Hcon.
  - by eapply conn_disconnect_disconnects.
  - intros c' Hne. unfold is_connected.
    rewrite conn_disconnect_slot_lock.
    destruct (slot_lock w c') as [s'|] eqn:Hs'; [|done].
    destruct (slot_lock_Some _ _ _ Hs') as (Hcs' & _).
    rewrite Hd. simpl. f_equal. unfold slot_pending.
    rewrite list_lookup_alter_ne; [done|]. intros ->. congruence.
Qed.

Lemma handle_disconnect_counts_witness :
  let w := cf_world (run 10 (init order_demo)) in
  let c := conn_var w 1 in
  slot_count (sig_var w 0) w = 3 ∧
  slot_count (sig_var w 0) (conn_disconnect c w) = 2 ∧
  is_connected (conn_var w 0) (conn_disconnect c w) = true.
Proof.
  intros w c.
  assert (Hc : is_connected c w = true) by (vm_compute; reflexivity).
  assert (Ht : impl_ (sig_var w 0) = conn_impl_ c) by (vm_compute; reflexivity).
  destruct (handle_disconnect_counts order_demo 10 1 (sig_var w 0) Hc Ht)
    as (H1 & _ & H3).
  assert (H0 : slot_count (sig_var w 0) w = 3) by (vm_compute; reflexivity).
  split; [exact H0|]. split.
  - fold w c in H1. rewrite H0 in H1. exact (eq_sym (eq_add_S _ _ H1)).
  - fold w c in H3. rewrite H3; [vm_compute; reflexivity|].
    vm_compute. congruence.
Defined.

(** ** Invariants of the slot lists *)

(** X16 ([connect_impl], [cleanup_slots_locked], [stable_sort]). In
    every reachable state, the slot list of a shared state names
    allocated records, has no duplicates, keeps slots of equal
    priority in the order they were connected and, while the dirty
    flag is clear, is in descending order of priority. *)
Theorem slot_lists_well_formed prog n i im :
  let w := cf_world (run n (init prog)) in
  get_impl w i = Some im →
  NoDup (slots_ im) ∧
  Forall (λ s, is_Some (slots w !! s)) (slots_ im) ∧
  (∀ l1 a l2 b l3, slots_ im = l1 ++ a :: l2 ++ b :: l3 →
     slot_priority (slots w) a = slot_priority (slots w) b → a < b) ∧
  (dirty_ im = false →
   ∀ l1 a l2 b l3, slots_ im = l1 ++ a :: l2 ++ b :: l3 →
     (slot_priority (slots w) b ≤ slot_priority (slots w) a)%Z).
Proof.
  intros w Him.
  destruct (inv_impls _ (Inv_reachable prog n) i im Him) as [Hv Ht Hs].
  fold w in Hv, Ht, Hs.
  split_and!.
  - by eapply tie_sorted_NoDup.
  - eapply Forall_impl; [exact Hv|]. intros s Hlt. by apply lookup_lt_is_Some_2.
  - intros l1 a l2 b l3 Heq. rewrite Heq in Ht.
    apply sorted_pair in Ht as [_ H]. exact H.
  - intros Hd l1 a l2 b l3 Heq. specialize (Hs Hd). rewrite Heq in Hs.
    apply sorted_pair in Hs as [H|[H _]]; lia.
Qed.

Lemma slot_lists_well_formed_witness :
  let w := cf_world (run 40 (init order_demo)) in
  get_impl w 0 = Some (mk_impl [1; 0; 2] [] false) ∧ NoDup [1; 0; 2].
Proof.
  intros w.
  assert (Him : get_impl w 0 = Some (mk_impl [1; 0; 2] [] false))
    by (vm_compute; reflexivity).
  split; [exact Him|].
  exact (proj1 (slot_lists_well_formed order_demo 40 0 _ Him)).
Defined.

(** X17 ([signal_t], its deleted copy operations and its moves). In
    every reachable state no two signal objects hold the same shared
    state, the shared state a signal object holds exists, and no slot
    is on the slot lists of two shared states. *)
Theorem ownership_exclusive prog n :
  let w := cf_world (run n (init prog)) in
  (∀ v1 v2 i, impl_ (sig_var w v1) = Some i → impl_ (sig_var w v2) = Some i →
     v1 = v2) ∧
  (∀ v, valid (sig_var w v) = true →
     ∃ i im, impl_ (sig_var w v) = Some i ∧ get_impl w i = Some im) ∧
  (∀ i j im jm s, get_impl w i = Some im → get_impl w j = Some jm →
     s ∈ slots_ im → s ∈ slots_ jm → i = j).
Proof.
  intros w. destruct (Sep_reachable prog n) as [Hu Hl Hd]. fold w in Hu, Hl, Hd.
  split_and!; [done | | done].
  intros v Hv. unfold valid in Hv.
  destruct (impl_ (sig_var w v)) as [i|] eqn:Hi; [|done].
  destruct (Hl v i Hi) as [im Him]. eauto.
Qed.

(** ** No removal is forgotten *)

Lemma tidy_step_refl w : tidy_step w w.
Proof.
  intros i im s Hi Hs Hp. destruct (dirty_ im) eqn:Hd; [by left|].
  right. by exists im.
Qed.

Lemma tidy_step_trans w1 w2 w3 :
  tidy_step w1 w2 → tidy_step w2 w3 → tidy_step w1 w3.
Proof.
  intros H12 H23 i im3 s Hi Hs Hp.
  destruct (H23 i im3 s Hi Hs Hp) as [Hd|(im2 & Hi2 & Hs2 & Hp2 & Hd2)];
    [by left|].
  destruct (H12 i im2 s Hi2 Hs2 Hp2) as [Hd|H]; [congruence|].
  by right.
Qed.

(** An operation that rewrites no shared state and flags no slot. *)
Lemma tidy_step_ext w w' :
  impls w' = impls w →
  (∀ s, slot_pending (slots w') s = true → slot_pending (slots w) s = true) →
  tidy_step w w'.
Proof.
  intros Hi Hp i im s Him Hs Hps.
  rewrite (get_impl_ext w w') in Him by done.
  destruct (dirty_ im) eqn:Hd; [by left|].
  right. exists im. auto.
Qed.

(** An operation that rewrites the shared state [i]. *)
Lemma tidy_step_intro w w' i im im' :
  get_impl w i = Some im → get_impl w' i = Some im' →
  (∀ j, j ≠ i → get_impl w' j = get_impl w j) →
  (∀ s, s ∈ slots_ im' → slot_pending (slots w') s = true →
     dirty_ im' = true ∨
     (s ∈ slots_ im ∧ slot_pending (slots w) s = true ∧ dirty_ im = false)) →
  (∀ j jm s, j ≠ i → get_impl w j = Some jm → s ∈ slots_ jm →
     slot_pending (slots w') s = true → slot_pending (slots w) s = true) →
  tidy_step w w'.
Proof.
  intros Hi Hi' Hother H1 H2 j jm s Hj Hs Hp.
  destruct (decide (j = i)) as [->|Hne].
  - assert (jm = im') as -> by congruence.
    destruct (H1 s Hs Hp) as [Hd|(Hs0 & Hp0 & Hd0)]; [by left|].
    right. by exists im.
  - rewrite Hother in Hj by done.
    destruct (dirty_ jm) eqn:Hd; [by left|].
    right. exists jm. split_and!; try done. by eapply H2.
Qed.

Lemma slot_pending_app_new sl r s :
  pending_removal r = false →
  slot_pending (sl ++ [r]) s = true → slot_pending sl s = true.
Proof.
  intros Hr. unfold slot_pending.
  destruct (decide (s < length sl)) as [Hlt|Hge].
  - by rewrite lookup_app_l.
  - rewrite (lookup_ge_None_2 sl s) by lia. done.
Qed.

Lemma connect_impl_tidy this f p ss t w :
  tidy_step w (snd (connect_impl this f p ss t w)).
Proof.
  unfold connect_impl. open_impl this w i im Hi ltac:(apply tidy_step_refl).
  cbn [snd]. eapply (tidy_step_intro _ _ i im).
  - done.
  - eapply get_put_impl_eq. by rewrite (get_impl_ext w).
  - intros j Hj. rewrite get_put_impl_ne by done. by apply get_impl_ext.
  - intros s _ _. by left.
  - intros j jm s _ _ _. simpl. by apply slot_pending_app_new.
Qed.

Lemma get_or_create_tag_tidy i name w :
  tidy_step w (snd (get_or_create_tag i name w)).
Proof.
  unfold get_or_create_tag.
  destruct (get_impl w i) as [im|] eqn:Hi; [|apply tidy_step_refl].
  destruct (List.find _ _); [apply tidy_step_refl|].
  cbn [snd]. eapply (tidy_step_intro _ _ i im).
  - done.
  - eapply get_put_impl_eq. by rewrite (get_impl_ext w).
  - intros j Hj. rewrite get_put_impl_ne by done. by apply get_impl_ext.
  - intros s Hs Hp. simpl in *. destruct (dirty_ im); [by left | by right].
  - intros j jm s _ _ _. done.
Qed.

Lemma connect_tag_tidy this tag body p w :
  tidy_step w (snd (connect_tag this tag body p w)).
Proof.
  unfold connect_tag. destruct (impl_ this) as [i|]; [|apply tidy_step_refl].
  pose proof (get_or_create_tag_tidy i tag w) as H.
  destruct (get_or_create_tag i tag w) as [tp w1]. simpl in H.
  eapply tidy_step_trans; [exact H | apply connect_impl_tidy].
Qed.

Lemma disconnect_tag_tidy this tag w :
  Sep w → tidy_step w (snd (disconnect_tag this tag w)).
Proof.
  intros HS. unfold disconnect_tag.
  open_impl this w i im Hi ltac:(apply tidy_step_refl).
  destruct (List.find _ _) as [t|]; [|apply tidy_step_refl].
  cbn [snd].
  destruct (mark_tracking_frame (fst t) (slots_ im) w) as (Hmi & _).
  eapply (tidy_step_intro _ _ i im).
  - done.
  - rewrite (get_impl_ext (put_impl i _ (mark_tracking (fst t) (slots_ im) w)))
      by done.
    eapply get_put_impl_eq. by rewrite (get_impl_ext w).
  - intros j Hj.
    rewrite (get_impl_ext (put_impl i _ (mark_tracking (fst t) (slots_ im) w)))
      by done.
    rewrite get_put_impl_ne by done. by apply get_impl_ext.
  - intros s _ _. by left.
  - intros j jm s Hj Hjm Hs. simpl. unfold slot_pending.
    destruct (slots w !! s) as [r|] eqn:Hr; [|done].
    rewrite (mark_tracking_lookup _ _ _ _ _ Hr).
    rewrite bool_decide_eq_false_2; [done|].
    intros Hin. apply Hj. by eapply (sep_disjoint _ HS j i jm im s).
Qed.

Lemma disconnect_all_tidy this w :
  Sep w → tidy_step w (disconnect_all this w).
Proof.
  intros HS. unfold disconnect_all.
  open_impl this w i im Hi ltac:(apply tidy_step_refl).
  destruct (mark_all_frame (slots_ im) w) as (Hmi & _).
  eapply (tidy_step_intro _ _ i im).
  - done.
  - eapply get_put_impl_eq. by rewrite (get_impl_ext w).
  - intros j Hj. rewrite get_put_impl_ne by done. by apply get_impl_ext.
  - intros s Hs. by apply elem_of_nil in Hs.
  - intros j jm s Hj Hjm Hs. simpl.
    rewrite slot_pending_release_all. unfold slot_pending.
    rewrite mark_all_other; [done|].
    intros Hin. apply Hj. by eapply (sep_disjoint _ HS j i jm im s).
Qed.

Lemma conn_disconnect_tidy c w :
  Sep w → handle_ok w c → tidy_step w (conn_disconnect c w).
Proof.
  intros HS Hc.
  destruct (impl_lock w c) as [i|] eqn:Hi;
    [|unfold conn_disconnect; rewrite Hi; apply tidy_step_refl].
  destruct (slot_lock w c) as [s|] eqn:Hs;
    [|unfold conn_disconnect; rewrite Hi, Hs; apply tidy_step_refl].
  destruct (conn_disconnect_live _ _ _ _ Hi Hs) as (im & r & Him & Hr & ->).
  destruct (impl_lock_Some _ _ _ Hi) as (Hci & _).
  destruct (slot_lock_Some _ _ _ Hs) as (Hcs & _).
  eapply (tidy_step_intro _ _ i im).
  - done.
  - eapply get_put_impl_eq. by rewrite (get_impl_ext w).
  - intros j Hj. rewrite get_put_impl_ne by done. by apply get_impl_ext.
  - intros x _ _. by left.
  - intros j jm x Hj Hjm Hx. simpl.
    destruct (decide (x = s)) as [->|Hne].
    + intros _. destruct (Hc s Hcs) as (_ & i' & Hci' & [Hp|(im' & Him' & Hin)]);
        [done|].
      assert (i' = i) as -> by congruence.
      exfalso. apply Hj. by eapply (sep_disjoint _ HS j i jm im' s).
    + unfold slot_pending. by rewrite list_lookup_alter_ne.
Qed.

Lemma conn_block_tidy c b w : tidy_step w (conn_block c b w).
Proof.
  unfold conn_block. destruct (slot_lock w c) as [s|]; [|apply tidy_step_refl].
  apply tidy_step_ext; [done|]. intros x. simpl.
  by rewrite slot_pending_alter.
Qed.

Lemma emit_begin_tidy this w : tidy_step w (snd (emit_begin this w)).
Proof.
  unfold emit_begin. open_impl this w i im Hi ltac:(apply tidy_step_refl).
  destruct (slots_ im) as [|s0 l0] eqn:Hl; [apply tidy_step_refl|].
  rewrite <- Hl. clear Hl s0 l0.
  destruct (dirty_ im) eqn:Hd; cbn [snd].
  - eapply (tidy_step_intro _ _ i im).
    + done.
    + rewrite (get_impl_ext (put_impl i _ (set_slots _ w))) by done.
      eapply get_put_impl_eq. by rewrite (get_impl_ext w).
    + intros j Hj.
      rewrite (get_impl_ext (put_impl i _ (set_slots _ w))) by done.
      rewrite get_put_impl_ne by done. by apply get_impl_ext.
    + intros s Hs. simpl in Hs.
      apply stable_sort_elem_of, elem_of_cleanup_keep in Hs as [_ Hs].
      simpl. rewrite slot_pending_acquire_all, slot_pending_release_all.
      congruence.
    + intros j jm s _ _ _. simpl.
      by rewrite slot_pending_acquire_all, slot_pending_release_all.
  - eapply (tidy_step_intro _ _ i im).
    + done.
    + rewrite (get_impl_ext (put_impl i im w)) by done.
      by eapply get_put_impl_eq.
    + intros j Hj. rewrite (get_impl_ext (put_impl i im w)) by done.
      by rewrite get_put_impl_ne.
    + intros s Hs. simpl. rewrite slot_pending_acquire_all. by right.
    + intros j jm s _ _ _. simpl. by rewrite slot_pending_acquire_all.
Qed.

Lemma tidy_step_frame w w1 w2 :
  tidy_step w w1 → impls w2 = impls w1 → slots w2 = slots w1 → tidy_step w w2.
Proof.
  intros H Hi Hs i im s. rewrite (get_impl_ext w1 w2), Hs by done. apply H.
Qed.

Lemma exec_action_tidy a w m w1 fo :
  exec_action a w = (m, w1, fo) → Sep w → handles_ok w → tidy_step w w1.
Proof.
  intros He HS Hh.
  destruct a; simpl in He; simplify_eq.
  - apply tidy_step_refl.
  - by apply tidy_step_ext.
  - eapply tidy_step_frame; [apply connect_impl_tidy | done | done].
  - eapply tidy_step_frame; [apply connect_impl_tidy | done | done].
  - unfold connect_shared. destruct (owner_ptr w obj).
    + eapply tidy_step_frame; [apply connect_impl_tidy | done | done].
    + by apply tidy_step_ext.
  - unfold connect_raw. destruct null.
    + by apply tidy_step_ext.
    + eapply tidy_step_frame; [apply connect_impl_tidy | done | done].
  - eapply tidy_step_frame; [apply connect_tag_tidy | done | done].
  - by apply disconnect_tag_tidy.
  - pose proof (emit_begin_tidy (sig_var w sig) w) as Ht.
    destruct (emit_begin (sig_var w sig) w) as [[l|] w2]; simplify_eq; [|done].
    eapply tidy_step_frame; [exact Ht | done | done].
  - by apply disconnect_all_tidy.
  - apply conn_disconnect_tidy; [done|].
    unfold conn_var. destruct (conns w !! h) as [c|] eqn:Hc;
      [by eapply Hh | apply handle_ok_default].
  - apply conn_block_tidy.
  - by apply tidy_step_ext.
Qed.

Lemma impl_release_tidy this w : tidy_step w (impl_release this w).
Proof.
  unfold impl_release. destruct (impl_ this) as [i|]; [|apply tidy_step_refl].
  intros j jm s Hj Hs Hp. simpl in Hp.
  assert (Hj' : get_impl w j = Some jm).
  { unfold get_impl in *. simpl in Hj.
    destruct (decide (j = i)) as [->|Hne].
    - destruct (impls w !! i) eqn:E.
      + rewrite list_lookup_insert_eq in Hj; [done|]. by eapply lookup_lt_Some.
      + rewrite list_insert_ge in Hj by (by apply lookup_ge_None).
        by rewrite E in Hj.
    - by rewrite list_lookup_insert_ne in Hj. }
  destruct (dirty_ jm) eqn:Hd; [by left|]. right. by exists jm.
Qed.

Lemma exec_command_tidy cmd w w1 k :
  exec_command cmd w = (w1, k) → Sep w → tidy_step w w1.
Proof.
  destruct cmd; simpl; intros H HS; simplify_eq.
  - apply tidy_step_refl.
  - intros j jm s Hj Hs Hp. simpl in Hp.
    assert (Hj' : get_impl w j = Some jm).
    { unfold get_impl in *. simpl in Hj.
      destruct (decide (j < length (impls w))) as [Hlt|Hge].
      - by rewrite lookup_app_l in Hj.
      - rewrite lookup_app_r in Hj by lia.
        destruct (j - length (impls w)) as [|x]; simpl in Hj; simplify_eq.
        by apply elem_of_nil in Hs. }
    destruct (dirty_ jm) eqn:Hd; [by left|]. right. by exists jm.
  - by apply tidy_step_ext.
  - unfold move_assign. destruct (dst =? src); [apply tidy_step_refl|].
    eapply tidy_step_frame; [|done|done].
    eapply tidy_step_trans; [by apply disconnect_all_tidy|].
    apply impl_release_tidy.
  - by apply tidy_step_ext.
  - destruct (owner_ptr w o); simplify_eq; [|apply tidy_step_refl].
    by apply tidy_step_ext.
Qed.

Lemma sig_var_ext w w' v : sigs w' = sigs w → sig_var w' v = sig_var w v.
Proof. unfold sig_var. by intros ->. Qed.

(** A transition of the world under frames that stay on the stack. *)
Lemma tidy_update c m1 w1 k1 p1 :
  tidy c → tidy_step (cf_world c) w1 → sigs w1 = sigs (cf_world c) →
  (∀ f, FLoop f ∈ cf_stack c → FLoop f ∈ k1) →
  tidy (mk_config m1 w1 k1 p1).
Proof.
  intros Ht Hs Hsig Hk i im' s Hi Hin Hp. simpl in *.
  destruct (Hs i im' s Hi Hin Hp) as [Hd|(im & Him & Hin0 & Hp0 & Hd0)];
    [by left|].
  destruct (Ht i im s Him Hin0 Hp0) as [Hd|(f & Hf & Hn & Hfi)]; [congruence|].
  right. exists f. split_and!; [by apply Hk | done |].
  by rewrite (sig_var_ext _ _ _ Hsig).
Qed.

Lemma tidy_step_config c :
  Inv c → Sep (cf_world c) → handles_ok (cf_world c) → tidy c → tidy (step c).
Proof.
  intros HI HS Hh Ht. destruct c as [m w k p]. simpl in HS, Hh.
  destruct k as [|[body|f] k].
  - unfold step; simpl. destruct m.
    + destruct p as [|cmd p]; [done|].
      destruct (exec_command cmd w) as [w1 k1] eqn:Hc.
      pose proof (exec_command_tidy _ _ _ _ Hc HS) as Hs.
      intros i im' s Hi Hin Hp. simpl in *.
      destruct (Hs i im' s Hi Hin Hp) as [Hd|(im & Him & Hin0 & Hp0 & Hd0)];
        [by left|].
      destruct (Ht i im s Him Hin0 Hp0) as [Hd|(f & Hf & _)]; [congruence|].
      by apply elem_of_nil in Hf.
    + intros i im s Hi Hin Hp. destruct (Ht i im s Hi Hin Hp) as [?|(f & Hf & _)];
        [by left|]. by apply elem_of_nil in Hf.
  - unfold step; simpl. destruct m.
    + destruct body as [|a rest].
      * eapply (tidy_update _ _ _ _ _ Ht); [apply tidy_step_refl | done|].
        simpl. intros f Hf. by apply elem_of_cons in Hf as [?|?].
      * destruct (exec_action a w) as [[m1 w1] fo] eqn:He.
        pose proof (exec_action_tidy _ _ _ _ _ He HS Hh) as Hs.
        pose proof (exec_action_spec _ _ _ _ _ He) as (Hev & _).
        assert (Hk : ∀ k1, (∀ f, FLoop f ∈ k → FLoop f ∈ k1) →
                  tidy (mk_config m1 w1 k1 p)).
        { intros k1 Hk1. eapply (tidy_update _ _ _ _ _ Ht); [done | apply Hev|].
          simpl. intros f Hf. apply elem_of_cons in Hf as [?|?]; [done|auto]. }
        destruct m1, fo; apply Hk; intros g Hg;
          repeat (apply elem_of_cons; right); done.
    + eapply (tidy_update _ _ _ _ _ Ht); [apply tidy_step_refl | done|].
      simpl. intros f Hf. by apply elem_of_cons in Hf as [?|?].
  - destruct m; [|unfold step; simpl;
                  by eapply (tidy_update _ _ _ _ _ Ht); [apply tidy_step_refl|..]].
    destruct (fl_rest f) as [|sp rest] eqn:Hrest.
    + (* the epilogue *)
      assert (Hstep : step (mk_config Running w (FLoop f :: k) p)
                = mk_config Running
                    (emit_end (sig_var w (fl_sig f)) (fl_local f) (fl_need f) w)
                    k p).
      { unfold step. simpl. by rewrite Hrest. }
      rewrite Hstep. clear Hstep.
      pose proof (ev_sigs _ _ (emit_end_evolves (sig_var w (fl_sig f))
                                 (fl_local f) (fl_need f) w)) as Hsig.
      intros j jm s Hj Hin Hp. simpl in Hj, Hp |- *.
      assert (Hsv : ∀ v, sig_var (emit_end (sig_var w (fl_sig f)) (fl_local f)
                                    (fl_need f) w) v = sig_var w v).
      { intros v. by apply sig_var_ext. }
      unfold emit_end in Hj, Hp. simpl in Hp.
      rewrite slot_pending_release_all in Hp.
      assert (Hp0 : slot_pending (slots w) s = true).
      { destruct (fl_need f); [|done].
        destruct (impl_ (sig_var w (fl_sig f))) as [i|]; [|done].
        by destruct (get_impl w i). }
      assert (Hcase : get_impl w j = Some jm ∨
                (dirty_ jm = true)).
      { rewrite (get_impl_ext
          (if fl_need f then match impl_ (sig_var w (fl_sig f)) with
             | Some i => match get_impl w i with
                         | Some im => put_impl i (set_dirty true im) w
                         | None => w end
             | None => w end else w)) in Hj by done.
        destruct (fl_need f); [|by left].
        destruct (impl_ (sig_var w (fl_sig f))) as [i|]; [|by left].
        destruct (get_impl w i) as [im|] eqn:Him; [|by left].
        destruct (decide (j = i)) as [->|Hne].
        - erewrite get_put_impl_eq in Hj by done. simplify_eq. by right.
        - rewrite get_put_impl_ne in Hj by done. by left. }
      destruct Hcase as [Hj0|Hd]; [|by left].
      destruct (Ht j jm s Hj0 Hin Hp0) as [Hd|(g & Hg & Hn & Hgi)]; [by left|].
      simpl in Hg, Hgi. apply elem_of_cons in Hg as [Hg|Hg].
      * (* the frame that ends sets the flag *)
        injection Hg as ->. left.
        rewrite (get_impl_ext
          (if fl_need f then match impl_ (sig_var w (fl_sig f)) with
             | Some i => match get_impl w i with
                         | Some im => put_impl i (set_dirty true im) w
                         | None => w end
             | None => w end else w)) in Hj by done.
        rewrite Hn, Hgi, Hj0 in Hj.
        erewrite get_put_impl_eq in Hj by done.
        injection Hj as Hj. by rewrite <- Hj.
      * right. exists g. split_and!; try done. cbn [cf_world]. by rewrite Hsv.
    + (* a visit *)
      pose proof (emit_visit_evolves sp (fl_need f) w) as Hev.
      destruct (emit_visit sp (fl_need f) w) as [[w1 need] callee] eqn:Hvis.
      simpl in Hev.
      assert (Hgoal : ∀ k1 w2, impls w2 = impls w1 → slots w2 = slots w1 →
                sigs w2 = sigs w1 →
                (∀ g, FLoop g ∈ k → FLoop g ∈ k1) →
                FLoop (mk_loop (fl_id f) (fl_sig f) (fl_local f) rest need) ∈ k1 →
                tidy (mk_config Running w2 k1 p)).
      { intros k1 w2 Hi2 Hs2 Hsig2 Hk1 Hf1 j jm s Hj Hin Hp.
        cbn [cf_world cf_stack] in *.
        rewrite (get_impl_ext w1 w2) in Hj by done. rewrite Hs2 in Hp.
        assert (Hsv : ∀ v, sig_var w2 v = sig_var w v).
        { intros v. apply sig_var_ext. by rewrite Hsig2, (ev_sigs _ _ Hev). }
        setoid_rewrite Hsv.
        (* what the visit did *)
        assert (Hvis' : impls w1 = impls w ∧
          ((∀ x, slot_pending (slots w1) x = slot_pending (slots w) x) ∧
            (fl_need f = true → need = true) ∨
           (need = true ∧ ∀ x, x ≠ sp →
              slot_pending (slots w1) x = slot_pending (slots w) x))).
        { clear -Hvis. unfold emit_visit in Hvis.
          destruct (slots w !! sp) as [r|] eqn:Hr;
            [|simplify_eq; split; [done|left; done]].
          destruct (has_tracked_object r && expired (objs w) (tracked r)).
          { simplify_eq. split; [done|]. right. split; [done|].
            intros x Hx. unfold slot_pending. simpl.
            by rewrite list_lookup_alter_ne. }
          destruct (negb (is_callable (objs w) r));
            [simplify_eq; split; [done|left; done]|].
          destruct (try_acquire_execution r) as [won r1] eqn:Hacq.
          destruct (negb won); [simplify_eq; split; [done|left; done]|].
          assert (Hr1 : pending_removal r1 = pending_removal r).
          { unfold try_acquire_execution in Hacq.
            destruct (negb (single_shot r)); [by simplify_eq|].
            destruct (executed r); by simplify_eq. }
          destruct (single_shot r); simplify_eq; (split; [done|]).
          - right. split; [done|]. intros x Hx. unfold slot_pending. simpl.
            rewrite list_lookup_alter_ne by done.
            by rewrite list_lookup_insert_ne.
          - left. split; [|done]. intros x. unfold slot_pending. simpl.
            destruct (decide (x = sp)) as [->|Hne].
            + rewrite list_lookup_insert_eq by (by eapply lookup_lt_Some).
              by rewrite Hr.
            + by rewrite list_lookup_insert_ne. }
        destruct Hvis' as [Hi1 Hcases].
        rewrite (get_impl_ext w w1) in Hj by done.
        assert (Hold : slot_pending (slots w) s = true →
                  dirty_ jm = true ∨
                  ∃ g, FLoop g ∈ k1 ∧ fl_need g = true ∧
                    impl_ (sig_var w (fl_sig g)) = Some j).
        { intros Hp0.
          destruct (Ht j jm s Hj Hin Hp0) as [Hd|(g & Hg & Hn & Hgi)];
            [by left|].
          simpl in Hg, Hgi. right.
          apply elem_of_cons in Hg as [Hg|Hg]; [|exists g; auto].
          injection Hg as ->.
          eexists. split; [exact Hf1|]. simpl. split; [|done].
          destruct Hcases as [[_ Hn']|[Hn' _]]; auto. }
        destruct Hcases as [[Hsame _]|[Hn Hother]].
        - apply Hold. by rewrite <- Hsame.
        - destruct (decide (s = sp)) as [->|Hne];
            [|apply Hold; by rewrite <- Hother].
          destruct (slot_pending (slots w) sp) eqn:Hp0; [by apply Hold|].
          right. eexists. split; [exact Hf1|]. simpl. split; [done|].
          assert (Hfo : frame_ok w f).
          { apply (inv_frames _ HI). simpl. by left. }
          destruct (Hfo sp) as (_ & [Hpp|(i & im & Hi & Him & Hsp)]).
          { rewrite Hrest. by left. }
          { congruence. }
          rewrite Hi. f_equal.
          by eapply (sep_disjoint _ HS i j im jm sp). }
      destruct callee as [fn|].
      * assert (Hstep : step (mk_config Running w (FLoop f :: k) p)
                  = mk_config Running (add_event (Invoked (fl_id f) sp) w1)
                      (FBody (call_function fn w1)
                       :: FLoop (mk_loop (fl_id f) (fl_sig f) (fl_local f) rest need)
                       :: k) p).
        { unfold step. simpl. by rewrite Hrest, Hvis. }
        rewrite Hstep. apply Hgoal; try done.
        -- intros g Hg. by do 2 right.
        -- right. by left.
      * assert (Hstep : step (mk_config Running w (FLoop f :: k) p)
                  = mk_config Running w1
                      (FLoop (mk_loop (fl_id f) (fl_sig f) (fl_local f) rest need)
                       :: k) p).
        { unfold step. simpl. by rewrite Hrest, Hvis. }
        rewrite Hstep. apply Hgoal; try done.
        -- intros g Hg. by right.
        -- by left.
Qed.

Lemma tidy_reachable prog n : tidy (run n (init prog)).
Proof.
  induction n as [|n IH].
  - intros i im s Hi. done.
  - rewrite run_S. apply tidy_step_config;
      [apply Inv_reachable | apply Sep_reachable | apply handles_ok_reachable
      | done].
Qed.

(** X18 ([need_cleanup], [dirty_], the stores to [pending_removal]).
    No removal is forgotten. In every reachable state, a slot that is
    on a slot list and pending removal has its list flagged dirty, or
    an emission of its signal is in progress that has
    [need_cleanup] set and so will set the flag when it ends. Hence,
    when no emission is in progress, the snapshot an emission takes
    holds no slot pending removal, and holds [slot_count()] slots. *)
Theorem cleanup_never_missed prog n :
  let c := run n (init prog) in
  let w := cf_world c in
  (∀ i im s, get_impl w i = Some im → s ∈ slots_ im →
     slot_pending (slots w) s = true →
     dirty_ im = true ∨
     ∃ f, FLoop f ∈ cf_stack c ∧ fl_need f = true ∧
       impl_ (sig_var w (fl_sig f)) = Some i) ∧
  (cf_stack c = [] → ∀ v local_slots w1,
     emit_begin (sig_var w v) w = (Some local_slots, w1) →
     Forall (λ s, slot_pending (slots w) s = false) local_slots ∧
     length local_slots = slot_count (sig_var w v) w).
Proof.
  intros c w. pose proof (tidy_reachable prog n) as Ht. fold c in Ht.
  split; [exact Ht|].
  intros Hk v local_slots w1. unfold emit_begin, slot_count.
  destruct (impl_ (sig_var w v)) as [i|]; [|done].
  destruct (get_impl w i) as [im|] eqn:Hi; [|done].
  destruct (slots_ im) as [|s0 l0] eqn:Hl; [done|].
  rewrite <- Hl. clear Hl s0 l0.
  destruct (dirty_ im) eqn:Hd; intros [= <- _]; simpl.
  - split.
    + apply Forall_forall. intros s Hs.
      by apply stable_sort_elem_of, elem_of_cleanup_keep in Hs as [_ Hs].
    + by rewrite stable_sort_perm.
  - assert (Hall : Forall (λ s, slot_pending (slots w) s = false) (slots_ im)).
    { apply Forall_forall. intros s Hs.
      destruct (slot_pending (slots w) s) eqn:Hp; [|done].
      destruct (Ht i im s Hi Hs Hp) as [?|(f & Hf & _)]; [congruence|].
      rewrite Hk in Hf. by apply elem_of_nil in Hf. }
    split; [done|]. by rewrite cleanup_keep_all.
Qed.

Lemma cleanup_never_missed_witness :
  let c := run 9 (init once_demo) in
  get_impl (cf_world c) 0 = Some (mk_impl [0] [] false) ∧
  slot_pending (slots (cf_world c)) 0 = true ∧
  ∃ f, FLoop f ∈ cf_stack c ∧ fl_need f = true ∧
    impl_ (sig_var (cf_world c) (fl_sig f)) = Some 0.
Proof.
  intros c.
  assert (Him : get_impl (cf_world c) 0 = Some (mk_impl [0] [] false))
    by (vm_compute; reflexivity).
  assert (Hp : slot_pending (slots (cf_world c)) 0 = true)
    by (vm_compute; reflexivity).
  assert (Hin : 0 ∈ slots_ (mk_impl [0] [] false)) by (simpl; left).
  split; [exact Him|]. split; [exact Hp|].
  destruct (proj1 (cleanup_never_missed once_demo 9) 0 _ 0 Him Hin Hp)
    as [Hd|H]; [discriminate Hd | exact H].
Defined.

(** ** The tag registries over an execution *)

Lemma tags_kept_refl w : tags_kept w w.
Proof. split; [done|]. intros i im Hi. by exists im. Qed.

Lemma tags_kept_trans w1 w2 w3 :
  tags_kept w1 w2 → tags_kept w2 w3 → tags_kept w1 w3.
Proof.
  intros [O1 T1] [O2 T2]. split; [congruence|].
  intros i im3 Hi. destruct (T2 i im3 Hi) as (im2 & Hi2 & E2).
  destruct (T1 i im2 Hi2) as (im1 & Hi1 & E1). exists im1.
  split; [done | congruence].
Qed.

Lemma tags_kept_ext w w' :
  impls w' = impls w → objs w' = objs w → tags_kept w w'.
Proof.
  intros Hi Ho. split; [done|]. intros i im H. exists im.
  by rewrite <- (get_impl_ext w w').
Qed.

Lemma tags_kept_put w w2 i im im' :
  get_impl w i = Some im → impls w2 = impls w → objs w2 = objs w →
  tags_ im' = tags_ im → tags_kept w (put_impl i im' w2).
Proof.
  intros Hi Himp Ho Ht. split; [done|]. intros j jm Hj.
  destruct (decide (j = i)) as [->|Hne].
  - erewrite get_put_impl_eq in Hj by (by rewrite (get_impl_ext w)).
    simplify_eq. by exists im.
  - rewrite get_put_impl_ne in Hj by done. exists jm.
    by rewrite <- (get_impl_ext w w2).
Qed.

Lemma tags_kept_frame w w1 w2 :
  tags_kept w w1 → impls w2 = impls w1 → objs w2 = objs w1 → tags_kept w w2.
Proof.
  intros [O T] Hi Ho. split; [congruence|]. intros i im.
  rewrite (get_impl_ext w1 w2) by done. apply T.
Qed.

Lemma tags_ok_kept w w' : tags_kept w w' → tags_ok w → tags_ok w'.
Proof.
  intros [Ho Hk] [Hn Hl Hu]. constructor.
  - intros i im' Hi. destruct (Hk i im' Hi) as (im & Hi0 & ->). eauto.
  - intros i im' t Hi Ht. destruct (Hk i im' Hi) as (im & Hi0 & E).
    rewrite Ho. rewrite E in Ht. eauto.
  - intros i j im' jm' t t' Hi Hj Ht Ht'.
    destruct (Hk i im' Hi) as (im & Hi0 & E).
    destruct (Hk j jm' Hj) as (jm & Hj0 & E').
    rewrite E in Ht. rewrite E' in Ht'. eauto.
Qed.

Lemma connect_impl_tags this f p ss t w :
  tags_kept w (snd (connect_impl this f p ss t w)).
Proof.
  unfold connect_impl. open_impl this w i im Hi ltac:(apply tags_kept_refl).
  by eapply tags_kept_put.
Qed.

Lemma conn_disconnect_tags c w : tags_kept w (conn_disconnect c w).
Proof.
  unfold conn_disconnect.
  destruct (impl_lock w c) as [i|]; [|apply tags_kept_refl].
  destruct (slot_lock w c) as [s|]; [|apply tags_kept_refl].
  unfold disconnect_slot.
  destruct (get_impl w i) as [im|] eqn:Hi; [|apply tags_kept_refl].
  by eapply tags_kept_put.
Qed.

Lemma conn_block_tags c b w : tags_kept w (conn_block c b w).
Proof.
  unfold conn_block. destruct (slot_lock w c); [|apply tags_kept_refl].
  by apply tags_kept_ext.
Qed.

Lemma emit_begin_tags this w : tags_kept w (snd (emit_begin this w)).
Proof.
  unfold emit_begin. open_impl this w i im Hi ltac:(apply tags_kept_refl).
  destruct (slots_ im); [apply tags_kept_refl|].
  destruct (dirty_ im); cbn [snd].
  - eapply tags_kept_frame; [|done|done]. by eapply tags_kept_put.
  - eapply tags_kept_frame; [|done|done]. by eapply tags_kept_put.
Qed.

Lemma emit_visit_tags sp need w : tags_kept w (emit_visit sp need w).1.1.
Proof.
  unfold emit_visit. destruct (slots w !! sp) as [r|]; [|apply tags_kept_refl].
  destruct (has_tracked_object r && expired (objs w) (tracked r));
    [by apply tags_kept_ext|].
  destruct (negb (is_callable (objs w) r)); [apply tags_kept_refl|].
  destruct (try_acquire_execution r) as [won r1].
  destruct (negb won); [apply tags_kept_refl|].
  destruct (single_shot r); by apply tags_kept_ext.
Qed.

Lemma emit_end_tags this local_slots need w :
  tags_kept w (emit_end this local_slots need w).
Proof.
  unfold emit_end. destruct need; [|by apply tags_kept_ext].
  destruct (impl_ this) as [i|]; [|by apply tags_kept_ext].
  destruct (get_impl w i) as [im|] eqn:Hi; [|by apply tags_kept_ext].
  eapply tags_kept_frame; [|done|done]. by eapply tags_kept_put.
Qed.

Lemma tag_allocated w i im t :
  tags_ok w → get_impl w i = Some im → t ∈ tags_ im →
  fst t < length (objs w).
Proof. intros H Hi Ht. eapply lookup_lt_Some, (tg_live _ H); eauto. Qed.

Lemma get_or_create_tag_tags i name w :
  tags_ok w → tags_ok (snd (get_or_create_tag i name w)).
Proof.
  intros Hok. unfold get_or_create_tag.
  destruct (get_impl w i) as [im|] eqn:Hi; [|done].
  destruct (List.find (tag_named name) (tags_ im)) as [t|] eqn:Hf; [done|].
  cbn [snd]. set (o := length (objs w)).
  set (im1 := set_tags (tags_ im ++ [(o, name)]) im).
  set (w1 := set_objs (λ l, l ++ [mk_object true true]) w).
  assert (Hget : ∀ j jm, get_impl (put_impl i im1 w1) j = Some jm →
            (j = i ∧ jm = im1) ∨ (j ≠ i ∧ get_impl w j = Some jm)).
  { intros j jm Hj. destruct (decide (j = i)) as [->|Hne].
    - erewrite get_put_impl_eq in Hj by (by rewrite (get_impl_ext w)).
      left. by simplify_eq.
    - rewrite get_put_impl_ne in Hj by done. right. split; [done|].
      by rewrite <- (get_impl_ext w w1). }
  assert (Hin : ∀ j jm t, get_impl (put_impl i im1 w1) j = Some jm →
            t ∈ tags_ jm →
            (∃ jm0, get_impl w j = Some jm0 ∧ t ∈ tags_ jm0) ∨
            (j = i ∧ t = (o, name))).
  { intros j jm t Hj Ht. destruct (Hget j jm Hj) as [[-> ->]|[Hne Hj0]].
    - simpl in Ht. apply elem_of_app in Ht as [Ht|Ht]; [left; eauto|].
      apply list_elem_of_singleton in Ht. by right.
    - left. eauto. }
  constructor.
  - intros j jm Hj. destruct (Hget j jm Hj) as [[-> ->]|[Hne Hj0]];
      [|by eapply (tg_names _ Hok)].
    simpl. rewrite map_app. apply NoDup_app. split_and!.
    + by eapply (tg_names _ Hok).
    + intros x Hx Hx'. simpl in Hx'. apply list_elem_of_singleton in Hx'.
      subst x. apply list_elem_of_fmap in Hx as (t & Ht & Hin').
      by eapply (find_tag_none _ _ Hf t).
    + simpl. apply NoDup_singleton.
  - intros j jm t Hj Ht. simpl.
    destruct (Hin j jm t Hj Ht) as [(jm0 & Hj0 & Ht0)|[-> ->]].
    + rewrite lookup_app_l by (by eapply tag_allocated).
      by eapply (tg_live _ Hok).
    + simpl. by rewrite lookup_app_r, Nat.sub_diag by done.
  - intros j1 j2 jm1 jm2 t t' Hj1 Hj2 Ht Ht' Heq.
    destruct (Hin j1 jm1 t Hj1 Ht) as [(a & Ha & Hta)|[-> ->]];
      destruct (Hin j2 jm2 t' Hj2 Ht') as [(b & Hb & Htb)|[-> ->]].
    + by eapply (tg_unique _ Hok).
    + exfalso. simpl in Heq.
      pose proof (tag_allocated _ _ _ _ Hok Ha Hta). unfold o in Heq. lia.
    + exfalso. simpl in Heq.
      pose proof (tag_allocated _ _ _ _ Hok Hb Htb). unfold o in Heq. lia.
    + done.
Qed.

Lemma connect_tag_tags this tag body p w :
  tags_ok w → tags_ok (snd (connect_tag this tag body p w)).
Proof.
  intros Hok. unfold connect_tag. destruct (impl_ this) as [i|]; [|done].
  pose proof (get_or_create_tag_tags i tag w Hok) as H.
  destruct (get_or_create_tag i tag w) as [tp w1]. simpl in H.
  eapply tags_ok_kept; [apply connect_impl_tags | done].
Qed.

Lemma foldr_obj_kill_other l os o :
  o ∉ l → foldr obj_kill os l !! o = os !! o.
Proof.
  induction l as [|x l IH]; intros Hn; [done|]. simpl.
  apply not_elem_of_cons in Hn as [Hne Hn].
  unfold obj_kill at 1. rewrite list_lookup_alter_ne by done. by apply IH.
Qed.

(** The tag that [disconnect(tag)] finds is the only one of its name,
    and no other registered tag is its object. *)
Lemma erased_tag_gone w i im tag t t' :
  tags_ok w → get_impl w i = Some im →
  List.find (tag_named tag) (tags_ im) = Some t →
  t' ∈ erase_tag tag (tags_ im) →
  t' ∈ tags_ im ∧ snd t' ≠ tag ∧ fst t' ≠ fst t.
Proof.
  intros Hok Hi Hf Ht'.
  destruct (find_tag_split _ _ _ Hf) as (l1 & l2 & Hl & Hn & Hl1 & He).
  pose proof (tg_names _ Hok i im Hi) as Hnd.
  rewrite Hl, map_app in Hnd. simpl in Hnd.
  apply NoDup_app in Hnd as (Hnd1 & Hnd2 & Hnd3).
  apply NoDup_cons in Hnd3 as [Hnd3 Hnd4].
  rewrite He in Ht'.
  assert (Hin : t' ∈ tags_ im).
  { rewrite Hl. apply elem_of_app in Ht' as [?|?]; apply elem_of_app;
      [by left | right; by right]. }
  assert (Hname : snd t' ≠ tag).
  { apply elem_of_app in Ht' as [Ht'|Ht']; [by apply Hl1|].
    intros Heq. apply Hnd3. rewrite Hn, <- Heq.
    apply list_elem_of_fmap. eauto. }
  split_and!; [done | done |].
  intros Heq.
  assert (Htin : t ∈ tags_ im).
  { rewrite Hl. apply elem_of_app. right. by left. }
  destruct (tg_unique _ Hok i i im im t' t Hi Hi Hin Htin Heq) as [_ ->].
  done.
Qed.

Lemma disconnect_tag_tags this tag w :
  tags_ok w → tags_ok (snd (disconnect_tag this tag w)).
Proof.
  intros Hok. unfold disconnect_tag.
  destruct (impl_ this) as [i|]; [|done].
  destruct (get_impl w i) as [im|] eqn:Hi; [|done].
  destruct (List.find (tag_named tag) (tags_ im)) as [t|] eqn:Hf; [|done].
  cbn [snd].
  destruct (mark_tracking_frame (fst t) (slots_ im) w)
    as (Hmi & _ & _ & Hmo & _).
  set (w1 := mark_tracking (fst t) (slots_ im) w) in *.
  set (im1 := set_dirty true (set_tags (erase_tag tag (tags_ im)) im)).
  assert (Htin : t ∈ tags_ im).
  { apply find_some in Hf as [Hf _]. by apply list_elem_of_In. }
  assert (Hget : ∀ j jm, get_impl (set_objs (obj_kill (fst t))
                                     (put_impl i im1 w1)) j = Some jm →
            (j = i ∧ jm = im1) ∨ (j ≠ i ∧ get_impl w j = Some jm)).
  { intros j jm Hj.
    rewrite (get_impl_ext (put_impl i im1 w1)) in Hj by done.
    destruct (decide (j = i)) as [->|Hne].
    - erewrite get_put_impl_eq in Hj by (by rewrite (get_impl_ext w)).
      left. by simplify_eq.
    - rewrite get_put_impl_ne in Hj by done. right. split; [done|].
      by rewrite <- (get_impl_ext w w1). }
  assert (Hin : ∀ j jm t', get_impl (set_objs (obj_kill (fst t))
                                      (put_impl i im1 w1)) j = Some jm →
            t' ∈ tags_ jm →
            ∃ jm0, get_impl w j = Some jm0 ∧ t' ∈ tags_ jm0 ∧ fst t' ≠ fst t).
  { intros j jm t' Hj Ht'. destruct (Hget j jm Hj) as [[-> ->]|[Hne Hj0]].
    - simpl in Ht'.
      destruct (erased_tag_gone _ _ _ _ _ _ Hok Hi Hf Ht') as (H1 & _ & H3).
      exists im. done.
    - exists jm. split_and!; try done. intros Heq.
      by destruct (tg_unique _ Hok j i jm im t' t Hj0 Hi Ht' Htin Heq). }
  constructor.
  - intros j jm Hj. destruct (Hget j jm Hj) as [[-> ->]|[Hne Hj0]];
      [|by eapply (tg_names _ Hok)].
    simpl. destruct (find_tag_split _ _ _ Hf) as (l1 & l2 & Hl & _ & _ & ->).
    pose proof (tg_names _ Hok i im Hi) as Hnd.
    rewrite Hl, map_app in Hnd. simpl in Hnd.
    apply NoDup_app in Hnd as (Hnd1 & Hnd2 & Hnd3).
    apply NoDup_cons in Hnd3 as [Hnd3 Hnd4].
    rewrite map_app. apply NoDup_app. split_and!; [done | | done].
    intros x Hx Hx'. apply (Hnd2 x Hx). by right.
  - intros j jm t' Hj Ht'.
    destruct (Hin j jm t' Hj Ht') as (jm0 & Hj0 & Ht0 & Hne).
    simpl. unfold obj_kill. rewrite list_lookup_alter_ne by done.
    fold w1. rewrite Hmo. by eapply (tg_live _ Hok).
  - intros j1 j2 jm1 jm2 t1 t2 Hj1 Hj2 Ht1 Ht2 Heq.
    destruct (Hin j1 jm1 t1 Hj1 Ht1) as (a & Ha & Hta & _).
    destruct (Hin j2 jm2 t2 Hj2 Ht2) as (b & Hb & Htb & _).
    by eapply (tg_unique _ Hok).
Qed.

Lemma disconnect_all_tags this w :
  tags_ok w → tags_ok (disconnect_all this w).
Proof.
  intros Hok. unfold disconnect_all.
  destruct (impl_ this) as [i|]; [|done].
  destruct (get_impl w i) as [im|] eqn:Hi; [|done].
  destruct (mark_all_frame (slots_ im) w) as (Hmi & _ & _ & Hmo & _).
  set (w3 := set_objs _ _).
  assert (Hget : ∀ j jm, get_impl (put_impl i (mk_impl [] [] false) w3) j
                         = Some jm →
            (j = i ∧ jm = mk_impl [] [] false) ∨
            (j ≠ i ∧ get_impl w j = Some jm)).
  { intros j jm Hj. destruct (decide (j = i)) as [->|Hne].
    - erewrite get_put_impl_eq in Hj by (by rewrite (get_impl_ext w)).
      left. by simplify_eq.
    - rewrite get_put_impl_ne in Hj by done. right. split; [done|].
      by rewrite <- (get_impl_ext w w3). }
  constructor.
  - intros j jm Hj. destruct (Hget j jm Hj) as [[-> ->]|[Hne Hj0]];
      [simpl; constructor | by eapply (tg_names _ Hok)].
  - intros j jm t Hj Ht. destruct (Hget j jm Hj) as [[-> ->]|[Hne Hj0]];
      [by apply elem_of_nil in Ht|].
    simpl. rewrite foldr_obj_kill_other.
    + rewrite Hmo. by eapply (tg_live _ Hok).
    + intros Hin. apply list_elem_of_fmap in Hin as (t0 & Heq & Ht0).
      by destruct (tg_unique _ Hok j i jm im t t0 Hj0 Hi Ht Ht0 Heq).
  - intros j1 j2 jm1 jm2 t1 t2 Hj1 Hj2 Ht1 Ht2 Heq.
    destruct (Hget j1 jm1 Hj1) as [[-> ->]|[Hne1 Ha]];
      [by apply elem_of_nil in Ht1|].
    destruct (Hget j2 jm2 Hj2) as [[-> ->]|[Hne2 Hb]];
      [by apply elem_of_nil in Ht2|].
    by eapply (tg_unique _ Hok).
Qed.

Lemma exec_action_tags a w m w1 fo :
  exec_action a w = (m, w1, fo) → tags_ok w → tags_ok w1.
Proof.
  intros He Hok. destruct a; simpl in He; simplify_eq.
  - done.
  - apply (tags_ok_kept w); [by apply tags_kept_ext | done].
  - apply (tags_ok_kept w); [|done].
    eapply tags_kept_frame; [apply connect_impl_tags | done | done].
  - apply (tags_ok_kept w); [|done].
    eapply tags_kept_frame; [apply connect_impl_tags | done | done].
  - apply (tags_ok_kept w); [|done]. unfold connect_shared.
    destruct (owner_ptr w obj); [|by apply tags_kept_ext].
    eapply tags_kept_frame; [apply connect_impl_tags | done | done].
  - apply (tags_ok_kept w); [|done]. unfold connect_raw.
    destruct null; [by apply tags_kept_ext|].
    eapply tags_kept_frame; [apply connect_impl_tags | done | done].
  - eapply (tags_ok_kept (snd (connect_tag (sig_var w sig) tag body prio w)));
      [by apply tags_kept_ext | by apply connect_tag_tags].
  - by apply disconnect_tag_tags.
  - pose proof (emit_begin_tags (sig_var w sig) w) as Hk.
    destruct (emit_begin (sig_var w sig) w) as [[l|] w2]; simplify_eq.
    + apply (tags_ok_kept w); [|done].
      eapply tags_kept_frame; [exact Hk | done | done].
    + by apply (tags_ok_kept w).
  - by apply disconnect_all_tags.
  - apply (tags_ok_kept w); [apply conn_disconnect_tags | done].
  - apply (tags_ok_kept w); [apply conn_block_tags | done].
  - apply (tags_ok_kept w); [by apply tags_kept_ext | done].
Qed.

Lemma impl_release_tags this w : tags_kept w (impl_release this w).
Proof.
  unfold impl_release. destruct (impl_ this) as [i|]; [|apply tags_kept_refl].
  split; [done|]. intros j jm Hj. exists jm. split; [|done].
  unfold get_impl in *. simpl in Hj.
  destruct (decide (j = i)) as [->|Hne].
  - destruct (impls w !! i) eqn:E.
    + rewrite list_lookup_insert_eq in Hj; [done|]. by eapply lookup_lt_Some.
    + rewrite list_insert_ge in Hj by (by apply lookup_ge_None).
      by rewrite E in Hj.
  - by rewrite list_lookup_insert_ne in Hj.
Qed.

Lemma exec_command_tags cmd w w1 k :
  exec_command cmd w = (w1, k) → tags_ok w → tags_ok w1.
Proof.
  destruct cmd; simpl; intros H Hok; simplify_eq; try done.
  - assert (Hget : ∀ j jm,
      get_impl (set_sigs (λ l, l ++ [mk_signal (Some (length (impls w)))])
                  (set_impls (λ l, l ++ [Some (mk_impl [] [] false)]) w)) j
      = Some jm → get_impl w j = Some jm ∨ tags_ jm = []).
    { intros j jm Hj. unfold get_impl in *. simpl in Hj.
      destruct (decide (j < length (impls w))) as [Hlt|Hge].
      - rewrite lookup_app_l in Hj by done. by left.
      - rewrite lookup_app_r in Hj by lia.
        destruct (j - length (impls w)) as [|x]; simpl in Hj; simplify_eq.
        by right. }
    destruct Hok as [Hn Hl Hu]. constructor; simpl.
    + intros j jm Hj. destruct (Hget j jm Hj) as [Hj0|E]; [eauto|].
      rewrite E. constructor.
    + intros j jm t Hj Ht. destruct (Hget j jm Hj) as [Hj0|E]; [eauto|].
      rewrite E in Ht. by apply elem_of_nil in Ht.
    + intros j1 j2 jm1 jm2 t1 t2 Hj1 Hj2 Ht1 Ht2.
      destruct (Hget j1 jm1 Hj1) as [Ha|E];
        [|rewrite E in Ht1; by apply elem_of_nil in Ht1].
      destruct (Hget j2 jm2 Hj2) as [Hb|E];
        [|rewrite E in Ht2; by apply elem_of_nil in Ht2].
      eauto.
  - apply (tags_ok_kept w); [|done]. by apply tags_kept_ext.
  - unfold move_assign. destruct (dst =? src); [done|].
    eapply tags_ok_kept; [|apply (disconnect_all_tags (sig_var w dst)), Hok].
    eapply tags_kept_frame; [apply impl_release_tags | done | done].
  - destruct Hok as [Hn Hl Hu]. constructor; simpl; [done | | done].
    intros i im t Hi Ht. rewrite lookup_app_l; [eauto|].
    eapply lookup_lt_Some. eauto.
  - destruct (owner_ptr w o) as [x|] eqn:Ho; simplify_eq; [|done].
    destruct Hok as [Hn Hl Hu]. constructor; simpl; [done | | done].
    intros i im t Hi Ht. specialize (Hl i im t Hi Ht).
    unfold obj_kill. rewrite list_lookup_alter_ne; [done|].
    intros Heq. rewrite <- Heq in Hl. unfold owner_ptr in Ho.
    rewrite Hl in Ho. done.
Qed.

Lemma tags_ok_step c : tags_ok (cf_world c) → tags_ok (cf_world (step c)).
Proof.
  destruct c as [m w k p]. unfold step. simpl. intros Hok.
  destruct k as [|[body|f] k].
  - destruct m; [|done]. destruct p as [|cmd p]; [done|].
    destruct (exec_command cmd w) as [w1 k1] eqn:Hc.
    by eapply exec_command_tags.
  - destruct m; [|done]. destruct body as [|a rest]; [done|].
    destruct (exec_action a w) as [[m1 w1] fo] eqn:He.
    apply exec_action_tags in He; [|done]. by destruct m1, fo.
  - destruct m; [|done].
    destruct (fl_rest f) as [|sp rest].
    + simpl. eapply tags_ok_kept; [apply emit_end_tags | done].
    + pose proof (emit_visit_tags sp (fl_need f) w) as Hk.
      destruct (emit_visit sp (fl_need f) w) as [[w1 need] [fn|]]; simpl in *.
      * apply (tags_ok_kept w); [|done].
        eapply tags_kept_frame; [exact Hk | done | done].
      * by apply (tags_ok_kept w).
Qed.

Lemma tags_ok_reachable prog n : tags_ok (cf_world (run n (init prog))).
Proof.
  induction n as [|n IH].
  - constructor; [intros i im Hi | intros i im t Hi | intros i j im jm t t' Hi];
      by unfold get_impl in Hi.
  - rewrite run_S. by apply tags_ok_step.
Qed.

Lemma find_tag_erase_other tag tag' l :
  tag' ≠ tag →
  List.find (tag_named tag') (erase_tag tag l) = List.find (tag_named tag') l.
Proof.
  intros Hne. induction l as [|x l IH]; [done|]. simpl.
  destruct (tag_named tag x) eqn:E1; destruct (tag_named tag' x) eqn:E2;
    simpl; rewrite ?E2; try done.
  unfold tag_named in E1, E2. apply String.eqb_eq in E1, E2. congruence.
Qed.

Lemma find_tag_absent tag l :
  (∀ t, t ∈ l → snd t ≠ tag) → List.find (tag_named tag) l = None.
Proof.
  induction l as [|x l IH]; intros H; [done|]. simpl. unfold tag_named at 1.
  destruct (String.eqb_spec (snd x) tag) as [Heq|Hx].
  - exfalso. apply (H x); [by left | done].
  - apply IH. intros t Ht. apply H. by right.
Qed.

(** X19 ([get_or_create_tag], [disconnect(tag)], the tag registry).
    In every reachable state a registered tag is the only one of its
    name and a live object, so that [connect(tag, ...)] attaches to
    it and [disconnect(tag)] returns true and sets [pending_removal]
    on exactly the listed slots that track it, whatever the state of
    their owners; afterwards the tag object has expired, the name is
    no longer registered and the other names are as before. *)
Theorem registered_tag_disconnects prog n v tag i im t :
  let w := cf_world (run n (init prog)) in
  let this := sig_var w v in
  let r := disconnect_tag this tag w in
  impl_ this = Some i → get_impl w i = Some im →
  List.find (tag_named tag) (tags_ im) = Some t →
  (∀ t', t' ∈ tags_ im → snd t' = tag → t' = t) ∧
  get_or_create_tag i tag w = (Some (fst t), w) ∧
  fst r = true ∧
  (∀ s x, slots w !! s = Some x →
     slots (snd r) !! s
     = Some (if bool_decide (s ∈ slots_ im ∧ tracked x = Some (fst t))
             then set_pending_removal true x else x)) ∧
  expired (objs (snd r)) (Some (fst t)) = true ∧
  ∃ im', get_impl (snd r) i = Some im' ∧
    List.find (tag_named tag) (tags_ im') = None ∧
    ∀ tag', tag' ≠ tag →
      List.find (tag_named tag') (tags_ im')
      = List.find (tag_named tag') (tags_ im).
Proof.
  intros w this r Hi Him Hf.
  pose proof (tags_ok_reachable prog n) as Hok. fold w in Hok.
  assert (Htin : t ∈ tags_ im).
  { apply find_some in Hf as [Hf _]. by apply list_elem_of_In. }
  pose proof (tg_live _ Hok i im t Him Htin) as Hlive.
  assert (Hr : r = (true, set_objs (obj_kill (fst t))
            (put_impl i (set_dirty true (set_tags (erase_tag tag (tags_ im)) im))
               (mark_tracking (fst t) (slots_ im) w)))).
  { unfold r, disconnect_tag. by rewrite Hi, Him, Hf. }
  destruct (mark_tracking_frame (fst t) (slots_ im) w)
    as (Hmi & _ & _ & Hmo & _).
  split_and!.
  - intros t' Ht' Hn.
    destruct (find_tag_split _ _ _ Hf) as (l1 & l2 & Hl & Hn0 & Hl1 & He).
    pose proof (tg_names _ Hok i im Him) as Hnd.
    rewrite Hl, map_app in Hnd. simpl in Hnd.
    apply NoDup_app in Hnd as (_ & _ & Hnd).
    apply NoDup_cons in Hnd as [Hnd _].
    rewrite Hl in Ht'. apply elem_of_app in Ht' as [Ht'|Ht'];
      [by destruct (Hl1 t' Ht')|].
    apply elem_of_cons in Ht' as [->|Ht']; [done|].
    exfalso. apply Hnd. rewrite Hn0, <- Hn. apply list_elem_of_fmap. eauto.
  - unfold get_or_create_tag. by rewrite Him, Hf.
  - by rewrite Hr.
  - intros s x Hx. rewrite Hr. simpl.
    rewrite (mark_tracking_lookup _ _ _ _ _ Hx). f_equal.
    assert (Htr : tracks w s (fst t) = bool_decide (tracked x = Some (fst t))).
    { unfold tracks, obj_lock. rewrite Hx.
      destruct (tracked x) as [o|] eqn:Ho.
      - destruct (decide (o = fst t)) as [->|Hne].
        + rewrite Hlive. simpl. rewrite Nat.eqb_refl.
          by rewrite bool_decide_eq_true_2.
        + rewrite bool_decide_eq_false_2 by congruence.
          destruct (objs w !! o) as [ob|]; [|done].
          destruct (obj_alive ob); [|done]. by apply Nat.eqb_neq.
      - by rewrite bool_decide_eq_false_2. }
    rewrite Htr.
    destruct (decide (s ∈ slots_ im)) as [Hs|Hs];
      destruct (decide (tracked x = Some (fst t))) as [Ht|Ht].
    + by rewrite !bool_decide_eq_true_2.
    + rewrite (bool_decide_eq_false_2 (tracked x = _)) by done.
      rewrite (bool_decide_eq_false_2 (_ ∧ _)) by (by intros [_ ?]).
      by rewrite andb_false_r.
    + rewrite (bool_decide_eq_false_2 (s ∈ _)) by done.
      by rewrite (bool_decide_eq_false_2 (_ ∧ _)) by (by intros [? _]).
    + rewrite (bool_decide_eq_false_2 (s ∈ _)) by done.
      by rewrite (bool_decide_eq_false_2 (_ ∧ _)) by (by intros [? _]).
  - rewrite Hr. simpl. unfold expired, obj_lock, obj_kill.
    rewrite list_lookup_alter_eq, Hmo, Hlive. done.
  - eexists. rewrite Hr. cbn [snd]. split_and!.
    + rewrite (get_impl_ext (put_impl i _ (mark_tracking (fst t) (slots_ im) w)))
        by done.
      eapply get_put_impl_eq. by rewrite (get_impl_ext w).
    + simpl. apply find_tag_absent. intros t' Ht'.
      by destruct (erased_tag_gone _ _ _ _ _ _ Hok Him Hf Ht') as (_ & ? & _).
    + intros tag' Hne. simpl. by apply find_tag_erase_other.
Qed.

Lemma registered_tag_disconnects_witness :
  let w := cf_world (run 13 (init tag_demo)) in
  let w' := snd (disconnect_tag (sig_var w 0) "a" w) in
  slot_count (sig_var w 0) w = 4 ∧
  map (slot_pending (slots w')) [0; 1; 2; 3] = [true; true; false; false] ∧
  expired (objs w') (Some 0) = true.
Proof.
  intros w w'.
  assert (Hi : impl_ (sig_var w 0) = Some 0) by (vm_compute; reflexivity).
  assert (Him : get_impl w 0
                = Some (mk_impl [0; 1; 2; 3]
                          [(0, "a"%string); (1, "b"%string)] true))
    by (vm_compute; reflexivity).
  assert (Hf : List.find (tag_named "a")
                 (tags_ (mk_impl [0; 1; 2; 3]
                           [(0, "a"%string); (1, "b"%string)] true))
               = Some (0, "a"%string)) by reflexivity.
  destruct (registered_tag_disconnects tag_demo 13 0 "a" 0 _ _ Hi Him Hf)
    as (_ & _ & _ & _ & He & _).
  split; [vm_compute; reflexivity|]. split; [vm_compute; reflexivity|].
  exact He.
Defined.

(** ** Termination *)

Lemma funcs_alter (g : slot → slot) s sl :
  (∀ r, func (g r) = func r) → map func (alter g s sl) = map func sl.
Proof.
  intros Hg. apply list_eq. intros j. rewrite !list_lookup_fmap.
  destruct (decide (j = s)) as [->|Hne].
  - rewrite list_lookup_alter_eq. destruct (sl !! s); simpl; [by rewrite Hg|done].
  - by rewrite list_lookup_alter_ne.
Qed.

Lemma funcs_acquire_all l sl : map func (acquire_all l sl) = map func sl.
Proof.
  induction l as [|x l IH]; [done|]. simpl. by rewrite funcs_alter.
Qed.

Lemma funcs_release_all l sl : map func (release_all l sl) = map func sl.
Proof.
  induction l as [|x l IH]; [done|]. simpl. by rewrite funcs_alter.
Qed.

Lemma funcs_mark_all l w : map func (slots (mark_all l w)) = map func (slots w).
Proof.
  revert w. induction l as [|x l IH]; intros w; [done|]. simpl.
  rewrite IH. simpl. by rewrite funcs_alter.
Qed.

Lemma funcs_mark_tracking t l w :
  map func (slots (mark_tracking t l w)) = map func (slots w).
Proof.
  revert w. induction l as [|x l IH]; intros w; [done|]. simpl.
  rewrite IH. destruct (tracks w x t); [|done]. simpl. by rewrite funcs_alter.
Qed.

Lemma connect_impl_free this f p ss t w :
  body_free (fn_body f) = true → heap_free (slots w) →
  heap_free (slots (snd (connect_impl this f p ss t w))).
Proof.
  intros Hf Hw. unfold connect_impl. open_impl this w i im Hi ltac:(done).
  unfold heap_free. simpl. rewrite map_app. apply Forall_app. split; [done|].
  by repeat constructor.
Qed.

Lemma emit_visit_funcs sp need w :
  map func (slots (emit_visit sp need w).1.1) = map func (slots w).
Proof.
  unfold emit_visit. destruct (slots w !! sp) as [r|] eqn:Hr; [|done].
  destruct (has_tracked_object r && expired (objs w) (tracked r)).
  { simpl. by rewrite funcs_alter. }
  destruct (negb (is_callable (objs w) r)); [done|].
  destruct (try_acquire_execution r) as [won r1] eqn:Hacq.
  destruct (negb won); [done|].
  assert (Hr1 : func r1 = func r).
  { unfold try_acquire_execution in Hacq.
    destruct (negb (single_shot r)); [by simplify_eq|].
    destruct (executed r); by simplify_eq. }
  assert (Hins : map func (<[sp := r1]> (slots w)) = map func (slots w)).
  { apply list_eq. intros j. rewrite !list_lookup_fmap.
    destruct (decide (j = sp)) as [->|Hne].
    - rewrite list_lookup_insert_eq by (by eapply lookup_lt_Some).
      rewrite Hr. simpl. by rewrite Hr1.
    - by rewrite list_lookup_insert_ne. }
  destruct (single_shot r); simpl; [|done]. by rewrite funcs_alter.
Qed.

Lemma emit_end_funcs this local_slots need w :
  map func (slots (emit_end this local_slots need w)) = map func (slots w).
Proof.
  unfold emit_end. simpl. rewrite funcs_release_all.
  destruct need; [|done]. destruct (impl_ this) as [i|]; [|done].
  by destruct (get_impl w i).
Qed.

Lemma emit_begin_funcs this w :
  map func (slots (snd (emit_begin this w))) = map func (slots w).
Proof.
  unfold emit_begin. open_impl this w i im Hi ltac:(done).
  destruct (slots_ im); [done|].
  destruct (dirty_ im); simpl; rewrite funcs_acquire_all; [|done].
  by rewrite funcs_release_all.
Qed.

(** A statement that fires no signal starts no emission and keeps
    the callbacks of the heap free of emissions. *)
Lemma exec_action_free a w m w1 fo :
  exec_action a w = (m, w1, fo) → emit_free a = true →
  heap_free (slots w) → fo = None ∧ heap_free (slots w1).
Proof.
  intros He Ha Hw. destruct a; simpl in He, Ha; simplify_eq;
    (split; [done|]); try done.
  - by apply connect_impl_free.
  - by apply connect_impl_free.
  - unfold connect_shared. destruct (owner_ptr w obj); [|done].
    by apply connect_impl_free.
  - unfold connect_raw. destruct null; [done|]. by apply connect_impl_free.
  - unfold connect_tag. destruct (impl_ (sig_var w sig)) as [i|]; [|done].
    assert (Hg : slots (snd (get_or_create_tag i tag w)) = slots w).
    { unfold get_or_create_tag. destruct (get_impl w i); [|done].
      by destruct (List.find _ _). }
    destruct (get_or_create_tag i tag w) as [tp w2]. simpl in Hg.
    apply connect_impl_free; [done|]. by rewrite Hg.
  - unfold disconnect_tag. destruct (impl_ (sig_var w sig)) as [i|]; [|done].
    destruct (get_impl w i) as [im|]; [|done].
    destruct (List.find _ _); [|done].
    unfold heap_free. simpl. by rewrite funcs_mark_tracking.
  - unfold disconnect_all. destruct (impl_ (sig_var w sig)) as [i|]; [|done].
    destruct (get_impl w i) as [im|]; [|done].
    unfold heap_free. simpl. by rewrite funcs_release_all, funcs_mark_all.
  - unfold conn_disconnect. destruct (impl_lock w _) as [i|]; [|done].
    destruct (slot_lock w _) as [s|]; [|done].
    unfold disconnect_slot. destruct (get_impl w i); [|done].
    unfold heap_free. simpl. by rewrite funcs_alter.
  - unfold conn_block. destruct (slot_lock w _) as [s|]; [|done].
    unfold heap_free. simpl. by rewrite funcs_alter.
Qed.

(** A callback that fires no signal runs to its end, or to the
    statement that throws. *)
Lemma body_terminates b w k p :
  body_free b = true → heap_free (slots w) →
  ∃ n md w', run n (mk_config Running w (FBody b :: k) p)
             = mk_config md w' k p ∧ heap_free (slots w').
Proof.
  revert w. induction b as [|a b IH]; intros w Hb Hw.
  - exists 1, Running, w. done.
  - simpl in Hb. apply andb_true_iff in Hb as [Ha Hb].
    destruct (exec_action a w) as [[m1 w1] fo] eqn:He.
    destruct (exec_action_free _ _ _ _ _ He Ha Hw) as [-> Hw1].
    destruct m1.
    + destruct (IH w1 Hb Hw1) as (n & md & w' & Hrun & Hw').
      exists (S n), md, w'. split; [|done].
      assert (Hs : step (mk_config Running w (FBody (a :: b) :: k) p)
                = mk_config Running w1 (FBody b :: k) p).
      { unfold step. simpl. by rewrite He. }
      by rewrite run_step, Hs.
    + exists 1, Unwinding, w1. split; [|done].
      unfold run. simpl. unfold step. simpl. by rewrite He.
Qed.

Lemma call_function_free fn w :
  body_free (fn_body fn) = true → body_free (call_function fn w) = true.
Proof.
  intros H. unfold call_function. destruct (fn_owner fn); [|done].
  by destruct (expired _ _).
Qed.

Lemma heap_free_lookup sl s r :
  heap_free sl → sl !! s = Some r → body_free (fn_body (func r)) = true.
Proof.
  intros H Hr. unfold heap_free in H. rewrite Forall_forall in H.
  apply H. apply list_elem_of_fmap. exists r. split; [done|].
  by eapply list_elem_of_lookup_2.
Qed.

(** The loop of an emission whose callbacks fire no signal runs to
    its end and returns to its caller in normal mode. *)
Lemma loop_terminates rest : ∀ id sig local need w base p,
  heap_free (slots w) →
  ∃ n w', run n (mk_config Running w
                   (FLoop (mk_loop id sig local rest need) :: base) p)
          = mk_config Running w' base p ∧ heap_free (slots w').
Proof.
  induction rest as [|sp rest IH]; intros id sig local need w base p Hw.
  - exists 1. eexists. split; [done|].
    unfold heap_free. by rewrite emit_end_funcs.
  - pose proof (emit_visit_funcs sp need w) as Hf.
    destruct (emit_visit sp need w) as [[w1 need1] callee] eqn:Hvis.
    simpl in Hf.
    assert (Hw1 : heap_free (slots w1)) by (unfold heap_free; by rewrite Hf).
    destruct callee as [fn|].
    + assert (Hfn : body_free (fn_body fn) = true).
      { apply emit_visit_invoke in Hvis as (r & _ & Hr & -> & _).
        exact (heap_free_lookup _ _ _ Hw Hr). }
      destruct (body_terminates (call_function fn w1)
                  (add_event (Invoked id sp) w1)
                  (FLoop (mk_loop id sig local rest need1) :: base) p)
        as (n1 & md & w2 & Hrun1 & Hw2);
        [by apply call_function_free | done |].
      destruct (IH id sig local need1 w2 base p Hw2) as (n2 & w3 & Hrun2 & Hw3).
      exists (n2 + (match md with Running => 0 | Unwinding => 1 end) + (n1 + 1)),
             w3.
      split; [|done].
      rewrite run_add, (run_add n1 1).
      assert (Hs : run 1 (mk_config Running w
                     (FLoop (mk_loop id sig local (sp :: rest) need) :: base) p)
                = mk_config Running (add_event (Invoked id sp) w1)
                    (FBody (call_function fn w1)
                     :: FLoop (mk_loop id sig local rest need1) :: base) p).
      { unfold run. simpl. unfold step. simpl. by rewrite Hvis. }
      rewrite Hs, Hrun1. destruct md.
      * by rewrite Nat.add_0_r.
      * rewrite run_add. exact Hrun2.
    + destruct (IH id sig local need1 w1 base p Hw1) as (n2 & w3 & Hrun2 & Hw3).
      exists (n2 + 1), w3. split; [|done].
      rewrite run_add.
      assert (Hs : run 1 (mk_config Running w
                     (FLoop (mk_loop id sig local (sp :: rest) need) :: base) p)
                = mk_config Running w1
                    (FLoop (mk_loop id sig local rest need1) :: base) p).
      { unfold run. simpl. unfold step. simpl. by rewrite Hvis. }
      by rewrite Hs.
Qed.

Lemma exec_command_funcs cmd w w1 k :
  exec_command cmd w = (w1, k) → map func (slots w1) = map func (slots w).
Proof.
  destruct cmd; simpl; intros H; simplify_eq; try done.
  - unfold move_assign. destruct (dst =? src); [done|]. simpl.
    assert (Hr : ∀ x, slots (impl_release (sig_var w dst) x) = slots x).
    { intros x. unfold impl_release. by destruct (impl_ _). }
    rewrite Hr. unfold disconnect_all.
    destruct (impl_ (sig_var w dst)) as [i|]; [|done].
    destruct (get_impl w i) as [im|]; [|done]. simpl.
    by rewrite funcs_release_all, funcs_mark_all.
  - by destruct (owner_ptr w o); simplify_eq.
Qed.

(** A statement of the main program runs to its end; if it throws,
    the program is over. *)
Lemma command_terminates cmd p w :
  match cmd with
  | CAct (AEmit _) => True
  | CAct a => emit_free a = true
  | _ => True
  end →
  heap_free (slots w) →
  ∃ n w' p', run n (mk_config Running w [] (cmd :: p))
             = mk_config Running w' [] p' ∧
    heap_free (slots w') ∧ (p' = p ∨ p' = []).
Proof.
  intros Hc Hw.
  destruct (exec_command cmd w) as [w1 k1] eqn:He.
  assert (Hs : run 1 (mk_config Running w [] (cmd :: p))
               = mk_config Running w1 k1 p).
  { unfold run. simpl. unfold step. simpl. by rewrite He. }
  assert (Hw1 : heap_free (slots w1)).
  { unfold heap_free. by rewrite (exec_command_funcs _ _ _ _ He). }
  assert (Hfree : ∀ a, emit_free a = true → cmd = CAct a →
    ∃ n w' p', run n (mk_config Running w [] (cmd :: p))
               = mk_config Running w' [] p' ∧
      heap_free (slots w') ∧ (p' = p ∨ p' = [])).
  { intros a Ha ->. simpl in He. simplify_eq.
    destruct (body_terminates [a] w1 [] p) as (n & md & w' & Hrun & Hw');
      [unfold body_free; simpl; by rewrite Ha | done |].
    destruct md.
    - exists (n + 1), w', p. rewrite run_add, Hs, Hrun. auto.
    - exists (1 + (n + 1)), w', []. rewrite run_add, run_add, Hs, Hrun. auto. }
  assert (Hother : k1 = [] →
    ∃ n w' p', run n (mk_config Running w [] (cmd :: p))
               = mk_config Running w' [] p' ∧
      heap_free (slots w') ∧ (p' = p ∨ p' = [])).
  { intros ->. exists 1, w1, p. rewrite Hs. auto. }
  destruct cmd as [a| |src|dst src| |o];
    try (apply Hother; simpl in He; repeat case_match; congruence).
  - destruct (emit_free a) eqn:Ha; [by eapply Hfree|].
    destruct a; try done. simpl in He. simplify_eq.
    pose proof (emit_begin_funcs (sig_var w1 sig) w1) as Hf.
    destruct (emit_begin (sig_var w1 sig) w1) as [[l|] w2] eqn:Hb; simpl in Hf.
    + destruct (loop_terminates l (next_emission w2) sig l false
                  (bump_emission w2) [FBody []] p) as (n & w' & Hrun & Hw').
      { unfold heap_free. simpl. by rewrite Hf. }
      exists (1 + (n + (1 + 1))), w', p.
      rewrite run_add, run_add, run_add, Hs.
      assert (Hs2 : run 1 (mk_config Running w1 [FBody [AEmit sig]] p)
                = mk_config Running (bump_emission w2)
                    [FLoop (mk_loop (next_emission w2) sig l l false); FBody []]
                    p).
      { unfold run. simpl. unfold step. simpl. by rewrite Hb. }
      rewrite Hs2, Hrun. auto.
    + exists (1 + (1 + 1)), w2, p.
      rewrite run_add, run_add, Hs.
      assert (Hs2 : run 1 (mk_config Running w1 [FBody [AEmit sig]] p)
                = mk_config Running w2 [FBody []] p).
      { unfold run. simpl. unfold step. simpl. by rewrite Hb. }
      rewrite Hs2. split_and!; [done | | by left].
      unfold heap_free. by rewrite Hf.
Qed.

Lemma prog_terminates p : ∀ w,
  callbacks_free p → heap_free (slots w) →
  ∃ n, cf_prog (run n (mk_config Running w [] p)) = [] ∧
       cf_stack (run n (mk_config Running w [] p)) = [] ∧
       cf_mode (run n (mk_config Running w [] p)) = Running.
Proof.
  induction p as [|cmd p IH]; intros w Hp Hw; [by exists 0|].
  apply Forall_cons in Hp as [Hc Hp].
  destruct (command_terminates cmd p w Hc Hw) as (n & w' & p' & Hrun & Hw' & Hp').
  destruct Hp' as [->| ->].
  - destruct (IH w' Hp Hw') as (n2 & H). exists (n2 + n).
    by rewrite run_add, Hrun.
  - exists n. by rewrite Hrun.
Qed.

(** X20 ([operator()], the loop over [local_slots]). With callbacks
    that fire no signal themselves, an emission terminates: the loop
    visits what is left of its snapshot, whatever the callbacks
    connect, disconnect or throw, and returns to its caller in normal
    mode. A program all of whose callbacks are such runs to
    completion. *)
Theorem emissions_terminate :
  (∀ w f base p, heap_free (slots w) →
     ∃ n w', run n (mk_config Running w (FLoop f :: base) p)
             = mk_config Running w' base p) ∧
  (∀ prog, callbacks_free prog →
     ∃ n, cf_prog (run n (init prog)) = [] ∧
          cf_stack (run n (init prog)) = [] ∧
          cf_mode (run n (init prog)) = Running).
Proof.
  split.
  - intros w [id sig local rest need] base p Hw.
    destruct (loop_terminates rest id sig local need w base p Hw)
      as (n & w' & H & _). eauto.
  - intros prog Hp. apply prog_terminates; [done|]. constructor.
Qed.

Lemma emissions_terminate_witness :
  callbacks_free throw_demo ∧
  ∃ n, cf_prog (run n (init throw_demo)) = [] ∧
       cf_stack (run n (init throw_demo)) = [] ∧
       cf_mode (run n (init throw_demo)) = Running.
Proof.
  assert (H : callbacks_free throw_demo) by (repeat constructor).
  split; [exact H|]. exact (proj2 emissions_terminate throw_demo H).
Defined.

(** ** Index sequences *)

Lemma make_index_sequence_impl_seq n indices :
  make_index_sequence_impl n indices = seq 0 n ++ indices.
Proof.
  revert indices. induction n as [|n IH]; intros indices; [done|].
  simpl make_index_sequence_impl. rewrite IH.
  rewrite seq_S. simpl. by rewrite <- app_assoc.
Qed.

(** X21 ([make_index_sequence], [is_invocable_with_n]). The C++11
    index sequence of length [N] is 0, 1, ..., N-1, so that
    [is_invocable_with_n<F, N, Args...>] tries a callable on exactly
    the first [N] argument types of the signal, and is well formed
    only for [N] up to the number of arguments. *)
Theorem index_sequence_spec (n : nat) :
  make_index_sequence n = seq 0 n ∧
  ∀ (T : Type) (args : list T),
    is_invocable_with_n_types n args
    = if decide (n ≤ length args) then Some (take n args) else None.
Proof.
  assert (Hseq : make_index_sequence n = seq 0 n).
  { unfold make_index_sequence. by rewrite make_index_sequence_impl_seq, app_nil_r. }
  split; [done|]. intros T args. unfold is_invocable_with_n_types.
  rewrite Hseq. destruct (decide (n ≤ length args)) as [Hle|Hgt].
  - apply mapM_Some. apply Forall2_same_length_lookup. split.
    + rewrite length_seq, length_take. lia.
    + intros i x y Hx Hy. apply lookup_seq in Hx as [-> Hi].
      simpl. by rewrite lookup_take_lt in Hy.
  - apply mapM_None. apply Exists_exists. exists (length args). split.
    + apply elem_of_seq. lia.
    + by apply lookup_ge_None.
Qed.

(** ** Reference counts *)

Lemma occ_app s l1 l2 : occ s (l1 ++ l2) = occ s l1 + occ s l2.
Proof. unfold occ. by rewrite List.filter_app, length_app. Qed.

Lemma occ_cons s x l : occ s (x :: l) = (if Nat.eqb s x then 1 else 0) + occ s l.
Proof. unfold occ. simpl. by destruct (s =? x). Qed.

Lemma occ_perm s l1 l2 : l1 ≡ₚ l2 → occ s l1 = occ s l2.
Proof.
  induction 1 as [|x l1 l2 _ IH|x y l|l1 l2 l3 _ IH1 _ IH2];
    rewrite ?occ_cons; lia.
Qed.

Lemma occ_keep_drop sl l s :
  occ s l = occ s (cleanup_keep sl l) + occ s (cleanup_drop sl l).
Proof.
  unfold cleanup_keep, cleanup_drop. induction l as [|x l IH]; [done|].
  simpl. destruct (slot_pending sl x); simpl; rewrite !occ_cons; lia.
Qed.

Lemma occ_elem s l : s ∈ l → 1 ≤ occ s l.
Proof.
  induction 1 as [x l|x y l _ IH]; rewrite occ_cons.
  - rewrite Nat.eqb_refl. lia.
  - lia.
Qed.

Lemma uc_alter (g : slot → slot) x sl s :
  (∀ r, use_count (g r) = use_count r) → uc (alter g x sl) s = uc sl s.
Proof.
  intros Hg. unfold uc. destruct (decide (s = x)) as [->|Hne].
  - rewrite list_lookup_alter_eq. destruct (sl !! x); simpl; [apply Hg|done].
  - by rewrite list_lookup_alter_ne.
Qed.

Lemma uc_release_all l sl s : uc (release_all l sl) s = uc sl s - occ s l.
Proof.
  induction l as [|x l IH]; simpl; [unfold occ; simpl; lia|].
  rewrite occ_cons. destruct (Nat.eqb_spec s x) as [->|Hne].
  - unfold uc in *. rewrite list_lookup_alter_eq.
    destruct (release_all l sl !! x) as [r|]; simpl; lia.
  - unfold uc in *. rewrite list_lookup_alter_ne by done. rewrite IH. lia.
Qed.

Lemma acquire_all_is_Some l sl s :
  is_Some (acquire_all l sl !! s) ↔ is_Some (sl !! s).
Proof.
  rewrite !lookup_lt_is_Some. induction l as [|x l IH]; [done|].
  simpl. by rewrite length_alter.
Qed.

Lemma uc_acquire_all l sl s :
  (sl !! s = None → occ s l = 0) →
  uc (acquire_all l sl) s = uc sl s + occ s l.
Proof.
  intros Hv. destruct (sl !! s) as [r0|] eqn:Hs.
  - clear Hv. induction l as [|x l IH]; simpl; [unfold occ; simpl; lia|].
    rewrite occ_cons. destruct (Nat.eqb_spec s x) as [->|Hne].
    + unfold uc in *. rewrite list_lookup_alter_eq.
      destruct (acquire_all_is_Some l sl x) as [_ [r Hr]]; [by rewrite Hs|].
      rewrite Hr in IH |- *. simpl. lia.
    + unfold uc in *. rewrite list_lookup_alter_ne by done. rewrite IH. lia.
  - rewrite (Hv eq_refl). unfold uc. rewrite Hs.
    destruct (acquire_all l sl !! s) as [r|] eqn:Hr; [|done].
    assert (is_Some (sl !! s)) as [? ?] by (apply (acquire_all_is_Some l); eauto).
    congruence.
Qed.

Lemma uc_mark_all l w s : uc (slots (mark_all l w)) s = uc (slots w) s.
Proof.
  revert w. induction l as [|x l IH]; intros w; [done|]. simpl.
  rewrite IH. simpl. by rewrite uc_alter.
Qed.

Lemma uc_mark_tracking t l w s :
  uc (slots (mark_tracking t l w)) s = uc (slots w) s.
Proof.
  revert w. induction l as [|x l IH]; intros w; [done|]. simpl.
  rewrite IH. destruct (tracks w x t); [|done]. simpl. by rewrite uc_alter.
Qed.

Lemma sum_list_insert {A} (g : A → nat) l i x y :
  l !! i = Some x →
  sum_list (map g (<[i := y]> l)) + g x = sum_list (map g l) + g y.
Proof.
  revert i. induction l as [|z l IH]; intros i Hi; [done|].
  destruct i as [|i]; simpl in *.
  - simplify_eq. lia.
  - specialize (IH i Hi). lia.
Qed.

Lemma sum_list_lookup_le {A} (g : A → nat) l i x :
  l !! i = Some x → g x ≤ sum_list (map g l).
Proof.
  revert i. induction l as [|z l IH]; intros i Hi; [done|].
  destruct i as [|i]; simpl in *.
  - simplify_eq. lia.
  - specialize (IH i Hi). lia.
Qed.

Lemma refs_lists_ext w w' s : impls w' = impls w → refs_lists w' s = refs_lists w s.
Proof. unfold refs_lists. by intros ->. Qed.

Lemma get_impl_lookup w i im : get_impl w i = Some im → impls w !! i = Some (Some im).
Proof.
  unfold get_impl. destruct (impls w !! i) as [[x|]|]; by intros; simplify_eq.
Qed.

Lemma refs_lists_ge w i im s :
  get_impl w i = Some im → occ s (slots_ im) ≤ refs_lists w s.
Proof.
  intros Hi. apply get_impl_lookup in Hi. unfold refs_lists.
  by apply (sum_list_lookup_le
    (λ oi, match oi with Some im => occ s (slots_ im) | None => 0 end) _ i (Some im)).
Qed.

Lemma refs_lists_put w w' i im im' s :
  get_impl w i = Some im → impls w' = <[i := Some im']> (impls w) →
  refs_lists w' s + occ s (slots_ im) = refs_lists w s + occ s (slots_ im').
Proof.
  intros Hi Hw'. apply get_impl_lookup in Hi. unfold refs_lists. rewrite Hw'.
  by apply (sum_list_insert
    (λ oi, match oi with Some im => occ s (slots_ im) | None => 0 end)
    _ i (Some im) (Some im')).
Qed.

Lemma rc_step_refl w : rc_step (λ _, 0) w w.
Proof. intros s. lia. Qed.

Lemma rc_step_trans held w1 w2 w3 :
  rc_step (λ _, 0) w1 w2 → rc_step held w2 w3 → rc_step held w1 w3.
Proof.
  intros H1 H2 s. specialize (H1 s). specialize (H2 s). cbn beta in *. lia.
Qed.

Lemma rc_step_ext w w' :
  impls w' = impls w → (∀ s, uc (slots w') s = uc (slots w) s) →
  rc_step (λ _, 0) w w'.
Proof. intros Hi Hu s. rewrite Hu, (refs_lists_ext w w') by done. lia. Qed.

Lemma rc_step_frame held w w1 w2 :
  rc_step held w w1 → impls w2 = impls w1 → slots w2 = slots w1 →
  rc_step held w w2.
Proof. intros H Hi Hs s. rewrite Hs, (refs_lists_ext w1 w2) by done. apply H. Qed.

(** An operation that rewrites the shared state [i]. *)
Lemma rc_step_put held w w' i im im' :
  get_impl w i = Some im → impls w' = <[i := Some im']> (impls w) →
  (∀ s, uc (slots w') s + occ s (slots_ im)
        = uc (slots w) s + occ s (slots_ im') + held s) →
  rc_step held w w'.
Proof.
  intros Hi Hw' Hb s.
  pose proof (refs_lists_put w w' i im im' s Hi Hw').
  pose proof (refs_lists_ge w i im s Hi). specialize (Hb s). lia.
Qed.

Lemma uc_app_new sl r s :
  uc (sl ++ [r]) s = uc sl s + (if Nat.eqb s (length sl) then use_count r else 0).
Proof.
  unfold uc. destruct (Nat.eqb_spec s (length sl)) as [->|Hne].
  - rewrite lookup_app_r, Nat.sub_diag by done. simpl.
    by rewrite (lookup_ge_None_2 sl (length sl)).
  - destruct (decide (s < length sl)).
    + rewrite lookup_app_l by done. lia.
    + rewrite !lookup_ge_None_2; [lia | lia |].
      rewrite length_app. simpl. lia.
Qed.

Lemma connect_impl_rc this f p ss t w :
  rc_step (λ _, 0) w (snd (connect_impl this f p ss t w)).
Proof.
  unfold connect_impl. open_impl this w i im Hi ltac:(apply rc_step_refl).
  cbn [snd]. eapply (rc_step_put _ _ _ i im); [done | done |].
  intros s. simpl. rewrite uc_app_new, occ_app, occ_cons. simpl.
  unfold occ at 3. simpl. lia.
Qed.

Lemma get_or_create_tag_rc i name w :
  rc_step (λ _, 0) w (snd (get_or_create_tag i name w)).
Proof.
  unfold get_or_create_tag.
  destruct (get_impl w i) as [im|] eqn:Hi; [|apply rc_step_refl].
  destruct (List.find _ _); [apply rc_step_refl|].
  cbn [snd]. eapply (rc_step_put _ _ _ i im); [done | done |].
  intros s. simpl. lia.
Qed.

Lemma connect_tag_rc this tag body p w :
  rc_step (λ _, 0) w (snd (connect_tag this tag body p w)).
Proof.
  unfold connect_tag. destruct (impl_ this) as [i|]; [|apply rc_step_refl].
  pose proof (get_or_create_tag_rc i tag w) as H.
  destruct (get_or_create_tag i tag w) as [tp w1]. simpl in H.
  eapply rc_step_trans; [exact H | apply connect_impl_rc].
Qed.

Lemma disconnect_tag_rc this tag w :
  rc_step (λ _, 0) w (snd (disconnect_tag this tag w)).
Proof.
  unfold disconnect_tag. open_impl this w i im Hi ltac:(apply rc_step_refl).
  destruct (List.find _ _) as [t|]; [|apply rc_step_refl].
  cbn [snd]. destruct (mark_tracking_frame (fst t) (slots_ im) w) as (Hmi & _).
  eapply (rc_step_put _ _ _ i im); [done | simpl; by rewrite Hmi |].
  intros s. simpl. rewrite uc_mark_tracking. lia.
Qed.

Lemma disconnect_all_rc this w :
  (∀ s, refs_lists w s ≤ uc (slots w) s) →
  rc_step (λ _, 0) w (disconnect_all this w).
Proof.
  intros Hge. unfold disconnect_all.
  open_impl this w i im Hi ltac:(apply rc_step_refl).
  destruct (mark_all_frame (slots_ im) w) as (Hmi & _).
  eapply (rc_step_put _ _ _ i im); [done | simpl; by rewrite Hmi |].
  intros s. simpl. rewrite uc_release_all, uc_mark_all.
  pose proof (refs_lists_ge w i im s Hi). specialize (Hge s).
  unfold occ at 3. simpl. lia.
Qed.

Lemma conn_disconnect_rc c w : rc_step (λ _, 0) w (conn_disconnect c w).
Proof.
  unfold conn_disconnect.
  destruct (impl_lock w c) as [i|]; [|apply rc_step_refl].
  destruct (slot_lock w c) as [s|]; [|apply rc_step_refl].
  unfold disconnect_slot.
  destruct (get_impl w i) as [im|] eqn:Hi; [|apply rc_step_refl].
  eapply (rc_step_put _ _ _ i im); [done | done |].
  intros x. simpl. rewrite uc_alter by done. lia.
Qed.

Lemma conn_block_rc c b w : rc_step (λ _, 0) w (conn_block c b w).
Proof.
  unfold conn_block. destruct (slot_lock w c) as [s|]; [|apply rc_step_refl].
  apply rc_step_ext; [done|]. intros x. simpl. by rewrite uc_alter.
Qed.

Lemma emit_begin_rc this w :
  (∀ s, refs_lists w s ≤ uc (slots w) s) →
  rc_step (λ s, match fst (emit_begin this w) with
                | Some l => occ s l
                | None => 0
                end) w (snd (emit_begin this w)).
Proof.
  intros Hge. unfold emit_begin.
  open_impl this w i im Hi ltac:(apply rc_step_refl).
  destruct (slots_ im) as [|s0 l0] eqn:Hl; [apply rc_step_refl|].
  rewrite <- Hl. clear Hl s0 l0.
  assert (Hval : ∀ s, slots w !! s = None → occ s (slots_ im) = 0).
  { intros s Hs. pose proof (refs_lists_ge w i im s Hi). specialize (Hge s).
    unfold uc in Hge. rewrite Hs in Hge. lia. }
  destruct (dirty_ im) eqn:Hd; cbn [fst snd].
  - eapply (rc_step_put _ _ _ i im); [done | done |].
    intros s. simpl.
    pose proof (occ_keep_drop (slots w) (slots_ im) s) as Hkd.
    pose proof (occ_perm s _ _ (stable_sort_perm (slot_priority (slots w))
                                  (cleanup_keep (slots w) (slots_ im)))) as Hp.
    rewrite uc_acquire_all, uc_release_all.
    + pose proof (refs_lists_ge w i im s Hi). specialize (Hge s). lia.
    + intros Hs. rewrite Hp.
      assert (slots w !! s = None) as Hn.
      { apply lookup_ge_None. apply lookup_ge_None in Hs.
        pose proof (heap_le_length _ _ (heap_le_release_all
          (cleanup_drop (slots w) (slots_ im)) (slots w))).
        assert (length (release_all (cleanup_drop (slots w) (slots_ im)) (slots w))
                = length (slots w)) as <-; [|done].
        clear. induction (cleanup_drop _ _) as [|x l IH]; [done|].
        simpl. by rewrite length_alter. }
      specialize (Hval s Hn). lia.
  - eapply (rc_step_put _ _ _ i im); [done | done |].
    intros s. simpl. rewrite uc_acquire_all by apply Hval. lia.
Qed.

Lemma emit_visit_rc sp need w : rc_step (λ _, 0) w (emit_visit sp need w).1.1.
Proof.
  unfold emit_visit. destruct (slots w !! sp) as [r|] eqn:Hr; [|apply rc_step_refl].
  destruct (has_tracked_object r && expired (objs w) (tracked r)).
  { apply rc_step_ext; [done|]. intros s. simpl. by rewrite uc_alter. }
  destruct (negb (is_callable (objs w) r)); [apply rc_step_refl|].
  destruct (try_acquire_execution r) as [won r1] eqn:Hacq.
  destruct (negb won); [apply rc_step_refl|].
  assert (Hr1 : use_count r1 = use_count r).
  { unfold try_acquire_execution in Hacq.
    destruct (negb (single_shot r)); [by simplify_eq|].
    destruct (executed r); by simplify_eq. }
  assert (Hins : ∀ s, uc (<[sp := r1]> (slots w)) s = uc (slots w) s).
  { intros s. unfold uc. destruct (decide (s = sp)) as [->|Hne].
    - rewrite list_lookup_insert_eq by (by eapply lookup_lt_Some).
      by rewrite Hr.
    - by rewrite list_lookup_insert_ne. }
  destruct (single_shot r); (apply rc_step_ext; [done|]); intros s; simpl;
    [by rewrite uc_alter|done].
Qed.

Lemma emit_end_rc this local_slots need w s :
  occ s local_slots ≤ uc (slots w) s →
  uc (slots (emit_end this local_slots need w)) s + occ s local_slots
    = uc (slots w) s ∧
  refs_lists (emit_end this local_slots need w) s = refs_lists w s.
Proof.
  intros Hle. unfold emit_end.
  set (w1 := if need then _ else w).
  assert (Hs : slots w1 = slots w).
  { unfold w1. destruct need; [|done]. destruct (impl_ this) as [i|]; [|done].
    by destruct (get_impl w i). }
  assert (Hr : refs_lists w1 s = refs_lists w s).
  { unfold w1. destruct need; [|done]. destruct (impl_ this) as [i|]; [|done].
    destruct (get_impl w i) as [im|] eqn:Hi; [|done].
    pose proof (refs_lists_put w (put_impl i (set_dirty true im) w) i im
                  (set_dirty true im) s Hi eq_refl) as H.
    simpl in H. lia. }
  simpl. rewrite uc_release_all, Hs. split; [lia|].
  by rewrite (refs_lists_ext w1) by done.
Qed.

Lemma exec_action_rc a w m w1 fo :
  (∀ s, refs_lists w s ≤ uc (slots w) s) →
  exec_action a w = (m, w1, fo) →
  rc_step (λ s, match fo with Some f => occ s (fl_local f) | None => 0 end)
    w w1.
Proof.
  intros Hge He. destruct a; simpl in He; simplify_eq.
  - apply rc_step_refl.
  - by apply rc_step_ext.
  - eapply rc_step_frame; [apply connect_impl_rc | done | done].
  - eapply rc_step_frame; [apply connect_impl_rc | done | done].
  - unfold connect_shared. destruct (owner_ptr w obj).
    + eapply rc_step_frame; [apply connect_impl_rc | done | done].
    + by apply rc_step_ext.
  - unfold connect_raw. destruct null.
    + by apply rc_step_ext.
    + eapply rc_step_frame; [apply connect_impl_rc | done | done].
  - eapply rc_step_frame; [apply connect_tag_rc | done | done].
  - apply disconnect_tag_rc.
  - pose proof (emit_begin_rc (sig_var w sig) w Hge) as Hs.
    destruct (emit_begin (sig_var w sig) w) as [[l|] w2]; simplify_eq;
      simpl in *; [|done].
    eapply rc_step_frame; [exact Hs | done | done].
  - by apply disconnect_all_rc.
  - apply conn_disconnect_rc.
  - apply conn_block_rc.
  - by apply rc_step_ext.
Qed.

Lemma sum_list_map_app {A} (g : A → nat) l1 l2 :
  sum_list (map g (l1 ++ l2)) = sum_list (map g l1) + sum_list (map g l2).
Proof. induction l1 as [|x l1 IH]; simpl; lia. Qed.

Lemma impl_release_rc this w s :
  (∀ i im, impl_ this = Some i → get_impl w i = Some im → slots_ im = []) →
  refs_lists (impl_release this w) s = refs_lists w s.
Proof.
  intros Hempty. unfold impl_release.
  destruct (impl_ this) as [i|] eqn:Hi; [|done].
  unfold refs_lists. cbn [impls set_impls].
  destruct (impls w !! i) as [oi|] eqn:Hl.
  - pose proof (sum_list_insert
      (λ oi, match oi with Some im => occ s (slots_ im) | None => 0 end)
      (impls w) i oi None Hl) as H.
    destruct oi as [im|]; cbn beta iota in H;
      [|rewrite !Nat.add_0_r in H; exact H].
    assert (slots_ im = []) as Hn.
    { apply (Hempty i im eq_refl). unfold get_impl. by rewrite Hl. }
    rewrite Hn in H. change (occ s []) with 0 in H.
    rewrite !Nat.add_0_r in H. exact H.
  - rewrite list_insert_ge; [done|]. by apply lookup_ge_None.
Qed.

Lemma exec_command_rc cmd w w1 k :
  (∀ s, refs_lists w s ≤ uc (slots w) s) →
  exec_command cmd w = (w1, k) → rc_step (λ _, 0) w w1.
Proof.
  intros Hge. destruct cmd; simpl; intros H; simplify_eq.
  - apply rc_step_refl.
  - intros s. unfold refs_lists. simpl. rewrite sum_list_map_app. simpl.
    unfold occ. simpl. lia.
  - by apply rc_step_ext.
  - unfold move_assign. destruct (dst =? src); [apply rc_step_refl|].
    pose proof (disconnect_all_rc (sig_var w dst) w Hge) as H1.
    intros s. specialize (H1 s).
    assert (Hu : uc (slots (impl_release (sig_var w dst)
                              (disconnect_all (sig_var w dst) w))) s
                 = uc (slots (disconnect_all (sig_var w dst) w)) s).
    { unfold impl_release. by destruct (impl_ _). }
    assert (Hr : refs_lists (impl_release (sig_var w dst)
                               (disconnect_all (sig_var w dst) w)) s
                 = refs_lists (disconnect_all (sig_var w dst) w) s).
    { apply impl_release_rc. intros i im Hi Him.
      destruct (get_impl w i) as [im0|] eqn:Him0.
      - destruct (disconnect_all_effect _ w i im0 Hi Him0) as (Hget & _).
        rewrite Hget in Him. by simplify_eq.
      - unfold disconnect_all in Him. rewrite Hi, Him0 in Him. congruence. }
    simpl. unfold refs_lists in *. simpl in *. lia.
  - by apply rc_step_ext.
  - destruct (owner_ptr w o); simplify_eq; [|apply rc_step_refl].
    by apply rc_step_ext.
Qed.

Lemma counted_ge c s :
  counted c → refs_lists (cf_world c) s ≤ uc (slots (cf_world c)) s.
Proof. intros H. rewrite (H s). lia. Qed.

Lemma counted_step c : counted c → counted (step c).
Proof.
  intros Hc. pose proof (λ s, counted_ge c s Hc) as Hge.
  destruct c as [m w k p]. cbn [cf_world] in Hge.
  destruct k as [|[body|f] k].
  - unfold step; simpl. destruct m; [|done].
    destruct p as [|cmd p]; [done|].
    destruct (exec_command cmd w) as [w1 k1] eqn:He.
    pose proof (exec_command_rc _ _ _ _ Hge He) as Hs.
    apply exec_command_spec in He as (_ & _ & _ & Hk).
    intros s. specialize (Hs s). specialize (Hc s).
    cbn [cf_world cf_stack refs_frames] in *. cbn beta in Hs.
    destruct Hk as [->|[a ->]]; cbn [refs_frames]; lia.
  - unfold step; simpl. destruct m; [|done].
    destruct body as [|a rest]; [done|].
    destruct (exec_action a w) as [[m1 w1] fo] eqn:He.
    pose proof (exec_action_rc _ _ _ _ _ Hge He) as Hs.
    pose proof (exec_action_spec _ _ _ _ _ He) as (_ & _ & _ & Hfo).
    intros s. specialize (Hs s). specialize (Hc s).
    cbn [cf_world cf_stack refs_frames] in *. cbn beta in Hs.
    destruct fo as [f|].
    + destruct Hfo as (-> & _). cbn [cf_world cf_stack refs_frames]. lia.
    + destruct m1; cbn [cf_world cf_stack refs_frames]; lia.
  - destruct m; [|unfold step; simpl; done].
    destruct (fl_rest f) as [|sp rest] eqn:Hrest.
    + assert (Hstep : step (mk_config Running w (FLoop f :: k) p)
                = mk_config Running
                    (emit_end (sig_var w (fl_sig f)) (fl_local f) (fl_need f) w)
                    k p).
      { unfold step. simpl. by rewrite Hrest. }
      rewrite Hstep. intros s. specialize (Hc s).
      cbn [cf_world cf_stack refs_frames] in *.
      destruct (emit_end_rc (sig_var w (fl_sig f)) (fl_local f) (fl_need f) w s)
        as [H1 H2]; [lia|]. lia.
    + pose proof (emit_visit_rc sp (fl_need f) w) as Hs.
      destruct (emit_visit sp (fl_need f) w) as [[w1 need] callee] eqn:Hvis.
      cbn [fst] in Hs.
      destruct callee as [fn|].
      * assert (Hstep : step (mk_config Running w (FLoop f :: k) p)
                  = mk_config Running (add_event (Invoked (fl_id f) sp) w1)
                      (FBody (call_function fn w1)
                       :: FLoop (mk_loop (fl_id f) (fl_sig f) (fl_local f) rest need)
                       :: k) p).
        { unfold step. simpl. by rewrite Hrest, Hvis. }
        rewrite Hstep. intros s. specialize (Hc s). specialize (Hs s).
        cbn [cf_world cf_stack refs_frames fl_local] in *. cbn beta in Hs.
        change (uc (slots (add_event (Invoked (fl_id f) sp) w1)) s)
          with (uc (slots w1) s).
        change (refs_lists (add_event (Invoked (fl_id f) sp) w1) s)
          with (refs_lists w1 s).
        lia.
      * assert (Hstep : step (mk_config Running w (FLoop f :: k) p)
                  = mk_config Running w1
                      (FLoop (mk_loop (fl_id f) (fl_sig f) (fl_local f) rest need)
                       :: k) p).
        { unfold step. simpl. by rewrite Hrest, Hvis. }
        rewrite Hstep. intros s. specialize (Hc s). specialize (Hs s).
        cbn [cf_world cf_stack refs_frames fl_local] in *. cbn beta in Hs.
        lia.
Qed.

Lemma counted_reachable prog n : counted (run n (init prog)).
Proof.
  induction n as [|n IH]; [by intros s|].
  rewrite run_S. by apply counted_step.
Qed.

(** X22 ([shared_ptr<slot>], [connection_t::is_connected]). In every
    reachable state the use count of a slot record is the number of
    strong references to it: one for each slot list that holds it
    and one for each emission in progress whose snapshot holds it.
    The handles hold none, and yet a handle variable reports
    [is_connected()] exactly when its slot is not pending removal,
    which is exactly when the slot is on the slot list of its signal
    and not pending removal; and once no list and no emission holds
    the record, [slot_.lock()] fails. *)
Theorem connected_iff_listed prog n h s :
  let c := run n (init prog) in
  let w := cf_world c in
  let hd := conn_var w h in
  conn_slot_ hd = Some s →
  (∀ x, uc (slots w) x = refs_lists w x + refs_frames (cf_stack c) x) ∧
  is_connected hd w = negb (slot_pending (slots w) s) ∧
  (is_connected hd w = true ↔
   ∃ i im, conn_impl_ hd = Some i ∧ get_impl w i = Some im ∧
     s ∈ slots_ im ∧ slot_pending (slots w) s = false) ∧
  (refs_lists w s + refs_frames (cf_stack c) s = 0 → slot_lock w hd = None).
Proof.
  intros c w hd Hs.
  pose proof (counted_reachable prog n) as Hc. fold c in Hc.
  assert (Hok : handle_ok w hd).
  { unfold hd, conn_var. destruct (conns w !! h) as [c0|] eqn:Hh;
      [|apply handle_ok_default].
    by eapply (handles_ok_reachable prog n). }
  destruct (Hok s Hs) as (Hlt & i & Hi & Hor).
  destruct (lookup_lt_is_Some_2 _ _ Hlt) as [r Hr].
  assert (Huc : uc (slots w) s = use_count r) by (unfold uc; by rewrite Hr).
  assert (Hlock : slot_lock w hd = if 0 <? use_count r then Some s else None).
  { unfold slot_lock. by rewrite Hs, Hr. }
  assert (Hlisted : ∀ im, get_impl w i = Some im → s ∈ slots_ im →
            0 < use_count r).
  { intros im Him Hin. pose proof (Hc s) as Hcs. fold w in Hcs.
    pose proof (refs_lists_ge w i im s Him). pose proof (occ_elem s _ Hin).
    lia. }
  assert (Hcon : is_connected hd w = negb (slot_pending (slots w) s)).
  { unfold is_connected. rewrite Hlock.
    destruct (slot_pending (slots w) s) eqn:Hp.
    - destruct (0 <? use_count r); [by rewrite Hp | done].
    - destruct Hor as [?|(im & Him & Hin)]; [congruence|].
      apply (Hlisted im Him), Nat.ltb_lt in Hin as ->. by rewrite Hp. }
  split_and!.
  - exact Hc.
  - exact Hcon.
  - rewrite Hcon, negb_true_iff. split.
    + intros Hp. destruct Hor as [?|(im & Him & Hin)]; [congruence|].
      exists i, im. done.
    + by intros (_ & _ & _ & _ & _ & Hp).
  - intros H0. rewrite Hlock. specialize (Hc s). fold w in Hc.
    rewrite Huc in Hc.
    destruct (Nat.ltb_spec 0 (use_count r)); [lia | done].
Qed.

Lemma connected_iff_listed_witness :
  let c := run 20 (init once_demo) in
  let w := cf_world c in
  conn_slot_ (conn_var w 0) = Some 0 ∧
  uc (slots w) 0 = 0 ∧
  slot_lock w (conn_var w 0) = None ∧
  is_connected (conn_var w 0) w = false.
Proof.
  intros c w.
  assert (Hs : conn_slot_ (conn_var w 0) = Some 0) by (vm_compute; reflexivity).
  destruct (connected_iff_listed once_demo 20 0 0 Hs) as (H1 & H2 & _ & H4).
  split; [exact Hs|]. split; [vm_compute; reflexivity|].
  split; [apply H4; vm_compute; reflexivity|].
  fold c w in H2. rewrite H2. vm_compute. reflexivity.
Defined.

(** ** What an emission runs *)

Lemma recorded_app l1 l2 : recorded (l1 ++ l2) = recorded l1 ++ recorded l2.
Proof. unfold recorded. apply omap_app. Qed.

Lemma recorded_map_Recorded l : recorded (map Recorded l) = l.
Proof. induction l as [|x l IH]; [done|]. simpl. by rewrite IH. Qed.

Lemma invoked_in_map_Recorded em l : invoked_in em (map Recorded l) = [].
Proof. by induction l as [|x l IH]. Qed.

(** A passive callback runs to its end or to its first throw, and
    only adds its records to the trace. *)
Lemma passive_body_runs b w k p :
  forallb passive b = true →
  ∃ n md w', run n (mk_config Running w (FBody b :: k) p)
             = mk_config md w' k p ∧
    slots w' = slots w ∧ objs w' = objs w ∧
    log w' = log w ++ map Recorded (records_until_throw b).
Proof.
  revert w. induction b as [|a b IH]; intros w Hb.
  - exists 1, Running, w. split_and!; try done. simpl. by rewrite app_nil_r.
  - simpl in Hb. apply andb_true_iff in Hb as [Ha Hb].
    destruct a; try done.
    + exists 1, Unwinding, w. split_and!; try done. simpl. by rewrite app_nil_r.
    + destruct (IH (add_event (Recorded n) w) Hb)
        as (m & md & w' & Hrun & Hs & Ho & Hl).
      exists (S m), md, w'. split_and!; try done.
      * by rewrite run_step.
      * rewrite Hl. simpl. by rewrite <- app_assoc.
Qed.

Lemma funcs_insert sl s r r1 :
  sl !! s = Some r → func r1 = func r → map func (<[s := r1]> sl) = map func sl.
Proof.
  intros Hr Hf. apply list_eq. intros j. rewrite !list_lookup_fmap.
  destruct (decide (j = s)) as [->|Hne].
  - rewrite list_lookup_insert_eq by (by eapply lookup_lt_Some).
    rewrite Hr. simpl. by rewrite Hf.
  - by rewrite list_lookup_insert_ne.
Qed.

(** What a visit decides. *)
Lemma emit_visit_ready sp need w :
  let '(w1, need1, callee) := emit_visit sp need w in
  objs w1 = objs w ∧ log w1 = log w ∧
  map func (slots w1) = map func (slots w) ∧
  (∀ s, s ≠ sp → slots w1 !! s = slots w !! s) ∧
  match callee with
  | Some fn => ready w sp = true ∧
      effect w sp = records_until_throw (call_function fn w1)
  | None => ready w sp = false
  end.
Proof.
  unfold emit_visit, ready, effect.
  destruct (slots w !! sp) as [r|] eqn:Hr; [|done].
  unfold is_callable.
  destruct (has_tracked_object r && expired (objs w) (tracked r)) eqn:He.
  { cbv beta iota zeta. split_and!; try done.
    - simpl. by rewrite funcs_alter.
    - intros s Hs. simpl. by rewrite list_lookup_alter_ne.
    - destruct (blocked r), (pending_removal r); done. }
  destruct (blocked r); [done|]. destruct (pending_removal r); [done|].
  simpl. unfold try_acquire_execution.
  destruct (single_shot r) eqn:Hss; simpl.
  - destruct (executed r) eqn:Hex; simpl; [done|].
    split_and!; try done.
    + rewrite funcs_alter by done. by apply (funcs_insert _ _ r).
    + intros s Hs. simpl. rewrite list_lookup_alter_ne by done.
      by rewrite list_lookup_insert_ne.
  - split_and!; try done.
    + by apply (funcs_insert _ _ r).
    + intros s Hs. simpl. by rewrite list_lookup_insert_ne.
Qed.

Lemma heap_passive_lookup sl s r :
  heap_passive sl → sl !! s = Some r → forallb passive (fn_body (func r)) = true.
Proof.
  intros H Hr. unfold heap_passive in H. rewrite Forall_forall in H.
  apply H. apply list_elem_of_fmap. exists r. split; [done|].
  by eapply list_elem_of_lookup_2.
Qed.

Lemma call_function_passive fn w :
  forallb passive (fn_body fn) = true →
  forallb passive (call_function fn w) = true.
Proof.
  intros H. unfold call_function. destruct (fn_owner fn); [|done].
  by destruct (expired _ _).
Qed.

Lemma ready_ext w w' s :
  objs w' = objs w → slots w' !! s = slots w !! s → ready w' s = ready w s.
Proof. unfold ready. by intros -> ->. Qed.

Lemma effect_ext w w' s :
  objs w' = objs w → slots w' !! s = slots w !! s → effect w' s = effect w s.
Proof. unfold effect, call_function. by intros -> ->. Qed.

Lemma passive_loop rest : ∀ id sig local need w base p,
  heap_passive (slots w) → NoDup rest →
  ∃ n w', run n (mk_config Running w
                   (FLoop (mk_loop id sig local rest need) :: base) p)
          = mk_config Running w' base p ∧
    invoked_in id (log w') = invoked_in id (log w) ++ List.filter (ready w) rest ∧
    recorded (log w')
    = recorded (log w)
      ++ concat (map (effect w) (List.filter (ready w) rest)).
Proof.
  induction rest as [|sp rest IH]; intros id sig local need w base p Hw Hnd.
  - exists 1, (emit_end (sig_var w sig) local need w).
    destruct (emit_end_quiet (sig_var w sig) local need w) as [Hl _].
    rewrite Hl. split_and!; [done | |]; cbn [List.filter map concat];
      by rewrite app_nil_r.
  - apply NoDup_cons in Hnd as [Hsp Hnd].
    pose proof (emit_visit_ready sp need w) as Hv.
    destruct (emit_visit sp need w) as [[w1 need1] callee] eqn:Hvis.
    destruct Hv as (Ho & Hl & Hf & Hother & Hcallee).
    assert (Hw1 : heap_passive (slots w1)) by (unfold heap_passive; by rewrite Hf).
    assert (Hrest : ∀ w2, objs w2 = objs w1 → slots w2 = slots w1 →
              List.filter (ready w2) rest = List.filter (ready w) rest ∧
              map (effect w2) (List.filter (ready w) rest)
              = map (effect w) (List.filter (ready w) rest)).
    { intros w2 Ho2 Hs2. split.
      - apply filter_ext_in. intros s Hs. apply list_elem_of_In in Hs.
        apply ready_ext; [congruence|]. rewrite Hs2. apply Hother.
        by intros ->.
      - apply map_ext_in. intros s Hs. apply filter_In in Hs as [Hs _].
        apply list_elem_of_In in Hs.
        apply effect_ext; [congruence|]. rewrite Hs2. apply Hother.
        by intros ->. }
    destruct callee as [fn|].
    + destruct Hcallee as [Hready Heff].
      assert (Hfn : forallb passive (call_function fn w1) = true).
      { apply call_function_passive.
        apply emit_visit_invoke in Hvis as (r & _ & Hr & -> & _).
        exact (heap_passive_lookup _ _ _ Hw Hr). }
      destruct (passive_body_runs (call_function fn w1)
                  (add_event (Invoked id sp) w1)
                  (FLoop (mk_loop id sig local rest need1) :: base) p Hfn)
        as (n1 & md & w2 & Hrun1 & Hs2 & Ho2 & Hl2).
      simpl in Hs2, Ho2, Hl2.
      destruct (IH id sig local need1 w2 base p) as (n2 & w3 & Hrun2 & Hi3 & Hr3);
        [unfold heap_passive; by rewrite Hs2 | done |].
      destruct (Hrest w2 Ho2 Hs2) as [Hfil Hmap].
      exists (n2 + (match md with Running => 0 | Unwinding => 1 end) + (n1 + 1)),
             w3.
      split_and!.
      * rewrite run_add, (run_add n1 1).
        assert (Hs : run 1 (mk_config Running w
                       (FLoop (mk_loop id sig local (sp :: rest) need) :: base) p)
                  = mk_config Running (add_event (Invoked id sp) w1)
                      (FBody (call_function fn w1)
                       :: FLoop (mk_loop id sig local rest need1) :: base) p).
        { unfold run. simpl. unfold step. simpl. by rewrite Hvis. }
        rewrite Hs, Hrun1. destruct md.
        -- by rewrite Nat.add_0_r.
        -- rewrite run_add. exact Hrun2.
      * rewrite Hi3, Hl2, Hl, Hfil. simpl. rewrite Hready.
        rewrite !invoked_in_app, invoked_in_map_Recorded. simpl.
        rewrite Nat.eqb_refl. by rewrite app_nil_r, <- app_assoc.
      * rewrite Hr3, Hl2, Hl, Hfil, Hmap. simpl. rewrite Hready. simpl.
        rewrite !recorded_app, recorded_map_Recorded. simpl.
        by rewrite Heff, <- !app_assoc.
    + destruct (IH id sig local need1 w1 base p Hw1 Hnd)
        as (n2 & w3 & Hrun2 & Hi3 & Hr3).
      destruct (Hrest w1 eq_refl eq_refl) as [Hfil Hmap].
      exists (n2 + 1), w3. split_and!.
      * rewrite run_add.
        assert (Hs : run 1 (mk_config Running w
                       (FLoop (mk_loop id sig local (sp :: rest) need) :: base) p)
                  = mk_config Running w1
                      (FLoop (mk_loop id sig local rest need1) :: base) p).
        { unfold run. simpl. unfold step. simpl. by rewrite Hvis. }
        by rewrite Hs.
      * rewrite Hi3, Hl, Hfil. simpl. by rewrite Hcallee.
      * rewrite Hr3, Hl, Hfil, Hmap. simpl. by rewrite Hcallee.
Qed.

Lemma flags_alter_use_count (g : nat → nat) (x : nat) (sl : list slot) (s : nat) :
  set_use_count (λ _, 0) <$> alter (set_use_count g) x sl !! s
  = set_use_count (λ _, 0) <$> sl !! s.
Proof.
  destruct (decide (s = x)) as [->|Hne].
  - rewrite list_lookup_alter_eq. by destruct (sl !! x).
  - by rewrite list_lookup_alter_ne.
Qed.

Lemma acquire_all_flags (l : list nat) (sl : list slot) (s : nat) :
  set_use_count (λ _, 0) <$> acquire_all l sl !! s
  = set_use_count (λ _, 0) <$> sl !! s.
Proof.
  induction l as [|x l IH]; [done|]. simpl.
  by rewrite flags_alter_use_count.
Qed.

Lemma release_all_flags (l : list nat) (sl : list slot) (s : nat) :
  set_use_count (λ _, 0) <$> release_all l sl !! s
  = set_use_count (λ _, 0) <$> sl !! s.
Proof.
  induction l as [|x l IH]; [done|]. simpl.
  by rewrite flags_alter_use_count.
Qed.

(** Two worlds whose records differ in their use counts only decide
    alike. *)
Lemma ready_effect_flags w w' s :
  objs w' = objs w →
  set_use_count (λ _, 0) <$> slots w' !! s
  = set_use_count (λ _, 0) <$> slots w !! s →
  ready w' s = ready w s ∧ effect w' s = effect w s.
Proof.
  intros Ho Hf. unfold ready, effect, is_callable, has_tracked_object,
    call_function. rewrite Ho.
  destruct (slots w' !! s) as [r'|], (slots w !! s) as [r|]; simpl in Hf;
    try done.
  destruct r, r'. simpl in *. by simplify_eq.
Qed.

Lemma emit_begin_flags this w s :
  objs (snd (emit_begin this w)) = objs w ∧
  set_use_count (λ _, 0) <$> slots (snd (emit_begin this w)) !! s
  = set_use_count (λ _, 0) <$> slots w !! s.
Proof.
  unfold emit_begin. open_impl this w i im Hi ltac:(done).
  destruct (slots_ im); [done|].
  destruct (dirty_ im); simpl; (split; [done|]); rewrite acquire_all_flags;
    [by rewrite release_all_flags | done].
Qed.

(** X23 ([operator()], the loop over [local_slots]). What an emission
    does. With callbacks that only record and throw, the loop over a
    snapshot without duplicates terminates, invokes exactly the slots
    of the snapshot that are ready (not blocked, not pending removal,
    owner alive, and not executed if single-shot), in the order of
    the snapshot, and adds to the trace what their callbacks record,
    each up to its first throw. So does an emission in any reachable
    state, for the snapshot it takes and the slots ready when it
    begins. *)
Theorem emission_runs_ready_slots :
  (∀ w f base p, heap_passive (slots w) → NoDup (fl_rest f) →
     ∃ n w', run n (mk_config Running w (FLoop f :: base) p)
             = mk_config Running w' base p ∧
       invoked_in (fl_id f) (log w')
       = invoked_in (fl_id f) (log w) ++ List.filter (ready w) (fl_rest f) ∧
       recorded (log w')
       = recorded (log w)
         ++ concat (map (effect w) (List.filter (ready w) (fl_rest f)))) ∧
  (∀ prog n v rest k local_slots w1,
     let c := run n (init prog) in
     let w := cf_world c in
     cf_mode c = Running → cf_stack c = FBody (AEmit v :: rest) :: k →
     heap_passive (slots w) →
     emit_begin (sig_var w v) w = (Some local_slots, w1) →
     ∃ m, cf_mode (run m c) = Running ∧ cf_stack (run m c) = FBody rest :: k ∧
       invoked_in (next_emission w) (log (cf_world (run m c)))
       = List.filter (ready w) local_slots ∧
       recorded (log (cf_world (run m c)))
       = recorded (log w)
         ++ concat (map (effect w) (List.filter (ready w) local_slots))).
Proof.
  split.
  - intros w [id sig local rest need] base p Hw Hnd.
    exact (passive_loop rest id sig local need w base p Hw Hnd).
  - intros prog n v rest k local_slots w1 c w Hm Hk Hw Hb.
    pose proof (Inv_reachable prog n) as HI. fold c in HI.
    assert (Hstep : step c = mk_config Running (bump_emission w1)
              (FLoop (mk_loop (next_emission w1) v local_slots local_slots false)
               :: FBody rest :: k) (cf_prog c)).
    { unfold step. fold w. rewrite Hk, Hm. simpl. by rewrite Hb. }
    pose proof (emit_begin_quiet (sig_var w v) w) as [Hl [Hn _]].
    pose proof (emit_begin_funcs (sig_var w v) w) as Hf.
    pose proof (λ s, emit_begin_flags (sig_var w v) w s) as Hfl.
    rewrite Hb in Hl, Hn, Hf, Hfl. simpl in Hl, Hn, Hf, Hfl.
    assert (Hnd : NoDup local_slots).
    { destruct (emit_begin_snapshot _ _ _ _ Hb) as (i & im1 & Hi & Him & <- & _).
      pose proof (emit_begin_evolves (sig_var w v) w) as Hev.
      rewrite Hb in Hev. simpl in Hev.
      eapply tie_sorted_NoDup, iok_tie.
      exact (ev_ok _ _ Hev (inv_impls _ HI) i im1 Him). }
    destruct (passive_loop local_slots (next_emission w1) v local_slots false
                (bump_emission w1) (FBody rest :: k) (cf_prog c))
      as (m & w' & Hrun & Hi' & Hr'); [unfold heap_passive; simpl; by rewrite Hf | done |].
    assert (Hfil : List.filter (ready (bump_emission w1)) local_slots
                   = List.filter (ready w) local_slots).
    { apply filter_ext. intros s.
      exact (proj1 (ready_effect_flags w (bump_emission w1) s
                      (proj1 (Hfl s)) (proj2 (Hfl s)))). }
    assert (Hmap : map (effect (bump_emission w1)) (List.filter (ready w) local_slots)
                   = map (effect w) (List.filter (ready w) local_slots)).
    { apply map_ext. intros s.
      exact (proj2 (ready_effect_flags w (bump_emission w1) s
                      (proj1 (Hfl s)) (proj2 (Hfl s)))). }
    exists (m + 1). rewrite run_add.
    assert (run 1 c = step c) as -> by done.
    rewrite Hstep, Hrun. cbn [cf_mode cf_stack cf_world].
    split_and!; [done | done | |].
    + rewrite Hn in Hi'. rewrite Hi'. simpl. rewrite Hl, Hfil.
      pose proof (inv_fresh _ HI (next_emission w) (le_n _)) as Hfr.
      fold w in Hfr. by rewrite Hfr.
    + rewrite Hr'. simpl. by rewrite Hl, Hfil, Hmap.
Qed.

Lemma emission_runs_ready_slots_witness :
  let c := run 11 (init throw_demo) in
  ∃ m, cf_stack (run m c) = [FBody []] ∧
    invoked_in 0 (log (cf_world (run m c))) = [0; 1; 2] ∧
    recorded (log (cf_world (run m c))) = [1; 1]%Z.
Proof.
  intros c.
  assert (Hm : cf_mode c = Running) by (vm_compute; reflexivity).
  assert (Hk : cf_stack c = [FBody [AEmit 0]]) by (vm_compute; reflexivity).
  assert (Hw : heap_passive (slots (cf_world c)))
    by (vm_compute; repeat constructor).
  assert (Hb : emit_begin (sig_var (cf_world c) 0) (cf_world c)
               = (Some [0; 1; 2],
                  snd (emit_begin (sig_var (cf_world c) 0) (cf_world c))))
    by (vm_compute; reflexivity).
  destruct (proj2 emission_runs_ready_slots throw_demo 11 0 [] [] [0; 1; 2] _
              Hm Hk Hw Hb) as (m & _ & Hs & Hi & Hr).
  exists m. split; [exact Hs|]. split.
  - exact (eq_trans Hi eq_refl).
  - exact (eq_trans Hr eq_refl).
Defined.

(** * Tags and moved signals in an execution *)

(** What [disconnect(tag)] marks, and what an emission on the
    destination of a move invokes, rest on the invariants of the tag
    registries, of ownership and of emissions proved above, and on
    one more: what the slot records track. *)

(** ** What a slot tracks, over an execution *)

Lemma settled_refl w : settled w w.
Proof. constructor; [done | done |]. intros j jm t Hj Ht. by exists jm. Qed.

Lemma settled_trans w1 w2 w3 : settled w1 w2 → settled w2 w3 → settled w1 w3.
Proof.
  intros [S1 O1 T1] [S2 O2 T2]. constructor; [congruence | lia |].
  intros j jm3 t Hj Ht. destruct (T2 j jm3 t Hj Ht) as (jm2 & Hj2 & Ht2).
  by apply (T1 j jm2 t).
Qed.

Lemma settled_kept w w' :
  tags_kept w w' → length (slots w') = length (slots w) → settled w w'.
Proof.
  intros [Ho Ht] Hl. constructor; [done | by rewrite Ho |].
  intros j jm' t Hj Hin. destruct (Ht j jm' Hj) as (jm & Hjm & Heq).
  exists jm. by rewrite <- Heq.
Qed.

Lemma settled_funcs w w' :
  tags_kept w w' → map func (slots w') = map func (slots w) → settled w w'.
Proof.
  intros Hk Hf. apply settled_kept; [done|].
  by rewrite <- (length_map func (slots w')), Hf, length_map.
Qed.

Lemma settled_frame w w1 w2 :
  settled w w1 → slots w2 = slots w1 → impls w2 = impls w1 →
  objs w2 = objs w1 → settled w w2.
Proof.
  intros [S O T] Hs Hi Ho. constructor; [congruence | by rewrite Ho |].
  intros j jm. rewrite (get_impl_ext w1 w2) by done. apply T.
Qed.

(** The invariant reads the slot records, the shared states and the
    number of objects only. *)
Lemma tracking_ok_shrink w w' :
  slots w' = slots w → length (objs w) ≤ length (objs w') →
  (∀ j jm, get_impl w' j = Some jm → get_impl w j = Some jm) →
  tracking_ok w → tracking_ok w'.
Proof.
  intros Hs Ho Hi [A B C]. constructor.
  - intros s r o. rewrite Hs. intros Hr Ht.
    pose proof (A s r o Hr Ht). lia.
  - intros s r o. rewrite Hs. apply B.
  - intros s r j jm t. rewrite Hs. intros Hr Hj. apply (C s r j jm t Hr).
    by apply Hi.
Qed.

Lemma tracking_ok_ext w w' :
  slots w' = slots w → impls w' = impls w → objs w' = objs w →
  tracking_ok w → tracking_ok w'.
Proof.
  intros Hs Hi Ho. apply tracking_ok_shrink; [done | by rewrite Ho |].
  intros j jm. by rewrite (get_impl_ext w w').
Qed.

Lemma tracking_ok_settled w w' :
  evolves w w' → settled w w' → tracking_ok w → tracking_ok w'.
Proof.
  intros Hev [Sl Ol Tl] [A B C].
  assert (Hback : ∀ s r', slots w' !! s = Some r' →
            ∃ r, slots w !! s = Some r ∧ slot_le r r').
  { intros s r' Hr'.
    assert (Hlt : s < length (slots w))
      by (rewrite <- Sl; by eapply lookup_lt_Some).
    apply lookup_lt_is_Some in Hlt as [r Hr]. exists r. split; [done|].
    destruct (ev_heap _ _ Hev s r Hr) as (r2 & Hr2 & Hle). by simplify_eq. }
  constructor.
  - intros s r' o Hr' Ht. destruct (Hback s r' Hr') as (r & Hr & Hle).
    rewrite (sle_tracked _ _ Hle) in Ht. pose proof (A s r o Hr Ht). lia.
  - intros s r' o Hr' Hf. destruct (Hback s r' Hr') as (r & Hr & Hle).
    rewrite (sle_func _ _ Hle) in Hf. rewrite (sle_tracked _ _ Hle).
    by apply (B s r o).
  - intros s r' j jm' t Hr' Hj Ht Htr Hp.
    destruct (Hback s r' Hr') as (r & Hr & Hle).
    destruct (Tl j jm' t Hj Ht) as (jm & Hjm & Htm).
    rewrite (sle_tracked _ _ Hle) in Htr.
    assert (Hp0 : pending_removal r = false).
    { destruct (pending_removal r) eqn:E; [|done].
      by rewrite (sle_pending _ _ Hle E) in Hp. }
    pose proof (C s r j jm t Hr Hjm Htm Htr Hp0) as Hin.
    destruct (ev_members _ _ Hev j jm Hjm) as (jm2 & Hj2 & Hmem).
    assert (jm2 = jm') as -> by congruence.
    destruct (Hmem s Hin) as [H|H]; [by eapply lookup_lt_Some | done |].
    unfold slot_pending in H. rewrite Hr' in H. congruence.
Qed.

Lemma conn_disconnect_settled c w : settled w (conn_disconnect c w).
Proof.
  apply settled_kept; [apply conn_disconnect_tags|].
  unfold conn_disconnect. destruct (impl_lock w c); [|done].
  destruct (slot_lock w c); [|done]. unfold disconnect_slot.
  destruct (get_impl w n); [|done]. simpl. apply length_alter.
Qed.

Lemma conn_block_settled c b w : settled w (conn_block c b w).
Proof.
  apply settled_kept; [apply conn_block_tags|].
  unfold conn_block. destruct (slot_lock w c); [|done]. simpl.
  apply length_alter.
Qed.

Lemma emit_begin_settled this w : settled w (snd (emit_begin this w)).
Proof. apply settled_funcs; [apply emit_begin_tags | apply emit_begin_funcs]. Qed.

Lemma emit_visit_settled sp need w : settled w (emit_visit sp need w).1.1.
Proof. apply settled_funcs; [apply emit_visit_tags | apply emit_visit_funcs]. Qed.

Lemma emit_end_settled this local_slots need w :
  settled w (emit_end this local_slots need w).
Proof. apply settled_funcs; [apply emit_end_tags | apply emit_end_funcs]. Qed.

Lemma elem_of_erase_tag name l t : t ∈ erase_tag name l → t ∈ l.
Proof.
  induction l as [|x l IH]; simpl; [done|].
  destruct (tag_named name x).
  - intros H. by right.
  - intros H. apply elem_of_cons in H as [->|H]; [by left | right; auto].
Qed.

Lemma length_foldr_obj_kill l os : length (foldr obj_kill os l) = length os.
Proof.
  induction l as [|x l IH]; simpl; [done|].
  unfold obj_kill at 1. by rewrite length_alter.
Qed.

Lemma disconnect_tag_settled this tag w :
  settled w (snd (disconnect_tag this tag w)).
Proof.
  unfold disconnect_tag. open_impl this w i im Hi ltac:(apply settled_refl).
  destruct (List.find (tag_named tag) (tags_ im)) as [t|] eqn:Hf;
    [|apply settled_refl].
  destruct (mark_tracking_frame (fst t) (slots_ im) w) as (Hmi & _ & _ & Hmo & _).
  constructor; simpl.
  - apply mark_tracking_length.
  - unfold obj_kill. by rewrite length_alter, Hmo.
  - intros j jm' t' Hj Ht'.
    rewrite (get_impl_ext (put_impl i (set_dirty true
               (set_tags (erase_tag tag (tags_ im)) im))
               (mark_tracking (fst t) (slots_ im) w))) in Hj by done.
    destruct (decide (j = i)) as [->|Hne].
    + erewrite get_put_impl_eq in Hj by (by rewrite (get_impl_ext w)).
      simplify_eq. exists im. split; [done|]. simpl in Ht'.
      by eapply elem_of_erase_tag.
    + rewrite get_put_impl_ne in Hj by done. exists jm'.
      split; [|done]. by rewrite <- (get_impl_ext w (mark_tracking (fst t) (slots_ im) w)).
Qed.

Lemma length_release_all l sl : length (release_all l sl) = length sl.
Proof.
  induction l as [|x l IH]; simpl; [done|]. by rewrite length_alter.
Qed.

Lemma disconnect_all_settled this w : settled w (disconnect_all this w).
Proof.
  unfold disconnect_all. open_impl this w i im Hi ltac:(apply settled_refl).
  destruct (mark_all_frame (slots_ im) w) as (Hmi & _ & _ & Hmo & _).
  constructor; simpl.
  - rewrite length_release_all.
    pose proof (funcs_mark_all (slots_ im) w) as Hf.
    by rewrite <- (length_map func (slots (mark_all _ w))), Hf, length_map.
  - by rewrite length_foldr_obj_kill, Hmo.
  - intros j jm' t' Hj Ht'.
    destruct (decide (j = i)) as [->|Hne].
    + erewrite get_put_impl_eq in Hj
        by (rewrite (get_impl_ext w); [exact Hi | done]).
      simplify_eq. by apply elem_of_nil in Ht'.
    + rewrite get_put_impl_ne in Hj by done. exists jm'. split; [|done].
      rewrite <- (get_impl_ext w _ j Hmi). exact Hj.
Qed.

(** A connect keeps the invariant if what the new slot tracks is
    allocated, is what its wrapper locks, and is registered, if at
    all, with the signal connected to. *)
Lemma connect_impl_tracking this f p ss t w :
  (∀ o, fn_owner f = Some o → t = Some o) →
  (∀ o, t = Some o → o < length (objs w) ∧
     ∀ j jm tg, get_impl w j = Some jm → tg ∈ tags_ jm → fst tg = o →
       impl_ this = Some j) →
  tracking_ok w → tracking_ok (snd (connect_impl this f p ss t w)).
Proof.
  intros Hf Ht Hok. unfold connect_impl.
  open_impl this w i im Hi ltac:(done). simpl.
  destruct Hok as [A B C].
  set (w1 := set_slots (λ l, l ++ [slot_new f p ss t]) w).
  set (im1 := set_dirty true (set_slot_list (slots_ im ++ [length (slots w)]) im)).
  assert (Hget : ∀ j jm, get_impl (put_impl i im1 w1) j = Some jm →
            (j = i ∧ jm = im1) ∨ (j ≠ i ∧ get_impl w j = Some jm)).
  { intros j jm Hj. destruct (decide (j = i)) as [->|Hne].
    - erewrite get_put_impl_eq in Hj by (by rewrite (get_impl_ext w)).
      left. by simplify_eq.
    - rewrite get_put_impl_ne in Hj by done. right. split; [done|].
      by rewrite <- (get_impl_ext w w1). }
  assert (Hlook : ∀ s r, (slots w ++ [slot_new f p ss t]) !! s = Some r →
            slots w !! s = Some r ∨
            (s = length (slots w) ∧ r = slot_new f p ss t)).
  { intros s r Hr. apply lookup_app_Some in Hr as [Hr|[Hge Hr]]; [by left|].
    right. apply list_lookup_singleton_Some in Hr as [Hs ->].
    split; [lia | done]. }
  constructor; simpl.
  - intros s r o Hr Htr. destruct (Hlook s r Hr) as [H|[-> ->]].
    + by eapply A.
    + simpl in Htr. by destruct (Ht o Htr).
  - intros s r o Hr Hfo. destruct (Hlook s r Hr) as [H|[-> ->]].
    + by eapply B.
    + simpl in *. auto.
  - intros s r j jm tg Hr Hj Htg Htr Hp.
    destruct (Hlook s r Hr) as [H|[-> ->]].
    + destruct (Hget j jm Hj) as [[-> ->]|[Hne Hj0]].
      * simpl. apply elem_of_app. left. by eapply (C s r i im tg).
      * by eapply (C s r j jm tg).
    + simpl in Htr. destruct (Ht _ Htr) as [_ Hreg].
      destruct (Hget j jm Hj) as [[-> ->]|[Hne Hj0]].
      * simpl. apply elem_of_app. right. by left.
      * specialize (Hreg j jm tg Hj0 Htg eq_refl). simpl in Hreg. congruence.
Qed.

Lemma get_or_create_tag_tracking i name w :
  tracking_ok w → tracking_ok (snd (get_or_create_tag i name w)).
Proof.
  intros Hok. unfold get_or_create_tag.
  destruct (get_impl w i) as [im|] eqn:Hi; [|done].
  destruct (List.find (tag_named name) (tags_ im)) as [t|] eqn:Hf; [done|].
  simpl. destruct Hok as [A B C].
  set (o := length (objs w)).
  set (w1 := set_objs (λ l, l ++ [mk_object true true]) w).
  constructor; simpl.
  - intros s r x Hr Htr. rewrite length_app. simpl.
    pose proof (A s r x Hr Htr). lia.
  - apply B.
  - intros s r j jm tg Hr Hj Htg Htr Hp.
    destruct (decide (j = i)) as [->|Hne].
    + erewrite get_put_impl_eq in Hj by (by rewrite (get_impl_ext w)).
      simplify_eq. simpl in *.
      apply elem_of_app in Htg as [Htg|Htg]; [by eapply (C s r i im tg)|].
      apply list_elem_of_singleton in Htg as ->. simpl in Htr.
      pose proof (A s r _ Hr Htr). unfold o in *. lia.
    + rewrite get_put_impl_ne in Hj by done.
      rewrite (get_impl_ext w w1) in Hj by done. by eapply (C s r j jm tg).
Qed.

Lemma connect_tag_tracking this tag body p w :
  tags_ok w → tracking_ok w →
  tracking_ok (snd (connect_tag this tag body p w)).
Proof.
  intros Hg Hok. unfold connect_tag.
  destruct (impl_ this) as [i|] eqn:Hi; [|done].
  pose proof (get_or_create_tag_tags i tag w Hg) as Hg1.
  pose proof (get_or_create_tag_tracking i tag w Hok) as Hok1.
  destruct (get_impl w i) as [im|] eqn:Him.
  - destruct (get_or_create_tag_registered i tag w im Him)
      as (o & im1 & Ho & Hi1 & Hf1 & _).
    destruct (get_or_create_tag i tag w) as [tp w1]. simpl in *. subst tp.
    apply connect_impl_tracking; [done | | done].
    intros x [= <-].
    assert (Hin : (o, tag) ∈ tags_ im1).
    { apply find_some in Hf1 as [Hf1 _]. by apply list_elem_of_In. }
    split; [exact (tag_allocated _ _ _ _ Hg1 Hi1 Hin)|].
    intros j jm tg Hj Htg Heq. rewrite Hi. f_equal.
    by destruct (tg_unique _ Hg1 i j im1 jm (o, tag) tg Hi1 Hj Hin Htg).
  - unfold get_or_create_tag. rewrite Him. unfold connect_impl.
    by rewrite Hi, Him.
Qed.

Lemma connect_shared_tracking this obj body p w :
  tags_ok w → tracking_ok w →
  tracking_ok (snd (connect_shared this (owner_ptr w obj) body p w)).
Proof.
  intros Hg Hok. unfold connect_shared.
  destruct (owner_ptr w obj) as [o|] eqn:Ho; [|done].
  unfold owner_ptr in Ho.
  destruct (objs w !! obj) as [ob|] eqn:Hob; [|done].
  destruct (obj_alive ob && negb (obj_is_tag ob)) eqn:Hb; [|done].
  simplify_eq. apply andb_prop in Hb as [_ Hb]. apply negb_true_iff in Hb.
  apply connect_impl_tracking; [by intros x [= <-] | | done].
  intros x [= <-]. split; [by eapply lookup_lt_Some|].
  intros j jm tg Hj Htg Heq. exfalso.
  pose proof (tg_live _ Hg j jm tg Hj Htg) as Hl. rewrite Heq, Hob in Hl.
  by simplify_eq.
Qed.

Lemma exec_action_tracking a w m w1 fo :
  exec_action a w = (m, w1, fo) →
  tags_ok w → tracking_ok w → tracking_ok w1.
Proof.
  intros He Hg Hok. destruct a; simpl in He; simplify_eq.
  - done.
  - by apply (tracking_ok_ext w).
  - eapply (tracking_ok_ext (snd (connect (sig_var w sig) body prio w)));
      [done..|]. by apply connect_impl_tracking.
  - eapply (tracking_ok_ext (snd (connect_once (sig_var w sig) body prio w)));
      [done..|]. by apply connect_impl_tracking.
  - eapply (tracking_ok_ext (snd (connect_shared (sig_var w sig)
              (owner_ptr w obj) body prio w))); [done..|].
    by apply connect_shared_tracking.
  - eapply (tracking_ok_ext (snd (connect_raw (sig_var w sig) null body prio w)));
      [done..|]. unfold connect_raw. destruct null; [done|].
    by apply connect_impl_tracking.
  - eapply (tracking_ok_ext (snd (connect_tag (sig_var w sig) tag body prio w)));
      [done..|]. by apply connect_tag_tracking.
  - apply (tracking_ok_settled w);
      [apply disconnect_tag_evolves | apply disconnect_tag_settled | done].
  - pose proof (emit_begin_evolves (sig_var w sig) w) as Hev.
    pose proof (emit_begin_settled (sig_var w sig) w) as Hse.
    destruct (emit_begin (sig_var w sig) w) as [[l|] w2]; simplify_eq.
    + apply (tracking_ok_ext w2); [done..|].
      by apply (tracking_ok_settled w).
    + by apply (tracking_ok_settled w).
  - apply (tracking_ok_settled w);
      [apply disconnect_all_evolves | apply disconnect_all_settled | done].
  - apply (tracking_ok_settled w);
      [apply conn_disconnect_evolves | apply conn_disconnect_settled | done].
  - apply (tracking_ok_settled w);
      [apply conn_block_evolves | apply conn_block_settled | done].
  - by apply (tracking_ok_ext w).
Qed.

Lemma impl_release_get this w j jm :
  get_impl (impl_release this w) j = Some jm → get_impl w j = Some jm.
Proof.
  intros Hj. destruct (impl_release_tags this w) as [_ H].
  destruct (H j jm Hj) as (jm0 & Hj0 & _).
  unfold impl_release in Hj. destruct (impl_ this) as [i|]; [|done].
  unfold get_impl in *. simpl in Hj.
  destruct (decide (j = i)) as [->|Hne].
  - destruct (impls w !! i) eqn:E.
    + rewrite list_lookup_insert_eq in Hj; [done|]. by eapply lookup_lt_Some.
    + rewrite list_insert_ge in Hj by (by apply lookup_ge_None).
      by rewrite E in Hj.
  - by rewrite list_lookup_insert_ne in Hj.
Qed.

Lemma move_assign_tracking dst src w :
  tracking_ok w → tracking_ok (move_assign dst src w).
Proof.
  intros Hok. unfold move_assign. destruct (dst =? src); [done|].
  set (this := sig_var w dst).
  assert (H1 : tracking_ok (disconnect_all this w)).
  { apply (tracking_ok_settled w);
      [apply disconnect_all_evolves | apply disconnect_all_settled | done]. }
  assert (H2 : tracking_ok (impl_release this (disconnect_all this w))).
  { revert H1. apply tracking_ok_shrink.
    - unfold impl_release. by destruct (impl_ this).
    - unfold impl_release. by destruct (impl_ this).
    - apply impl_release_get. }
  revert H2. by apply tracking_ok_ext.
Qed.

Lemma exec_command_tracking cmd w w1 k :
  exec_command cmd w = (w1, k) → tracking_ok w → tracking_ok w1.
Proof.
  intros He Hok. destruct cmd; simpl in He; simplify_eq.
  - done.
  - destruct Hok as [A B C]. constructor; simpl; [done | done |].
    intros s r j jm t Hr Hj Ht. unfold get_impl in Hj. simpl in Hj.
    destruct (decide (j < length (impls w))) as [Hlt|Hge].
    + rewrite lookup_app_l in Hj by done. by apply (C s r j jm t).
    + rewrite lookup_app_r in Hj by lia.
      destruct (j - length (impls w)) as [|n]; simpl in Hj; [|done].
      simplify_eq. by apply elem_of_nil in Ht.
  - revert Hok. by apply tracking_ok_ext.
  - by apply move_assign_tracking.
  - revert Hok. apply tracking_ok_shrink; [done | | done].
    simpl. rewrite length_app. lia.
  - destruct (owner_ptr w o); simplify_eq; [|done].
    revert Hok. apply tracking_ok_shrink; [done | | done].
    simpl. unfold obj_kill. by rewrite length_alter.
Qed.

Lemma tracking_ok_step c :
  tags_ok (cf_world c) → tracking_ok (cf_world c) →
  tracking_ok (cf_world (step c)).
Proof.
  intros Hg Hok. destruct c as [m w k p]. unfold step. simpl in *.
  destruct k as [|[body|f] k].
  - destruct m; [|done]. destruct p as [|cmd p]; [done|].
    destruct (exec_command cmd w) as [w1 k1] eqn:He. simpl.
    by eapply exec_command_tracking.
  - destruct m; [|done]. destruct body as [|a rest]; [done|].
    destruct (exec_action a w) as [[m1 w1] fo] eqn:He.
    pose proof (exec_action_tracking _ _ _ _ _ He Hg Hok).
    destruct m1; [|done]. by destruct fo.
  - destruct m; [|done]. destruct (fl_rest f) as [|sp rest]; simpl.
    + apply (tracking_ok_settled w);
        [apply emit_end_evolves | apply emit_end_settled | done].
    + pose proof (emit_visit_evolves sp (fl_need f) w) as Hev.
      pose proof (emit_visit_settled sp (fl_need f) w) as Hse.
      destruct (emit_visit sp (fl_need f) w) as [[w1 need] callee].
      simpl in Hev, Hse.
      pose proof (tracking_ok_settled _ _ Hev Hse Hok) as H1.
      destruct callee; [|done]. simpl. revert H1. by apply tracking_ok_ext.
Qed.

Lemma tracking_ok_reachable prog n :
  tracking_ok (cf_world (run n (init prog))).
Proof.
  induction n as [|n IH].
  - constructor; simpl; intros s r; by rewrite lookup_nil.
  - rewrite run_S. apply tracking_ok_step; [apply tags_ok_reachable | done].
Qed.

(** ** Disconnection by tag *)

(** The guard of the loop of [disconnect(tag)], in terms of the slot
    record and the tag object. *)
Lemma tracks_spec w s o :
  tracks w s o
  = match slots w !! s with
    | Some r => bool_decide (tracked r = Some o) && obj_live (objs w) o
    | None => false
    end.
Proof.
  unfold tracks, obj_lock, obj_live.
  destruct (slots w !! s) as [r|]; [|done].
  destruct (tracked r) as [x|]; [|done].
  destruct (decide (x = o)) as [->|Hne].
  - rewrite bool_decide_eq_true_2 by done.
    destruct (objs w !! o) as [ob|]; [|done].
    destruct (obj_alive ob); [|done]. by rewrite Nat.eqb_refl.
  - rewrite bool_decide_eq_false_2 by congruence.
    destruct (objs w !! x) as [ob|]; [|done].
    destruct (obj_alive ob); [|done]. by apply Nat.eqb_neq.
Qed.

Lemma set_pending_removal_id r :
  pending_removal r = true → set_pending_removal true r = r.
Proof. destruct r. simpl. by intros ->. Qed.

Lemma find_tag_unique l t :
  NoDup (map snd l) → t ∈ l → List.find (tag_named (snd t)) l = Some t.
Proof.
  induction l as [|x l IH]; simpl; intros Hnd Ht; [by apply elem_of_nil in Ht|].
  apply NoDup_cons in Hnd as [Hx Hnd]. unfold tag_named at 1.
  destruct (String.eqb_spec (snd x) (snd t)) as [Heq|Hne].
  - apply elem_of_cons in Ht as [->|Ht]; [done|].
    exfalso. apply Hx. rewrite Heq. apply list_elem_of_fmap. eauto.
  - apply elem_of_cons in Ht as [->|Ht]; [done|]. by apply IH.
Qed.

(** What [disconnect(tag)] does when it finds the tag. *)
Lemma disconnect_tag_found this tag w i im t :
  impl_ this = Some i → get_impl w i = Some im →
  List.find (tag_named tag) (tags_ im) = Some t →
  let w' := snd (disconnect_tag this tag w) in
  fst (disconnect_tag this tag w) = true ∧
  get_impl w' i
  = Some (set_dirty true (set_tags (erase_tag tag (tags_ im)) im)) ∧
  (∀ j, j ≠ i → get_impl w' j = get_impl w j) ∧
  length (slots w') = length (slots w) ∧
  (∀ s r, slots w !! s = Some r →
     slots w' !! s
     = Some (if bool_decide (s ∈ slots_ im ∧ tracked r = Some (fst t))
                && obj_live (objs w) (fst t)
             then set_pending_removal true r else r)) ∧
  (∀ o, o ≠ fst t → objs w' !! o = objs w !! o) ∧
  obj_live (objs w') (fst t) = false.
Proof.
  intros Hi Him Hf w'.
  assert (Hr : disconnect_tag this tag w
               = (true, set_objs (obj_kill (fst t))
                   (put_impl i (set_dirty true
                      (set_tags (erase_tag tag (tags_ im)) im))
                      (mark_tracking (fst t) (slots_ im) w)))).
  { unfold disconnect_tag. by rewrite Hi, Him, Hf. }
  unfold w'. rewrite Hr. cbn [fst snd].
  destruct (mark_tracking_frame (fst t) (slots_ im) w)
    as (Hmi & _ & _ & Hmo & _).
  split_and!.
  - done.
  - rewrite (get_impl_ext (put_impl i _ (mark_tracking (fst t) (slots_ im) w)))
      by done.
    eapply get_put_impl_eq. by rewrite (get_impl_ext w).
  - intros j Hj.
    rewrite (get_impl_ext (put_impl i _ (mark_tracking (fst t) (slots_ im) w)))
      by done.
    rewrite get_put_impl_ne by done. by apply get_impl_ext.
  - simpl. apply mark_tracking_length.
  - intros s r Hr0. simpl. rewrite (mark_tracking_lookup _ _ _ _ _ Hr0).
    f_equal. rewrite tracks_spec, Hr0.
    destruct (decide (s ∈ slots_ im)) as [Hs|Hs];
      destruct (decide (tracked r = Some (fst t))) as [Ht|Ht].
    + by rewrite !bool_decide_eq_true_2.
    + rewrite (bool_decide_eq_false_2 (tracked r = _)) by done.
      rewrite (bool_decide_eq_false_2 (_ ∧ _)) by (by intros [_ ?]).
      by rewrite andb_false_r.
    + rewrite (bool_decide_eq_false_2 (s ∈ _)) by done.
      by rewrite (bool_decide_eq_false_2 (_ ∧ _)) by (by intros [? _]).
    + rewrite (bool_decide_eq_false_2 (s ∈ _)) by done.
      by rewrite (bool_decide_eq_false_2 (_ ∧ _)) by (by intros [? _]).
  - intros o Ho. simpl. unfold obj_kill.
    rewrite list_lookup_alter_ne by done. by rewrite Hmo.
  - simpl. unfold obj_live, obj_kill. rewrite list_lookup_alter_eq.
    by destruct (objs (mark_tracking (fst t) (slots_ im) w) !! fst t).
Qed.

(** C6. [disconnect(tag)] returns true exactly when a tag of that
    name is registered, and when it returns false the world is
    unchanged.
    - In any state: when it returns true, the first tag of that name
      has left the registry and has expired, no other object and no
      other shared state is touched, the slot list is the same, the
      dirty flag is set, and [pending_removal] is set on exactly the
      slots of the list whose tracked reference is that tag object
      (which is alive); every other slot record is as it was.
    - In an execution, where a name is registered once, a registered
      tag is alive, and a slot that tracks a registered tag is on the
      list of its signal unless it is already pending removal:
      [disconnect(tag)] sets [pending_removal] on exactly the slots
      that were connected under that tag and changes no other slot
      record, so that untagged slots and the slots under any other
      name are as before; the tags of the other names stay
      registered, with their objects alive. *)
Theorem disconnect_tag_spec :
  (∀ this tag w,
     let '(ret, w') := disconnect_tag this tag w in
     match impl_ this with
     | None => ret = false ∧ w' = w
     | Some i =>
         match get_impl w i with
         | None => ret = false ∧ w' = w
         | Some im =>
             (ret = true ↔ ∃ t, t ∈ tags_ im ∧ snd t = tag) ∧
             (ret = false → w' = w) ∧
             (ret = true →
              ∃ t l1 l2 im',
                tags_ im = l1 ++ t :: l2 ∧ snd t = tag ∧
                (∀ t', t' ∈ l1 → snd t' ≠ tag) ∧
                get_impl w' i = Some im' ∧
                tags_ im' = l1 ++ l2 ∧ slots_ im' = slots_ im ∧
                dirty_ im' = true ∧
                (∀ j, j ≠ i → get_impl w' j = get_impl w j) ∧
                length (slots w') = length (slots w) ∧
                (∀ s r, slots w !! s = Some r →
                   slots w' !! s
                   = Some (if bool_decide (s ∈ slots_ im ∧
                                           tracked r = Some (fst t))
                              && obj_live (objs w) (fst t)
                           then set_pending_removal true r else r)) ∧
                (∀ o, o ≠ fst t → objs w' !! o = objs w !! o) ∧
                obj_live (objs w') (fst t) = false)
         end
     end) ∧
  (∀ prog n v tag i im t,
     let w := cf_world (run n (init prog)) in
     let w' := snd (disconnect_tag (sig_var w v) tag w) in
     impl_ (sig_var w v) = Some i → get_impl w i = Some im →
     t ∈ tags_ im → snd t = tag →
     fst (disconnect_tag (sig_var w v) tag w) = true ∧
     (∀ s r, slots w !! s = Some r →
        slots w' !! s
        = Some (if bool_decide (tracked r = Some (fst t))
                then set_pending_removal true r else r)) ∧
     (∀ s r, slots w !! s = Some r → tracked r = Some (fst t) →
        pending_removal r = false → s ∈ slots_ im) ∧
     (∀ o, o ≠ fst t → objs w' !! o = objs w !! o) ∧
     obj_live (objs w') (fst t) = false ∧
     ∃ im', get_impl w' i = Some im' ∧ (t ∉ tags_ im') ∧
       slots_ im' = slots_ im ∧
       ∀ t', t' ∈ tags_ im → t' ≠ t →
         snd t' ≠ tag ∧ fst t' ≠ fst t ∧ t' ∈ tags_ im' ∧
         obj_live (objs w') (fst t') = true).
Proof.
  split.
  - intros this tag w.
    destruct (disconnect_tag this tag w) as [ret w'] eqn:Hd.
    destruct (impl_ this) as [i|] eqn:Hi;
      [|unfold disconnect_tag in Hd; rewrite Hi in Hd; by simplify_eq].
    destruct (get_impl w i) as [im|] eqn:Him;
      [|unfold disconnect_tag in Hd; rewrite Hi, Him in Hd; by simplify_eq].
    destruct (List.find (tag_named tag) (tags_ im)) as [t|] eqn:Hf.
    + destruct (find_tag_split _ _ _ Hf) as (l1 & l2 & Hl & Hn & Hl1 & He).
      destruct (disconnect_tag_found this tag w i im t Hi Him Hf)
        as (Hret & Hg & Hoth & Hlen & Hrec & Hobj & Hdead).
      rewrite Hd in Hret, Hg, Hoth, Hlen, Hrec, Hobj, Hdead.
      cbn [fst snd] in *. subst ret.
      split_and!; [|done|].
      * split; [|done]. intros _. exists t. split; [|done].
        rewrite Hl. apply elem_of_app. right. by left.
      * intros _. eexists t, l1, l2, _.
        split_and!; [done | done | done | exact Hg | by simpl | done | done
                    | done | done | done | done | done].
    + unfold disconnect_tag in Hd. rewrite Hi, Him, Hf in Hd. simplify_eq.
      split_and!; [|done|done].
      split; [done|]. intros (t & Ht & Hn).
      by destruct (find_tag_none _ _ Hf t Ht).
  - intros prog n v tag i im t w w' Hi Him Hin Hn.
    pose proof (tags_ok_reachable prog n) as Hg. fold w in Hg.
    pose proof (tracking_ok_reachable prog n) as Hk. fold w in Hk.
    pose proof (tg_names _ Hg i im Him) as Hnd.
    pose proof (tg_live _ Hg i im t Him Hin) as Hlive.
    assert (Hf : List.find (tag_named tag) (tags_ im) = Some t).
    { rewrite <- Hn. by apply find_tag_unique. }
    destruct (disconnect_tag_found (sig_var w v) tag w i im t Hi Him Hf)
      as (Hret & Hget & Hoth & Hlen & Hrec & Hobj & Hdead).
    fold w' in Hget, Hoth, Hlen, Hrec, Hobj, Hdead.
    assert (Hl : obj_live (objs w) (fst t) = true).
    { unfold obj_live. by rewrite Hlive. }
    split_and!; [done | | | done | done |].
    + intros s r Hr. rewrite (Hrec s r Hr), Hl, andb_true_r. f_equal.
      destruct (decide (tracked r = Some (fst t))) as [Ht|Ht].
      * rewrite (bool_decide_eq_true_2 (tracked r = _)) by done.
        destruct (decide (s ∈ slots_ im)) as [Hs|Hs].
        -- by rewrite bool_decide_eq_true_2.
        -- rewrite bool_decide_eq_false_2 by (by intros [? _]).
           symmetry. apply set_pending_removal_id.
           destruct (pending_removal r) eqn:Hp; [done|].
           by destruct (Hs (tk_home _ Hk s r i im t Hr Him Hin Ht Hp)).
      * rewrite (bool_decide_eq_false_2 (tracked r = _)) by done.
        by rewrite bool_decide_eq_false_2 by (by intros [_ ?]).
    + intros s r Hr Ht Hp. by apply (tk_home _ Hk s r i im t).
    + eexists. split; [exact Hget|]. simpl.
      assert (Hgone : ∀ t', t' ∈ erase_tag tag (tags_ im) →
                t' ∈ tags_ im ∧ snd t' ≠ tag ∧ fst t' ≠ fst t)
        by (intros t'; by apply (erased_tag_gone w i im)).
      split_and!; [|done|].
      * intros Ht. by destruct (Hgone t Ht) as (_ & ? & _).
      * intros t' Ht' Hne.
        assert (Hfst : fst t' ≠ fst t).
        { intros Heq.
          by destruct (tg_unique _ Hg i i im im t' t Him Him Ht' Hin Heq). }
        assert (Hsnd : snd t' ≠ tag).
        { intros Heq. apply Hne.
          pose proof (find_tag_unique _ _ Hnd Ht') as Hf'.
          rewrite Heq, Hf in Hf'. by simplify_eq. }
        split_and!; [done | done | |].
        -- destruct (find_tag_split _ _ _ Hf) as (l1 & l2 & Hl12 & _ & _ & ->).
           rewrite Hl12 in Ht'. apply elem_of_app in Ht' as [Ht'|Ht'];
             [apply elem_of_app; by left|].
           apply elem_of_cons in Ht' as [->|Ht']; [done|].
           apply elem_of_app. by right.
        -- unfold obj_live. rewrite (Hobj _ Hfst).
           by rewrite (tg_live _ Hg i im t' Him Ht').
Qed.

Lemma disconnect_tag_spec_witness :
  let w := cf_world (run 13 (init tag_demo)) in
  let w' := snd (disconnect_tag (sig_var w 0) "a" w) in
  (impl_ (sig_var w 0) = Some 0 ∧
   get_impl w 0
   = Some (mk_impl [0; 1; 2; 3] [(0, "a"%string); (1, "b"%string)] true) ∧
   map tracked (slots w) = [Some 0; Some 0; Some 1; None]) ∧
  fst (disconnect_tag (sig_var w 0) "a" w) = true ∧
  (∀ s r, slots w !! s = Some r →
     slots w' !! s
     = Some (if bool_decide (tracked r = Some 0)
             then set_pending_removal true r else r)) ∧
  map (slot_pending (slots w')) [0; 1; 2; 3] = [true; true; false; false] ∧
  obj_live (objs w') 0 = false ∧ obj_live (objs w') 1 = true.
Proof.
  intros w w'.
  assert (Hi : impl_ (sig_var w 0) = Some 0) by (vm_compute; reflexivity).
  assert (Him : get_impl w 0
                = Some (mk_impl [0; 1; 2; 3]
                          [(0, "a"%string); (1, "b"%string)] true))
    by (vm_compute; reflexivity).
  assert (Hin : (0, "a"%string)
                ∈ tags_ (mk_impl [0; 1; 2; 3]
                           [(0, "a"%string); (1, "b"%string)] true))
    by (simpl; left).
  destruct (proj2 disconnect_tag_spec tag_demo 13 0 "a"%string 0 _ (0, "a"%string)
              Hi Him Hin eq_refl) as (Hret & Hrec & _ & _ & Hdead & _).
  split; [split; [exact Hi | split; [exact Him | vm_compute; reflexivity]]|].
  split; [exact Hret|]. split; [exact Hrec|].
  split; [vm_compute; reflexivity|].
  split; [exact Hdead | vm_compute; reflexivity].
Defined.

(** ** Emission after a move *)

Lemma sort_insert_ext prio prio' x l :
  prio' x = prio x → (∀ s, s ∈ l → prio' s = prio s) →
  sort_insert prio' x l = sort_insert prio x l.
Proof.
  intros Hx. induction l as [|y l IH]; intros Hl; simpl; [done|].
  rewrite Hx, (Hl y) by (by left).
  destruct (prio x <? prio y)%Z; [|done].
  f_equal. apply IH. intros s Hs. apply Hl. by right.
Qed.

Lemma stable_sort_ext prio prio' l :
  (∀ s, s ∈ l → prio' s = prio s) → stable_sort prio' l = stable_sort prio l.
Proof.
  induction l as [|x l IH]; intros Hl; simpl; [done|].
  unfold stable_sort in *. simpl. rewrite IH by (intros s Hs; apply Hl; by right).
  apply sort_insert_ext; [apply Hl; by left|].
  intros s Hs. apply Hl. right.
  by apply (stable_sort_elem_of prio s l).
Qed.

(** The snapshot an emission takes depends on the shared state and on
    the records of the slots on its list only. *)
Lemma emit_begin_transfer this w w' i im :
  impl_ this = Some i → get_impl w i = Some im → get_impl w' i = Some im →
  (∀ s, s ∈ slots_ im → slots w' !! s = slots w !! s) →
  fst (emit_begin this w') = fst (emit_begin this w).
Proof.
  intros Hi Him Him' Hs. unfold emit_begin. rewrite Hi, Him, Him'.
  destruct (slots_ im) as [|x l] eqn:Hl; [done|]. rewrite <- Hl in *.
  destruct (dirty_ im); simpl; [|done]. f_equal.
  assert (Hk : cleanup_keep (slots w') (slots_ im)
               = cleanup_keep (slots w) (slots_ im)).
  { apply cleanup_keep_ext. intros s Hin. unfold slot_pending.
    by rewrite (Hs s Hin). }
  rewrite Hk. apply stable_sort_ext. intros s Hin.
  apply elem_of_cleanup_keep in Hin as [Hin _]. unfold slot_priority.
  by rewrite (Hs s Hin).
Qed.

(** The snapshot holds slots of the list only, and every slot of the
    list that is not pending removal. *)
Lemma emit_begin_local this w i im :
  impl_ this = Some i → get_impl w i = Some im →
  let local_slots := default [] (fst (emit_begin this w)) in
  (∀ s, s ∈ local_slots → s ∈ slots_ im) ∧
  (∀ s, s ∈ slots_ im → slot_pending (slots w) s = false → s ∈ local_slots).
Proof.
  intros Hi Him. unfold emit_begin. rewrite Hi, Him.
  destruct (slots_ im) as [|x l] eqn:Hl; [done|]. rewrite <- Hl.
  destruct (dirty_ im); simpl; [|done]. split.
  - intros s Hs. apply stable_sort_elem_of in Hs.
    by apply elem_of_cleanup_keep in Hs as [Hs _].
  - intros s Hs Hp. apply stable_sort_elem_of. by apply elem_of_cleanup_keep.
Qed.

(** An emission with callbacks that only record and throw, from any
    state with well-formed slot lists. *)
Lemma passive_emit w v rest k p :
  impls_ok w → heap_passive (slots w) →
  let local_slots := default [] (fst (emit_begin (sig_var w v) w)) in
  ∃ m w', run m (mk_config Running w (FBody (AEmit v :: rest) :: k) p)
          = mk_config Running w' (FBody rest :: k) p ∧
    invoked_in (next_emission w) (log w')
    = invoked_in (next_emission w) (log w)
      ++ List.filter (ready w) local_slots ∧
    recorded (log w')
    = recorded (log w)
      ++ concat (map (effect w) (List.filter (ready w) local_slots)).
Proof.
  intros Hok Hw local_slots. unfold local_slots. clear local_slots.
  pose proof (emit_begin_quiet (sig_var w v) w) as [Hl [Hn _]].
  pose proof (emit_begin_funcs (sig_var w v) w) as Hf.
  pose proof (λ s, emit_begin_flags (sig_var w v) w s) as Hfl.
  pose proof (emit_begin_evolves (sig_var w v) w) as Hev.
  destruct (emit_begin (sig_var w v) w) as [[local|] w1] eqn:Hb;
    simpl in Hl, Hn, Hf, Hfl, Hev; cbn [fst default].
  - assert (Hstep : step (mk_config Running w (FBody (AEmit v :: rest) :: k) p)
              = mk_config Running (bump_emission w1)
                  (FLoop (mk_loop (next_emission w1) v local local false)
                   :: FBody rest :: k) p).
    { unfold step. simpl. by rewrite Hb. }
    assert (Hnd : NoDup local).
    { destruct (emit_begin_snapshot _ _ _ _ Hb) as (i & im1 & Hi & Him & <- & _).
      eapply tie_sorted_NoDup, iok_tie. exact (ev_ok _ _ Hev Hok i im1 Him). }
    destruct (passive_loop local (next_emission w1) v local false
                (bump_emission w1) (FBody rest :: k) p)
      as (m & w' & Hrun & Hi' & Hr');
      [unfold heap_passive; simpl; by rewrite Hf | done |].
    assert (Hfil : List.filter (ready (bump_emission w1)) local
                   = List.filter (ready w) local).
    { apply filter_ext. intros s.
      exact (proj1 (ready_effect_flags w (bump_emission w1) s
                      (proj1 (Hfl s)) (proj2 (Hfl s)))). }
    assert (Hmap : map (effect (bump_emission w1)) (List.filter (ready w) local)
                   = map (effect w) (List.filter (ready w) local)).
    { apply map_ext. intros s.
      exact (proj2 (ready_effect_flags w (bump_emission w1) s
                      (proj1 (Hfl s)) (proj2 (Hfl s)))). }
    exists (m + 1), w'. rewrite run_add.
    assert (run 1 (mk_config Running w (FBody (AEmit v :: rest) :: k) p)
            = step (mk_config Running w (FBody (AEmit v :: rest) :: k) p))
      as -> by done.
    rewrite Hstep, Hrun. split_and!; [done | |].
    + rewrite Hn in Hi'. rewrite Hi'. simpl. by rewrite Hl, Hfil.
    + rewrite Hr'. simpl. by rewrite Hl, Hfil, Hmap.
  - exists 1, w1. split_and!.
    + unfold run. simpl. unfold step. simpl. by rewrite Hb.
    + simpl. by rewrite Hl, app_nil_r.
    + simpl. by rewrite Hl, app_nil_r.
Qed.

Lemma move_assign_objs w dst src o :
  dst ≠ src →
  (∀ j jm t, impl_ (sig_var w dst) = Some j → get_impl w j = Some jm →
     t ∈ tags_ jm → fst t ≠ o) →
  objs (move_assign dst src w) !! o = objs w !! o.
Proof.
  intros Hne Hno. unfold move_assign.
  destruct (Nat.eqb_spec dst src) as [?|_]; [done|]. simpl.
  assert (Hr : ∀ x, objs (impl_release (sig_var w dst) x) = objs x).
  { intros x. unfold impl_release. by destruct (impl_ _). }
  rewrite Hr. unfold disconnect_all.
  destruct (impl_ (sig_var w dst)) as [j|]; [|done].
  destruct (get_impl w j) as [jm|] eqn:Hj; [|done]. simpl.
  destruct (mark_all_frame (slots_ jm) w) as (_ & _ & _ & Hmo & _).
  rewrite foldr_obj_kill_other; [by rewrite Hmo|].
  intros Hin. apply list_elem_of_fmap in Hin as (t & Heq & Ht).
  by apply (Hno j jm t).
Qed.

(** Whether a slot is ready, and what its callback does, depend on
    its record and on the object it tracks. *)
Lemma ready_effect_tracked w w' s :
  tracking_ok w →
  slots w' !! s = slots w !! s →
  (∀ r o, slots w !! s = Some r → pending_removal r = false →
     tracked r = Some o → objs w' !! o = objs w !! o) →
  ready w' s = ready w s ∧ (ready w s = true → effect w' s = effect w s).
Proof.
  intros Hk Hs Ho. unfold ready, effect. rewrite Hs.
  destruct (slots w !! s) as [r|] eqn:Hr; [|done].
  unfold is_callable.
  destruct (pending_removal r) eqn:Hp.
  { destruct (blocked r); done. }
  assert (He : ∀ o, tracked r = Some o →
            expired (objs w') (Some o) = expired (objs w) (Some o)).
  { intros o Ht. unfold expired, obj_lock. by rewrite (Ho r o eq_refl Hp Ht). }
  split.
  - destruct (tracked r) as [o|] eqn:Ht; [|done]. by rewrite (He o eq_refl).
  - intros _. unfold call_function.
    destruct (fn_owner (func r)) as [o|] eqn:Hf; [|done].
    pose proof (tk_owner _ Hk s r o Hr Hf) as Ht.
    by rewrite (He o Ht).
Qed.

(** After a move, an emission on the destination does what an
    emission on the source would have done before it. *)
Lemma moved_emission prog n cmd p src d i im :
  let c := run n (init prog) in
  let w := cf_world c in
  let w' := cf_world (step c) in
  let local_slots := default [] (fst (emit_begin (sig_var w src) w)) in
  cf_mode c = Running → cf_stack c = [] → cf_prog c = cmd :: p →
  (cmd = CMoveConstruct src ∧ d = length (sigs w)) ∨
  (cmd = CMoveAssign d src ∧ d ≠ src ∧ d < length (sigs w)) →
  src < length (sigs w) →
  impl_ (sig_var w src) = Some i → get_impl w i = Some im →
  (sig_var w' d = sig_var w src ∧ get_impl w' i = Some im ∧
   (∀ s, s ∈ slots_ im → slots w' !! s = slots w !! s) ∧
   (∀ s r o, s ∈ slots_ im → slots w !! s = Some r →
      pending_removal r = false → tracked r = Some o →
      objs w' !! o = objs w !! o) ∧
   (∀ s, s ∈ slots_ im → ready w' s = ready w s) ∧
   slot_count (sig_var w' d) w' = slot_count (sig_var w src) w ∧
   fst (emit_begin (sig_var w' d) w') = fst (emit_begin (sig_var w src) w)) ∧
  (heap_passive (slots w) →
   ∀ k q, ∃ m w'',
     run m (mk_config Running w' (FBody [AEmit d] :: k) q)
     = mk_config Running w'' (FBody [] :: k) q ∧
     invoked_in (next_emission w) (log w'')
     = List.filter (ready w) local_slots ∧
     recorded (log w'')
     = recorded (log w)
       ++ concat (map (effect w) (List.filter (ready w) local_slots)) ∧
     ∀ s, s ∈ slots_ im → ready w s = true →
       s ∈ invoked_in (next_emission w) (log w'')).
Proof.
  intros c w w' local_slots Hm Hk Hp Hcmd Hsrc Hi Him.
  pose proof (Inv_reachable prog (S n)) as HI. rewrite run_S in HI.
  fold c in HI. fold w' in HI.
  pose proof (tracking_ok_reachable prog n) as Htk. fold c w in Htk.
  pose proof (Sep_reachable prog n) as Hsep. fold c w in Hsep.
  assert (Hstep : w' = fst (exec_command cmd w)).
  { unfold w', step. fold w. rewrite Hk, Hm, Hp.
    by destruct (exec_command cmd w). }
  assert (Hq : log w' = log w ∧ next_emission w' = next_emission w ∧
               map func (slots w') = map func (slots w)).
  { destruct (exec_command cmd w) as [w1 k1] eqn:He. simpl in Hstep. subst w1.
    destruct (exec_command_spec _ _ _ _ He) as (_ & _ & [Hl Hn] & _).
    split_and!; [done | done | by eapply exec_command_funcs]. }
  destruct Hq as (Hlog & Hnext & Hfun).
  assert (Hfacts : sig_var w' d = sig_var w src ∧ get_impl w' i = Some im ∧
            (∀ s, s ∈ slots_ im → slots w' !! s = slots w !! s) ∧
            (∀ s r o, s ∈ slots_ im → slots w !! s = Some r →
               pending_removal r = false → tracked r = Some o →
               objs w' !! o = objs w !! o) ∧
            slot_count (sig_var w' d) w' = slot_count (sig_var w src) w).
  { destruct Hcmd as [[-> ->]|(-> & Hne & Hd)].
    - assert (Hw' : w' = set_sigs (λ l, <[src := mk_signal None]> l
                                        ++ [mk_signal (impl_ (sig_var w src))]) w).
      { rewrite Hstep. simpl. done. }
      assert (Hsv : sig_var w' (length (sigs w)) = sig_var w src).
      { rewrite Hw'. unfold sig_var at 1. simpl.
        rewrite lookup_app_r by (by rewrite length_insert).
        rewrite length_insert, Nat.sub_diag. simpl. by destruct (sig_var w src). }
      split_and!; [done | by rewrite Hw' | by rewrite Hw' | by rewrite Hw' |].
      rewrite Hsv. rewrite Hw'. done.
    - assert (Hw' : w' = move_assign d src w) by (by rewrite Hstep).
      destruct (move_assign_reachable prog n d src Hne Hd Hsrc)
        as (_ & _ & Hsv & Hcount & Hkeep).
      fold c w in Hsv, Hcount, Hkeep.
      destruct (Hkeep i im Hi Him) as [Hg Hs].
      rewrite Hw'. split_and!; [done | done | done | | done].
      intros s r o Hin Hr Hpend Htr. apply move_assign_objs; [done|].
      intros j jm t Hj Hjm Ht Heq. subst o.
      pose proof (tk_home _ Htk s r j jm t Hr Hjm Ht Htr Hpend) as Hin2.
      pose proof (sep_disjoint _ Hsep i j im jm s Him Hjm Hin Hin2) as <-.
      apply Hne. by apply (sep_unique _ Hsep d src i). }
  destruct Hfacts as (Hsv & Hg & Hs & Ho & Hcount).
  assert (Hre : ∀ s, s ∈ slots_ im →
            ready w' s = ready w s ∧
            (ready w s = true → effect w' s = effect w s)).
  { intros s Hin. apply ready_effect_tracked; [done | by apply Hs |].
    intros r o Hr. by apply (Ho s r o). }
  assert (Hsnap : fst (emit_begin (sig_var w' d) w')
                  = fst (emit_begin (sig_var w src) w)).
  { rewrite Hsv. by apply (emit_begin_transfer _ w w' i im). }
  split.
  { split_and!; [done | done | done | done | | done | done].
    intros s Hin. by apply Hre. }
  intros Hpass k q.
  destruct (emit_begin_local (sig_var w src) w i im Hi Him) as [Hsub Hsup].
  fold local_slots in Hsub, Hsup.
  destruct (passive_emit w' d [] k q (inv_impls _ HI)) as (m & w'' & Hrun & Hinv & Hrec).
  { unfold heap_passive. by rewrite Hfun. }
  rewrite Hsnap in Hinv, Hrec. fold local_slots in Hinv, Hrec.
  rewrite Hnext in Hinv.
  assert (Hfresh : invoked_in (next_emission w) (log w') = []).
  { rewrite <- Hnext. apply (inv_fresh _ HI). simpl. done. }
  rewrite Hfresh in Hinv. simpl in Hinv. rewrite Hlog in Hrec.
  assert (Hfil : List.filter (ready w') local_slots
                 = List.filter (ready w) local_slots).
  { apply filter_ext_in. intros s Hin. apply list_elem_of_In in Hin.
    by apply Hre, Hsub. }
  rewrite Hfil in Hinv, Hrec.
  assert (Hmap : map (effect w') (List.filter (ready w) local_slots)
                 = map (effect w) (List.filter (ready w) local_slots)).
  { apply map_ext_in. intros s Hin. apply filter_In in Hin as [Hin Hr].
    apply list_elem_of_In in Hin. by apply Hre; [apply Hsub|]. }
  rewrite Hmap in Hrec.
  exists m, w''. split_and!; [done | done | done |].
  intros s Hin Hr. rewrite Hinv. apply list_elem_of_In, filter_In.
  split; [|done]. apply list_elem_of_In, Hsup; [done|].
  unfold ready in Hr. unfold slot_pending.
  destruct (slots w !! s) as [r|]; [|done].
  unfold is_callable in Hr. destruct (blocked r); [done|].
  by destruct (pending_removal r).
Qed.

(** C8. A moved-from signal is invalid and empty, and firing it or
    calling [disconnect_all] on it changes nothing; the destination
    holds the shared state the source had, and an emission on the
    destination invokes the slots that were registered on the source.
    - Move construction: the new object is the old value of the
      source, so every operation on it behaves as it did on the
      source; no slot record, shared state or object is touched.
    - Move assignment between two distinct objects that do not share
      a shared state: the destination ends up with the source's
      shared state, whose slot list, tags and dirty flag are
      untouched, as is every slot record that was not on the
      destination's own list and every object that is not a tag of
      the destination's own registry.
    - In an execution, where no two signal objects share a shared
      state and no slot is on two lists, a move assignment between
      distinct objects hands the destination the source's shared
      state with its slot list and every record on it untouched, so
      that the destination counts the slots the source counted.
    - In an execution, after either move, the records of the source's
      slots and the objects they track are as before, each of them
      is ready exactly if it was, and the snapshot an emission on the
      destination takes is the one an emission on the source would
      have taken before the move. With callbacks that only record
      and throw, an emission on the destination runs to its end and
      invokes exactly the slots of that snapshot that were ready
      before the move, in order, with the effects they would have
      had: every slot of the source that was ready is invoked. *)
Theorem moved_from_is_inert :
  (∀ other w,
     let '(new, other') := move_construct other in
     new = other ∧ valid other' = false ∧ empty other' w = true ∧
     emit_begin other' w = (None, w) ∧ disconnect_all other' w = w) ∧
  (∀ w v, valid (sig_var w v) = false →
     exec_action (AEmit v) w = (Running, w, None) ∧
     exec_action (ADisconnectAll v) w = (Running, w, None) ∧
     empty (sig_var w v) w = true) ∧
  (∀ w src, src < length (sigs w) →
     let w' := fst (exec_command (CMoveConstruct src) w) in
     valid (sig_var w' src) = false ∧
     sig_var w' (length (sigs w)) = sig_var w src ∧
     slots w' = slots w ∧ impls w' = impls w ∧ objs w' = objs w) ∧
  (∀ w dst src i im,
     dst ≠ src → dst < length (sigs w) → src < length (sigs w) →
     impl_ (sig_var w src) = Some i → get_impl w i = Some im →
     impl_ (sig_var w dst) ≠ Some i →
     let w' := move_assign dst src w in
     valid (sig_var w' src) = false ∧
     impl_ (sig_var w' dst) = Some i ∧
     get_impl w' i = Some im ∧
     (∀ s, (∀ j jm, impl_ (sig_var w dst) = Some j → get_impl w j = Some jm →
              s ∉ slots_ jm) →
           slots w' !! s = slots w !! s) ∧
     (∀ o, (∀ j jm t, impl_ (sig_var w dst) = Some j →
              get_impl w j = Some jm → t ∈ tags_ jm → fst t ≠ o) →
           objs w' !! o = objs w !! o)) ∧
  (∀ prog n dst src p,
     let c := run n (init prog) in
     cf_mode c = Running → cf_stack c = [] →
     cf_prog c = CMoveAssign dst src :: p →
     dst ≠ src →
     dst < length (sigs (cf_world c)) → src < length (sigs (cf_world c)) →
     let w := cf_world c in
     let w' := cf_world (step c) in
     valid (sig_var w' src) = false ∧ empty (sig_var w' src) w' = true ∧
     sig_var w' dst = sig_var w src ∧
     slot_count (sig_var w' dst) w' = slot_count (sig_var w src) w ∧
     ∀ i im, impl_ (sig_var w src) = Some i → get_impl w i = Some im →
       get_impl w' i = Some im ∧
       ∀ s, s ∈ slots_ im → slots w' !! s = slots w !! s) ∧
  (∀ prog n cmd p src d i im,
     let c := run n (init prog) in
     let w := cf_world c in
     let w' := cf_world (step c) in
     let local_slots := default [] (fst (emit_begin (sig_var w src) w)) in
     cf_mode c = Running → cf_stack c = [] → cf_prog c = cmd :: p →
     (cmd = CMoveConstruct src ∧ d = length (sigs w)) ∨
     (cmd = CMoveAssign d src ∧ d ≠ src ∧ d < length (sigs w)) →
     src < length (sigs w) →
     impl_ (sig_var w src) = Some i → get_impl w i = Some im →
     (sig_var w' d = sig_var w src ∧ get_impl w' i = Some im ∧
      (∀ s, s ∈ slots_ im → slots w' !! s = slots w !! s) ∧
      (∀ s r o, s ∈ slots_ im → slots w !! s = Some r →
         pending_removal r = false → tracked r = Some o →
         objs w' !! o = objs w !! o) ∧
      (∀ s, s ∈ slots_ im → ready w' s = ready w s) ∧
      slot_count (sig_var w' d) w' = slot_count (sig_var w src) w ∧
      fst (emit_begin (sig_var w' d) w')
      = fst (emit_begin (sig_var w src) w)) ∧
     (heap_passive (slots w) →
      ∀ k q, ∃ m w'',
        run m (mk_config Running w' (FBody [AEmit d] :: k) q)
        = mk_config Running w'' (FBody [] :: k) q ∧
        invoked_in (next_emission w) (log w'')
        = List.filter (ready w) local_slots ∧
        recorded (log w'')
        = recorded (log w)
          ++ concat (map (effect w) (List.filter (ready w) local_slots)) ∧
        ∀ s, s ∈ slots_ im → ready w s = true →
          s ∈ invoked_in (next_emission w) (log w''))).
Proof.
  split_and!.
  - intros [o] w. done.
  - intros w v Hv. unfold valid in Hv. simpl.
    unfold emit_begin, disconnect_all, empty, slot_count.
    by destruct (impl_ (sig_var w v)).
  - intros w src Hs. simpl. destruct (sig_var w src) as [o] eqn:Ho. simpl.
    split_and!; try done.
    + unfold sig_var. simpl. rewrite lookup_app_l by (by rewrite length_insert).
      by rewrite list_lookup_insert_eq.
    + unfold sig_var. simpl.
      rewrite lookup_app_r by (by rewrite length_insert).
      rewrite length_insert, Nat.sub_diag. done.
  - intros w dst src i im Hne Hd Hs Hi Hg Hdi w'. unfold w'. split_and!.
    + rewrite move_assign_sig_var by done. by rewrite decide_True.
    + rewrite move_assign_sig_var by done.
      by rewrite decide_False, decide_True by done.
    + rewrite move_assign_impls by done. by rewrite decide_False.
    + intros s. apply move_assign_other_slots.
    + intros o. by apply move_assign_objs.
  - intros prog n dst src p c Hm Hk Hp Hne Hd Hs w w'.
    assert (Hw' : w' = move_assign dst src w).
    { unfold w', w. destruct c as [md w0 k0 p0]. simpl in *. by subst. }
    rewrite Hw'. by apply move_assign_reachable.
  - intros prog n cmd p src d i im. apply moved_emission.
Qed.

Lemma moved_from_is_inert_witness :
  let w := cf_world (run 20 (init move_demo)) in
  let im := mk_impl [0] [] true in
  let w' := move_assign 1 0 w in
  let ca := run 11 (init (move_emit_demo (CMoveAssign 1 0))) in
  let cc := run 11 (init (move_emit_demo (CMoveConstruct 0))) in
  ((1 ≠ 0 ∧ 1 < length (sigs w) ∧ 0 < length (sigs w) ∧
    impl_ (sig_var w 0) = Some 0 ∧ get_impl w 0 = Some im ∧
    impl_ (sig_var w 1) ≠ Some 0) ∧
   valid (sig_var w' 0) = false ∧
   impl_ (sig_var w' 1) = Some 0 ∧
   get_impl w' 0 = Some im ∧
   valid (sig_var (fst (exec_command (CMoveConstruct 0) w)) 0) = false) ∧
  (slot_count (sig_var (cf_world ca) 0) (cf_world ca) = 2 ∧
   slot_count (sig_var (cf_world ca) 1) (cf_world ca) = 1) ∧
  (∃ m w'', run m (mk_config Running (cf_world (step ca)) [FBody [AEmit 1]] [])
            = mk_config Running w'' [FBody []] [] ∧
     invoked_in 0 (log w'') = [1; 0] ∧ recorded (log w'') = [2; 1]%Z) ∧
  (∃ m w'', run m (mk_config Running (cf_world (step cc)) [FBody [AEmit 2]] [])
            = mk_config Running w'' [FBody []] [] ∧
     invoked_in 0 (log w'') = [1; 0] ∧ recorded (log w'') = [2; 1]%Z).
Proof.
  intros w im w' ca cc.
  assert (H1 : 1 < length (sigs w)) by (vm_compute; lia).
  assert (H2 : 0 < length (sigs w)) by (vm_compute; lia).
  assert (H3 : impl_ (sig_var w 0) = Some 0) by (vm_compute; reflexivity).
  assert (H4 : get_impl w 0 = Some im) by (vm_compute; reflexivity).
  assert (H5 : impl_ (sig_var w 1) ≠ Some 0) by (vm_compute; congruence).
  assert (H0 : 1 ≠ 0) by lia.
  destruct moved_from_is_inert as (_ & _ & Hc & Ha & _ & He).
  destruct (Ha w 1 0 0 im H0 H1 H2 H3 H4 H5) as (Hv & Hd & Hg & _).
  destruct (Hc w 0 H2) as (Hv' & _).
  split; [split_and!; [exact H0 | exact H1 | exact H2 | exact H3 | exact H4
                      | exact H5 | exact Hv | exact Hd | exact Hg | exact Hv']|].
  split; [split; vm_compute; reflexivity|].
  assert (Hpa : heap_passive (slots (cf_world ca)))
    by (vm_compute; repeat constructor).
  assert (Hpc : heap_passive (slots (cf_world cc)))
    by (vm_compute; repeat constructor).
  assert (Hsa : 0 < length (sigs (cf_world ca))) by (vm_compute; lia).
  assert (Hsc : 0 < length (sigs (cf_world cc))) by (vm_compute; lia).
  assert (Hda : 1 < length (sigs (cf_world ca))) by (vm_compute; lia).
  assert (Hia : impl_ (sig_var (cf_world ca) 0) = Some 0)
    by (vm_compute; reflexivity).
  assert (Hic : impl_ (sig_var (cf_world cc) 0) = Some 0)
    by (vm_compute; reflexivity).
  assert (Hga : get_impl (cf_world ca) 0
                = Some (mk_impl [0; 1] [(0, "a"%string)] true))
    by (vm_compute; reflexivity).
  assert (Hgc : get_impl (cf_world cc) 0
                = Some (mk_impl [0; 1] [(0, "a"%string)] true))
    by (vm_compute; reflexivity).
  split.
  - destruct (He (move_emit_demo (CMoveAssign 1 0)) 11 (CMoveAssign 1 0) []
                0 1 0 _ eq_refl eq_refl eq_refl
                (or_intror (conj eq_refl (conj H0 Hda))) Hsa Hia Hga)
      as [_ Hem].
    destruct (Hem Hpa [] []) as (m & w'' & Hrun & Hinv & Hrec & _).
    exists m, w''. split; [exact Hrun|].
    split; [exact (eq_trans Hinv eq_refl) | exact (eq_trans Hrec eq_refl)].
  - destruct (He (move_emit_demo (CMoveConstruct 0)) 11 (CMoveConstruct 0) []
                0 2 0 _ eq_refl eq_refl eq_refl
                (or_introl (conj eq_refl eq_refl)) Hsc Hic Hgc)
      as [_ Hem].
    destruct (Hem Hpc [] []) as (m & w'' & Hrun & Hinv & Hrec & _).
    exists m, w''. split; [exact Hrun|].
    split; [exact (eq_trans Hinv eq_refl) | exact (eq_trans Hrec eq_refl)].
Defined.
